(** * The controllable extraction pipeline of process_pdfs.py and app.py

    A shallow embedding of the content parser, the extraction client's
    retry loop, the worker pool with its control gate, the progress
    aggregator and the result orderer, followed by the properties the
    specification states about them.  The table parser, the task
    controls of app.py and the two writers are embedded as well; Part III
    holds further properties read off the code. *)

From Stdlib Require Import List String Ascii ZArith QArith Lia Bool Arith.
From Stdlib Require Import Permutation Sorted DecimalString DecimalNat.
Import ListNotations.
Set Warnings "-register-all".
Open Scope string_scope.
Open Scope Z_scope.
Open Scope nat_scope.
Open Scope list_scope.

(* ===================================================================== *)
(** * Part I. Definitions *)
(* ===================================================================== *)

(** ** Python values the code handles *)

(** A call either returns or raises; [Raise] carries [str(e)]. *)
Inductive result (A : Type) : Type :=
| Ok (a : A)
| Raise (msg : string).
Arguments Ok {A} a.
Arguments Raise {A} msg.

Definition bind {A B : Type} (r : result A) (k : A -> result B) : result B :=
  match r with
  | Ok a => k a
  | Raise m => Raise m
  end.

Notation "x <- r ;; k" := (bind r (fun x => k))
  (at level 61, r at next level, right associativity).

(** What [json.loads] can produce.  A float is kept as its [str()] text
    and its truth value, the only two observations the parser makes of a
    number besides its type. *)
Inductive json : Type :=
| JNull
| JBool (b : bool)
| JNum (n : Z)
| JFloat (text : string) (nonzero : bool)
| JStr (s : string)
| JArr (items : list json)
| JObj (fields : list (string * json)).

(** ** String methods: characters are code points below 256 *)

Definition is_space (c : ascii) : bool :=
  let n := nat_of_ascii c in
  ((9 <=? n) && (n <=? 13)) || ((28 <=? n) && (n <=? 32))
  || (n =? 133) || (n =? 160).

Definition is_linebreak (c : ascii) : bool :=
  let n := nat_of_ascii c in
  ((10 <=? n) && (n <=? 13)) || ((28 <=? n) && (n <=? 30)) || (n =? 133).

Definition is_cr (c : ascii) : bool := nat_of_ascii c =? 13.
Definition is_lf (c : ascii) : bool := nat_of_ascii c =? 10.

Definition is_empty (s : string) : bool :=
  match s with
  | EmptyString => true
  | String _ _ => false
  end.

(** [str.splitlines()]: [after_cr] remembers that the previous boundary
    was a carriage return, so that a following line feed belongs to it;
    [cur] is the line being read. *)
Fixpoint splitlines_from (after_cr : bool) (cur : string) (s : string)
  : list string :=
  match s with
  | EmptyString => if is_empty cur then [] else [cur]
  | String c rest =>
      if after_cr && is_lf c then splitlines_from false cur rest
      else if is_linebreak c
           then cur :: splitlines_from (is_cr c) EmptyString rest
           else splitlines_from false (String.append cur (String c EmptyString)) rest
  end.

Definition splitlines (s : string) : list string :=
  splitlines_from false EmptyString s.

Fixpoint lstrip (s : string) : string :=
  match s with
  | EmptyString => EmptyString
  | String c rest => if is_space c then lstrip rest else s
  end.

Fixpoint rstrip (s : string) : string :=
  match s with
  | EmptyString => EmptyString
  | String c rest =>
      let rest' := rstrip rest in
      if is_space c && is_empty rest' then EmptyString else String c rest'
  end.

(** [str.strip()] *)
Definition strip (s : string) : string := rstrip (lstrip s).

(** ** Truthiness, iteration, [len], [str] and dict access *)

Definition truthy (v : json) : bool :=
  match v with
  | JNull => false
  | JBool b => b
  | JNum n => negb (Z.eqb n 0)
  | JFloat _ nz => nz
  | JStr s => negb (is_empty s)
  | JArr l => match l with [] => false | _ => true end
  | JObj f => match f with [] => false | _ => true end
  end.

(** [a or b] *)
Definition py_or (a b : json) : json := if truthy a then a else b.

Definition chars (s : string) : list json :=
  map (fun c => JStr (String c EmptyString)) (list_ascii_of_string s).

(** [for x in v]: a list yields its elements, a string its characters, a
    dict its keys; anything else is a TypeError. *)
Definition py_iter (v : json) : result (list json) :=
  match v with
  | JArr l => Ok l
  | JStr s => Ok (chars s)
  | JObj f => Ok (map (fun kv => JStr (fst kv)) f)
  | JNull => Raise "'NoneType' object is not iterable"
  | JBool _ => Raise "'bool' object is not iterable"
  | JNum _ => Raise "'int' object is not iterable"
  | JFloat _ _ => Raise "'float' object is not iterable"
  end.

Definition py_len (v : json) : result nat :=
  match v with
  | JArr l => Ok (List.length l)
  | JStr s => Ok (String.length s)
  | JObj f => Ok (List.length f)
  | JNull => Raise "object of type 'NoneType' has no len()"
  | JBool _ => Raise "object of type 'bool' has no len()"
  | JNum _ => Raise "object of type 'int' has no len()"
  | JFloat _ _ => Raise "object of type 'float' has no len()"
  end.

(** [d.get(k)] on the items of a dict (keys are distinct). *)
Fixpoint dict_get (k : string) (d : list (string * json)) : option json :=
  match d with
  | [] => None
  | (k', v) :: d' => if String.eqb k k' then Some v else dict_get k d'
  end.

(** [d[k] = v] for a key that is present: the value is replaced in place. *)
Fixpoint dict_set (k : string) (v : json) (d : list (string * json))
  : list (string * json) :=
  match d with
  | [] => []
  | (k', v') :: d' =>
      if String.eqb k k' then (k', v) :: d' else (k', v') :: dict_set k v d'
  end.

(** The library calls of the parser.  [json_loads] is [None] where
    [json.loads] raises; [findall_json_fence] and [findall_fence] are the
    two [re.findall] calls over fenced code blocks, [search_object] the
    [re.search] from the first opening brace to the last closing one, and
    [container_str] is [str()] of a list or dict. *)
Class PyRuntime : Type := {
  json_loads : string -> option json;
  findall_json_fence : string -> list string;
  findall_fence : string -> list string;
  search_object : string -> option string;
  container_str : json -> string
}.

Section ContentParser.

Context {RT : PyRuntime}.

(** [str(v)] *)
Definition py_str (v : json) : string :=
  match v with
  | JStr s => s
  | JNull => "None"
  | JBool true => "True"
  | JBool false => "False"
  | JNum n => NilZero.string_of_int (Z.to_int n)
  | JFloat t _ => t
  | JArr _ | JObj _ => container_str v
  end.

(** ** parse_model_output_to_content: table repair (lines 336-361) *)

(** [str(cell) if cell is not None else ""] *)
Definition cell_text (c : json) : string :=
  match c with
  | JNull => EmptyString
  | _ => py_str c
  end.

(** [isinstance(row, (list, tuple))]: decoded JSON has no tuples. *)
Definition is_row (row : json) : bool :=
  match row with
  | JArr _ => true
  | _ => false
  end.

(** The loop that fills [normalized_rows]: a row that is not a list is
    skipped. *)
Fixpoint collect_rows (rows : list json) : list (list string) :=
  match rows with
  | [] => []
  | JArr cells :: rest => map cell_text cells :: collect_rows rest
  | _ :: rest => collect_rows rest
  end.

(** Pad with empty strings up to [n] cells, then keep [row[:n]]. *)
Definition fit (n : nat) (row : list string) : list string :=
  firstn n (row ++ repeat EmptyString (n - List.length row)).

(** Every row is brought to the column count of the first one. *)
Definition unify_columns (normalized_rows : list (list string))
  : list (list string) :=
  match normalized_rows with
  | [] => []
  | first :: _ => map (fit (List.length first)) normalized_rows
  end.

Definition rows_json (rows : list (list string)) : json :=
  JArr (map (fun r => JArr (map JStr r)) rows).

(** [isinstance(item, dict) and item.get("type") == "table"] *)
Definition is_table (f : list (string * json)) : bool :=
  match dict_get "type" f with
  | Some (JStr s) => String.eqb s "table"
  | _ => false
  end.

(** The body of the validation loop for one [item]; the result is what
    is appended to [validated_list]. *)
Definition repair_item (item : json) : result json :=
  match item with
  | JObj f =>
      if is_table f then
        let rows := match dict_get "rows" f with
                    | Some v => v
                    | None => JArr []
                    end in
        if truthy rows then
          n <- py_len rows ;;
          if 0 <? n then
            rs <- py_iter rows ;;
            match collect_rows rs with
            | [] => Ok item
            | normalized_rows =>
                Ok (JObj (dict_set "rows"
                            (rows_json (unify_columns normalized_rows)) f))
            end
          else Ok item
        else Ok item
      else Ok item
  | _ => Ok item
  end.

Fixpoint validate (items : list json) : result (list json) :=
  match items with
  | [] => Ok []
  | item :: rest =>
      item' <- repair_item item ;;
      rest' <- validate rest ;;
      Ok (item' :: rest')
  end.

(** ** parse_model_output_to_content: the three JSON attempts *)

(** [data["content"] or []] when [data] is a dict with that key. *)
Definition content_of (data : json) : option json :=
  match data with
  | JObj f =>
      match dict_get "content" f with
      | Some v => Some (py_or v (JArr []))
      | None => None
      end
  | _ => None
  end.

Definition load_content (text : string) : option json :=
  match json_loads text with
  | Some data => content_of data
  | None => None
  end.

(** The loop over fenced candidates stops at the first one that decodes
    to a dict with a [content] key. *)
Fixpoint first_candidate (candidates : list string) : option json :=
  match candidates with
  | [] => None
  | cand :: rest =>
      match load_content cand with
      | Some c => Some c
      | None => first_candidate rest
      end
  end.

Definition or_keep (found : option json) (content_list : json) : json :=
  match found with
  | Some c => c
  | None => content_list
  end.

Definition attempt_direct (text : string) : json :=
  or_keep (load_content text) (JArr []).

Definition attempt_fenced (text : string) (content_list : json) : json :=
  if truthy content_list then content_list
  else
    let fence_json := findall_json_fence text in
    let candidates := match fence_json with
                      | [] => findall_fence text
                      | _ => fence_json
                      end in
    or_keep (first_candidate candidates) content_list.

Definition attempt_object (text : string) (content_list : json) : json :=
  if truthy content_list then content_list
  else
    match search_object text with
    | Some m => or_keep (load_content m) content_list
    | None => content_list
    end.

(** [content_list] after the three attempts. *)
Definition structured_content (text : string) : json :=
  attempt_object text (attempt_fenced text (attempt_direct text)).

Definition paragraph (line : string) : json :=
  JObj [("type", JStr "paragraph"); ("text", JStr line)].

(** [[ln.strip() for ln in text.splitlines() if ln.strip()]] *)
Definition nonblank_lines (text : string) : list string :=
  map strip (filter (fun ln => negb (is_empty (strip ln))) (splitlines text)).

Definition parse_model_output_to_content (text : string)
  : result (list json) :=
  items <- py_iter (structured_content text) ;;
  validated_list <- validate items ;;
  match validated_list with
  | [] => Ok (map paragraph (nonblank_lines text))
  | _ => Ok validated_list
  end.

End ContentParser.

(** ** The extraction client's retry loop
    (call_doubao_extract_text lines 246-266, call_doubao_extract_tables
    lines 113-139: the two loops are the same) *)

(** One pass through the [try] block. *)
Inductive attempt_result (J : Type) : Type :=
| Responded (j : J)
    (** post, raise_for_status and resp.json() went through *)
| Transient (msg : string)
    (** ReadTimeout, ConnectTimeout or ConnectionError *)
| Fatal (msg : string).
    (** any other exception *)
Arguments Responded {J} j.
Arguments Transient {J} msg.
Arguments Fatal {J} msg.

(** What the loop did: the network attempts made, the [time.sleep]
    durations in seconds, and how it ended. *)
Record call_trace (J : Type) : Type := mkTrace {
  attempts : nat;
  sleeps : list Q;
  ended : result J
}.
Arguments mkTrace {J}.
Arguments attempts {J}.
Arguments sleeps {J}.
Arguments ended {J}.


Definition unbound_j : string :=
  "cannot access local variable 'j' where it is not associated with a value".

(** [(2 ** attempt) + random.uniform(0, 0.5)] *)
Definition backoff (attempt : nat) (jitter : Q) : Q :=
  (inject_Z (2 ^ Z.of_nat attempt) + jitter)%Q.

Section RetryLoop.

Context {J : Type}.
Variable network : nat -> attempt_result J.
  (** the outcome of the request made in iteration [attempt] *)
Variable jitter : nat -> Q.
  (** the value [random.uniform(0, 0.5)] returns in iteration [attempt] *)
Variable retries : Z.

(** [for attempt in range(retries + 1)], entered at [attempt] with
    [remaining] iterations left. *)
Fixpoint retry_from (remaining attempt : nat) : call_trace J :=
  match remaining with
  | 0 => mkTrace 0 [] (Raise unbound_j)
  | S remaining' =>
      match network attempt with
      | Responded j => mkTrace 1 [] (Ok j)
      | Transient e =>
          if (Z.of_nat attempt <? retries)%Z then
            let later := retry_from remaining' (S attempt) in
            mkTrace (S (attempts later))
                    (backoff attempt (jitter attempt) :: sleeps later)
                    (ended later)
          else mkTrace 1 [] (Raise e)
      | Fatal e => mkTrace 1 [] (Raise e)
      end
  end.

Definition post_with_retries : call_trace J :=
  retry_from (Z.to_nat (retries + 1)) 0.

End RetryLoop.

(** ** The progress aggregator (app.py, _cb_pdf lines 114-131; _cb_imgs
    lines 188-205 is the same function) *)

Record ctrl : Type := mkCtrl { paused : bool; stop : bool }.

Record error_entry : Type := mkError {
  e_image : option string;
  e_error : string
}.

(** An entry of [TASKS]. *)
Record Task : Type := mkTask {
  t_status : string;
  t_total : nat;
  t_done : nat;
  t_embedded : nat;
  t_pages : nat;
  t_errors : list error_entry;
  t_control : ctrl
}.

(** The [data] dict of a progress event; [None] is an absent key. *)
Record Data : Type := mkData {
  d_total : option nat;
  d_done : option nat;
  d_embedded : option nat;
  d_pages : option nat;
  d_image : option string;
  d_error : option string
}.

(** [data.get(key, default) or fallback] on integers *)
Definition get_or (field : option nat) (default fallback : nat) : nat :=
  let v := match field with
           | Some x => x
           | None => default
           end in
  if v =? 0 then fallback else v.

(** [if err:] on an optional string *)
Definition err_truthy (err : option string) : bool :=
  match err with
  | Some s => negb (is_empty s)
  | None => false
  end.

(** [t] is the entry [TASKS.get(tid)]; when there is none the callback
    returns at once and nothing changes. *)
Definition _cb_pdf (event : string) (data : Data) (t : Task) : Task :=
  if String.eqb event "start" then
    mkTask "in_progress"
           (get_or (d_total data) (t_total t) 0)
           (t_done t)
           (get_or (d_embedded data) (t_embedded t) 0)
           (get_or (d_pages data) (t_pages t) 0)
           (t_errors t) (t_control t)
  else if String.eqb event "step" then
    mkTask "in_progress" (t_total t)
           (get_or (d_done data) (t_done t) 0)
           (t_embedded t) (t_pages t)
           (match d_error data with
            | Some err =>
                if err_truthy (Some err)
                then t_errors t ++ [mkError (d_image data) err]
                else t_errors t
            | None => t_errors t
            end)
           (t_control t)
  else if String.eqb event "finish" then
    mkTask "completed" (t_total t)
           (get_or (d_done data) (t_done t) (t_total t))
           (t_embedded t) (t_pages t) (t_errors t) (t_control t)
  else t.

(** ** Work items, usage counters and the control gate *)

Record Path : Type := mkPath { parent : string; name : string }.

Definition path_eqb (a b : Path) : bool :=
  String.eqb (parent a) (parent b) && String.eqb (name a) (name b).

(** [p in seen] *)
Definition in_seen (p : Path) (seen : list Path) : bool :=
  existsb (path_eqb p) seen.

(** A non-empty usage dict; the empty dict is [None]. *)
Record Usage : Type := mkUsage {
  u_prompt : Z;
  u_completion : Z;
  u_total : Z
}.

(** The values [control_getter()] returns on its successive calls, and
    the value it keeps returning once the controller has gone quiet. *)
Record gate_script : Type := mkScript {
  readings : list ctrl;
  settled : ctrl
}.

(** How [_wait_if_paused] ends: [False], [True], or never (the gate stays
    paused and is never stopped). *)
Inductive verdict : Type := Go | Halt | Hang.

Fixpoint poll (settled : ctrl) (readings : list ctrl)
  : verdict * list ctrl :=
  match readings with
  | [] =>
      if stop settled then (Halt, [])
      else if negb (paused settled) then (Go, [])
      else (Hang, [])
  | c :: later =>
      if stop c then (Halt, later)
      else if negb (paused c) then (Go, later)
      else poll settled later
  end.

(** lines 708-717; the second component is the getter as it stands after
    the calls made. *)
Definition _wait_if_paused (control_getter : option gate_script)
  : verdict * option gate_script :=
  match control_getter with
  | None => (Go, None)
  | Some g =>
      let (v, later) := poll (settled g) (readings g) in
      (v, Some (mkScript later (settled g)))
  end.

(** ** Progress events and the trace of a run *)

Inductive event : Type :=
| Start (total embedded pages : nat)
| Step (done total : nat) (image : string) (error : option string)
       (usage : option Usage)
| Finish (done total : nat) (usage : Usage).

(** What a run does, in the order it does it: an item handed to
    [_process_one] (directly or through [ex.submit]), a call of
    [progress_cb], and a [_wait_if_paused] that returned [True]. *)
Inductive action : Type :=
| Dispatch (p : Path)
| Emit (e : event)
| StopSeen.

(** The event as the [event, data] pair [progress_cb] receives. *)
Definition encode (e : event) : string * Data :=
  match e with
  | Start total embedded pages =>
      ("start", mkData (Some total) None (Some embedded) (Some pages) None None)
  | Step done total image error _ =>
      ("step", mkData (Some total) (Some done) None None (Some image) error)
  | Finish done total _ =>
      ("finish", mkData (Some total) (Some done) None None None None)
  end.

(** The task entry after the callback has received the events of a trace. *)
Fixpoint aggregate (tr : list action) (t : Task) : Task :=
  match tr with
  | [] => t
  | Emit e :: later =>
      aggregate later (_cb_pdf (fst (encode e)) (snd (encode e)) t)
  | _ :: later => aggregate later t
  end.

(** ** The worker pool (process_pdf lines 676-781, process_images lines
    863-958) *)

Inductive ending : Type :=
| Returned  (** the loop was left *)
| Blocked   (** [_wait_if_paused] never returns *)
| Starved.  (** the model ran out of fuel *)

Section WorkerPool.

Context {X : Type}.

(** [call] is call_doubao_extract_text or call_doubao_extract_tables with
    key, url and model bound, [parse] the matching parser, and
    [no_result_msg] the sentinel of the mode. *)
Variable call : Path -> result (string * option Usage).
Variable parse : string -> result (list X).
Variable no_result_msg : string.

(** The tuple [_process_one] returns. *)
Record Outcome : Type := mkOutcome {
  o_path : Path;
  o_err : option string;
  o_data : option (list X);
  o_usage : option Usage
}.

Definition _process_one (img_path : Path) : Outcome :=
  match call img_path with
  | Raise e => mkOutcome img_path (Some e) None None
  | Ok (raw_text, usage) =>
      match parse raw_text with
      | Raise e => mkOutcome img_path (Some e) None None
      | Ok [] => mkOutcome img_path (Some no_result_msg) None usage
      | Ok content => mkOutcome img_path None (Some content) usage
      end
  end.

(** The locals of the run.  A future is the pair of its submission
    number and its item. *)
Record pool : Type := mkPool {
  control_getter : option gate_script;
  seen : list Path;
  done : nat;
  image_results : list (string * list X);
  usage_totals : Usage;
  imgs_iter : list Path;
  running : list (nat * Path);
  submitted : nat
}.

Definition with_getter (g : option gate_script) (st : pool) : pool :=
  mkPool g (seen st) (done st) (image_results st) (usage_totals st)
         (imgs_iter st) (running st) (submitted st).

Definition add_seen (p : Path) (st : pool) : pool :=
  mkPool (control_getter st) (p :: seen st) (done st) (image_results st)
         (usage_totals st) (imgs_iter st) (running st) (submitted st).

Definition with_iter (it : list Path) (st : pool) : pool :=
  mkPool (control_getter st) (seen st) (done st) (image_results st)
         (usage_totals st) it (running st) (submitted st).

Definition with_running (r : list (nat * Path)) (st : pool) : pool :=
  mkPool (control_getter st) (seen st) (done st) (image_results st)
         (usage_totals st) (imgs_iter st) r (submitted st).

(** [running.add(ex.submit(_process_one, nxt))] *)
Definition submit (nxt : Path) (st : pool) : pool :=
  mkPool (control_getter st) (seen st) (done st) (image_results st)
         (usage_totals st) (imgs_iter st)
         (running st ++ [(submitted st, nxt)]) (S (submitted st)).

Definition add_usage (totals : Usage) (delta : option Usage) : Usage :=
  match delta with
  | Some u => mkUsage (u_prompt totals + u_prompt u)
                      (u_completion totals + u_completion u)
                      (u_total totals + u_total u)
  | None => totals
  end.

(** lines 738-750 and 766-778: count the item, add its usage, report the
    step, and keep the result when [err] is falsy and [result_data] is a
    non-empty list. *)
Definition record_outcome (total : nat) (o : Outcome) (st : pool)
  : event * pool :=
  let done' := S (done st) in
  let results' :=
    if err_truthy (o_err o) then image_results st
    else match o_data o with
         | Some (x :: more) =>
             image_results st ++ [(name (o_path o), x :: more)]
         | _ => image_results st
         end in
  (Step done' total (name (o_path o)) (o_err o) (o_usage o),
   mkPool (control_getter st) (seen st) done' results'
          (add_usage (usage_totals st) (o_usage o))
          (imgs_iter st) (running st) (submitted st)).

Record run : Type := mkRun {
  trace : list action;
  final : pool;
  how : ending
}.

Definition after (acts : list action) (r : run) : run :=
  mkRun (acts ++ trace r) (final r) (how r).

(** The sequential path, lines 759-778. *)
Fixpoint sequential (total : nat) (images : list Path) (st : pool) : run :=
  match images with
  | [] => mkRun [] st Returned
  | img_path :: rest =>
      if in_seen img_path (seen st) then sequential total rest st
      else
        match _wait_if_paused (control_getter st) with
        | (Halt, g) => mkRun [StopSeen] (with_getter g st) Returned
        | (Hang, g) => mkRun [] (with_getter g st) Blocked
        | (Go, g) =>
            let st1 := add_seen img_path (with_getter g st) in
            let (ev, st2) := record_outcome total (_process_one img_path) st1 in
            after [Dispatch img_path; Emit ev] (sequential total rest st2)
        end
  end.

(** [next(imgs_iter, None)] for the generator
    [(p for p in images_to_process if p not in seen)]: the test is made
    when the item is pulled. *)
Fixpoint next_img (seen : list Path) (it : list Path)
  : option Path * list Path :=
  match it with
  | [] => (None, [])
  | p :: rest => if in_seen p seen then next_img seen rest else (Some p, rest)
  end.

(** The initial submission, lines 724-730; [room] is
    [max_workers - len(running)]. *)
Fixpoint initial_submit (room : nat) (st : pool) : run :=
  match room with
  | 0 => mkRun [] st Returned
  | S room' =>
      match _wait_if_paused (control_getter st) with
      | (Halt, g) => mkRun [StopSeen] (with_getter g st) Returned
      | (Hang, g) => mkRun [] (with_getter g st) Blocked
      | (Go, g) =>
          match next_img (seen st) (imgs_iter st) with
          | (None, it) => mkRun [] (with_iter it (with_getter g st)) Returned
          | (Some nxt, it) =>
              after [Dispatch nxt]
                    (initial_submit room' (submit nxt (with_iter it (with_getter g st))))
          end
      end
  end.

(** How the body of [for fut in done_set] is left. *)
Inductive flow : Type := Next | Break | Stuck.

(** The body of [for fut in done_set], lines 735-757. *)
Definition complete_one (total : nat) (fut : nat * Path) (st : pool)
  : list action * pool * flow :=
  let st1 := with_running
               (filter (fun f => negb (fst f =? fst fut)) (running st)) st in
  let o := _process_one (snd fut) in
  let st2 := add_seen (o_path o) st1 in
  let (ev, st3) := record_outcome total o st2 in
  match _wait_if_paused (control_getter st3) with
  | (Halt, g) => ([Emit ev; StopSeen], with_running [] (with_getter g st3), Break)
  | (Hang, g) => ([Emit ev], with_getter g st3, Stuck)
  | (Go, g) =>
      match next_img (seen st3) (imgs_iter st3) with
      | (Some nxt, it) =>
          ([Emit ev; Dispatch nxt],
           submit nxt (with_iter it (with_getter g st3)), Next)
      | (None, it) => ([Emit ev], with_iter it (with_getter g st3), Next)
      end
  end.

Fixpoint for_done_set (total : nat) (done_set : list (nat * Path))
  (st : pool) : list action * pool * flow :=
  match done_set with
  | [] => ([], st, Next)
  | fut :: others =>
      match complete_one total fut st with
      | (acts, st', Next) =>
          match for_done_set total others st' with
          | (acts', st'', fl) => (acts ++ acts', st'', fl)
          end
      | stopped => stopped
      end
  end.

(** [wait(running, timeout=0.5, return_when=FIRST_COMPLETED)]: the
    schedule names, wait by wait, the futures found completed, in the
    order the [for] loop visits them; a wait that times out names none.
    Once the schedule is used up the oldest future in flight completes. *)
Definition wait (sched : list (list nat)) (running : list (nat * Path))
  : list (nat * Path) :=
  match sched with
  | ids :: _ =>
      flat_map (fun i => filter (fun f => fst f =? i) running)
               (nodup Nat.eq_dec ids)
  | [] => firstn 1 running
  end.

(** [while running:], lines 732-757. *)
Fixpoint drain (fuel : nat) (total : nat) (sched : list (list nat))
  (st : pool) : run :=
  match running st with
  | [] => mkRun [] st Returned
  | _ :: _ =>
      match fuel with
      | 0 => mkRun [] st Starved
      | S fuel' =>
          match for_done_set total (wait sched (running st)) st with
          | (acts, st', Stuck) => mkRun acts st' Blocked
          | (acts, st', _) => after acts (drain fuel' total (tl sched) st')
          end
      end
  end.

(** lines 719-778 *)
Definition process_loop (total : nat) (max_workers : nat)
  (sched : list (list nat)) (images_to_process : list Path) (st : pool)
  : run :=
  if 1 <? max_workers then
    let st0 := with_running [] (with_iter images_to_process st) in
    let r := initial_submit (max_workers - List.length (running st0)) st0 in
    match how r with
    | Returned =>
        after (trace r)
              (drain (List.length sched + List.length images_to_process)
                     total sched (final r))
    | _ => r
    end
  else sequential total images_to_process st.

End WorkerPool.

(** ** Sorting *)

Section Sorted.

Context {A K : Type}.
Variable lt : K -> K -> bool.
Variable key : A -> K.

Fixpoint insert_sorted (x : A) (l : list A) : list A :=
  match l with
  | [] => [x]
  | y :: l' =>
      if lt (key y) (key x) then y :: insert_sorted x l' else x :: l
  end.

(** [sorted(l, key=key)]: the sort is stable and uses [<] only, which
    fixes its result; it is written here as an insertion sort. *)
Fixpoint sorted (l : list A) : list A :=
  match l with
  | [] => []
  | x :: l' => insert_sorted x (sorted l')
  end.

End Sorted.

(** ** natural_key (lines 627-632) *)

(** [\d] on code points below 256 *)
Definition is_digit (c : ascii) : bool :=
  let n := nat_of_ascii c in (48 <=? n) && (n <=? 57).

(** The superscripts two, three and one: digits for [str.isdigit], not
    for [\d] nor for [int]. *)
Definition is_superscript (c : ascii) : bool :=
  let n := nat_of_ascii c in (n =? 178) || (n =? 179) || (n =? 185).

Fixpoint all_chars (f : ascii -> bool) (s : string) : bool :=
  match s with
  | EmptyString => true
  | String c rest => f c && all_chars f rest
  end.

(** [str.isdigit()] *)
Definition isdigit (s : string) : bool :=
  negb (is_empty s) && all_chars (fun c => is_digit c || is_superscript c) s.

Definition lower_char (c : ascii) : ascii :=
  let n := nat_of_ascii c in
  if ((65 <=? n) && (n <=? 90))
     || ((192 <=? n) && (n <=? 222) && negb (n =? 215))
  then ascii_of_nat (n + 32)
  else c.

(** [str.lower()] *)
Fixpoint lower (s : string) : string :=
  match s with
  | EmptyString => EmptyString
  | String c rest => String (lower_char c) (lower rest)
  end.

(** [re.split(r"(\d+)", name)]: the text between digit runs and the digit
    runs themselves, alternating; [in_run] tells whether [cur] is a digit
    run. *)
Fixpoint split_digits (in_run : bool) (cur : string) (s : string)
  : list string :=
  match s with
  | EmptyString => if in_run then [cur; EmptyString] else [cur]
  | String c rest =>
      if is_digit c then
        if in_run
        then split_digits true (String.append cur (String c EmptyString)) rest
        else cur :: split_digits true (String c EmptyString) rest
      else
        if in_run
        then cur :: split_digits false (String c EmptyString) rest
        else split_digits false (String.append cur (String c EmptyString)) rest
  end.

(** [int(p)]; a ValueError is [None].  The limit [int] puts on the number
    of digits of a string (4300 by default) is far above the length of a
    file name and is left out. *)
Fixpoint int_from (acc : N) (p : string) : option N :=
  match p with
  | EmptyString => Some acc
  | String c rest =>
      if is_digit c
      then int_from (10 * acc + (N_of_ascii c - 48))%N rest
      else None
  end.

Inductive key_part : Type :=
| KInt (n : N)
| KStr (s : string).

Definition key_of_part (p : string) : result key_part :=
  if isdigit p then
    match int_from 0%N p with
    | Some n => Ok (KInt n)
    | None => Raise "invalid literal for int() with base 10"
    end
  else Ok (KStr (lower p)).

Fixpoint map_result {A B : Type} (f : A -> result B) (l : list A)
  : result (list B) :=
  match l with
  | [] => Ok []
  | a :: l' =>
      b <- f a ;;
      bs <- map_result f l' ;;
      Ok (b :: bs)
  end.

Definition natural_key (name : string) : result (list key_part) :=
  map_result key_of_part (split_digits false EmptyString name).

(** [==] and [<] on the elements of a key; an int and a str are unequal
    and cannot be ordered. *)
Definition part_eqb (a b : key_part) : bool :=
  match a, b with
  | KInt x, KInt y => N.eqb x y
  | KStr s, KStr t => String.eqb s t
  | _, _ => false
  end.

Definition part_lt (a b : key_part) : result bool :=
  match a, b with
  | KInt x, KInt y => Ok (N.ltb x y)
  | KStr s, KStr t => Ok (String.ltb s t)
  | KInt _, KStr _ =>
      Raise "'<' not supported between instances of 'int' and 'str'"
  | KStr _, KInt _ =>
      Raise "'<' not supported between instances of 'str' and 'int'"
  end.

(** [a < b] on lists: the first unequal pair decides, a proper prefix is
    smaller. *)
Fixpoint key_lt (a b : list key_part) : result bool :=
  match a, b with
  | [], [] => Ok false
  | [], _ :: _ => Ok true
  | _ :: _, [] => Ok false
  | x :: a', y :: b' => if part_eqb x y then key_lt a' b' else part_lt x y
  end.

Definition key_before (a b : list key_part) : bool :=
  match key_lt a b with
  | Ok r => r
  | Raise _ => false
  end.

(** [sorted(list(image_paths), key=lambda p: natural_key(p.name))]: the
    keys are computed first, each once. *)
Definition sort_by_natural_key (image_paths : list Path)
  : result (list Path) :=
  keyed <- map_result
             (fun p => k <- natural_key (name p) ;; Ok (k, p)) image_paths ;;
  Ok (map snd (sorted key_before fst keyed)).

(** ** The result orderer (lines 676-677 and 784) *)

(** [{p.name: idx for idx, p in enumerate(images_to_process)}] as the
    list of its bindings in the order they are made. *)
Definition order_map (images_to_process : list Path) : list (string * nat) :=
  combine (map name images_to_process)
          (seq 0 (List.length images_to_process)).

(** [order_map.get(k)]: a later binding of a key replaces an earlier one. *)
Fixpoint order_map_get (m : list (string * nat)) (k : string) : option nat :=
  match m with
  | [] => None
  | (k', idx) :: m' =>
      match order_map_get m' k with
      | Some later => Some later
      | None => if String.eqb k k' then Some idx else None
      end
  end.

(** [order_map.get(x[0], 10**9)] *)
Definition order_key {D : Type} (m : list (string * nat)) (x : string * D) : Z :=
  match order_map_get m (fst x) with
  | Some idx => Z.of_nat idx
  | None => (10 ^ 9)%Z
  end.

(** ** process_pdf and process_images *)

(** What a batch run leaves behind: the calls made and, when the run
    returns, the list handed to the document writer. *)
Record report (X : Type) : Type := mkReport {
  progress : list action;
  written : option (list (string * list X))
}.
Arguments mkReport {X}.
Arguments progress {X}.
Arguments written {X}.

Section Batch.

Context {X : Type}.
Variable call : Path -> result (string * option Usage).
Variable parse : string -> result (list X).
Variable no_result_msg : string.

(** Everything after the images are known: the start event, the loop,
    the finish event and the ordered hand-over (process_pdf lines 667-790,
    process_images lines 863-967). *)
Definition run_batch (images_to_process : list Path)
  (embedded pages : nat) (max_workers : nat)
  (control_getter : option gate_script) (sched : list (list nat))
  : report X :=
  let total := List.length images_to_process in
  let order := order_map images_to_process in
  let st := mkPool control_getter [] 0 [] (mkUsage 0 0 0) [] [] 0 in
  let r := process_loop call parse no_result_msg total max_workers sched
                        images_to_process st in
  match how r with
  | Returned =>
      mkReport
        (Emit (Start total embedded pages) :: trace r
         ++ [Emit (Finish (done (final r)) total (usage_totals (final r)))])
        (Some (sorted Z.ltb (order_key order) (image_results (final r))))
  | _ => mkReport (Emit (Start total embedded pages) :: trace r) None
  end.

(** [f"{n}"] *)
Definition decimal (n : nat) : string := NilEmpty.string_of_uint (Nat.to_uint n).

(** A document is given by its pages, each with the extensions of its
    embedded images as [doc.extract_image] reports them (png, jpeg, ...:
    no path separator, so that the name built is the [name] of the
    path). *)
Definition save_embedded_images (doc : list (list string)) (out_dir : string)
  : list Path :=
  flat_map
    (fun page =>
       map (fun img =>
              mkPath out_dir
                (String.append "page-"
                (String.append (decimal (fst page + 1))
                (String.append "-img-"
                (String.append (decimal (fst img + 1))
                (String.append "." (snd img)))))))
           (combine (seq 0 (List.length (snd page))) (snd page)))
    (combine (seq 0 (List.length doc)) doc).

Definition render_full_pages (doc : list (list string)) (out_dir : string)
  : list Path :=
  map (fun page_index =>
         mkPath out_dir
           (String.append "page-"
           (String.append (decimal (page_index + 1)) "-full.png")))
      (seq 0 (List.length doc)).

Definition process_pdf (doc : list (list string)) (tmp_img_dir : string)
  (max_workers : nat) (source_mode : string)
  (control_getter : option gate_script) (sched : list (list nat))
  : report X :=
  let embedded_images :=
    if String.eqb source_mode "both" || String.eqb source_mode "embedded"
    then save_embedded_images doc tmp_img_dir else [] in
  let full_pages :=
    if String.eqb source_mode "both" || String.eqb source_mode "page"
    then render_full_pages doc tmp_img_dir else [] in
  run_batch (embedded_images ++ full_pages)
            (List.length embedded_images) (List.length full_pages)
            max_workers control_getter sched.

Definition process_images (image_paths : list Path) (max_workers : nat)
  (control_getter : option gate_script) (sched : list (list nat))
  : result (report X) :=
  images_to_process <- sort_by_natural_key image_paths ;;
  Ok (run_batch images_to_process (List.length images_to_process) 0
                max_workers control_getter sched).

End Batch.

(** ** A runtime and documents for the examples *)

Definition dq : string := String (ascii_of_nat 34) EmptyString.

Fixpoint from_first_brace (s : string) : option string :=
  match s with
  | EmptyString => None
  | String c rest =>
      if nat_of_ascii c =? 123 then Some s else from_first_brace rest
  end.

Fixpoint upto_last_brace (s : string) : option string :=
  match s with
  | EmptyString => None
  | String c rest =>
      match upto_last_brace rest with
      | Some t => Some (String c t)
      | None => if nat_of_ascii c =? 125 then Some (String c EmptyString) else None
      end
  end.

(** The text [{"content": 5}]. *)
Definition number_content_text : string :=
  String.append "{" (String.append dq (String.append "content"
    (String.append dq ": 5}"))).

(** It decodes the one JSON document of the examples as [json.loads]
    does and rejects every other text; the examples have no code fences. *)
#[export] Instance sample_runtime : PyRuntime := {|
  json_loads := fun text =>
    if String.eqb text number_content_text
    then Some (JObj [("content", JNum 5)])
    else None;
  findall_json_fence := fun _ => [];
  findall_fence := fun _ => [];
  search_object := fun text =>
    match from_first_brace text with
    | Some s => upto_last_brace s
    | None => None
    end;
  container_str := fun _ => EmptyString
|}.

Definition table_node (rows : list json) : json :=
  JObj [("type", JStr "table"); ("rows", JArr rows)].

Definition text_row (cells : list string) : json := JArr (map JStr cells).

(** [True] when some character of [s] is not whitespace. *)
Definition has_visible (s : string) : bool := negb (all_chars is_space s).

(** The statement that repair drops every row that is not a list. *)
Definition drops_every_non_list_row {RT : PyRuntime} : Prop :=
  forall f rows T',
    is_table f = true ->
    dict_get "rows" f = Some (JArr rows) ->
    repair_item (JObj f) = Ok T' ->
    exists f' rows',
      T' = JObj f' /\ dict_get "rows" f' = Some (JArr rows') /\
      forallb is_row rows' = true.

(** The statement that the text-mode parser never raises. *)
Definition parser_never_raises {RT : PyRuntime} : Prop :=
  forall text, exists batch, parse_model_output_to_content text = Ok batch.

(** The statement that the finish event brings [done] up to the total. *)
Definition finish_reaches_total : Prop :=
  forall data t,
    t_status (_cb_pdf "finish" data t) = "completed"
    /\ t_total t <= t_done (_cb_pdf "finish" data t).

(** ** Reading a trace *)

(** The events [progress_cb] has received. *)
Fixpoint emitted (tr : list action) : list event :=
  match tr with
  | [] => []
  | Emit e :: later => e :: emitted later
  | _ :: later => emitted later
  end.

Fixpoint dispatched (tr : list action) : list Path :=
  match tr with
  | [] => []
  | Dispatch p :: later => p :: dispatched later
  | _ :: later => dispatched later
  end.

Fixpoint has_stop (tr : list action) : bool :=
  match tr with
  | [] => false
  | StopSeen :: _ => true
  | _ :: later => has_stop later
  end.

(** The image names of the step events, in the order of the events. *)
Definition step_images (tr : list action) : list string :=
  flat_map (fun e => match e with
                     | Step _ _ image _ _ => [image]
                     | _ => []
                     end)
           (emitted tr).

(** ** Kinds of gate *)

(** No gate, or one that is never stopped and does not stay paused. *)
Definition open_gate (og : option gate_script) : bool :=
  match og with
  | None => true
  | Some g =>
      forallb (fun c => negb (stop c)) (readings g)
      && negb (stop (settled g)) && negb (paused (settled g))
  end.

(** Every reading from now on says stop. *)
Definition halted (og : option gate_script) : bool :=
  match og with
  | None => false
  | Some g => forallb stop (readings g) && stop (settled g)
  end.

(** Stop is never taken back: after a reading that says stop, every
    reading says stop. *)
Fixpoint sticky_from (settled : ctrl) (readings : list ctrl) : bool :=
  match readings with
  | [] => true
  | c :: later =>
      (if stop c then forallb stop later && stop settled else true)
      && sticky_from settled later
  end.

Definition sticky (og : option gate_script) : bool :=
  match og with
  | None => true
  | Some g => sticky_from (settled g) (readings g)
  end.

(** ** The successful outcomes of a batch *)

Section Outcomes.

Context {X : Type}.
Variable call : Path -> result (string * option Usage).
Variable parse : string -> result (list X).
Variable no_result_msg : string.

(** The content recognised for an item, when the service responded and
    the parser found some. *)
Definition succeeded (p : Path) : option (list X) :=
  match call p with
  | Ok (raw_text, _) =>
      match parse raw_text with
      | Ok (x :: more) => Some (x :: more)
      | _ => None
      end
  | Raise _ => None
  end.

Definition kept (p : Path) : list (string * list X) :=
  match succeeded p with
  | Some content => [(name p, content)]
  | None => []
  end.

(** The successful outcomes of the items whose step was reported, in the
    order of [images_to_process]. *)
Definition expected_output (images_to_process : list Path)
  (completed : list string) : list (string * list X) :=
  flat_map (fun p => if existsb (String.eqb (name p)) completed
                     then kept p else [])
           images_to_process.

(** The step events of the items [ps] completed in that order after [k]
    others. *)
Fixpoint steps_of (total k : nat) (ps : list Path) : list event :=
  match ps with
  | [] => []
  | p :: later =>
      Step (S k) total (name p)
           (o_err (_process_one call parse no_result_msg p))
           (o_usage (_process_one call parse no_result_msg p))
      :: steps_of total (S k) later
  end.

End Outcomes.

(** ** A completed item *)

Section Arrival.

Context {X : Type}.
Variable call : Path -> result (string * option Usage).
Variable parse : string -> result (list X).
Variable no_result_msg : string.

(** The step event of item [p] when it completes in state [st]. *)
Definition step_of (total : nat) (p : Path) (st : pool (X := X)) : event :=
  Step (S (done st)) total (name p)
       (o_err (_process_one call parse no_result_msg p))
       (o_usage (_process_one call parse no_result_msg p)).

(** The locals once [p] has been marked seen and its outcome recorded,
    with the getter as [_wait_if_paused] left it. *)
Definition arrived (g : option gate_script) (p : Path) (st : pool (X := X))
  : pool :=
  mkPool g (p :: seen st) (S (done st))
         (image_results st ++ kept call parse p)
         (add_usage (usage_totals st)
                    (o_usage (_process_one call parse no_result_msg p)))
         (imgs_iter st) (running st) (submitted st).

End Arrival.

(** A trace that holds no stop and ends a run that did not starve; or a
    trace whose last action is the one stop it holds, ending a run that
    returned. *)
Definition stop_ends (tr : list action) (h : ending) : Prop :=
  (has_stop tr = false /\ h <> Starved)
  \/ (exists pre, tr = pre ++ [StopSeen] /\ has_stop pre = false /\ h = Returned).

(** ** Bookkeeping of the concurrent path *)

(** Every item the run still knows of: completed, in flight, or not yet
    pulled from the iterator. *)
Definition items {X : Type} (st : pool (X := X)) : list Path :=
  seen st ++ map snd (running st) ++ imgs_iter st.

(** Futures in flight have distinct submission numbers, all used up. *)
Definition valid_futures {X : Type} (st : pool (X := X)) : Prop :=
  NoDup (map fst (running st))
  /\ Forall (fun f => fst f < submitted st) (running st).

(** What is left to do. *)
Definition backlog {X : Type} (st : pool (X := X)) : nat :=
  List.length (running st) + List.length (imgs_iter st).

(** [running.remove(fut)] *)
Definition without {X : Type} (fut : nat * Path) (st : pool (X := X)) : pool :=
  with_running (filter (fun f => negb (fst f =? fst fut)) (running st)) st.


(** The futures a wait hands to the loop are in flight and distinct. *)
Definition done_set_ok {X : Type} (done_set : list (nat * Path))
  (st : pool (X := X)) : Prop :=
  NoDup (map fst done_set) /\ incl done_set (running st).


(** ** The invariant of a run *)

Section Invariant.

Context {X : Type}.
Variable call : Path -> result (string * option Usage).
Variable parse : string -> result (list X).
Variable no_result_msg : string.
Variable total : nat.

(** The counters and the results agree with the items completed so far,
    and the step events reported are theirs. *)
Record Inv (tr : list action) (st : pool (X := X)) : Prop := mkInv {
  inv_steps :
    emitted tr = steps_of call parse no_result_msg total 0 (rev (seen st));
  inv_done : done st = List.length (seen st);
  inv_results : image_results st = flat_map (kept call parse) (rev (seen st))
}.

End Invariant.

(** The locals at the start of a run. *)
Definition fresh_pool {X : Type} (control_getter : option gate_script)
  : pool (X := X) :=
  mkPool control_getter [] 0 [] (mkUsage 0 0 0) [] [] 0.


(** [images_to_process] of process_pdf. *)
Definition pdf_images (doc : list (list string)) (tmp_img_dir : string)
  (source_mode : string) : list Path :=
  (if String.eqb source_mode "both" || String.eqb source_mode "embedded"
   then save_embedded_images doc tmp_img_dir else [])
  ++ (if String.eqb source_mode "both" || String.eqb source_mode "page"
      then render_full_pages doc tmp_img_dir else []).


(** The two shapes of the names process_pdf gives its images. *)
Definition embedded_name (page_index img_index : nat) (ext : string) : string :=
  String.append "page-"
    (String.append (decimal (page_index + 1))
    (String.append "-img-"
    (String.append (decimal (img_index + 1))
    (String.append "." ext)))).

Definition full_name (page_index : nat) : string :=
  String.append "page-"
    (String.append (decimal (page_index + 1)) "-full.png").


(** ** The task entry after a run *)

(** The callback applied to one event. *)
Definition receive (t : Task) (e : event) : Task :=
  _cb_pdf (fst (encode e)) (snd (encode e)) t.

Section ErrorEntries.

Context {X : Type}.
Variable call : Path -> result (string * option Usage).
Variable parse : string -> result (list X).
Variable no_result_msg : string.

(** The entry the callback appends for item [p], if its outcome carries
    an error. *)
Definition error_of (p : Path) : list error_entry :=
  match o_err (_process_one call parse no_result_msg p) with
  | Some err =>
      if err_truthy (Some err) then [mkError (Some (name p)) err] else []
  | None => []
  end.

(** The two [_process_one] closures: text mode parses with
    parse_model_output_to_content; table mode parses with
    parse_model_output_to_tables, which is taken as given here. *)
Definition _process_one_text {RT : PyRuntime}
  (call_doubao_extract_text : Path -> result (string * option Usage))
  : Path -> Outcome (X := json) :=
  _process_one call_doubao_extract_text parse_model_output_to_content
               "no_content".

Definition _process_one_table
  (call_doubao_extract_tables : Path -> result (string * option Usage))
  (parse_model_output_to_tables : string -> result (list X))
  : Path -> Outcome (X := X) :=
  _process_one call_doubao_extract_tables parse_model_output_to_tables
               "no_tables".

End ErrorEntries.


(** ** Statements that are put to the test *)

(** The statement that once a stop has been seen nothing more is
    dispatched, no step is reported, and the run finishes with a count
    within the total. *)
Definition stop_silences_steps : Prop :=
  forall (X : Type) (call : Path -> result (string * option Usage))
         (parse : string -> result (list X)) (msg : string)
         (images : list Path) (embedded pages max_workers : nat)
         (g : gate_script) (sched : list (list nat)) pre post,
    sticky (Some g) = true ->
    progress (run_batch call parse msg images embedded pages max_workers
                        (Some g) sched)
    = pre ++ StopSeen :: post ->
    has_stop pre = false ->
    dispatched post = [] /\ step_images post = []
    /\ exists d u,
         last post StopSeen = Emit (Finish d (List.length images) u)
         /\ d <= List.length images.

(** Three pages, and a service and parser that recognise one node on
    each page but the second. *)
Definition page1 : Path := mkPath "tmp" "page-1-full.png".
Definition page2 : Path := mkPath "tmp" "page-2-full.png".
Definition page3 : Path := mkPath "tmp" "page-3-full.png".

Definition sample_call (p : Path) : result (string * option Usage) :=
  Ok (name p, None).

Definition sample_parse (raw_text : string) : result (list nat) :=
  if String.eqb raw_text "page-2-full.png" then Ok [] else Ok [1].

(** A controller that presses stop right after the first reading. *)
Definition stop_after_first_reading : gate_script :=
  mkScript [mkCtrl false false] (mkCtrl false true).

(** The entry app.py creates for a new task (lines 101-112, 174-186). *)
Definition pending_task (total embedded pages : nat) : Task :=
  mkTask "pending" total 0 embedded pages [] (mkCtrl false false).

(** ** Natural order *)

(** The shape of the keys natural_key builds: strings and integers in
    turn, [int_next] telling which comes first. *)
Fixpoint alternating (int_next : bool) (k : list key_part) : bool :=
  match k with
  | [] => true
  | KInt _ :: k' => int_next && alternating false k'
  | KStr _ :: k' => negb int_next && alternating true k'
  end.

(** A comparison of keys that is total: where [<] raises, an integer is
    put before a string. *)
Definition part_cmp (a b : key_part) : comparison :=
  match a, b with
  | KInt x, KInt y => N.compare x y
  | KStr s, KStr t => String.compare s t
  | KInt _, KStr _ => Lt
  | KStr _, KInt _ => Gt
  end.

Fixpoint key_cmp (a b : list key_part) : comparison :=
  match a, b with
  | [], [] => Eq
  | [], _ :: _ => Lt
  | _ :: _, [] => Gt
  | x :: a', y :: b' =>
      match part_cmp x y with
      | Eq => key_cmp a' b'
      | c => c
      end
  end.

Definition key_ltb (a b : list key_part) : bool :=
  match key_cmp a b with
  | Lt => true
  | _ => false
  end.

(** [not (natural_key(b) < natural_key(a))]: the name [a] does not come
    after [b] in natural order. *)
Definition natural_leb (a b : string) : bool :=
  match natural_key a, natural_key b with
  | Ok ka, Ok kb => negb (key_before kb ka)
  | _, _ => false
  end.

(** natural_key returns on this name. *)
Definition has_key (name : string) : bool :=
  match natural_key name with
  | Ok _ => true
  | Raise _ => false
  end.

(** No superscript digit in the name; so it is with every ASCII name. *)
Definition no_superscript (name : string) : bool :=
  all_chars (fun c => negb (is_superscript c)) name.

(** What [re.split] with the pattern of natural_key yields: runs of
    digits, not empty, between stretches without digits. *)
Fixpoint segments (digits : bool) (l : list string) : bool :=
  match l with
  | [] => true
  | s :: l' =>
      (if digits then negb (is_empty s) && all_chars is_digit s
       else all_chars (fun c => negb (is_digit c)) s)
      && segments (negb digits) l'
  end.

(** The key of a name on which natural_key returns. *)
Definition the_key (name : string) : list key_part :=
  match natural_key name with
  | Ok k => k
  | Raise _ => []
  end.

(** An item with its key, as the sort holds it. *)
Definition keyed_of (p : Path) : list key_part * Path := (the_key (name p), p).

(** Two uploads whose names differ in their number only. *)
Definition img2 : Path := mkPath "uploads" "img2.png".
Definition img10 : Path := mkPath "uploads" "img10.png".

(** A service that responds with no text at all, and a table parser that
    finds no table. *)
Definition blank_call (p : Path) : result (string * option Usage) :=
  Ok (EmptyString, Some (mkUsage 7 0 7)).

Definition no_table (raw_text : string) : result (list nat) := Ok [].

(** ** Further readings of a run *)

(** The gate cannot stay paused for ever: once the controller has gone
    quiet it is not paused, or it is stopped. *)
Definition settles (og : option gate_script) : bool :=
  match og with
  | None => true
  | Some g => negb (paused (settled g)) || stop (settled g)
  end.

(** With [n] calls in flight at its start, the trace never has more than
    [limit] of them in flight: at each of its points the items dispatched
    so far are at most [limit] more than the events reported. *)
Definition within_limit (limit n : nat) (tr : list action) : Prop :=
  forall pre post,
    tr = pre ++ post ->
    n + List.length (dispatched pre) <= List.length (emitted pre) + limit.

(** [s] is [l] with some of its elements left out. *)
Inductive subseq {A : Type} : list A -> list A -> Prop :=
| subseq_nil : forall l, subseq [] l
| subseq_skip : forall a s l, subseq s l -> subseq s (a :: l)
| subseq_take : forall a s l, subseq s l -> subseq (a :: s) (a :: l).

(** The usage the step events carry, added up as [usage_totals] is. *)
Definition step_usage (u : Usage) (e : event) : Usage :=
  match e with
  | Step _ _ _ _ delta => add_usage u delta
  | _ => u
  end.

Definition usage_of_steps (events : list event) : Usage :=
  fold_left step_usage events (mkUsage 0 0 0).

(** The usage of the first finish event, if there is one. *)
Fixpoint finish_usage (events : list event) : option Usage :=
  match events with
  | [] => None
  | Finish _ _ u :: _ => Some u
  | _ :: later => finish_usage later
  end.

(** A controller that pauses twice and then lets the run go on. *)
Definition pause_twice : gate_script :=
  mkScript [mkCtrl true false; mkCtrl true false] (mkCtrl false false).

(** A service that reports the usage of each call. *)
Definition metered_call (p : Path) : result (string * option Usage) :=
  Ok (name p, Some (mkUsage 10 2 12)).

(** ** parse_markdown_table (lines 373-384) *)

Definition is_bar (c : ascii) : bool := nat_of_ascii c =? 124.
Definition is_comma (c : ascii) : bool := nat_of_ascii c =? 44.

(** [ln.startswith("|")] *)
Definition startswith_bar (ln : string) : bool :=
  match ln with
  | EmptyString => false
  | String c _ => is_bar c
  end.

(** [ln.endswith("|")] *)
Fixpoint endswith_bar (ln : string) : bool :=
  match ln with
  | EmptyString => false
  | String c rest => if is_empty rest then is_bar c else endswith_bar rest
  end.

Fixpoint lstrip_bar (s : string) : string :=
  match s with
  | EmptyString => EmptyString
  | String c rest => if is_bar c then lstrip_bar rest else s
  end.

Fixpoint rstrip_bar (s : string) : string :=
  match s with
  | EmptyString => EmptyString
  | String c rest =>
      let rest' := rstrip_bar rest in
      if is_bar c && is_empty rest' then EmptyString else String c rest'
  end.

(** [ln.strip("|")] *)
Definition strip_bar (ln : string) : string := rstrip_bar (lstrip_bar ln).

(** [s.split(sep)] for a separator of one character; [cur] is the part
    being read. *)
Fixpoint split_from (sep : ascii -> bool) (cur : string) (s : string)
  : list string :=
  match s with
  | EmptyString => [cur]
  | String c rest =>
      if sep c then cur :: split_from sep EmptyString rest
      else split_from sep (String.append cur (String c EmptyString)) rest
  end.

Definition str_split (sep : ascii -> bool) (s : string) : list string :=
  split_from sep EmptyString s.

(** [set(c) <= set("-:")] *)
Definition is_rule (c : string) : bool :=
  all_chars (fun ch => (nat_of_ascii ch =? 45) || (nat_of_ascii ch =? 58)) c.

(** [all(set(c) <= set("-:") for c in r)] *)
Definition is_separator (r : list string) : bool := forallb is_rule r.

Definition parse_markdown_table (md : string) : list (list string) :=
  let lines := nonblank_lines md in
  let table_lines :=
    filter (fun ln => startswith_bar ln && endswith_bar ln) lines in
  match table_lines with
  | [] => []
  | _ =>
      let rows :=
        map (fun ln => map strip (str_split is_bar (strip_bar ln))) table_lines in
      filter (fun r => negb (is_separator r)) rows
  end.

(** ** parse_model_output_to_tables (lines 387-447) *)

(** A table as the parser returns it: the pair [(name, rows)].  The name
    is whatever the model put there, the rows are a list of anything. *)
Definition Table : Type := json * list json.

(** [type(v).__name__] *)
Definition type_name (v : json) : string :=
  match v with
  | JNull => "NoneType"
  | JBool _ => "bool"
  | JNum _ => "int"
  | JFloat _ _ => "float"
  | JStr _ => "str"
  | JArr _ => "list"
  | JObj _ => "dict"
  end.

(** [d.get(k)] *)
Definition get (k : string) (d : list (string * json)) : json :=
  match dict_get k d with
  | Some v => v
  | None => JNull
  end.

(** The body of the loop over [data["tables"]] for the entry [t] at
    [idx]: what it appends to [tables], or the AttributeError of
    [t.get]. *)
Definition table_of_entry (idx : nat) (t : json) : result (list Table) :=
  match t with
  | JObj d =>
      let name := py_or (get "name" d)
                        (JStr (String.append "Table " (decimal (idx + 1)))) in
      let rows := py_or (get "rows" d) (JArr []) in
      match rows with
      | JArr l => Ok [(name, l)]
      | _ => Ok []
      end
  | _ =>
      Raise (String.append "'" (String.append (type_name t)
               "' object has no attribute 'get'"))
  end.

(** [for idx, t in enumerate(...)], entered at [idx]: the list [tables]
    as the loop leaves it, and whether it was left by an exception.  What
    was appended before the exception stays in [tables]. *)
Fixpoint append_tables (idx : nat) (entries : list json) (tables : list Table)
  : list Table * bool :=
  match entries with
  | [] => (tables, false)
  | t :: rest =>
      match table_of_entry idx t with
      | Ok new => append_tables (S idx) rest (tables ++ new)
      | Raise _ => (tables, true)
      end
  end.

(** How the body of a [try] is left. *)
Inductive tried : Type :=
| Returns       (** by [return tables] *)
| FallsThrough  (** at its end *)
| Raises.       (** by an exception *)

Section TableParser.

Context {RT : PyRuntime}.

(** The body the three [try] blocks share: decode [text], loop over its
    tables, and return when [tables] is not empty. *)
Definition load_tables (text : string) (tables : list Table)
  : list Table * tried :=
  match json_loads text with
  | None => (tables, Raises)
  | Some (JObj d) =>
      match dict_get "tables" d with
      | Some v =>
          match py_iter (py_or v (JArr [])) with
          | Ok entries =>
              let (tables', raised) := append_tables 0 entries tables in
              if raised then (tables', Raises)
              else match tables' with
                   | [] => (tables', FallsThrough)
                   | _ => (tables', Returns)
                   end
          | Raise _ => (tables, Raises)
          end
      | None => (tables, FallsThrough)
      end
  | Some _ => (tables, FallsThrough)
  end.

(** The loop over the fenced candidates; [true] when it returned. *)
Fixpoint try_candidates (candidates : list string) (tables : list Table)
  : list Table * bool :=
  match candidates with
  | [] => (tables, false)
  | cand :: rest =>
      match load_tables cand tables with
      | (tables', Returns) => (tables', true)
      | (tables', _) => try_candidates rest tables'
      end
  end.

(** [("Table 1", rows)] *)
Definition table1 (rows : list (list string)) : Table :=
  (JStr "Table 1", map (fun r => JArr (map JStr r)) rows).

(** [","] in [s] *)
Definition has_comma (s : string) : bool :=
  existsb is_comma (list_ascii_of_string s).

(** The Markdown and the CSV attempt (lines 432-447). *)
Definition plain_tables (text : string) (tables : list Table) : list Table :=
  match parse_markdown_table text with
  | [] =>
      match nonblank_lines text with
      | [] => tables
      | first :: _ =>
          if has_comma first
          then tables ++ [table1 (map (str_split is_comma) (nonblank_lines text))]
          else tables
      end
  | md_rows => tables ++ [table1 md_rows]
  end.

Definition parse_model_output_to_tables (text : string) : list Table :=
  match load_tables text [] with
  | (tables, Returns) => tables
  | (tables, FallsThrough) => plain_tables text tables
  | (tables, Raises) =>
      let fence_json := findall_json_fence text in
      let candidates := match fence_json with
                        | [] => findall_fence text
                        | _ => fence_json
                        end in
      match try_candidates candidates tables with
      | (tables2, true) => tables2
      | (tables2, false) =>
          match search_object text with
          | Some m =>
              match load_tables m tables2 with
              | (tables3, Returns) => tables3
              | (tables3, _) => plain_tables text tables3
              end
          | None => plain_tables text tables2
          end
      end
  end.

End TableParser.

(** [isinstance(t, dict)] *)
Definition is_dict (t : json) : bool :=
  match t with
  | JObj _ => true
  | _ => false
  end.

(** The tables of a list of entries, each numbered by its place in the
    list counted from [idx]; an entry that is not a dict has none. *)
Definition tables_from (idx : nat) (entries : list json) : list Table :=
  flat_map (fun it => match table_of_entry (fst it) (snd it) with
                      | Ok new => new
                      | Raise _ => []
                      end)
           (combine (seq idx (List.length entries)) entries).

(** An entry in the format the prompt asks for:
    [{"name": name, "rows": rows}]. *)
Definition table_entry (t : string * list json) : json :=
  JObj [("name", JStr (fst t)); ("rows", JArr (snd t))].

(** ** Texts for the examples of the table parser *)

Definition newline : string := String (ascii_of_nat 10) EmptyString.

(** A row laid out as a line of a Markdown table, and a table as its
    lines. *)
Definition md_row (cells : list string) : string :=
  String.append "| " (String.append (String.concat " | " cells) " |").

Definition md_table (rows : list (list string)) : string :=
  String.concat newline (map md_row rows).

(** A cell that survives the layout: no surrounding whitespace, no bar and
    no line break inside. *)
Definition plain_cell (c : string) : bool :=
  String.eqb (strip c) c
  && all_chars (fun ch => negb (is_bar ch) && negb (is_linebreak ch)) c.

(** Rows that survive the layout: no row is empty and every cell is
    plain. *)
Definition laid_out (rows : list (list string)) : bool :=
  forallb (fun r => match r with
                    | [] => false
                    | _ => forallb plain_cell r
                    end) rows.

(** The answer the prompt asks for when the image has no table:
    [{"status":"no_table","tables":[]}]. *)
Definition no_table_text : string :=
  String.concat dq
    ["{"; "status"; ":"; "no_table"; ","; "tables"; ":[]}"].

(** [{"tables":[{"name":"A","rows":[["1"]]},5]}]: the second entry is not
    a table. *)
Definition broken_tables_text : string :=
  String.concat dq
    ["{"; "tables"; ":[{"; "name"; ":"; "A"; ","; "rows"; ":[[";
     "1"; "]]},5]}"].

(** [{"tables":[{"name":"A","rows":[["1"]]}]}] *)
Definition one_table_text : string :=
  String.concat dq
    ["{"; "tables"; ":[{"; "name"; ":"; "A"; ","; "rows"; ":[[";
     "1"; "]]}]}"].

(** It decodes the three documents above as [json.loads] does and rejects
    every other text; the examples have no code fences. *)
Definition table_runtime : PyRuntime := {|
  json_loads := fun text =>
    if String.eqb text no_table_text
    then Some (JObj [("status", JStr "no_table"); ("tables", JArr [])])
    else if String.eqb text one_table_text
    then Some (JObj [("tables", JArr [table_entry ("A", [JArr [JStr "1"]])])])
    else if String.eqb text broken_tables_text
    then Some (JObj [("tables",
                      JArr [JObj [("name", JStr "A");
                                  ("rows", JArr [JArr [JStr "1"]])];
                            JNum 5])])
    else None;
  findall_json_fence := fun _ => [];
  findall_fence := fun _ => [];
  search_object := fun text =>
    match from_first_brace text with
    | Some s => upto_last_brace s
    | None => None
    end;
  container_str := fun _ => EmptyString
|}.

(** ** The task controls and the clock (app.py, lines 262-359) *)

(** An entry of [TASKS] with the keys of the clock; [None] is an absent
    key.  Clock readings are the numbers [time.time()] returns. *)
Record Entry : Type := mkEntry {
  task : Task;
  start_time : Q;
  pause_start : option Q;
  total_pause_time : option Q
}.

(** The entry [upload] creates (lines 100-111, 176-188); [now] is the
    clock reading. *)
Definition new_entry (total embedded pages : nat) (now : Q) : Entry :=
  mkEntry (pending_task total embedded pages) now None None.

(** [t.get("total_pause_time", 0)] *)
Definition paused_so_far (t : Entry) : Q :=
  match total_pause_time t with
  | Some q => q
  | None => 0%Q
  end.

(** lines 326-335; [t] is the entry [TASKS.get(task_id)], without which
    the request is answered with 404 and nothing changes. *)
Definition pause_task (now : Q) (t : Entry) : Entry :=
  let k := task t in
  mkEntry (mkTask "paused" (t_total k) (t_done k) (t_embedded k) (t_pages k)
                  (t_errors k) (mkCtrl true (stop (t_control k))))
          (start_time t)
          (match pause_start t with
           | Some p => Some p
           | None => Some now
           end)
          (total_pause_time t).

(** lines 338-350 *)
Definition resume_task (now : Q) (t : Entry) : Entry :=
  let k := task t in
  mkEntry (mkTask (if t_done k <? t_total k then "in_progress"
                   else t_status k)
                  (t_total k) (t_done k) (t_embedded k) (t_pages k)
                  (t_errors k) (mkCtrl false (stop (t_control k))))
          (start_time t)
          None
          (match pause_start t with
           | Some p => Some (paused_so_far t + (now - p))%Q
           | None => total_pause_time t
           end).

(** lines 353-359 *)
Definition stop_task (t : Entry) : Entry :=
  let k := task t in
  mkEntry (mkTask (t_status k) (t_total k) (t_done k) (t_embedded k)
                  (t_pages k) (t_errors k)
                  (mkCtrl (paused (t_control k)) true))
          (start_time t) (pause_start t) (total_pause_time t).

(** The [except] branch of the worker thread (lines 152-156, 227-231). *)
Definition worker_failed (msg : string) (t : Entry) : Entry :=
  let k := task t in
  mkEntry (mkTask "failed" (t_total k) (t_done k) (t_embedded k) (t_pages k)
                  (t_errors k ++ [mkError None msg]) (t_control k))
          (start_time t) (pause_start t) (total_pause_time t).

(** [elapsed_time] of the status reply (lines 268-273); [now_pause] and
    [now] are the readings of its two [time.time()] calls, in that
    order. *)
Definition elapsed_time (now_pause now : Q) (t : Entry) : Q :=
  let total_pause :=
    if String.eqb (t_status (task t)) "paused" then
      match pause_start t with
      | Some p => (paused_so_far t + (now_pause - p))%Q
      | None => paused_so_far t
      end
    else paused_so_far t in
  ((now - start_time t) - total_pause)%Q.

(** What reaches an entry of [TASKS], each taken as a whole: the three
    requests, the progress callback of the worker, and the worker's
    [except] branch. *)
Inductive request : Type :=
| Pause (now : Q)
| Resume (now : Q)
| Stop
| Callback (e : event)
| WorkerFailed (msg : string).

Definition handle (r : request) (t : Entry) : Entry :=
  match r with
  | Pause now => pause_task now t
  | Resume now => resume_task now t
  | Stop => stop_task t
  | Callback e =>
      mkEntry (receive (task t) e) (start_time t) (pause_start t)
              (total_pause_time t)
  | WorkerFailed msg => worker_failed msg t
  end.

Definition handle_all (rs : list request) (t : Entry) : Entry :=
  fold_left (fun t r => handle r t) rs t.

(** [True] when a stop request is among [rs]. *)
Definition stop_requested (rs : list request) : bool :=
  existsb (fun r => match r with Stop => true | _ => false end) rs.

(** What the last pause or resume request of [rs] makes of [paused]. *)
Definition paused_after (rs : list request) (initial : bool) : bool :=
  fold_left (fun b r => match r with
                        | Pause _ => true
                        | Resume _ => false
                        | _ => b
                        end) rs initial.

Definition no_resume (rs : list request) : bool :=
  forallb (fun r => match r with Resume _ => false | _ => true end) rs.

(** ** The counts [upload] takes from a document (app.py, lines 82-99) *)

(** [embedded] and [pages] as the loop over the pages counts them, for a
    document that opens; [doc] gives for each page its embedded images,
    as for process_pdf. *)
Definition upload_counts (doc : list (list string)) : nat * nat :=
  (fold_left (fun embedded page => embedded + List.length page) doc 0,
   List.length doc).

(** [total] of the new task for the value of [ARK_SOURCE]. *)
Definition upload_total (doc : list (list string)) (source_mode : string)
  : nat :=
  let (embedded, pages) := upload_counts doc in
  if String.eqb source_mode "both" then embedded + pages
  else if String.eqb source_mode "page" then pages
  else embedded.

(** The three modes process_pdf knows. *)
Definition known_mode (source_mode : string) : bool :=
  String.eqb source_mode "both" || String.eqb source_mode "page"
  || String.eqb source_mode "embedded".

(** ** The time a call sleeps *)

Definition total_sleep {J : Type} (t : call_trace J) : Q :=
  fold_right Qplus 0%Q (sleeps t).

(** ** The writers (lines 467-499 and 533-624) *)

(** [not l] *)
Definition is_nil {A : Type} (l : list A) : bool :=
  match l with
  | [] => true
  | _ => false
  end.

(** A value [for x in v] accepts. *)
Definition iterable (v : json) : bool :=
  match v with
  | JArr _ | JStr _ | JObj _ => true
  | _ => false
  end.

(** The calls a writer makes on the python-docx document, in their
    order: [doc.add_heading(text, level=...)], [doc.add_paragraph(text)],
    [doc.add_paragraph(text, style='List Bullet')],
    [doc.add_table(rows=..., cols=...)] with the style set on the table
    it returns, and [table.rows[row_idx].cells[col_idx].text = text]. *)
Inductive docx_call : Type :=
| add_heading (text : json) (level : nat)
| add_paragraph (text : json)
| add_list_bullet (text : string)
| add_table (rows cols : nat)
| set_cell_text (row_idx col_idx : nat) (text : string).

(** The cell a call writes to. *)
Definition cell_position (c : docx_call) : option (nat * nat) :=
  match c with
  | set_cell_text row_idx col_idx _ => Some (row_idx, col_idx)
  | _ => None
  end.

Section Writers.

Context {RT : PyRuntime}.

(** *** write_aggregated_excel *)

(** What openpyxl does with [ws.append(row)]: [None] when the call
    returns, the message of the exception it raises otherwise (a cell
    with a control character, for one, is refused with an
    IllegalCharacterError). *)
Variable xlsx_error : list string -> option string.

(** [ws.append(row)]: the row appended, or the exception. *)
Definition appended (row : list string) : result (list string) :=
  match xlsx_error row with
  | Some msg => Raise msg
  | None => Ok row
  end.

(** [ws.append([str(cell) if cell is not None else "" for cell in row])] *)
Definition sheet_row (row : json) : result (list string) :=
  cells <- py_iter row ;;
  appended (map cell_text cells).

(** The rows one image adds to the sheet: those of its tables, then the
    blank row. *)
Definition image_rows (it : string * list Table)
  : result (list (list string)) :=
  rows <- map_result (fun t : Table => map_result sheet_row (snd t)) (snd it) ;;
  blank <- appended [EmptyString] ;;
  Ok (List.concat rows ++ [blank]).

(** The rows appended to the sheet by the time [wb.save] is reached, or
    the exception that keeps the workbook from being saved.  [notice]
    stands for the rows of the notice of lines 478-490. *)
Definition write_aggregated_excel (notice : list (list string))
  (image_tables : list (string * list Table)) : result (list (list string)) :=
  if forallb (fun it => is_nil (snd it)) image_tables
  then map_result appended notice
  else
    blocks <- map_result image_rows image_tables ;;
    Ok (List.concat blocks).

(** *** write_content_to_word *)

(** [item.get(k, default)] *)
Definition field (k : string) (default : json) (d : list (string * json))
  : json :=
  match dict_get k d with
  | Some v => v
  | None => default
  end.

(** [item_type == name] *)
Definition is_type (name : string) (item_type : json) : bool :=
  match item_type with
  | JStr s => String.eqb s name
  | _ => false
  end.

(** [rows[0]] *)
Definition first_row (rows : json) : result json :=
  match rows with
  | JArr (r :: _) => Ok r
  | JArr [] => Raise "list index out of range"
  | JStr (String c _) => Ok (JStr (String c EmptyString))
  | JStr EmptyString => Raise "string index out of range"
  | JObj _ => Raise "0"
  | _ =>
      Raise (String.append "'" (String.append (type_name rows)
               "' object is not subscriptable"))
  end.

(** [list(row) if isinstance(row, (list, tuple)) else [str(row)]]
    (line 594) *)
Definition row_cells (row : json) : list json :=
  match row with
  | JArr cells => cells
  | _ => [JStr (py_str row)]
  end.

(** One row brought to [standard_cols] cells (lines 593-599). *)
Definition word_row (standard_cols : nat) (row : json) : list json :=
  let normalized_row := row_cells row in
  firstn standard_cols
         (normalized_row
          ++ repeat (JStr EmptyString)
                    (standard_cols - List.length normalized_row)).

(** The loop that fills the table (lines 606-609). *)
Definition fill_cells (normalized_rows : list (list json)) : list docx_call :=
  flat_map
    (fun r => map (fun c => set_cell_text (fst r) (fst c) (cell_text (snd c)))
                  (combine (seq 0 (List.length (snd r))) (snd r)))
    (combine (seq 0 (List.length normalized_rows)) normalized_rows).

(** What python-docx does with a call: [None] when the call returns, the
    message of the exception it raises otherwise (a text with a control
    character, for one, is refused with a ValueError). *)
Variable docx_error : docx_call -> option string.

(** The calls made one after the other, up to the first that raises. *)
Fixpoint perform (calls : list docx_call) : result (list docx_call) :=
  match calls with
  | [] => Ok []
  | c :: later =>
      match docx_error c with
      | Some msg => Raise msg
      | None =>
          made <- perform later ;;
          Ok (c :: made)
      end
  end.

(** The calls the branch of a table item is about to make (lines
    582-612): the rows are normalised before the table is added. *)
Definition table_calls (rows : json) : result (list docx_call) :=
  if truthy rows then
    n <- py_len rows ;;
    if 0 <? n then
      first <- first_row rows ;;
      standard_cols <- py_len first ;;
      rs <- py_iter rows ;;
      let normalized_rows := map (word_row standard_cols) rs in
      Ok (add_table (List.length normalized_rows) standard_cols
          :: fill_cells normalized_rows ++ [add_paragraph (JStr EmptyString)])
    else Ok []
  else Ok [].

(** The branch of a table item: the calls it makes, or the exception
    that ends it. *)
Definition word_table (rows : json) : result (list docx_call) :=
  calls <- table_calls rows ;;
  perform calls.

(** The calls the body of the loop over the items of a page is about to
    make for [item] (lines 555-612). *)
Definition item_calls (item : json) : result (list docx_call) :=
  match item with
  | JObj d =>
      let item_type := field "type" (JStr "paragraph") d in
      let text := field "text" (JStr EmptyString) d in
      if is_type "h1" item_type then
        Ok (if truthy text then [add_heading text 1] else [])
      else if is_type "h2" item_type then
        Ok (if truthy text then [add_heading text 2] else [])
      else if is_type "h3" item_type then
        Ok (if truthy text then [add_heading text 3] else [])
      else if is_type "paragraph" item_type then
        Ok (if truthy text then [add_paragraph text] else [])
      else if is_type "list" item_type then
        items <- py_iter (field "items" (JArr []) d) ;;
        Ok (map (fun list_item => add_list_bullet (py_str list_item))
                (filter truthy items))
      else if is_type "table" item_type then
        table_calls (field "rows" (JArr []) d)
      else Ok []
  | _ =>
      Raise (String.append "'" (String.append (type_name item)
               "' object has no attribute 'get'"))
  end.

(** The body of the loop over the items of a page. *)
Definition word_item (item : json) : result (list docx_call) :=
  calls <- item_calls item ;;
  perform calls.

(** The loop over the pages, entered at [idx]; [total] is
    [len(all_content)]. *)
Fixpoint word_pages (idx total : nat) (all_content : list (string * list json))
  : result (list docx_call) :=
  match all_content with
  | [] => Ok []
  | page :: rest =>
      match snd page with
      | [] => word_pages (S idx) total rest
      | content_list =>
          calls <- map_result word_item content_list ;;
          separator <- perform (if idx <? total - 1
                                then [add_paragraph (JStr EmptyString)]
                                else []) ;;
          later <- word_pages (S idx) total rest ;;
          Ok (List.concat calls ++ separator ++ later)
      end
  end.

(** The calls made on the document by the time [doc.save] is reached, or
    the exception that keeps the document from being saved.  [notice]
    stands for the paragraphs of the notice of lines 544-552. *)
Definition write_content_to_word (notice : list json)
  (all_content : list (string * list json)) : result (list docx_call) :=
  if forallb (fun page => is_nil (snd page)) all_content
  then perform (map add_paragraph notice)
  else word_pages 0 (List.length all_content) all_content.

End Writers.

(** [{"tables":[{"name":"A","rows":[5]}]}]: the row is a number. *)
Definition scalar_row_text : string :=
  String.concat dq
    ["{"; "tables"; ":[{"; "name"; ":"; "A"; ","; "rows"; ":[5]}]}"].

(** [{"content":["hello"]}]: the item is a string, not a dict. *)
Definition string_item_text : string :=
  String.concat dq ["{"; "content"; ":["; "hello"; "]}"].

(** It decodes the two documents above as [json.loads] does and rejects
    every other text; the examples have no code fences. *)
Definition writer_runtime : PyRuntime := {|
  json_loads := fun text =>
    if String.eqb text scalar_row_text
    then Some (JObj [("tables", JArr [JObj [("name", JStr "A");
                                            ("rows", JArr [JNum 5])]])])
    else if String.eqb text string_item_text
    then Some (JObj [("content", JArr [JStr "hello"])])
    else None;
  findall_json_fence := fun _ => [];
  findall_fence := fun _ => [];
  search_object := fun text =>
    match from_first_brace text with
    | Some s => upto_last_brace s
    | None => None
    end;
  container_str := fun _ => EmptyString
|}.

(** [True] for a control character other than the tab, the line feed
    and the carriage return. *)
Definition is_control (c : ascii) : bool :=
  let n := nat_of_ascii c in
  (n <? 32) && negb ((n =? 9) || (n =? 10) || (n =? 13)).

Definition has_control (text : json) : bool :=
  match text with
  | JStr s => existsb is_control (list_ascii_of_string s)
  | _ => false
  end.

(** A library for the examples: it refuses a text with a control
    character, as python-docx does, and lets every other call return. *)
Definition strict_docx (c : docx_call) : option string :=
  let refused :=
    match c with
    | add_heading text _ | add_paragraph text => has_control text
    | add_list_bullet text | set_cell_text _ _ text => has_control (JStr text)
    | add_table _ _ => false
    end in
  if refused
  then Some "All strings must be XML compatible: Unicode or ASCII, no NULL bytes or control characters"
  else None.

(** A library for the examples: it refuses a row with a control
    character in a cell, as openpyxl does, and appends every other
    row. *)
Definition strict_xlsx (row : list string) : option string :=
  if existsb (fun cell => has_control (JStr cell)) row
  then Some "IllegalCharacterError"
  else None.

(** ** A text for the examples of the content parser *)

(** The answer the prompt asks for when the image has no text:
    [{"status":"no_text","content":[]}]. *)
Definition no_text_text : string :=
  String.concat dq
    ["{"; "status"; ":"; "no_text"; ","; "content"; ":[]}"].

(** It decodes the document above as [json.loads] does and rejects every
    other text; the examples have no code fences. *)
Definition text_runtime : PyRuntime := {|
  json_loads := fun text =>
    if String.eqb text no_text_text
    then Some (JObj [("status", JStr "no_text"); ("content", JArr [])])
    else None;
  findall_json_fence := fun _ => [];
  findall_fence := fun _ => [];
  search_object := fun text =>
    match from_first_brace text with
    | Some s => upto_last_brace s
    | None => None
    end;
  container_str := fun _ => EmptyString
|}.

(** ** The course of a run *)




(** A service that fails on the second page with an HTTP error, one that
    fails on it with an exception without message, and a parser that
    finds one node in every reply. *)
Definition failing_call (p : Path) : result (string * option Usage) :=
  if String.eqb (name p) "page-2-full.png"
  then Raise "500 Server Error"
  else Ok (name p, None).


Definition one_node (raw_text : string) : result (list nat) := Ok [1].



(* ===================================================================== *)
(** * Part II. Properties *)
(* ===================================================================== *)

(** ** Strings *)

Lemma linebreak_is_space c : is_linebreak c = true -> is_space c = true.
Proof.
  destruct c as [[] [] [] [] [] [] [] []]; vm_compute; intro;
    first [reflexivity | discriminate].
Qed.

Lemma lf_is_space c : is_lf c = true -> is_space c = true.
Proof.
  destruct c as [[] [] [] [] [] [] [] []]; vm_compute; intro;
    first [reflexivity | discriminate].
Qed.

Lemma all_chars_append f a b :
  all_chars f (String.append a b) = all_chars f a && all_chars f b.
Proof.
  induction a as [|c a IH]; simpl; [reflexivity|].
  rewrite IH. apply andb_assoc.
Qed.

Lemma lstrip_head s :
  all_chars is_space s = false ->
  exists c r, lstrip s = String c r /\ is_space c = false.
Proof.
  induction s as [|c s IH]; simpl; [discriminate|].
  destruct (is_space c) eqn:E; simpl; intro H.
  - apply IH, H.
  - exists c, s. split; [reflexivity | exact E].
Qed.

Lemma strip_visible s : has_visible s = true -> is_empty (strip s) = false.
Proof.
  unfold has_visible, strip. intro H. apply negb_true_iff in H.
  destruct (lstrip_head s H) as (c & r & -> & Hc).
  simpl. rewrite Hc. reflexivity.
Qed.

Lemma has_visible_snoc cur c :
  has_visible (String.append cur (String c EmptyString))
  = has_visible cur || negb (is_space c).
Proof.
  unfold has_visible. rewrite all_chars_append. simpl.
  rewrite andb_true_r. apply negb_andb.
Qed.

Lemma visible_line after_cr cur s :
  has_visible cur || has_visible s = true ->
  exists ln, In ln (splitlines_from after_cr cur s)
             /\ is_empty (strip ln) = false.
Proof.
  revert after_cr cur. induction s as [|c s IH]; intros after_cr cur H.
  - simpl in H. rewrite orb_false_r in H.
    pose proof (strip_visible cur H) as Hs.
    simpl. destruct cur; [discriminate H|].
    simpl. exists (String a cur). split; [left; reflexivity | exact Hs].
  - simpl. destruct (after_cr && is_lf c) eqn:Eskip.
    + apply andb_true_iff in Eskip. destruct Eskip as [_ Hlf].
      apply IH. unfold has_visible in *. simpl in H.
      rewrite (lf_is_space c Hlf) in H. exact H.
    + destruct (is_linebreak c) eqn:Elb.
      * apply orb_true_iff in H. destruct H as [H|H].
        -- exists cur. split; [left; reflexivity | apply strip_visible, H].
        -- destruct (IH (is_cr c) EmptyString) as (ln & Hin & Hln).
           ++ unfold has_visible in *. simpl in *.
              rewrite (linebreak_is_space c Elb) in H. exact H.
           ++ exists ln. split; [right; exact Hin | exact Hln].
      * apply IH. rewrite has_visible_snoc.
        unfold has_visible in *. simpl in H.
        destruct (is_space c); simpl in *.
        -- rewrite orb_false_r. exact H.
        -- rewrite orb_true_r. reflexivity.
Qed.

(** A text with a visible character has a non-blank line. *)
Lemma nonblank_lines_nonempty text :
  has_visible text = true -> nonblank_lines text <> [].
Proof.
  intro H. unfold nonblank_lines, splitlines.
  destruct (visible_line false EmptyString text) as (ln & Hin & Hln).
  { rewrite H. apply orb_true_r. }
  intro Hnil. apply map_eq_nil in Hnil.
  assert (Hf : In ln (filter (fun ln => negb (is_empty (strip ln)))
                             (splitlines_from false EmptyString text))).
  { apply filter_In. split; [exact Hin | rewrite Hln; reflexivity]. }
  rewrite Hnil in Hf. exact Hf.
Qed.

(** ** Table repair *)

Section RepairFacts.

Context {RT : PyRuntime}.

Lemma dict_get_set_same k v f v0 :
  dict_get k f = Some v0 -> dict_get k (dict_set k v f) = Some v.
Proof.
  induction f as [|[k' v'] f IH]; simpl; [discriminate|].
  destruct (String.eqb k k') eqn:E; simpl; rewrite E; auto.
Qed.

Lemma dict_get_set_other k k' v f :
  String.eqb k k' = false -> dict_get k (dict_set k' v f) = dict_get k f.
Proof.
  intro Hne. induction f as [|[k0 v0] f IH]; simpl; [reflexivity|].
  destruct (String.eqb k' k0) eqn:E; simpl.
  - apply String.eqb_eq in E. subst k0. rewrite Hne. reflexivity.
  - rewrite IH. reflexivity.
Qed.

Lemma dict_set_set k v f : dict_set k v (dict_set k v f) = dict_set k v f.
Proof.
  induction f as [|[k' v'] f IH]; simpl; [reflexivity|].
  destruct (String.eqb k k') eqn:E; simpl; rewrite E; [reflexivity|].
  rewrite IH. reflexivity.
Qed.

Lemma dict_set_same k v f : dict_get k f = Some v -> dict_set k v f = f.
Proof.
  induction f as [|[k' v'] f IH]; simpl; [reflexivity|].
  destruct (String.eqb k k') eqn:E; intro H.
  - injection H as ->. reflexivity.
  - rewrite IH; auto.
Qed.

Lemma is_table_set_rows v f : is_table (dict_set "rows" v f) = is_table f.
Proof.
  unfold is_table. rewrite dict_get_set_other; reflexivity.
Qed.

Lemma collect_rows_text rows :
  collect_rows (map (fun r => JArr (map JStr r)) rows) = rows.
Proof.
  induction rows as [|r rows IH]; simpl; [reflexivity|].
  rewrite IH. f_equal. rewrite map_map. simpl. apply map_id.
Qed.

Lemma fit_length n row : List.length (fit n row) = n.
Proof.
  unfold fit. rewrite length_firstn, length_app, repeat_length. lia.
Qed.

Lemma fit_exact row : fit (List.length row) row = row.
Proof.
  unfold fit. rewrite Nat.sub_diag. simpl. rewrite app_nil_r.
  apply firstn_all.
Qed.

Lemma unify_columns_uniform rows :
  Forall (fun r => List.length r = List.length (hd [] (unify_columns rows)))
         (unify_columns rows).
Proof.
  destruct rows as [|first rest]; [constructor|].
  unfold unify_columns. cbn [map hd]. rewrite fit_exact.
  constructor; [reflexivity|].
  apply Forall_forall. intros r Hr. apply in_map_iff in Hr.
  destruct Hr as (r0 & <- & _). apply fit_length.
Qed.

Lemma unify_columns_length rows :
  List.length (unify_columns rows) = List.length rows.
Proof.
  destruct rows; [reflexivity|]. unfold unify_columns. apply length_map.
Qed.

Lemma unify_columns_idem rows :
  unify_columns (unify_columns rows) = unify_columns rows.
Proof.
  destruct rows as [|first rest]; [reflexivity|].
  unfold unify_columns. cbn [map]. rewrite fit_exact.
  cbn [map]. rewrite fit_exact. f_equal.
  rewrite map_map. apply map_ext. intro r.
  rewrite <- (fit_length (List.length first) r) at 1. apply fit_exact.
Qed.

Lemma collect_rows_all_lists rows :
  forallb is_row rows = true ->
  List.length (collect_rows rows) = List.length rows.
Proof.
  induction rows as [|r rows IH]; simpl; [reflexivity|].
  destruct r; simpl; try discriminate. intro H. rewrite IH; auto.
Qed.

Lemma collect_rows_count rows :
  List.length (collect_rows rows) = List.length (filter is_row rows).
Proof.
  induction rows as [|r rows IH]; simpl; [reflexivity|].
  destruct r; simpl; auto.
Qed.

Lemma collect_rows_some rows :
  existsb is_row rows = true -> collect_rows rows <> [].
Proof.
  induction rows as [|r rows IH]; simpl; [discriminate|].
  destruct r; simpl; auto; discriminate.
Qed.

(** What [repair_item] does to a table whose [rows] is a list. *)
Lemma repair_item_list_rows f rows :
  is_table f = true ->
  dict_get "rows" f = Some (JArr rows) ->
  repair_item (JObj f)
  = match collect_rows rows with
    | [] => Ok (JObj f)
    | normalized_rows =>
        Ok (JObj (dict_set "rows" (rows_json (unify_columns normalized_rows)) f))
    end.
Proof.
  intros Ht Hr. unfold repair_item. rewrite Ht, Hr.
  destruct rows as [|r rows]; [reflexivity|].
  cbn [truthy py_len bind List.length Nat.ltb Nat.leb py_iter]. reflexivity.
Qed.

Lemma repair_item_repaired f rows :
  is_table f = true ->
  dict_get "rows" f = Some (rows_json (unify_columns rows)) ->
  repair_item (JObj f) = Ok (JObj f).
Proof.
  intros Ht Hr. pose proof (unify_columns_idem rows) as Hid.
  unfold rows_json in Hr.
  rewrite (repair_item_list_rows f _ Ht Hr), collect_rows_text.
  destruct (unify_columns rows) as [|r0 more]; [reflexivity|].
  rewrite Hid. do 2 f_equal. apply dict_set_same. exact Hr.
Qed.

Lemma repair_item_idempotent T T' :
  repair_item T = Ok T' -> repair_item T' = Ok T'.
Proof.
  intro H. destruct T as [| | | | |items|f]; try (injection H as <-; reflexivity).
  pose proof H as H0. unfold repair_item in H.
  destruct (is_table f) eqn:Ht; [|injection H as <-; exact H0].
  destruct (dict_get "rows" f) as [rows|] eqn:Hr;
    [|cbn in H; injection H as <-; exact H0].
  destruct (truthy rows) eqn:Htr; [|injection H as <-; exact H0].
  destruct (py_len rows) as [n|m] eqn:Hlen; cbn [bind] in H; [|discriminate].
  destruct (0 <? n); [|injection H as <-; exact H0].
  destruct (py_iter rows) as [rs|m] eqn:Hit; cbn [bind] in H; [|discriminate].
  destruct (collect_rows rs) as [|r0 nr] eqn:Hc; [injection H as <-; exact H0|].
  injection H as <-.
  apply repair_item_repaired with (rows := r0 :: nr).
  - rewrite is_table_set_rows. exact Ht.
  - apply dict_get_set_same with (v0 := rows). exact Hr.
Qed.

End RepairFacts.

(** Padding with [x] and cutting at [n] gives, at each place below [n],
    the element of the list or [x] where the list has ended. *)
Lemma pad_and_cut {A : Type} (x : A) : forall n l,
  firstn n (l ++ repeat x (n - List.length l))
  = map (fun j => nth j l x) (seq 0 n).
Proof.
  induction n as [|n IH]; intro l; [reflexivity|].
  cbn [seq map]. rewrite <- seq_shift, map_map.
  destruct l as [|a l].
  - cbn [app List.length Nat.sub repeat firstn]. f_equal.
    specialize (IH []). cbn [app List.length] in IH.
    rewrite Nat.sub_0_r in IH. rewrite IH.
    apply map_ext. intros [|j]; reflexivity.
  - cbn [app List.length Nat.sub firstn nth]. f_equal. apply IH.
Qed.

Lemma nth_cell_text {RT : PyRuntime} (row : list json) : forall j,
  nth j (map cell_text row) EmptyString
  = if j <? List.length row then cell_text (nth j row JNull) else EmptyString.
Proof.
  induction row as [|c row IH]; intros [|j]; try reflexivity.
  exact (IH j).
Qed.

(** A row of cell texts brought to [n] cells. *)
Lemma fit_cells {RT : PyRuntime} n (row : list json) :
  map JStr (fit n (map cell_text row))
  = map (fun j => JStr (if j <? List.length row
                        then cell_text (nth j row JNull)
                        else EmptyString))
        (seq 0 n).
Proof.
  unfold fit. rewrite pad_and_cut, map_map.
  apply map_ext. intro j. rewrite nth_cell_text. reflexivity.
Qed.

(** The loop that fills [normalized_rows], on the rows that are lists. *)
Lemma collect_rows_cells {RT : PyRuntime} : forall rows cells,
  filter is_row rows = map JArr cells ->
  collect_rows rows = map (map cell_text) cells.
Proof.
  induction rows as [|r rows IH]; intros cells H.
  - destruct cells; [reflexivity | discriminate H].
  - destruct r; cbn [filter is_row collect_rows] in *; try (apply IH, H).
    destruct cells as [|c cells]; [discriminate H|].
    injection H as -> H. cbn [map]. f_equal. apply IH, H.
Qed.

(** C4. Table repair is idempotent for every node: what it returns, it
    returns unchanged when run again; and it returns on every table
    whose rows are a list.  On a table whose rows hold a list
    it returns the table with the rows replaced: one row for each row
    that is a list, in their order, each with as many cells as the first
    of them has; the cell at place [j] holds the text of the row's cell
    [j] ([str(cell)], the empty string for null) when the row has such a
    cell and the empty string when it is too short, and the cells from
    that count on are dropped.  So when every row is a list the number
    of rows is kept and every row has the length of the first.  The rows
    [a b c] and [1 2] become [a b c] and [1 2 ""]; the rows [a b],
    [1 2 3] and [null 7] become [a b], [1 2] and ["" 7]. *)
Theorem repair_idempotent_and_uniform {RT : PyRuntime} :
  (forall T T', repair_item T = Ok T' -> repair_item T' = Ok T') /\
  (forall f rows,
      is_table f = true ->
      dict_get "rows" f = Some (JArr rows) ->
      exists T', repair_item (JObj f) = Ok T' /\ repair_item T' = Ok T') /\
  (forall f rows first others,
      is_table f = true ->
      dict_get "rows" f = Some (JArr rows) ->
      filter is_row rows = map JArr (first :: others) ->
      repair_item (JObj f)
      = Ok (JObj
              (dict_set "rows"
                 (JArr
                    (map (fun row =>
                            JArr
                              (map (fun j =>
                                      JStr (if j <? List.length row
                                            then cell_text (nth j row JNull)
                                            else EmptyString))
                                   (seq 0 (List.length first))))
                         (first :: others)))
                 f))) /\
  (forall f rows,
      is_table f = true ->
      dict_get "rows" f = Some (JArr rows) ->
      forallb is_row rows = true ->
      exists rows',
        repair_item (JObj f) = Ok (JObj (dict_set "rows" (rows_json rows') f))
        /\ List.length rows' = List.length rows
        /\ Forall (fun r => List.length r = List.length (hd [] rows')) rows') /\
  repair_item (table_node [text_row ["a"; "b"; "c"]; text_row ["1"; "2"]])
  = Ok (table_node [text_row ["a"; "b"; "c"];
                    text_row ["1"; "2"; EmptyString]]) /\
  repair_item (table_node [text_row ["a"; "b"]; text_row ["1"; "2"; "3"];
                           JArr [JNull; JNum 7]])
  = Ok (table_node [text_row ["a"; "b"]; text_row ["1"; "2"];
                    text_row [EmptyString; "7"]]).
Proof.
  split; [exact repair_item_idempotent|].
  split; [|split; [|split; [|split; reflexivity]]].
  - intros f rows Ht Hr.
    destruct (repair_item (JObj f)) as [T'|msg] eqn:E.
    + exists T'. split; [reflexivity|].
      exact (repair_item_idempotent _ _ E).
    + rewrite (repair_item_list_rows f rows Ht Hr) in E.
      destruct (collect_rows rows); discriminate E.
  - intros f rows first others Ht Hr Hf.
    rewrite (repair_item_list_rows f rows Ht Hr),
      (collect_rows_cells rows _ Hf).
    cbn [map]. do 3 f_equal.
    change (rows_json
              (unify_columns (map (map cell_text) (first :: others)))
            = JArr
                (map (fun row =>
                        JArr
                          (map (fun j =>
                                  JStr (if j <? List.length row
                                        then cell_text (nth j row JNull)
                                        else EmptyString))
                               (seq 0 (List.length first))))
                     (first :: others))).
    unfold rows_json, unify_columns. cbn [map]. rewrite length_map.
    change (map cell_text first :: map (map cell_text) others)
      with (map (map cell_text) (first :: others)).
    rewrite !map_map. f_equal.
    f_equal; [f_equal; apply fit_cells|].
    apply map_ext. intro row. f_equal. apply fit_cells.
  - intros f rows Ht Hr Hall.
    exists (unify_columns (collect_rows rows)). split; [|split].
    + rewrite (repair_item_list_rows f rows Ht Hr).
      destruct (collect_rows rows) eqn:E; [|reflexivity].
      pose proof (collect_rows_all_lists rows Hall) as Hl. rewrite E in Hl.
      destruct rows; [|discriminate Hl].
      cbn. rewrite dict_set_same; [reflexivity | exact Hr].
    + rewrite unify_columns_length. apply collect_rows_all_lists, Hall.
    + apply unify_columns_uniform.
Qed.

(** The theorem at the table of the specification, read back twice, and
    at a table with a row that is not a list, a row that is too long and
    a row that is too short. *)
Lemma repair_idempotent_and_uniform_witness :
  repair_item (RT := sample_runtime)
    (table_node [text_row ["a"; "b"; "c"]; text_row ["1"; "2"; EmptyString]])
  = Ok (table_node [text_row ["a"; "b"; "c"];
                    text_row ["1"; "2"; EmptyString]])
  /\ repair_item (RT := sample_runtime)
       (table_node [JStr "note"; JArr [JStr "a"; JNull];
                    JArr [JBool true; JStr "2"; JStr "3"]; JArr [JNum 7]])
     = Ok (table_node [text_row ["a"; EmptyString]; text_row ["True"; "2"];
                       text_row ["7"; EmptyString]])
  /\ exists rows',
       repair_item (RT := sample_runtime)
         (table_node [text_row ["a"; "b"; "c"]; text_row ["1"; "2"]])
       = Ok (JObj (dict_set "rows" (rows_json rows')
                     [("type", JStr "table");
                      ("rows", JArr [text_row ["a"; "b"; "c"];
                                     text_row ["1"; "2"]])]))
       /\ List.length rows' = 2
       /\ Forall (fun r => List.length r = List.length (hd [] rows')) rows'.
Proof.
  destruct (repair_idempotent_and_uniform (RT := sample_runtime))
    as (Hidem & _ & Hcells & Huni & Hex & _).
  split; [|split].
  - apply (Hidem _ _ Hex).
  - exact (Hcells
             [("type", JStr "table");
              ("rows", JArr [JStr "note"; JArr [JStr "a"; JNull];
                             JArr [JBool true; JStr "2"; JStr "3"];
                             JArr [JNum 7]])]
             [JStr "note"; JArr [JStr "a"; JNull];
              JArr [JBool true; JStr "2"; JStr "3"]; JArr [JNum 7]]
             [JStr "a"; JNull]
             [[JBool true; JStr "2"; JStr "3"]; [JNum 7]]
             eq_refl eq_refl eq_refl).
  - apply (Huni [("type", JStr "table");
                 ("rows", JArr [text_row ["a"; "b"; "c"]; text_row ["1"; "2"]])]
                [text_row ["a"; "b"; "c"]; text_row ["1"; "2"]]);
      reflexivity.
Defined.

Lemma filter_some_dropped {A : Type} (f : A -> bool) (l : list A) :
  existsb (fun x => negb (f x)) l = true ->
  List.length (filter f l) < List.length l.
Proof.
  induction l as [|x l IH]; simpl; [discriminate|].
  pose proof (filter_length_le f l) as Hle.
  destruct (f x); simpl; intro H.
  - apply IH in H. lia.
  - lia.
Qed.

Lemma collect_rows_none rows :
  existsb is_row rows = false -> forall {RT : PyRuntime}, collect_rows rows = [].
Proof.
  intros H RT. induction rows as [|r rows IH]; simpl; [reflexivity|].
  simpl in H. apply orb_false_iff in H. destruct H as [Hr Hrest].
  destruct r; simpl in Hr; try discriminate; auto.
Qed.

(** C9, counterexample.  The table whose only row is the string [x] comes
    back from repair with that row still in it. *)
Lemma non_list_row_survives :
  repair_item (RT := sample_runtime) (table_node [JStr "x"])
  = Ok (table_node [JStr "x"])
  /\ ~ drops_every_non_list_row (RT := sample_runtime).
Proof.
  split; [reflexivity|]. intro H.
  destruct (H [("type", JStr "table"); ("rows", JArr [JStr "x"])]
              [JStr "x"] (table_node [JStr "x"]))
    as (f' & rows' & Hf & Hg & Hall); try reflexivity.
  injection Hf as <-. cbn in Hg. injection Hg as <-. discriminate Hall.
Qed.

(** C9, amended.  When at least one row of the table is a list, repair
    keeps the list rows only: the repaired table has as many rows as the
    input has list rows, each made of the texts of that row's cells and
    fitted to the first, so every row that is not a list is gone and the
    table is strictly shorter whenever there was one.  When no row is a
    list the table is left as it is. *)
Theorem repair_keeps_list_rows_only {RT : PyRuntime} f rows :
  is_table f = true ->
  dict_get "rows" f = Some (JArr rows) ->
  (existsb is_row rows = true ->
   repair_item (JObj f)
   = Ok (JObj (dict_set "rows"
                 (rows_json (unify_columns (collect_rows rows))) f))
   /\ List.length (unify_columns (collect_rows rows))
      = List.length (filter is_row rows)
   /\ (existsb (fun r => negb (is_row r)) rows = true ->
       List.length (unify_columns (collect_rows rows)) < List.length rows))
  /\ (existsb is_row rows = false -> repair_item (JObj f) = Ok (JObj f)).
Proof.
  intros Ht Hr. rewrite (repair_item_list_rows f rows Ht Hr). split.
  - intro Hex. pose proof (collect_rows_some rows Hex) as Hne.
    split; [|split].
    + destruct (collect_rows rows); [contradiction|reflexivity].
    + rewrite unify_columns_length. apply collect_rows_count.
    + intro Hbad. rewrite unify_columns_length, collect_rows_count.
      apply filter_some_dropped, Hbad.
  - intro Hnone. rewrite (collect_rows_none rows Hnone). reflexivity.
Qed.

(** The theorem at a table with one list row and one string row. *)
Lemma repair_keeps_list_rows_only_witness :
  repair_item (RT := sample_runtime)
    (table_node [JStr "x"; text_row ["a"; "b"]])
  = Ok (table_node [text_row ["a"; "b"]]).
Proof.
  pose proof (repair_keeps_list_rows_only (RT := sample_runtime)
                [("type", JStr "table");
                 ("rows", JArr [JStr "x"; text_row ["a"; "b"]])]
                [JStr "x"; text_row ["a"; "b"]] eq_refl eq_refl) as [H _].
  destruct (H eq_refl) as [Heq _]. exact Heq.
Defined.

(** ** The text parser *)

Section ParserFacts.

Context {RT : PyRuntime}.

(** When none of the three attempts finds a content list, the answer is
    one paragraph for each non-blank line. *)
Lemma fallback_one_paragraph_per_line text :
  structured_content text = JArr [] ->
  parse_model_output_to_content text
  = Ok (map paragraph (nonblank_lines text)).
Proof.
  intro H. unfold parse_model_output_to_content. rewrite H. reflexivity.
Qed.

(** The three attempts find nothing when [json.loads] rejects the text,
    every fenced candidate and the brace-delimited block. *)
Lemma attempts_fail text :
  json_loads text = None ->
  (forall cand,
      In cand (findall_json_fence text ++ findall_fence text) ->
      json_loads cand = None) ->
  (forall m, search_object text = Some m -> json_loads m = None) ->
  structured_content text = JArr [].
Proof.
  intros H1 H2 H3.
  assert (Hc : forall cands,
             (forall c, In c cands -> json_loads c = None) ->
             first_candidate cands = None).
  { induction cands as [|c cands IH]; intro Hall; [reflexivity|].
    simpl. unfold load_content. rewrite (Hall c (or_introl eq_refl)).
    apply IH. intros c' Hc'. apply Hall. right. exact Hc'. }
  unfold structured_content, attempt_direct, load_content.
  rewrite H1. cbn [or_keep].
  unfold attempt_fenced. cbn [truthy].
  rewrite Hc.
  - cbn [or_keep]. unfold attempt_object. cbn [truthy].
    destruct (search_object text) as [m|] eqn:Em; [|reflexivity].
    unfold load_content. rewrite (H3 m eq_refl). reflexivity.
  - intros c Hin. apply H2. apply in_or_app.
    destruct (findall_json_fence text); [right; exact Hin | left; exact Hin].
Qed.

Lemma validate_length items validated :
  validate items = Ok validated -> List.length validated = List.length items.
Proof.
  revert validated. induction items as [|item items IH]; intros validated H.
  - injection H as <-. reflexivity.
  - simpl in H. destruct (repair_item item); cbn [bind] in H; [|discriminate].
    destruct (validate items) as [rest|]; cbn [bind] in H; [|discriminate].
    injection H as <-. simpl. f_equal. apply IH. reflexivity.
Qed.

(** Whenever the parser returns on a text with a visible character, the
    batch is not empty. *)
Lemma visible_text_nonempty_batch text batch :
  has_visible text = true ->
  parse_model_output_to_content text = Ok batch ->
  batch <> [].
Proof.
  intros Hv H. unfold parse_model_output_to_content in H.
  destruct (py_iter (structured_content text)); cbn [bind] in H; [|discriminate].
  destruct (validate a) as [validated|]; cbn [bind] in H; [|discriminate].
  destruct validated.
  - injection H as <-. intro Hnil. apply map_eq_nil in Hnil.
    exact (nonblank_lines_nonempty text Hv Hnil).
  - injection H as <-. discriminate.
Qed.

End ParserFacts.

(** The fallback at the text of the specification. *)
Example noise_becomes_a_paragraph :
  parse_model_output_to_content (RT := sample_runtime)
    "no json at all, just noise"
  = Ok [paragraph "no json at all, just noise"].
Proof. vm_compute. reflexivity. Qed.

(** C5.  The text [{"content": 5}] is accepted by the first attempt, and
    the validation loop then iterates over the number: the parser raises
    a TypeError, so it is not true that it never raises in text mode. *)
Theorem parser_raises_on_number_content :
  parse_model_output_to_content (RT := sample_runtime) number_content_text
  = Raise "'int' object is not iterable"
  /\ has_visible number_content_text = true
  /\ ~ parser_never_raises (RT := sample_runtime).
Proof.
  assert (H : parse_model_output_to_content (RT := sample_runtime)
                number_content_text
              = Raise "'int' object is not iterable")
    by (vm_compute; reflexivity).
  split; [exact H|]. split; [vm_compute; reflexivity|].
  intro Hn. destruct (Hn number_content_text) as [batch Hb].
  rewrite H in Hb. discriminate.
Qed.

(** ** The retry loop *)

Section RetryFacts.

Context {J : Type}.
Variable network : nat -> attempt_result J.
Variable jitter : nat -> Q.



End RetryFacts.



(** ** The finish event *)

(** C3, counterexample.  A task of three items that is finished after one
    of them (the run was stopped) is completed with [done] at one. *)
Lemma finish_after_stop_stays_below_total :
  t_done (_cb_pdf "finish" (snd (encode (Finish 1 3 (mkUsage 0 0 0))))
            (mkTask "in_progress" 3 1 3 0 [] (mkCtrl false true))) = 1
  /\ ~ finish_reaches_total.
Proof.
  split; [reflexivity|]. intro H.
  destruct (H (snd (encode (Finish 1 3 (mkUsage 0 0 0))))
              (mkTask "in_progress" 3 1 3 0 [] (mkCtrl false true)))
    as [_ Hle].
  cbn in Hle. lia.
Qed.

(** C3, amended.  The finish event sets the status to completed and
    leaves the total alone; [done] becomes the count the event reports,
    or the total when that count is zero.  So [done] is at least the
    total when the reported count is zero or at least the total, and
    stays below it when the run ended with some items unprocessed. *)
Theorem finish_completes_with_reported_done data t :
  let reported := match d_done data with
                  | Some d => d
                  | None => t_done t
                  end in
  let t' := _cb_pdf "finish" data t in
  t_status t' = "completed"
  /\ t_total t' = t_total t
  /\ t_done t' = (if reported =? 0 then t_total t else reported)
  /\ (reported = 0 \/ t_total t <= reported -> t_total t <= t_done t')
  /\ (0 < reported < t_total t -> t_done t' = reported /\ t_done t' < t_total t).
Proof.
  cbn zeta. unfold _cb_pdf. cbn [String.eqb Ascii.eqb Bool.eqb].
  cbn [t_status t_total t_done]. unfold get_or.
  split; [reflexivity|]. split; [reflexivity|]. split; [reflexivity|].
  split.
  - intros [H0|Hge].
    + rewrite H0. cbn. lia.
    + destruct (Nat.eqb_spec (match d_done data with Some d => d | None => t_done t end) 0); lia.
  - intro Hlt.
    destruct (Nat.eqb_spec (match d_done data with Some d => d | None => t_done t end) 0); lia.
Qed.

(** ** The worker pool: what one completion does *)

Lemma path_eqb_eq a b : path_eqb a b = true <-> a = b.
Proof.
  unfold path_eqb. rewrite andb_true_iff, !String.eqb_eq.
  destruct a, b; simpl. split.
  - intros [-> ->]. reflexivity.
  - intro H. injection H as -> ->. split; reflexivity.
Qed.

Lemma in_seen_In p l : in_seen p l = true <-> In p l.
Proof.
  unfold in_seen. rewrite existsb_exists. split.
  - intros (q & Hq & He). apply path_eqb_eq in He. subst. exact Hq.
  - intro H. exists p. split; [exact H | apply path_eqb_eq; reflexivity].
Qed.

Lemma in_seen_false p l : in_seen p l = false <-> ~ In p l.
Proof.
  rewrite <- in_seen_In. destruct (in_seen p l); split; intro H;
    try reflexivity; try discriminate; try (intro; discriminate).
  exfalso. apply H. reflexivity.
Qed.

Lemma emitted_app a b : emitted (a ++ b) = emitted a ++ emitted b.
Proof.
  induction a as [|x a IH]; simpl; [reflexivity|].
  destruct x as [p|e|]; simpl; auto. rewrite IH. reflexivity.
Qed.

Lemma dispatched_app a b : dispatched (a ++ b) = dispatched a ++ dispatched b.
Proof.
  induction a as [|x a IH]; simpl; [reflexivity|].
  destruct x; simpl; auto. rewrite IH. reflexivity.
Qed.

Section PoolFacts.

Context {X : Type}.
Variable call : Path -> result (string * option Usage).
Variable parse : string -> result (list X).
Variable no_result_msg : string.
Variable total : nat.

Local Abbreviation P := (_process_one call parse no_result_msg).
Local Abbreviation kept := (kept call parse).
Local Abbreviation steps_of := (steps_of call parse no_result_msg total).

Lemma process_one_path p : o_path (P p) = p.
Proof.
  unfold _process_one. destruct (call p) as [[raw u]|e]; [|reflexivity].
  destruct (parse raw) as [[|x l]|e]; reflexivity.
Qed.

(** An outcome has no error exactly when content was recognised. *)
Lemma process_one_success p :
  o_err (P p) = None <-> exists content, succeeded call parse p = Some content.
Proof.
  unfold _process_one, succeeded. destruct (call p) as [[raw u]|e].
  - destruct (parse raw) as [[|x l]|e]; simpl; split;
      try discriminate; try (intros [c Hc]; discriminate); eauto.
  - simpl. split; [discriminate | intros [c Hc]; discriminate].
Qed.

Lemma record_outcome_eq p (st : pool) :
  record_outcome total (P p) st
  = (Step (S (done st)) total (name p) (o_err (P p)) (o_usage (P p)),
     mkPool (control_getter st) (seen st) (S (done st))
            (image_results st ++ kept p)
            (add_usage (usage_totals st) (o_usage (P p)))
            (imgs_iter st) (running st) (submitted st)).
Proof.
  unfold record_outcome, kept, succeeded, _process_one.
  destruct (call p) as [[raw u]|e].
  - destruct (parse raw) as [[|x l]|e]; simpl; rewrite ?app_nil_r.
    + destruct (negb (is_empty no_result_msg)); reflexivity.
    + reflexivity.
    + destruct (negb (is_empty e)); reflexivity.
  - simpl. rewrite app_nil_r. destruct (negb (is_empty e)); reflexivity.
Qed.

Lemma steps_of_app k a b :
  steps_of k (a ++ b) = steps_of k a ++ steps_of (k + List.length a) b.
Proof.
  revert k. induction a as [|p a IH]; intro k; simpl.
  - rewrite Nat.add_0_r. reflexivity.
  - rewrite IH. do 3 f_equal. lia.
Qed.

Local Abbreviation Inv := (Inv call parse no_result_msg total).

Lemma Inv_same tr tr' (st st' : pool) :
  Inv tr st ->
  emitted tr' = emitted tr ->
  seen st' = seen st -> done st' = done st ->
  image_results st' = image_results st ->
  Inv tr' st'.
Proof.
  intros [H1 H2 H3] Ht Hs Hd Hr. constructor.
  - rewrite Ht, Hs. exact H1.
  - rewrite Hd, Hs. exact H2.
  - rewrite Hr, Hs. exact H3.
Qed.

Lemma Inv_complete tr tr' (st st' : pool) p :
  Inv tr st ->
  emitted tr'
  = emitted tr
    ++ [Step (S (done st)) total (name p) (o_err (P p)) (o_usage (P p))] ->
  seen st' = p :: seen st ->
  done st' = S (done st) ->
  image_results st' = image_results st ++ kept p ->
  Inv tr' st'.
Proof.
  intros [H1 H2 H3] Ht Hs Hd Hr. constructor.
  - rewrite Ht, Hs, H1. simpl rev. rewrite steps_of_app. simpl.
    rewrite length_rev, <- H2. reflexivity.
  - rewrite Hd, Hs, H2. reflexivity.
  - rewrite Hr, Hs, H3. simpl rev. rewrite flat_map_app. simpl.
    rewrite app_nil_r. reflexivity.
Qed.

End PoolFacts.

(** ** The control gate *)

Lemma poll_open settled rs :
  forallb (fun c => negb (stop c)) rs = true ->
  stop settled = false -> paused settled = false ->
  exists later,
    poll settled rs = (Go, later)
    /\ forallb (fun c => negb (stop c)) later = true.
Proof.
  intros Hrs Hs Hp. induction rs as [|c rs IH]; simpl.
  - rewrite Hs, Hp. exists []. split; reflexivity.
  - simpl in Hrs. apply andb_true_iff in Hrs. destruct Hrs as [Hc Hrs].
    apply negb_true_iff in Hc. rewrite Hc.
    destruct (paused c); simpl.
    + apply IH, Hrs.
    + exists rs. split; [reflexivity | exact Hrs].
Qed.

Lemma wait_open og :
  open_gate og = true ->
  exists og', _wait_if_paused og = (Go, og') /\ open_gate og' = true.
Proof.
  destruct og as [g|]; simpl; [|exists None; split; reflexivity].
  intro H. apply andb_true_iff in H. destruct H as [H Hp].
  apply andb_true_iff in H. destruct H as [Hrs Hs].
  apply negb_true_iff in Hp, Hs.
  destruct (poll_open (settled g) (readings g) Hrs Hs Hp) as (later & -> & Hl).
  exists (Some (mkScript later (settled g))). split; [reflexivity|].
  simpl. rewrite Hl, Hs, Hp. reflexivity.
Qed.

Lemma wait_halted og :
  halted og = true ->
  exists og', _wait_if_paused og = (Halt, og') /\ halted og' = true.
Proof.
  destruct og as [g|]; simpl; [|discriminate].
  intro H. apply andb_true_iff in H. destruct H as [Hrs Hs].
  destruct (readings g) as [|c rs]; simpl.
  - rewrite Hs. exists (Some (mkScript [] (settled g))).
    split; [reflexivity | simpl; exact Hs].
  - simpl in Hrs. apply andb_true_iff in Hrs. destruct Hrs as [Hc Hrs].
    rewrite Hc. exists (Some (mkScript rs (settled g))).
    split; [reflexivity | simpl; rewrite Hrs, Hs; reflexivity].
Qed.

Lemma poll_sticky settled rs v later :
  sticky_from settled rs = true ->
  poll settled rs = (v, later) ->
  sticky_from settled later = true
  /\ (v = Halt -> forallb stop later && stop settled = true).
Proof.
  revert v later. induction rs as [|c rs IH]; intros v later Hst Hp; simpl in Hp.
  - destruct (stop settled) eqn:Es.
    + injection Hp as <- <-. split; [reflexivity | intros _; reflexivity].
    + destruct (negb (paused settled)); injection Hp as <- <-;
        (split; [reflexivity | discriminate]).
  - simpl in Hst. apply andb_true_iff in Hst. destruct Hst as [Hc Hst].
    destruct (stop c) eqn:Ec.
    + injection Hp as <- <-. split; [exact Hst | intros _; exact Hc].
    + destruct (negb (paused c)).
      * injection Hp as <- <-. split; [exact Hst | discriminate].
      * apply IH; assumption.
Qed.

Lemma wait_sticky og v og' :
  sticky og = true ->
  _wait_if_paused og = (v, og') ->
  sticky og' = true /\ (v = Halt -> halted og' = true).
Proof.
  destruct og as [g|]; simpl; intros Hst Hw.
  - destruct (poll (settled g) (readings g)) as [v0 later] eqn:Ep.
    injection Hw as <- <-. simpl. eapply poll_sticky; eassumption.
  - injection Hw as <- <-. split; [reflexivity | discriminate].
Qed.

Lemma halted_sticky og : halted og = true -> sticky og = true.
Proof.
  destruct og as [g|]; simpl; [|discriminate].
  intro H. apply andb_true_iff in H. destruct H as [Hrs Hs].
  induction (readings g) as [|c rs IH]; simpl; [reflexivity|].
  simpl in Hrs. apply andb_true_iff in Hrs. destruct Hrs as [Hc Hrs].
  rewrite Hc, Hrs, Hs, (IH Hrs). reflexivity.
Qed.

(** ** The sequential path *)

Lemma has_stop_app a b : has_stop (a ++ b) = has_stop a || has_stop b.
Proof.
  induction a as [|x a IH]; simpl; [reflexivity|].
  destruct x; simpl; auto.
Qed.

Section SequentialFacts.

Context {X : Type}.
Variable call : Path -> result (string * option Usage).
Variable parse : string -> result (list X).
Variable no_result_msg : string.
Variable total : nat.

Local Abbreviation P := (_process_one call parse no_result_msg).
Local Abbreviation kept := (kept call parse).
Local Abbreviation run_seq := (sequential call parse no_result_msg total).
Local Abbreviation step_of := (step_of call parse no_result_msg total).
Local Abbreviation arrived := (arrived call parse no_result_msg).
Local Abbreviation Inv := (Inv call parse no_result_msg total).

Lemma sequential_cons p rest (st : pool) :
  run_seq (p :: rest) st
  = if in_seen p (seen st) then run_seq rest st
    else match _wait_if_paused (control_getter st) with
         | (Halt, g) => mkRun [StopSeen] (with_getter g st) Returned
         | (Hang, g) => mkRun [] (with_getter g st) Blocked
         | (Go, g) =>
             after [Dispatch p; Emit (step_of p st)]
                   (run_seq rest (arrived g p st))
         end.
Proof.
  cbn [sequential]. destruct (in_seen p (seen st)); [reflexivity|].
  destruct (_wait_if_paused (control_getter st)) as [[| |] g]; try reflexivity.
  rewrite record_outcome_eq. reflexivity.
Qed.

Ltac seq_cases p st g :=
  rewrite sequential_cons;
  let Es := fresh "Es" in
  let Ew := fresh "Ew" in
  destruct (in_seen p (seen st)) eqn:Es;
  [| destruct (_wait_if_paused (control_getter st)) as [[| |] g] eqn:Ew].

Lemma sequential_inv images : forall (st : pool) tr0,
  Inv tr0 st ->
  Inv (tr0 ++ trace (run_seq images st)) (final (run_seq images st)).
Proof.
  induction images as [|p rest IH]; intros st tr0 H.
  - simpl. rewrite app_nil_r. exact H.
  - seq_cases p st g.
    + apply IH, H.
    + simpl. change (tr0 ++ Dispatch p :: Emit (step_of p st)
                         :: trace (run_seq rest (arrived g p st)))
        with (tr0 ++ [Dispatch p; Emit (step_of p st)]
                  ++ trace (run_seq rest (arrived g p st))).
      rewrite app_assoc. apply IH.
      eapply Inv_complete with (p := p); try eassumption; try reflexivity.
      rewrite emitted_app. reflexivity.
    + simpl. eapply Inv_same; try eassumption; try reflexivity.
      rewrite emitted_app, app_nil_r. reflexivity.
    + simpl. rewrite app_nil_r. eapply Inv_same; try eassumption; reflexivity.
Qed.

Lemma sequential_count images : forall st : pool,
  done (final (run_seq images st)) <= done st + List.length images.
Proof.
  induction images as [|p rest IH]; intro st.
  - simpl. lia.
  - seq_cases p st g; simpl.
    + specialize (IH st). lia.
    + specialize (IH (arrived g p st)). simpl in IH. lia.
    + lia.
    + lia.
Qed.

(** A stop that is seen ends the loop: it is the last action. *)
Lemma sequential_stop images : forall st : pool,
  stop_ends (trace (run_seq images st)) (how (run_seq images st)).
Proof.
  induction images as [|p rest IH]; intro st.
  - simpl. left. split; [reflexivity | discriminate].
  - seq_cases p st g.
    + apply IH.
    + destruct (IH (arrived g p st)) as [[Hn Hh]|(pre & Hpre & Hnp & Hh)]; simpl.
      * left. split; [exact Hn | exact Hh].
      * right. exists (Dispatch p :: Emit (step_of p st) :: pre).
        rewrite Hpre. split; [reflexivity | split; [exact Hnp | exact Hh]].
    + simpl. right. exists []. repeat split.
    + simpl. left. split; [reflexivity | discriminate].
Qed.

Lemma sequential_seen images : forall st : pool,
  incl (seen (final (run_seq images st))) (seen st ++ images)
  /\ (NoDup (seen st) -> NoDup (seen (final (run_seq images st)))).
Proof.
  induction images as [|p rest IH]; intro st.
  - simpl. rewrite app_nil_r. split; [apply incl_refl | auto].
  - seq_cases p st g.
    + destruct (IH st) as [Hi Hn]. split; [|exact Hn].
      intros q Hq. apply Hi in Hq. apply in_app_iff in Hq.
      apply in_app_iff. destruct Hq; [left | right; right]; assumption.
    + destruct (IH (arrived g p st)) as [Hi Hn]. simpl in *. split.
      * intros q Hq. apply Hi in Hq. simpl in Hq.
        apply in_app_iff. destruct Hq as [<-|Hq]; [right; left; reflexivity|].
        apply in_app_iff in Hq. destruct Hq; [left | right; right]; assumption.
      * intro Hnd. apply Hn. constructor; [|exact Hnd].
        apply in_seen_false. exact Es.
    + simpl. split; [apply incl_appl, incl_refl | auto].
    + simpl. split; [apply incl_appl, incl_refl | auto].
Qed.

(** Under a gate that never stops, every item not seen before is
    processed, in the order of the list. *)
Lemma sequential_open images : forall st : pool,
  open_gate (control_getter st) = true ->
  NoDup images ->
  (forall p, In p images -> ~ In p (seen st)) ->
  how (run_seq images st) = Returned
  /\ seen (final (run_seq images st)) = rev images ++ seen st
  /\ dispatched (trace (run_seq images st)) = images
  /\ has_stop (trace (run_seq images st)) = false.
Proof.
  induction images as [|p rest IH]; intros st Hopen Hnd Hnew.
  - simpl. repeat split.
  - seq_cases p st g.
    + exfalso. apply (Hnew p); [left; reflexivity | apply in_seen_In, Es].
    + destruct (wait_open _ Hopen) as (og' & Hw & Ho).
      rewrite Hw in Ew. injection Ew as <-.
      inversion Hnd as [|? ? Hnotin Hnd']; subst.
      destruct (IH (arrived og' p st)) as (Hh & Hs & Hd & Hst); try assumption.
      { intros q Hq [<-|Hin]; [contradiction|]. apply (Hnew q); [right|]; assumption. }
      simpl. rewrite Hs, Hd, Hst. simpl. rewrite <- app_assoc.
      repeat split; assumption.
    + exfalso. destruct (wait_open _ Hopen) as (og' & Hw & _).
      rewrite Hw in Ew. discriminate.
    + exfalso. destruct (wait_open _ Hopen) as (og' & Hw & _).
      rewrite Hw in Ew. discriminate.
Qed.

End SequentialFacts.

(** ** The concurrent path: one completion *)

Lemma next_img_none seen it it' :
  next_img seen it = (None, it') ->
  it' = [] /\ forall p, In p it -> In p seen.
Proof.
  revert it'. induction it as [|q it IH]; intros it' H; simpl in H.
  - injection H as <-. split; [reflexivity | intros p []].
  - destruct (in_seen q seen) eqn:E; [|discriminate].
    destruct (IH it' H) as [-> Hall]. split; [reflexivity|].
    intros p [<-|Hp]; [apply in_seen_In, E | apply Hall, Hp].
Qed.

Lemma next_img_some seen it p it' :
  next_img seen it = (Some p, it') ->
  ~ In p seen
  /\ exists skipped, it = skipped ++ p :: it'
                     /\ forall q, In q skipped -> In q seen.
Proof.
  revert it'. induction it as [|q it IH]; intros it' H; simpl in H.
  - discriminate.
  - destruct (in_seen q seen) eqn:E.
    + destruct (IH it' H) as (Hp & sk & -> & Hsk). split; [exact Hp|].
      exists (q :: sk). split; [reflexivity|].
      intros r [<-|Hr]; [apply in_seen_In, E | apply Hsk, Hr].
    + injection H as <- <-. split; [apply in_seen_false, E|].
      exists []. split; [reflexivity | intros r []].
Qed.

(** With no item of the iterator seen yet, the next one is its head. *)
Lemma next_img_fresh seen it :
  (forall q, In q it -> ~ In q seen) ->
  next_img seen it = match it with
                     | [] => (None, [])
                     | p :: it' => (Some p, it')
                     end.
Proof.
  intro H. destruct it as [|p it']; [reflexivity|]. simpl.
  replace (in_seen p seen) with false; [reflexivity|].
  symmetry. apply in_seen_false, H. left. reflexivity.
Qed.

Lemma next_img_shrinks seen it :
  List.length (snd (next_img seen it))
  + match fst (next_img seen it) with Some _ => 1 | None => 0 end
  <= List.length it.
Proof.
  induction it as [|q it IH]; simpl; [lia|].
  destruct (in_seen q seen); simpl; lia.
Qed.

Lemma remove_future (fut : nat * Path) (running : list (nat * Path)) :
  NoDup (map fst running) ->
  In fut running ->
  Permutation (fut :: filter (fun f => negb (fst f =? fst fut)) running)
              running.
Proof.
  induction running as [|f running IH]; intros Hnd Hin; [destruct Hin|].
  simpl in Hnd. inversion Hnd as [|? ? Hnotin Hnd']; subst.
  destruct Hin as [->|Hin].
  - simpl. rewrite Nat.eqb_refl. simpl.
    replace (filter (fun f => negb (fst f =? fst fut)) running) with running;
      [reflexivity|].
    symmetry. apply forallb_filter_id. apply forallb_forall. intros f Hf.
    apply negb_true_iff, Nat.eqb_neq. intro He. apply Hnotin.
    rewrite <- He. apply in_map, Hf.
  - simpl. destruct (Nat.eqb_spec (fst f) (fst fut)) as [He|Hne]; simpl.
    + exfalso. apply Hnotin. rewrite He. apply in_map, Hin.
    + rewrite perm_swap. constructor. apply IH; assumption.
Qed.

Section CompletionFacts.

Context {X : Type}.
Variable call : Path -> result (string * option Usage).
Variable parse : string -> result (list X).
Variable no_result_msg : string.
Variable total : nat.

Local Abbreviation P := (_process_one call parse no_result_msg).
Local Abbreviation step_of := (step_of call parse no_result_msg total).
Local Abbreviation arrived := (arrived call parse no_result_msg).
Local Abbreviation Inv := (Inv call parse no_result_msg total).
Local Abbreviation one := (complete_one call parse no_result_msg total).

Lemma complete_one_eq fut (st : pool) :
  one fut st
  = match _wait_if_paused (control_getter st) with
    | (Halt, g) =>
        ([Emit (step_of (snd fut) st); StopSeen],
         with_running [] (arrived g (snd fut) (without fut st)), Break)
    | (Hang, g) =>
        ([Emit (step_of (snd fut) st)], arrived g (snd fut) (without fut st),
         Stuck)
    | (Go, g) =>
        match next_img (snd fut :: seen st) (imgs_iter st) with
        | (Some nxt, it) =>
            ([Emit (step_of (snd fut) st); Dispatch nxt],
             submit nxt (with_iter it (arrived g (snd fut) (without fut st))),
             Next)
        | (None, it) =>
            ([Emit (step_of (snd fut) st)],
             with_iter it (arrived g (snd fut) (without fut st)), Next)
        end
    end.
Proof.
  unfold complete_one. rewrite process_one_path, record_outcome_eq.
  cbn [control_getter seen imgs_iter add_seen with_running].
  destruct (_wait_if_paused (control_getter st)) as [[| |] g]; reflexivity.
Qed.

End CompletionFacts.

Section OneCompletion.

Context {X : Type}.
Variable call : Path -> result (string * option Usage).
Variable parse : string -> result (list X).
Variable no_result_msg : string.
Variable total : nat.

Local Abbreviation step_of := (step_of call parse no_result_msg total).
Local Abbreviation arrived := (arrived call parse no_result_msg).
Local Abbreviation Inv := (Inv call parse no_result_msg total).
Local Abbreviation one := (complete_one call parse no_result_msg total).

Ltac one_cases H g nxt it Ew En :=
  rewrite complete_one_eq in H;
  destruct (_wait_if_paused (control_getter _)) as [[| |] g] eqn:Ew;
  [ destruct (next_img _ _) as [[nxt|] it] eqn:En | | ];
  injection H as <- <- <-.

Lemma one_inv fut (st st' : pool) tr0 acts fl :
  Inv tr0 st -> one fut st = (acts, st', fl) -> Inv (tr0 ++ acts) st'.
Proof.
  intros HI H. one_cases H g nxt it Ew En;
    (eapply Inv_complete with (p := snd fut); try eassumption; try reflexivity;
     rewrite emitted_app; reflexivity).
Qed.

Lemma filter_ids_nodup (fut : nat * Path) (l : list (nat * Path)) :
  NoDup (map fst l) ->
  NoDup (map fst (filter (fun f => negb (fst f =? fst fut)) l)).
Proof.
  induction l as [|f l IH]; simpl; intro H; [constructor|].
  inversion H as [|? ? Hn Hnd]; subst.
  destruct (negb (fst f =? fst fut)); simpl; [|apply IH, Hnd].
  constructor; [|apply IH, Hnd].
  intro Hin. apply Hn. apply in_map_iff in Hin.
  destruct Hin as (f' & He & Hf'). apply filter_In in Hf'.
  rewrite <- He. apply in_map, Hf'.
Qed.

Lemma one_valid fut (st st' : pool) acts fl :
  valid_futures st -> one fut st = (acts, st', fl) -> valid_futures st'.
Proof.
  intros [Hnd Hlt] H.
  assert (Hnd' : NoDup (map fst (filter (fun f => negb (fst f =? fst fut))
                                        (running st))))
    by (apply filter_ids_nodup, Hnd).
  assert (Hlt' : Forall (fun f => fst f < submitted st)
                        (filter (fun f => negb (fst f =? fst fut)) (running st))).
  { apply Forall_forall. intros f Hf. apply filter_In in Hf.
    rewrite Forall_forall in Hlt. apply Hlt, Hf. }
  one_cases H g nxt it Ew En; unfold valid_futures; simpl.
  - split.
    + rewrite map_app. simpl. apply NoDup_app; [exact Hnd' | | ].
      * repeat constructor. intros [].
      * intros n Hn [Hsub|[]]. apply in_map_iff in Hn.
        destruct Hn as (f & Hfn & Hf). rewrite Forall_forall in Hlt'.
        specialize (Hlt' f Hf). lia.
    + apply Forall_app. split.
      * eapply Forall_impl; [|exact Hlt']. simpl. intros; lia.
      * repeat constructor.
  - split; assumption.
  - split; constructor.
  - split; assumption.
Qed.

Lemma filter_drops (fut : nat * Path) (l : list (nat * Path)) :
  In fut l ->
  S (List.length (filter (fun f => negb (fst f =? fst fut)) l)) <= List.length l.
Proof.
  induction l as [|f l IH]; intros Hin; [destruct Hin|].
  simpl. destruct Hin as [->|Hin].
  - rewrite Nat.eqb_refl. simpl.
    pose proof (filter_length_le (fun f => negb (fst f =? fst fut)) l). lia.
  - specialize (IH Hin). destruct (negb (fst f =? fst fut)); simpl; lia.
Qed.

(** A completion takes one item off the backlog, whatever comes next. *)
Lemma one_count fut (st st' : pool) acts fl :
  In fut (running st) ->
  one fut st = (acts, st', fl) ->
  done st' = S (done st) /\ S (backlog st') <= backlog st.
Proof.
  intros Hin H. pose proof (filter_drops fut (running st) Hin) as Hf.
  pose proof (next_img_shrinks (snd fut :: seen st) (imgs_iter st)) as Hn.
  one_cases H g nxt it Ew En; unfold backlog; simpl; try rewrite En in Hn;
    simpl in Hn; rewrite ?length_app; simpl; split; try reflexivity; lia.
Qed.

(** How the body is left, and where a stop stands in what it did. *)
Lemma one_flow fut (st st' : pool) acts fl :
  one fut st = (acts, st', fl) ->
  (fl = Break /\ acts = [Emit (step_of (snd fut) st); StopSeen]
   /\ running st' = [])
  \/ (fl <> Break /\ has_stop acts = false).
Proof.
  intro H. one_cases H g nxt it Ew En;
    try (right; split; [discriminate | reflexivity]).
  left. repeat split.
Qed.

Lemma one_others fut (st st' : pool) acts :
  one fut st = (acts, st', Next) ->
  forall f, In f (running st) -> fst f <> fst fut -> In f (running st').
Proof.
  intros H f Hf Hne.
  assert (Hk : In f (filter (fun f => negb (fst f =? fst fut)) (running st))).
  { apply filter_In. split; [exact Hf|]. apply negb_true_iff, Nat.eqb_neq, Hne. }
  rewrite complete_one_eq in H.
  destruct (_wait_if_paused (control_getter st)) as [[| |] g];
    [destruct (next_img _ _) as [[nxt|] it] | | ];
    inversion H; subst; simpl; [apply in_or_app; left|]; exact Hk.
Qed.

Lemma one_halted fut (st st' : pool) acts fl :
  halted (control_getter st) = true ->
  one fut st = (acts, st', fl) ->
  fl = Break /\ acts = [Emit (step_of (snd fut) st); StopSeen]
  /\ halted (control_getter st') = true.
Proof.
  intros Hh H. destruct (wait_halted _ Hh) as (og' & Hw & Hh').
  rewrite complete_one_eq, Hw in H. injection H as <- <- <-.
  repeat split. exact Hh'.
Qed.

Lemma one_sticky fut (st st' : pool) acts fl :
  sticky (control_getter st) = true ->
  one fut st = (acts, st', fl) ->
  sticky (control_getter st') = true
  /\ (fl = Break -> halted (control_getter st') = true).
Proof.
  intros Hs H. rewrite complete_one_eq in H.
  destruct (_wait_if_paused (control_getter st)) as [v g] eqn:Ew.
  destruct (wait_sticky _ _ _ Hs Ew) as [Hs' Hh].
  destruct v; [destruct (next_img _ _) as [[nxt|] it] | | ];
    injection H as <- <- <-; simpl; split; auto; discriminate.
Qed.

End OneCompletion.

Lemma NoDup_app_ends {A : Type} (l1 l2 l3 : list A) :
  NoDup (l1 ++ l2 ++ l3) ->
  NoDup (l1 ++ l3) /\ forall x, In x l3 -> ~ In x l1.
Proof.
  intro H. split.
  - apply (NoDup_app_remove_l l2).
    eapply Permutation_NoDup; [|exact H].
    rewrite app_assoc, (Permutation_app_comm l1 l2), <- app_assoc. reflexivity.
  - intros x H3 H1. apply NoDup_app_remove_r in H as H'.
    clear H'. induction l1 as [|a l1 IH]; [destruct H1|].
    simpl in H. inversion H as [|? ? Hn Hnd]; subst.
    destruct H1 as [->|H1].
    + apply Hn. apply in_or_app. right. apply in_or_app. right. exact H3.
    + apply IH; assumption.
Qed.

Section OneCompletionItems.

Context {X : Type}.
Variable call : Path -> result (string * option Usage).
Variable parse : string -> result (list X).
Variable no_result_msg : string.
Variable total : nat.

Local Abbreviation arrived := (arrived call parse no_result_msg).
Local Abbreviation one := (complete_one call parse no_result_msg total).

(** The items after [fut] has moved from the futures in flight to the
    items seen. *)
Lemma arrival_items fut (st : pool (X := X)) g :
  NoDup (map fst (running st)) ->
  In fut (running st) ->
  Permutation (items (arrived g (snd fut) (without fut st))) (items st).
Proof.
  intros Hnd Hin. unfold items, arrived, without. simpl.
  pose proof (Permutation_map snd (remove_future fut (running st) Hnd Hin)) as Hp.
  simpl in Hp.
  rewrite (Permutation_middle (seen st) _ (snd fut)).
  apply Permutation_app_head.
  change (Permutation
            ((snd fut :: map snd (filter (fun f => negb (fst f =? fst fut))
                                         (running st))) ++ imgs_iter st)
            (map snd (running st) ++ imgs_iter st)).
  apply Permutation_app_tail. exact Hp.
Qed.

Lemma one_items fut (st st' : pool) acts fl :
  valid_futures st ->
  In fut (running st) ->
  NoDup (items st) ->
  one fut st = (acts, st', fl) ->
  NoDup (items st') /\ incl (items st') (items st)
  /\ (fl <> Break -> Permutation (items st') (items st))
  /\ (fl = Next -> running st' = [] -> imgs_iter st' = []).
Proof.
  intros [Hids _] Hin Hnd H.
  pose proof (arrival_items fut st (control_getter st) Hids Hin) as Hperm.
  set (A := items (arrived (control_getter st) (snd fut) (without fut st))) in *.
  assert (HndA : NoDup A)
    by (eapply Permutation_NoDup; [symmetry; exact Hperm | exact Hnd]).
  assert (HA : A = (snd fut :: seen st)
                   ++ map snd (filter (fun f => negb (fst f =? fst fut))
                                      (running st))
                   ++ imgs_iter st) by reflexivity.
  rewrite HA in HndA.
  destruct (NoDup_app_ends _ _ _ HndA) as [Hends Hfresh].
  rewrite <- HA in HndA.
  assert (Hcase :
            (fl = Break /\ items st' = (snd fut :: seen st) ++ imgs_iter st)
            \/ (fl <> Break /\ items st' = A
                /\ (fl = Next -> running st' = [] -> imgs_iter st' = []))).
  { rewrite complete_one_eq, (next_img_fresh _ _ Hfresh) in H.
    destruct (_wait_if_paused (control_getter st)) as [[| |] g].
    - right. rewrite HA.
      destruct (imgs_iter st) as [|nxt it]; injection H as <- <- <-;
        (split; [discriminate|]); unfold items; simpl.
      + split; [reflexivity | intros _ _; reflexivity].
      + split.
        * rewrite map_app. simpl. rewrite <- !app_assoc. reflexivity.
        * intros _ Hr. destruct (filter _ _); discriminate Hr.
    - left. injection H as <- <- <-. split; reflexivity.
    - right. injection H as <- <- <-. split; [discriminate|].
      split; [reflexivity | discriminate]. }
  destruct Hcase as [[-> Hi]|(Hfl & Hi & Hrun)]; rewrite Hi.
  - split; [exact Hends|]. split; [|split].
    + intros q Hq. eapply Permutation_in; [exact Hperm|].
      rewrite HA. apply in_app_iff in Hq. apply in_or_app.
      destruct Hq as [Hq|Hq]; [left; exact Hq|].
      right. apply in_or_app. right. exact Hq.
    + intro Hn. exfalso. apply Hn. reflexivity.
    + discriminate.
  - split; [exact HndA|]. split; [|split].
    + intros q Hq. eapply Permutation_in; [exact Hperm | exact Hq].
    + intros _. exact Hperm.
    + exact Hrun.
Qed.

(** Under a gate that never stops the body always goes on to the next
    future, and the gate stays open. *)
Lemma one_open fut (st st' : pool) acts fl :
  open_gate (control_getter st) = true ->
  one fut st = (acts, st', fl) ->
  fl = Next /\ open_gate (control_getter st') = true
  /\ has_stop acts = false.
Proof.
  intros Ho H. destruct (wait_open _ Ho) as (og' & Hw & Ho').
  rewrite complete_one_eq, Hw in H.
  destruct (next_img _ _) as [[nxt|] it]; injection H as <- <- <-;
    repeat split; exact Ho'.
Qed.

End OneCompletionItems.

(** ** The concurrent path: the futures of one wait *)

Section DoneSetFacts.

Context {X : Type}.
Variable call : Path -> result (string * option Usage).
Variable parse : string -> result (list X).
Variable no_result_msg : string.
Variable total : nat.

Local Abbreviation step_of := (step_of call parse no_result_msg total).
Local Abbreviation Inv := (Inv call parse no_result_msg total).
Local Abbreviation one := (complete_one call parse no_result_msg total).
Local Abbreviation each := (for_done_set call parse no_result_msg total).

(** To show a property of the loop over a done set, show it of the empty
    loop, of a body that ends the loop, and of a body followed by a loop
    that has it. *)
Lemma for_done_set_rule (Q : pool -> list action -> pool -> flow -> Prop) :
  (forall st, Q st [] st Next) ->
  (forall fut st acts st' fl,
      valid_futures st -> In fut (running st) ->
      one fut st = (acts, st', fl) -> fl <> Next -> Q st acts st' fl) ->
  (forall fut st acts1 st1 acts2 st2 fl,
      valid_futures st -> In fut (running st) ->
      one fut st = (acts1, st1, Next) ->
      Q st1 acts2 st2 fl -> Q st (acts1 ++ acts2) st2 fl) ->
  forall done_set st acts st' fl,
    valid_futures st -> done_set_ok done_set st ->
    each done_set st = (acts, st', fl) -> Q st acts st' fl.
Proof.
  intros Hnil Hend Hnext.
  induction done_set as [|fut others IH]; intros st acts st' fl Hv [Hnd Hin] H.
  - injection H as <- <- <-. apply Hnil.
  - assert (Hfut : In fut (running st)) by (apply Hin; left; reflexivity).
    simpl in H. destruct (one fut st) as [[acts1 st1] fl1] eqn:E1.
    destruct fl1.
    + destruct (each others st1) as [[acts2 st2] fl2] eqn:E2.
      injection H as <- <- <-.
      apply (Hnext fut st acts1 st1 acts2 st2 fl2 Hv Hfut E1).
      apply IH; [eapply one_valid; eassumption | | exact E2].
      simpl in Hnd. inversion Hnd as [|? ? Hnotin Hnd']; subst.
      split; [exact Hnd'|].
      intros f Hf. apply (one_others _ _ _ _ _ _ _ _ E1).
      * apply Hin. right. exact Hf.
      * intro He. apply Hnotin. rewrite <- He. apply in_map, Hf.
    + injection H as <- <- <-.
      apply (Hend fut st acts1 st1 Break Hv Hfut E1). discriminate.
    + injection H as <- <- <-.
      apply (Hend fut st acts1 st1 Stuck Hv Hfut E1). discriminate.
Qed.

Lemma each_valid done_set (st st' : pool) acts fl :
  valid_futures st -> done_set_ok done_set st ->
  each done_set st = (acts, st', fl) -> valid_futures st'.
Proof.
  intros Hv Hok H.
  apply (for_done_set_rule
           (fun st _ st' _ => valid_futures st -> valid_futures st'))
    with (done_set := done_set) (acts := acts) (fl := fl) (st := st);
    try assumption.
  - auto.
  - intros. eapply one_valid; eassumption.
  - intros ? ? ? ? ? ? ? ? ? E1 IH ?. apply IH. eapply one_valid; eassumption.
Qed.

Lemma each_inv done_set (st st' : pool) acts fl tr0 :
  valid_futures st -> done_set_ok done_set st ->
  each done_set st = (acts, st', fl) ->
  Inv tr0 st -> Inv (tr0 ++ acts) st'.
Proof.
  intros Hv Hok H. revert tr0.
  apply (for_done_set_rule
           (fun st acts st' _ => forall tr0, Inv tr0 st -> Inv (tr0 ++ acts) st'))
    with (done_set := done_set) (fl := fl); try assumption.
  - intros s tr0 HI. rewrite app_nil_r. exact HI.
  - intros. eapply one_inv; eassumption.
  - intros ? ? ? ? ? ? ? ? ? E1 IH tr0 HI. rewrite app_assoc. apply IH.
    eapply one_inv; eassumption.
Qed.

(** The loop takes nothing off the backlog only when it does nothing. *)
Lemma each_count done_set (st st' : pool) acts fl :
  valid_futures st -> done_set_ok done_set st ->
  each done_set st = (acts, st', fl) ->
  done st' + backlog st' <= done st + backlog st
  /\ ((st' = st /\ acts = [] /\ fl = Next) \/ S (backlog st') <= backlog st).
Proof.
  intros Hv Hok H.
  apply (for_done_set_rule
           (fun st acts st' fl =>
              done st' + backlog st' <= done st + backlog st
              /\ ((st' = st /\ acts = [] /\ fl = Next)
                  \/ S (backlog st') <= backlog st)))
    with (done_set := done_set); try assumption.
  - intro s. split; [lia | left; repeat split].
  - intros fut s a s' f _ Hin E _.
    destruct (one_count _ _ _ _ _ _ _ _ _ Hin E) as [Hd Hb].
    split; [lia | right; exact Hb].
  - intros fut s a1 s1 a2 s2 f _ Hin E [IH1 IH2].
    destruct (one_count _ _ _ _ _ _ _ _ _ Hin E) as [Hd Hb].
    split; [lia|]. right. destruct IH2 as [(-> & _ & _)|IH2]; lia.
Qed.

(** A stop ends the loop and empties the set of futures in flight. *)
Lemma each_flow done_set (st st' : pool) acts fl :
  valid_futures st -> done_set_ok done_set st ->
  each done_set st = (acts, st', fl) ->
  (fl = Break /\ running st' = []
   /\ exists pre, acts = pre ++ [StopSeen] /\ has_stop pre = false)
  \/ (fl <> Break /\ has_stop acts = false).
Proof.
  intros Hv Hok H.
  apply (for_done_set_rule
           (fun st acts st' fl =>
              (fl = Break /\ running st' = []
               /\ exists pre, acts = pre ++ [StopSeen] /\ has_stop pre = false)
              \/ (fl <> Break /\ has_stop acts = false)))
    with (done_set := done_set) (st := st); try assumption.
  - intro s. right. split; [discriminate | reflexivity].
  - intros fut s a s' f _ _ E _.
    destruct (one_flow _ _ _ _ _ _ _ _ _ E) as [(-> & -> & Hr)|[Hn Hs]].
    + left. split; [reflexivity|]. split; [exact Hr|].
      exists [Emit (step_of (snd fut) s)]. split; reflexivity.
    + right. split; assumption.
  - intros fut s a1 s1 a2 s2 f _ _ E IH.
    destruct (one_flow _ _ _ _ _ _ _ _ _ E) as [(Hb & _)|[_ Hs1]];
      [discriminate|].
    destruct IH as [(-> & Hr & pre & -> & Hp)|[Hn Hs]].
    + left. split; [reflexivity|]. split; [exact Hr|].
      exists (a1 ++ pre). split; [apply app_assoc|].
      rewrite has_stop_app, Hs1, Hp. reflexivity.
    + right. split; [exact Hn|]. rewrite has_stop_app, Hs1, Hs. reflexivity.
Qed.

Lemma each_items done_set (st st' : pool) acts fl :
  valid_futures st -> done_set_ok done_set st ->
  each done_set st = (acts, st', fl) ->
  NoDup (items st) ->
  NoDup (items st') /\ incl (items st') (items st)
  /\ (fl <> Break -> Permutation (items st') (items st))
  /\ (fl = Next -> (running st = [] -> imgs_iter st = []) ->
      running st' = [] -> imgs_iter st' = []).
Proof.
  intros Hv Hok H.
  apply (for_done_set_rule
           (fun st acts st' fl =>
              NoDup (items st) ->
              NoDup (items st') /\ incl (items st') (items st)
              /\ (fl <> Break -> Permutation (items st') (items st))
              /\ (fl = Next -> (running st = [] -> imgs_iter st = []) ->
                  running st' = [] -> imgs_iter st' = [])))
    with (done_set := done_set) (acts := acts); try assumption.
  - intros s Hnd. split; [exact Hnd|]. split; [apply incl_refl|].
    split; [reflexivity | auto].
  - intros fut s a s' f Hvs Hin E Hf Hnd.
    destruct (one_items _ _ _ _ _ _ _ _ _ Hvs Hin Hnd E) as (H1 & H2 & H3 & H4).
    repeat split; auto; try (intros ->; contradiction).
  - intros fut s a1 s1 a2 s2 f Hvs Hin E IH Hnd.
    destruct (one_items _ _ _ _ _ _ _ _ _ Hvs Hin Hnd E) as (H1 & H2 & H3 & H4).
    destruct (IH H1) as (I1 & I2 & I3 & I4).
    split; [exact I1|]. split; [|split].
    + intros q Hq. apply H2, I2, Hq.
    + intro Hf. rewrite (I3 Hf). apply H3. discriminate.
    + intros Hf _. apply (I4 Hf). apply H4. reflexivity.
Qed.

Lemma each_open done_set (st st' : pool) acts fl :
  valid_futures st -> done_set_ok done_set st ->
  each done_set st = (acts, st', fl) ->
  open_gate (control_getter st) = true ->
  fl = Next /\ open_gate (control_getter st') = true /\ has_stop acts = false.
Proof.
  intros Hv Hok H.
  apply (for_done_set_rule
           (fun st acts st' fl =>
              open_gate (control_getter st) = true ->
              fl = Next /\ open_gate (control_getter st') = true
              /\ has_stop acts = false))
    with (done_set := done_set); try assumption.
  - intros s Ho. repeat split. exact Ho.
  - intros fut s a s' f _ _ E _ Ho. eapply one_open; eassumption.
  - intros fut s a1 s1 a2 s2 f _ _ E IH Ho.
    destruct (one_open _ _ _ _ _ _ _ _ _ Ho E) as (_ & Ho1 & Hs1).
    destruct (IH Ho1) as (-> & Ho2 & Hs2).
    repeat split; [exact Ho2|]. rewrite has_stop_app, Hs1, Hs2. reflexivity.
Qed.

(** Once the gate says stop and nothing else, the loop reports the first
    future it visits and stops there. *)
Lemma each_halted done_set (st st' : pool) acts fl :
  valid_futures st -> done_set_ok done_set st ->
  each done_set st = (acts, st', fl) ->
  halted (control_getter st) = true ->
  (acts = [] /\ st' = st /\ fl = Next)
  \/ (fl = Break /\ running st' = []
      /\ exists p s, acts = [Emit (step_of p s); StopSeen]).
Proof.
  intros Hv Hok H.
  apply (for_done_set_rule
           (fun st acts st' fl =>
              halted (control_getter st) = true ->
              (acts = [] /\ st' = st /\ fl = Next)
              \/ (fl = Break /\ running st' = []
                  /\ exists p s, acts = [Emit (step_of p s); StopSeen])))
    with (done_set := done_set); try assumption.
  - intros s _. left. repeat split.
  - intros fut s a s' f _ _ E _ Hh.
    destruct (one_halted _ _ _ _ _ _ _ _ _ Hh E) as (-> & -> & _).
    destruct (one_flow _ _ _ _ _ _ _ _ _ E) as [(_ & _ & Hr)|[Hn _]];
      [|exfalso; apply Hn; reflexivity].
    right. split; [reflexivity|]. split; [exact Hr|].
    exists (snd fut), s. reflexivity.
  - intros fut s a1 s1 a2 s2 f _ _ E _ Hh.
    destruct (one_halted _ _ _ _ _ _ _ _ _ Hh E) as (Hb & _). discriminate.
Qed.

Lemma each_sticky done_set (st st' : pool) acts fl :
  valid_futures st -> done_set_ok done_set st ->
  each done_set st = (acts, st', fl) ->
  sticky (control_getter st) = true ->
  sticky (control_getter st') = true
  /\ (fl = Break -> halted (control_getter st') = true).
Proof.
  intros Hv Hok H.
  apply (for_done_set_rule
           (fun st acts st' fl =>
              sticky (control_getter st) = true ->
              sticky (control_getter st') = true
              /\ (fl = Break -> halted (control_getter st') = true)))
    with (done_set := done_set) (acts := acts); try assumption.
  - intros s Hs. split; [exact Hs | discriminate].
  - intros fut s a s' f _ _ E _ Hs. eapply one_sticky; eassumption.
  - intros fut s a1 s1 a2 s2 f _ _ E IH Hs.
    destruct (one_sticky _ _ _ _ _ _ _ _ _ Hs E) as [Hs1 _]. apply IH, Hs1.
Qed.

End DoneSetFacts.

(** ** The concurrent path: the waiting loop *)

Lemma filter_keeps_ids_nodup (keep : nat * Path -> bool)
  (l : list (nat * Path)) :
  NoDup (map fst l) -> NoDup (map fst (filter keep l)).
Proof.
  induction l as [|f l IH]; simpl; intro H; [constructor|].
  inversion H as [|? ? Hn Hnd]; subst.
  destruct (keep f); simpl; [|apply IH, Hnd].
  constructor; [|apply IH, Hnd].
  intro Hin. apply Hn. apply in_map_iff in Hin.
  destruct Hin as (f' & He & Hf'). apply filter_In in Hf'.
  rewrite <- He. apply in_map, Hf'.
Qed.

Lemma wait_ok {X : Type} sched (st : pool (X := X)) :
  valid_futures st -> done_set_ok (wait sched (running st)) st.
Proof.
  intros [Hnd _]. unfold done_set_ok, wait. destruct sched as [|ids ?].
  - destruct (running st) as [|f l]; simpl.
    + split; [apply NoDup_nil | apply incl_refl].
    + split; [apply NoDup_cons; [intros [] | apply NoDup_nil] |].
      intros x [<-|[]]. left. reflexivity.
  - split.
    + pose proof (NoDup_nodup Nat.eq_dec ids) as Hids.
      induction (nodup Nat.eq_dec ids) as [|i l IH]; simpl; [constructor|].
      inversion Hids as [|? ? Hnotin Hl]; subst.
      rewrite map_app. apply NoDup_app.
      * apply filter_keeps_ids_nodup, Hnd.
      * apply IH, Hl.
      * intros n Hn1 Hn2. apply in_map_iff in Hn1, Hn2.
        destruct Hn1 as (f1 & <- & Hf1). destruct Hn2 as (f2 & He & Hf2).
        apply filter_In in Hf1. destruct Hf1 as [_ Hf1].
        apply Nat.eqb_eq in Hf1.
        apply in_flat_map in Hf2. destruct Hf2 as (j & Hj & Hf2).
        apply filter_In in Hf2. destruct Hf2 as [_ Hf2].
        apply Nat.eqb_eq in Hf2. apply Hnotin. congruence.
    + intros f Hf. apply in_flat_map in Hf. destruct Hf as (i & _ & Hf).
      apply filter_In in Hf. apply Hf.
Qed.

Section DrainFacts.

Context {X : Type}.
Variable call : Path -> result (string * option Usage).
Variable parse : string -> result (list X).
Variable no_result_msg : string.
Variable total : nat.

Local Abbreviation Inv := (Inv call parse no_result_msg total).
Local Abbreviation each := (for_done_set call parse no_result_msg total).
Local Abbreviation drain := (drain call parse no_result_msg).
Local Abbreviation step_of := (step_of call parse no_result_msg total).

Lemma drain_idle fuel sched (st : pool (X := X)) :
  running st = [] -> drain fuel total sched st = mkRun [] st Returned.
Proof.
  intro H. destruct fuel; simpl; rewrite H; reflexivity.
Qed.

(** To show a property of the waiting loop, show it of a loop with
    nothing in flight, of a loop out of fuel, of a loop whose pause never
    ends, and of one round followed by a loop that has it. *)
Lemma drain_rule (Q : pool -> run -> Prop) :
  (forall st, running st = [] -> Q st (mkRun [] st Returned)) ->
  (forall st, running st <> [] -> Q st (mkRun [] st Starved)) ->
  (forall st done_set acts st',
      valid_futures st -> done_set_ok done_set st -> running st <> [] ->
      each done_set st = (acts, st', Stuck) ->
      Q st (mkRun acts st' Blocked)) ->
  (forall st done_set acts st' fl fuel sched,
      valid_futures st -> done_set_ok done_set st -> running st <> [] ->
      each done_set st = (acts, st', fl) -> fl <> Stuck ->
      Q st' (drain fuel total sched st') ->
      Q st (after acts (drain fuel total sched st'))) ->
  forall fuel sched st,
    valid_futures st -> Q st (drain fuel total sched st).
Proof.
  intros Hidle Hstarved Hstuck Hround.
  induction fuel as [|fuel IH]; intros sched st Hv.
  - simpl. destruct (running st) eqn:Er.
    + apply Hidle, Er.
    + apply Hstarved. rewrite Er. discriminate.
  - simpl. destruct (running st) as [|f0 more] eqn:Er.
    + apply Hidle, Er.
    + rewrite <- Er.
      assert (Hne : running st <> []) by (rewrite Er; discriminate).
      pose proof (wait_ok sched st Hv) as Hok.
      destruct (each (wait sched (running st)) st) as [[acts st'] fl] eqn:E.
      assert (Hv' : valid_futures st') by (eapply each_valid; eassumption).
      destruct fl.
      * eapply Hround; try eassumption; [discriminate | apply IH, Hv'].
      * eapply Hround; try eassumption; [discriminate | apply IH, Hv'].
      * eapply Hstuck; eassumption.
Qed.

Lemma drain_valid fuel sched (st : pool) :
  valid_futures st -> valid_futures (final (drain fuel total sched st)).
Proof.
  intro Hv.
  apply (drain_rule (fun st r => valid_futures st -> valid_futures (final r)));
    try assumption; simpl; auto.
  - intros. eapply each_valid; eassumption.
  - intros ? ? ? ? ? ? ? ? ? ? E ? IH ?. apply IH.
    eapply each_valid; eassumption.
Qed.

Lemma drain_inv fuel sched (st : pool) tr0 :
  valid_futures st -> Inv tr0 st ->
  Inv (tr0 ++ trace (drain fuel total sched st))
      (final (drain fuel total sched st)).
Proof.
  intro Hv. revert tr0.
  apply (drain_rule
           (fun st r => forall tr0, Inv tr0 st -> Inv (tr0 ++ trace r) (final r)));
    try assumption; simpl.
  - intros s _ tr0 HI. rewrite app_nil_r. exact HI.
  - intros s _ tr0 HI. rewrite app_nil_r. exact HI.
  - intros. eapply each_inv; eassumption.
  - intros s ds acts s' fl fu sc Hvs Hok _ E _ IH tr0 HI.
    rewrite app_assoc. apply IH. eapply each_inv; eassumption.
Qed.

Lemma drain_count fuel sched (st : pool) :
  valid_futures st ->
  done (final (drain fuel total sched st)) <= done st + backlog st.
Proof.
  intro Hv.
  apply (drain_rule (fun st r => done (final r) <= done st + backlog st));
    try assumption; simpl; try (intros; lia).
  - intros s ds acts s' Hvs Hok _ E.
    destruct (each_count _ _ _ _ _ _ _ _ _ Hvs Hok E) as [Hc _]. lia.
  - intros s ds acts s' fl fu sc Hvs Hok _ E _ IH.
    destruct (each_count _ _ _ _ _ _ _ _ _ Hvs Hok E) as [Hc _]. lia.
Qed.

(** A stop seen in the waiting loop is its last action, and the loop
    returns. *)
Lemma drain_stop fuel sched (st : pool) :
  valid_futures st ->
  has_stop (trace (drain fuel total sched st)) = false
  \/ (exists pre, trace (drain fuel total sched st) = pre ++ [StopSeen]
                  /\ has_stop pre = false
                  /\ how (drain fuel total sched st) = Returned).
Proof.
  intro Hv.
  apply (drain_rule
           (fun st r =>
              has_stop (trace r) = false
              \/ (exists pre, trace r = pre ++ [StopSeen]
                              /\ has_stop pre = false /\ how r = Returned)));
    try assumption; simpl; auto.
  - intros s ds acts s' Hvs Hok _ E.
    destruct (each_flow _ _ _ _ _ _ _ _ _ Hvs Hok E) as [(Hb & _)|[_ Hs]];
      [discriminate | left; exact Hs].
  - intros s ds acts s' fl fu sc Hvs Hok _ E _ IH.
    destruct (each_flow _ _ _ _ _ _ _ _ _ Hvs Hok E)
      as [(_ & Hr & pre & -> & Hp)|[_ Hs]].
    + rewrite (drain_idle _ _ _ Hr). simpl. right. exists pre.
      rewrite app_nil_r. repeat split. exact Hp.
    + destruct IH as [IH|(pre & Hpre & Hp & Hh)].
      * left. rewrite has_stop_app, Hs, IH. reflexivity.
      * right. exists (acts ++ pre). rewrite Hpre, app_assoc.
        repeat split; [|exact Hh]. rewrite has_stop_app, Hs, Hp. reflexivity.
Qed.

Lemma drain_items fuel sched (st : pool) :
  valid_futures st -> NoDup (items st) ->
  NoDup (items (final (drain fuel total sched st)))
  /\ incl (items (final (drain fuel total sched st))) (items st).
Proof.
  intro Hv.
  apply (drain_rule
           (fun st r => NoDup (items st) ->
                        NoDup (items (final r)) /\ incl (items (final r)) (items st)));
    try assumption; simpl.
  - intros s _ H. split; [exact H | apply incl_refl].
  - intros s _ H. split; [exact H | apply incl_refl].
  - intros s ds acts s' Hvs Hok _ E Hnd.
    destruct (each_items _ _ _ _ _ _ _ _ _ Hvs Hok E Hnd) as (H1 & H2 & _).
    split; assumption.
  - intros s ds acts s' fl fu sc Hvs Hok _ E _ IH Hnd.
    destruct (each_items _ _ _ _ _ _ _ _ _ Hvs Hok E Hnd) as (H1 & H2 & _).
    destruct (IH H1) as [I1 I2]. split; [exact I1|].
    intros q Hq. apply H2, I2, Hq.
Qed.

(** With the gate halted the loop dispatches nothing and reports at most
    one more step. *)
Lemma drain_halted fuel sched (st : pool) :
  valid_futures st -> halted (control_getter st) = true ->
  (trace (drain fuel total sched st) = []
   \/ exists p s, trace (drain fuel total sched st)
                  = [Emit (step_of p s); StopSeen])
  /\ how (drain fuel total sched st) <> Blocked.
Proof.
  intro Hv.
  apply (drain_rule
           (fun st r => halted (control_getter st) = true ->
                        (trace r = []
                         \/ exists p s, trace r = [Emit (step_of p s); StopSeen])
                        /\ how r <> Blocked));
    try assumption; simpl.
  - intros s _ _. split; [left; reflexivity | discriminate].
  - intros s _ _. split; [left; reflexivity | discriminate].
  - intros s ds acts s' Hvs Hok _ E Hh.
    destruct (each_halted _ _ _ _ _ _ _ _ _ Hvs Hok E Hh)
      as [(_ & _ & Hf)|(Hf & _)]; discriminate.
  - intros s ds acts s' fl fu sc Hvs Hok _ E _ IH Hh.
    destruct (each_halted _ _ _ _ _ _ _ _ _ Hvs Hok E Hh)
      as [(-> & -> & _)|(_ & Hr & p & s0 & ->)].
    + simpl. apply IH, Hh.
    + rewrite (drain_idle _ _ _ Hr). simpl.
      split; [right; exists p, s0; reflexivity | discriminate].
Qed.

End DrainFacts.

Section DrainFuel.

Context {X : Type}.
Variable call : Path -> result (string * option Usage).
Variable parse : string -> result (list X).
Variable no_result_msg : string.
Variable total : nat.

Local Abbreviation each := (for_done_set call parse no_result_msg total).
Local Abbreviation drain := (drain call parse no_result_msg).

Lemma each_acts fut others (st st' : pool (X := X)) acts fl :
  each (fut :: others) st = (acts, st', fl) -> acts <> [].
Proof.
  simpl. rewrite complete_one_eq.
  destruct (_wait_if_paused (control_getter st)) as [[| |] g];
    [destruct (next_img _ _) as [[nxt|] it] | | ];
    try (destruct (each others _) as [[a2 s2] f2]);
    intro H; injection H as <- <- <-; discriminate.
Qed.

(** The fuel [process_loop] gives the waiting loop is enough. *)
Lemma drain_fuel fuel : forall sched (st : pool),
  valid_futures st ->
  List.length sched + backlog st <= fuel ->
  how (drain fuel total sched st) <> Starved.
Proof.
  induction fuel as [|fuel IH]; intros sched st Hv Hfuel.
  - simpl. destruct (running st) eqn:Er; [discriminate|].
    unfold backlog in Hfuel. rewrite Er in Hfuel. simpl in Hfuel. lia.
  - simpl. destruct (running st) as [|f0 more] eqn:Er; [discriminate|].
    rewrite <- Er.
    pose proof (wait_ok sched st Hv) as Hok.
    destruct (each (wait sched (running st)) st) as [[acts st'] fl] eqn:E.
    assert (Hv' : valid_futures st') by (eapply each_valid; eassumption).
    destruct (each_count _ _ _ _ _ _ _ _ _ Hv Hok E) as [_ Hc].
    assert (Hgo : how (drain fuel total (tl sched) st') <> Starved).
    { apply IH; [exact Hv'|]. destruct sched as [|ids rest].
      - destruct Hc as [(_ & Ha & _)|Hc]; [|simpl in *; lia].
        exfalso. unfold wait in E. rewrite Er in E. cbn [firstn] in E.
        apply (each_acts _ _ _ _ _ _ E Ha).
      - simpl in Hfuel |- *. destruct Hc as [(-> & _ & _)|Hc]; lia. }
    destruct fl; simpl; try exact Hgo. discriminate.
Qed.

(** Under a gate that never stops, the waiting loop ends with every item
    completed. *)
Lemma drain_open fuel sched (st : pool) :
  valid_futures st ->
  open_gate (control_getter st) = true ->
  NoDup (items st) ->
  (running st = [] -> imgs_iter st = []) ->
  how (drain fuel total sched st) <> Starved ->
  how (drain fuel total sched st) = Returned
  /\ has_stop (trace (drain fuel total sched st)) = false
  /\ Permutation (seen (final (drain fuel total sched st))) (items st).
Proof.
  intro Hv.
  apply (drain_rule call parse no_result_msg total
           (fun st r =>
              open_gate (control_getter st) = true ->
              NoDup (items st) ->
              (running st = [] -> imgs_iter st = []) ->
              how r <> Starved ->
              how r = Returned /\ has_stop (trace r) = false
              /\ Permutation (seen (final r)) (items st)));
    try assumption; simpl.
  - intros s Hr _ _ Hi _. repeat split. unfold items.
    rewrite Hr, (Hi Hr). simpl. rewrite app_nil_r. reflexivity.
  - intros s _ _ _ _ H. exfalso. apply H. reflexivity.
  - intros s ds acts s' Hvs Hok _ E Ho.
    destruct (each_open _ _ _ _ _ _ _ _ _ Hvs Hok E Ho) as (Hf & _).
    discriminate.
  - intros s ds acts s' fl fu sc Hvs Hok _ E _ IH Ho Hnd Hi Hst.
    destruct (each_open _ _ _ _ _ _ _ _ _ Hvs Hok E Ho) as (-> & Ho' & Hs).
    destruct (each_items _ _ _ _ _ _ _ _ _ Hvs Hok E Hnd) as (H1 & _ & H3 & H4).
    destruct IH as (I1 & I2 & I3); try assumption.
    { apply H4; [reflexivity | exact Hi]. }
    split; [exact I1|]. split.
    + rewrite has_stop_app, Hs, I2. reflexivity.
    + rewrite I3. apply H3. discriminate.
Qed.

End DrainFuel.

(** ** The concurrent path: the initial submission *)

Section InitialFacts.

Context {X : Type}.
Variable call : Path -> result (string * option Usage).
Variable parse : string -> result (list X).
Variable no_result_msg : string.
Variable total : nat.

Local Abbreviation Inv := (Inv call parse no_result_msg total).

Lemma submit_valid nxt (st : pool (X := X)) :
  valid_futures st -> valid_futures (submit nxt st).
Proof.
  intros [Hnd Hlt]. unfold valid_futures. simpl. split.
  - rewrite map_app. simpl. apply NoDup_app; [exact Hnd | | ].
    + apply NoDup_cons; [intros [] | apply NoDup_nil].
    + intros n Hn [Hsub|[]]. apply in_map_iff in Hn.
      destruct Hn as (f & Hfn & Hf). rewrite Forall_forall in Hlt.
      specialize (Hlt f Hf). lia.
  - apply Forall_app. split.
    + eapply Forall_impl; [|exact Hlt]. simpl. intros; lia.
    + repeat constructor.
Qed.

(** The initial submission completes nothing: it moves items from the
    iterator into flight until the pool is full or a stop is seen. *)
Lemma initial_submit_facts room : forall (st : pool (X := X)),
  valid_futures st ->
  let r := initial_submit room st in
  valid_futures (final r)
  /\ seen (final r) = seen st /\ done (final r) = done st
  /\ image_results (final r) = image_results st
  /\ emitted (trace r) = []
  /\ backlog (final r) <= backlog st
  /\ stop_ends (trace r) (how r)
  /\ (sticky (control_getter st) = true ->
      sticky (control_getter (final r)) = true
      /\ (has_stop (trace r) = true ->
          halted (control_getter (final r)) = true)).
Proof.
  induction room as [|room IH]; intros st Hv; cbn zeta.
  - simpl. split; [exact Hv|]. repeat split; auto.
    + left. split; [reflexivity | discriminate].
    + discriminate.
  - simpl. destruct (_wait_if_paused (control_getter st)) as [v g] eqn:Ew.
    destruct v.
    + pose proof (next_img_shrinks (seen st) (imgs_iter st)) as Hsh.
      destruct (next_img (seen st) (imgs_iter st)) as [[nxt|] it] eqn:En;
        simpl in Hsh.
      * specialize (IH (submit nxt (with_iter it (with_getter g st)))).
        cbn zeta in IH.
        destruct IH as (I1 & I2 & I3 & I4 & I5 & I6 & I7 & I8).
        { apply submit_valid. exact Hv. }
        simpl. split; [exact I1|]. repeat split; try assumption.
        -- unfold backlog in *. simpl in I6. rewrite length_app in I6.
           simpl in I6. lia.
        -- destruct I7 as [[Hn Hh]|(pre & Hpre & Hp & Hh)].
           ++ left. split; assumption.
           ++ right. exists (Dispatch nxt :: pre). rewrite Hpre.
              repeat split; assumption.
        -- destruct (wait_sticky _ _ _ H Ew) as [Hs' _].
           apply I8. exact Hs'.
        -- destruct (wait_sticky _ _ _ H Ew) as [Hs' _].
           apply I8. exact Hs'.
      * simpl. split; [exact Hv|]. repeat split.
        -- unfold backlog. simpl. lia.
        -- left. split; [reflexivity | discriminate].
        -- apply (wait_sticky _ _ _ H Ew).
        -- discriminate.
    + simpl. split; [exact Hv|]. repeat split.
      * unfold backlog. simpl. lia.
      * right. exists []. repeat split.
      * apply (wait_sticky _ _ _ H Ew).
      * intros _. destruct (wait_sticky _ _ _ H Ew) as [_ Hh].
        apply Hh. reflexivity.
    + simpl. split; [exact Hv|]. repeat split.
      * unfold backlog. simpl. lia.
      * left. split; [reflexivity | discriminate].
      * apply (wait_sticky _ _ _ H Ew).
      * discriminate.
Qed.

End InitialFacts.

Section InitialItems.

Context {X : Type}.

Lemma iter_fresh (st : pool (X := X)) :
  NoDup (items st) -> forall q, In q (imgs_iter st) -> ~ In q (seen st).
Proof.
  unfold items. intro H. apply (NoDup_app_ends _ _ _ H).
Qed.

(** Nothing is lost in the initial submission, and under a gate that
    never stops it ends with the pool full or the iterator empty. *)
Lemma initial_submit_items room : forall (st : pool (X := X)),
  NoDup (items st) ->
  items (final (initial_submit room st)) = items st
  /\ (1 <= room \/ running st <> [] ->
      how (initial_submit room st) = Returned ->
      has_stop (trace (initial_submit room st)) = false ->
      running (final (initial_submit room st)) = [] ->
      imgs_iter (final (initial_submit room st)) = [])
  /\ (open_gate (control_getter st) = true ->
      how (initial_submit room st) = Returned
      /\ has_stop (trace (initial_submit room st)) = false
      /\ open_gate (control_getter (final (initial_submit room st))) = true).
Proof.
  induction room as [|room IH]; intros st Hnd.
  - simpl. split; [reflexivity|]. split.
    + intros [H|H] _ _ Hr; [lia | contradiction].
    + intro Ho. repeat split. exact Ho.
  - simpl. rewrite (next_img_fresh _ _ (iter_fresh st Hnd)).
    destruct (_wait_if_paused (control_getter st)) as [v g] eqn:Ew.
    destruct v.
    + destruct (imgs_iter st) as [|nxt it] eqn:Eit.
      * simpl. split; [unfold items; simpl; rewrite Eit; reflexivity|]. split.
        -- intros. reflexivity.
        -- intro Ho. destruct (wait_open _ Ho) as (og' & Hw & Ho').
           rewrite Hw in Ew. injection Ew as <-. repeat split. exact Ho'.
      * assert (Hitems : items (submit nxt (with_iter it (with_getter g st)))
                         = items st).
        { unfold items. simpl. rewrite Eit, map_app. simpl.
          rewrite <- !app_assoc. reflexivity. }
        destruct (IH (submit nxt (with_iter it (with_getter g st))))
          as (I1 & I2 & I3).
        { rewrite Hitems. exact Hnd. }
        simpl. split; [rewrite I1; exact Hitems|]. split.
        -- intros _ Hh Hs. apply I2; try assumption.
           right. simpl. destruct (running st); discriminate.
        -- intro Ho. destruct (wait_open _ Ho) as (og' & Hw & Ho').
           rewrite Hw in Ew. injection Ew as <-. apply I3. exact Ho'.
    + simpl. split; [reflexivity|]. split.
      * intros _ _ Hs. discriminate.
      * intro Ho. destruct (wait_open _ Ho) as (og' & Hw & Ho').
        rewrite Hw in Ew. discriminate.
    + simpl. split; [reflexivity|]. split.
      * intros _ Hh. discriminate.
      * intro Ho. destruct (wait_open _ Ho) as (og' & Hw & Ho').
        rewrite Hw in Ew. discriminate.
Qed.

End InitialItems.

(** ** The whole loop *)

Lemma has_stop_false_app a b :
  has_stop (a ++ b) = false -> has_stop a = false /\ has_stop b = false.
Proof.
  rewrite has_stop_app. apply orb_false_iff.
Qed.

(** The first stop of a trace splits it in one way only. *)
Lemma first_stop_unique pre post pre' post' :
  pre ++ StopSeen :: post = pre' ++ StopSeen :: post' ->
  has_stop pre = false -> has_stop pre' = false ->
  pre = pre' /\ post = post'.
Proof.
  revert pre'. induction pre as [|a pre IH]; intros pre' H Hp Hp'.
  - destruct pre' as [|a' pre']; simpl in H.
    + injection H as <-. split; reflexivity.
    + injection H as <- _. discriminate Hp'.
  - destruct pre' as [|a' pre']; simpl in H.
    + injection H as -> _. discriminate Hp.
    + injection H as <- H.
      destruct (IH pre' H) as [-> ->].
      * destruct a; simpl in Hp; [exact Hp | exact Hp | discriminate].
      * destruct a; simpl in Hp'; [exact Hp' | exact Hp' | discriminate].
      * split; reflexivity.
Qed.

Section LoopFacts.

Context {X : Type}.
Variable call : Path -> result (string * option Usage).
Variable parse : string -> result (list X).
Variable no_result_msg : string.

Local Abbreviation Inv := (Inv call parse no_result_msg).
Local Abbreviation step_of := (step_of call parse no_result_msg).
Local Abbreviation loop := (process_loop call parse no_result_msg).

Variable total : nat.
Variable max_workers : nat.
Variable sched : list (list nat).
Variable images : list Path.
Variable og : option gate_script.

Local Abbreviation r := (loop total max_workers sched images (fresh_pool (X := X) og)).
Local Abbreviation st1 := (with_running [] (with_iter images (fresh_pool (X := X) og))).
Local Abbreviation r1 := (initial_submit max_workers st1).
Local Abbreviation r2 :=
  (drain call parse no_result_msg (List.length sched + List.length images)
         total sched (final r1)).

Lemma loop_eq :
  r = if 1 <? max_workers
      then match how r1 with
           | Returned => after (trace r1) r2
           | _ => r1
           end
      else sequential call parse no_result_msg total images (fresh_pool (X := X) og).
Proof.
  unfold process_loop. simpl. rewrite Nat.sub_0_r. reflexivity.
Qed.

Lemma st1_valid : valid_futures st1.
Proof. split; simpl; constructor. Qed.

Lemma st1_items : items st1 = images.
Proof. reflexivity. Qed.

Lemma r1_valid : valid_futures (final r1).
Proof. apply (initial_submit_facts max_workers st1 st1_valid). Qed.

Lemma r2_fuel : how r2 <> Starved.
Proof.
  apply drain_fuel; [exact r1_valid|].
  destruct (initial_submit_facts max_workers st1 st1_valid)
    as (_ & _ & _ & _ & _ & Hb & _).
  unfold backlog in *. simpl in Hb. lia.
Qed.

Lemma fresh_inv : Inv total [] (fresh_pool (X := X) og).
Proof. constructor; reflexivity. Qed.

Lemma r1_inv : Inv total (trace r1) (final r1).
Proof.
  destruct (initial_submit_facts max_workers st1 st1_valid)
    as (_ & Hs & Hd & Hr & He & _).
  eapply Inv_same; [exact fresh_inv | | | | ]; simpl; assumption.
Qed.

Lemma loop_inv : Inv total (trace r) (final r).
Proof.
  rewrite loop_eq. destruct (1 <? max_workers).
  - destruct (how r1) eqn:Eh; try exact r1_inv.
    simpl. apply drain_inv; [exact r1_valid | exact r1_inv].
  - apply (sequential_inv call parse no_result_msg total images
                          (fresh_pool (X := X) og) [] fresh_inv).
Qed.

Lemma loop_count : done (final r) <= List.length images.
Proof.
  rewrite loop_eq.
  destruct (initial_submit_facts max_workers st1 st1_valid)
    as (_ & _ & Hd & _ & _ & Hb & _).
  destruct (1 <? max_workers).
  - destruct (how r1) eqn:Eh; try (rewrite Hd; simpl; lia).
    simpl.
    pose proof (drain_count call parse no_result_msg total
                  (List.length sched + List.length images) sched (final r1)
                  r1_valid) as Hc.
    unfold backlog in *. simpl in Hb, Hd. lia.
  - pose proof (sequential_count call parse no_result_msg total images
                                 (fresh_pool (X := X) og)) as Hc.
    simpl in Hc. exact Hc.
Qed.

Lemma r1_not_starved : how r1 <> Starved.
Proof.
  destruct (initial_submit_facts max_workers st1 st1_valid)
    as (_ & _ & _ & _ & _ & _ & [[_ Hh]|(_ & _ & _ & Hh)] & _);
    [exact Hh | rewrite Hh; discriminate].
Qed.

Lemma loop_not_starved : how r <> Starved.
Proof.
  rewrite loop_eq. destruct (1 <? max_workers).
  - pose proof r1_not_starved as Hn.
    destruct (how r1) eqn:Eh; try (rewrite Eh; exact Hn).
    simpl. exact r2_fuel.
  - destruct (sequential_stop call parse no_result_msg total images
                              (fresh_pool (X := X) og))
      as [[_ Hh]|(_ & _ & _ & Hh)]; [exact Hh | rewrite Hh; discriminate].
Qed.

Lemma loop_seen :
  NoDup images ->
  NoDup (seen (final r)) /\ incl (seen (final r)) images.
Proof.
  intro Hnd. rewrite loop_eq. destruct (1 <? max_workers).
  - assert (Hnd1 : NoDup (items st1)) by exact Hnd.
    destruct (initial_submit_items max_workers st1 Hnd1) as (Hi & _).
    assert (H1 : NoDup (items (final r1)) /\ incl (items (final r1)) images).
    { rewrite Hi. split; [exact Hnd | apply incl_refl]. }
    assert (H2 : NoDup (items (final r2)) /\ incl (items (final r2)) images).
    { destruct H1 as [Ha Hb].
      destruct (drain_items call parse no_result_msg total
                  (List.length sched + List.length images) sched (final r1)
                  r1_valid Ha) as [Hc Hd].
      split; [exact Hc|]. intros q Hq. apply Hb, Hd, Hq. }
    assert (Hsub : forall s : pool (X := X),
               NoDup (items s) /\ incl (items s) images ->
               NoDup (seen s) /\ incl (seen s) images).
    { intros s [Ha Hb]. unfold items in *. split.
      - apply NoDup_app_remove_r in Ha. exact Ha.
      - intros q Hq. apply Hb. apply in_or_app. left. exact Hq. }
    destruct (how r1); simpl; apply Hsub; assumption.
  - destruct (sequential_seen call parse no_result_msg total images
                              (fresh_pool (X := X) og)) as [Hi Hn].
    split; [apply Hn; constructor | exact Hi].
Qed.

(** Under a gate that never stops, every item is completed. *)
Lemma loop_open :
  open_gate og = true -> NoDup images ->
  how r = Returned /\ has_stop (trace r) = false
  /\ Permutation (seen (final r)) images
  /\ (max_workers <= 1 -> seen (final r) = rev images).
Proof.
  intros Ho Hnd. rewrite loop_eq. destruct (Nat.ltb_spec 1 max_workers) as [Hw|Hw].
  - assert (Hnd1 : NoDup (items st1)) by exact Hnd.
    destruct (initial_submit_items max_workers st1 Hnd1) as (Hi & Hfull & Hopen).
    destruct (Hopen Ho) as (Hh & Hs & Ho1).
    rewrite Hh.
    destruct (drain_open call parse no_result_msg total
                (List.length sched + List.length images) sched (final r1))
      as (D1 & D2 & D3).
    + exact r1_valid.
    + exact Ho1.
    + rewrite Hi. exact Hnd.
    + apply Hfull; [left; lia | exact Hh | exact Hs].
    + exact r2_fuel.
    + simpl. split; [exact D1|]. split.
      * rewrite has_stop_app, Hs, D2. reflexivity.
      * split; [rewrite D3, Hi; reflexivity | lia].
  - destruct (sequential_open call parse no_result_msg total images
                              (fresh_pool (X := X) og) Ho Hnd)
      as (Hh & Hs & _ & Hst).
    { intros p _ []. }
    rewrite app_nil_r in Hs.
    split; [exact Hh|]. split; [exact Hst|]. split.
    + rewrite Hs. symmetry. apply Permutation_rev.
    + intros _. exact Hs.
Qed.

(** Where the first stop stands in the trace, when stop is never taken
    back: at the end; or, in a concurrent run that has reported no step
    yet, before one last step and a second stop. *)
Lemma loop_stop pre post :
  sticky og = true ->
  trace r = pre ++ StopSeen :: post ->
  has_stop pre = false ->
  how r = Returned
  /\ (post = []
      \/ (1 < max_workers /\ emitted pre = []
          /\ exists p s, post = [Emit (step_of total p s); StopSeen])).
Proof.
  intros Hst Htr Hpre. rewrite loop_eq in *.
  assert (Hstop : has_stop (pre ++ StopSeen :: post) = true).
  { rewrite has_stop_app. simpl. apply orb_true_r. }
  destruct (Nat.ltb_spec 1 max_workers) as [Hw|Hw].
  - destruct (initial_submit_facts max_workers st1 st1_valid)
      as (_ & _ & _ & _ & He & _ & Hshape & Hsticky).
    destruct (Hsticky Hst) as [_ Hhalt].
    destruct Hshape as [[Hn Hh]|(pre1 & Hpre1 & Hp1 & Hh)].
    + destruct (how r1) eqn:Eh;
        try (rewrite Htr in Hn; rewrite Hn in Hstop; discriminate).
      simpl in Htr.
      destruct (drain_stop call parse no_result_msg total
                  (List.length sched + List.length images) sched (final r1)
                  r1_valid) as [Hd|(pre2 & Hpre2 & Hp2 & Hh2)].
      * rewrite <- Htr, has_stop_app, Hn, Hd in Hstop. discriminate.
      * rewrite Hpre2, app_assoc in Htr.
        destruct (first_stop_unique _ _ _ _ Htr) as [_ Hpost].
        -- rewrite has_stop_app, Hn, Hp2. reflexivity.
        -- exact Hpre.
        -- simpl. split; [exact Hh2 | left; symmetry; exact Hpost].
    + rewrite Hh in *. simpl in Htr. rewrite Hpre1 in Htr, He.
      rewrite <- app_assoc in Htr. simpl in Htr.
      destruct (first_stop_unique _ _ _ _ Htr Hp1 Hpre) as [-> <-].
      rewrite emitted_app in He. apply app_eq_nil in He.
      destruct He as [He _].
      assert (Hhalted : halted (control_getter (final r1)) = true).
      { apply Hhalt. rewrite Hpre1, has_stop_app. simpl. apply orb_true_r. }
      destruct (drain_halted call parse no_result_msg total
                  (List.length sched + List.length images) sched (final r1)
                  r1_valid Hhalted) as [Hd Hnb].
      simpl. split.
      * pose proof r2_fuel as Hf. destruct (how r2); congruence.
      * destruct Hd as [->|(p & s & ->)]; [left; reflexivity|].
        right. split; [exact Hw|]. split; [exact He|].
        exists p, s. reflexivity.
  - destruct (sequential_stop call parse no_result_msg total images
                              (fresh_pool (X := X) og))
      as [[Hn _]|(pre' & Hpre' & Hp' & Hh)].
    + rewrite Htr in Hn. rewrite Hn in Hstop. discriminate.
    + rewrite Hpre' in Htr.
      destruct (first_stop_unique _ _ _ _ Htr Hp' Hpre) as [_ <-].
      split; [exact Hh | left; reflexivity].
Qed.

End LoopFacts.

(** ** Sorting *)

Section SortedFacts.

Context {A K : Type}.
Variable lt : K -> K -> bool.
Variable key : A -> K.

Lemma insert_sorted_perm x l : Permutation (insert_sorted lt key x l) (x :: l).
Proof.
  induction l as [|y l IH]; simpl; [reflexivity|].
  destruct (lt (key y) (key x)); [|reflexivity].
  rewrite IH. apply perm_swap.
Qed.

Lemma sorted_perm l : Permutation (sorted lt key l) l.
Proof.
  induction l as [|x l IH]; simpl; [reflexivity|].
  rewrite insert_sorted_perm. constructor. exact IH.
Qed.

Hypothesis lt_asym : forall a b, lt a b = true -> lt b a = false.
Hypothesis le_trans :
  forall a b c, lt b a = false -> lt c b = false -> lt c a = false.

(** [b] does not come before [a]. *)
Let not_after (a b : A) : Prop := lt (key b) (key a) = false.

Lemma insert_sorted_sorted x l :
  StronglySorted not_after l ->
  StronglySorted not_after (insert_sorted lt key x l).
Proof.
  induction l as [|y l IH]; intro H; simpl.
  - repeat constructor.
  - apply StronglySorted_inv in H. destruct H as [Hl Hy].
    destruct (lt (key y) (key x)) eqn:E.
    + constructor; [apply IH, Hl|].
      apply Forall_forall. intros z Hz.
      apply (Permutation_in _ (insert_sorted_perm x l)) in Hz.
      destruct Hz as [<-|Hz].
      * apply lt_asym, E.
      * rewrite Forall_forall in Hy. apply Hy, Hz.
    + constructor; [constructor; assumption|].
      constructor; [exact E|].
      apply Forall_forall. intros z Hz. rewrite Forall_forall in Hy.
      unfold not_after. apply le_trans with (b := key y); [exact E|].
      apply Hy, Hz.
Qed.

Lemma sorted_sorted l : StronglySorted not_after (sorted lt key l).
Proof.
  induction l as [|x l IH]; simpl; [constructor|].
  apply insert_sorted_sorted, IH.
Qed.

(** A list in strictly increasing key order is the only sorted
    arrangement of its elements. *)
Lemma sorted_unique l1 : forall l2,
  StronglySorted (fun a b => lt (key a) (key b) = true) l1 ->
  StronglySorted not_after l2 ->
  Permutation l1 l2 ->
  l1 = l2.
Proof.
  induction l1 as [|a l1 IH]; intros l2 H1 H2 Hp.
  - apply Permutation_nil in Hp. symmetry. exact Hp.
  - destruct l2 as [|b l2]; [apply Permutation_sym, Permutation_nil in Hp; discriminate|].
    apply StronglySorted_inv in H1. destruct H1 as [H1 Ha].
    apply StronglySorted_inv in H2. destruct H2 as [H2 Hb].
    rewrite Forall_forall in Ha, Hb.
    assert (Hab : a = b).
    { assert (Hbin : In b (a :: l1))
        by (apply (Permutation_in _ (Permutation_sym Hp)); left; reflexivity).
      destruct Hbin as [Hbin|Hbin]; [exact Hbin|].
      assert (Hain : In a (b :: l2))
        by (apply (Permutation_in _ Hp); left; reflexivity).
      specialize (Ha b Hbin). simpl in Ha.
      destruct Hain as [Hain|Hain].
      - subst b. rewrite (lt_asym _ _ Ha) in Ha. discriminate.
      - specialize (Hb a Hain). unfold not_after in Hb.
        rewrite Ha in Hb. discriminate. }
    subst b. f_equal. apply IH; try assumption.
    apply Permutation_cons_inv with a. exact Hp.
Qed.

End SortedFacts.

(** Two orders that agree on the keys of a list sort it alike. *)
Lemma sorted_ext {A K : Type} (lt1 lt2 : K -> K -> bool) (key : A -> K) l :
  (forall a b, In a l -> In b l -> lt1 (key a) (key b) = lt2 (key a) (key b)) ->
  sorted lt1 key l = sorted lt2 key l.
Proof.
  induction l as [|x l IH]; intro H; simpl; [reflexivity|].
  rewrite <- IH by (intros; apply H; right; assumption).
  assert (Hins : forall m, incl m l ->
             insert_sorted lt1 key x m = insert_sorted lt2 key x m).
  { induction m as [|y m IHm]; intro Hm; simpl; [reflexivity|].
    rewrite H; [|right; apply Hm; left; reflexivity | left; reflexivity].
    rewrite IHm; [reflexivity|]. intros z Hz. apply Hm. right. exact Hz. }
  apply Hins. intros z Hz.
  apply (Permutation_in _ (sorted_perm lt1 key l)). exact Hz.
Qed.

(** ** The result orderer *)

Lemma order_map_get_absent names : forall k nm,
  ~ In nm names ->
  order_map_get (combine names (seq k (List.length names))) nm = None.
Proof.
  induction names as [|n names IH]; intros k nm Hn; simpl; [reflexivity|].
  rewrite IH by (intro; apply Hn; right; assumption).
  destruct (String.eqb_spec nm n); [|reflexivity].
  exfalso. apply Hn. left. symmetry. assumption.
Qed.

Lemma order_map_get_index (a : list Path) : forall k p b,
  ~ In (name p) (map name b) ->
  order_map_get (combine (map name (a ++ p :: b))
                         (seq k (List.length (a ++ p :: b))))
                (name p)
  = Some (k + List.length a).
Proof.
  induction a as [|q a IH]; intros k p b Hn; simpl.
  - rewrite <- (length_map name b), order_map_get_absent by exact Hn.
    rewrite String.eqb_refl. f_equal. lia.
  - rewrite IH by exact Hn. f_equal. lia.
Qed.

Lemma order_key_index {D : Type} a p b (d : D) :
  NoDup (map name (a ++ p :: b)) ->
  order_key (order_map (a ++ p :: b)) (name p, d) = Z.of_nat (List.length a).
Proof.
  intro Hnd. unfold order_key, order_map. simpl fst.
  rewrite order_map_get_index; [reflexivity|].
  rewrite map_app in Hnd. simpl in Hnd.
  apply NoDup_remove_2 in Hnd. intro Hin. apply Hnd.
  apply in_or_app. right. exact Hin.
Qed.

Lemma sorted_by_splits {A : Type} (R : A -> A -> Prop) (l : list A) :
  (forall a p b q c, l = a ++ p :: b ++ q :: c -> R p q) ->
  StronglySorted R l.
Proof.
  induction l as [|x l IH]; intro H; [constructor|].
  constructor.
  - apply IH. intros a p b q c ->. apply (H (x :: a) p b q c). reflexivity.
  - apply Forall_forall. intros y Hy. apply in_split in Hy.
    destruct Hy as (b & c & ->). apply (H [] x b y c). reflexivity.
Qed.

Lemma flat_map_sorted {A B : Type} (f : A -> Z) (key : B -> Z)
  (g : A -> list B) (l : list A) :
  StronglySorted (fun p q => (f p <? f q)%Z = true) l ->
  (forall p x, In x (g p) -> key x = f p) ->
  (forall p, List.length (g p) <= 1) ->
  StronglySorted (fun x y => (key x <? key y)%Z = true) (flat_map g l).
Proof.
  intros Hs Hkey Hone. induction l as [|p l IH]; simpl; [constructor|].
  apply StronglySorted_inv in Hs. destruct Hs as [Hs Hp].
  specialize (IH Hs). specialize (Hone p).
  destruct (g p) as [|x [|y more]] eqn:Eg; simpl in *; [exact IH | | lia].
  constructor; [exact IH|].
  apply Forall_forall. intros z Hz. apply in_flat_map in Hz.
  destruct Hz as (q & Hq & Hz). rewrite Forall_forall in Hp.
  rewrite (Hkey p x), (Hkey q z Hz); [apply Hp, Hq|].
  rewrite Eg. left. reflexivity.
Qed.

Lemma flat_map_filter {A B : Type} (sel : A -> bool) (g : A -> list B) l :
  flat_map (fun p => if sel p then g p else []) l = flat_map g (filter sel l).
Proof.
  induction l as [|p l IH]; simpl; [reflexivity|].
  destruct (sel p); simpl; rewrite IH; reflexivity.
Qed.

Lemma name_listed p (comp : list Path) :
  existsb (String.eqb (name p)) (map name comp) = true
  <-> exists q, In q comp /\ name q = name p.
Proof.
  rewrite existsb_exists. split.
  - intros (n & Hn & He). apply in_map_iff in Hn. destruct Hn as (q & <- & Hq).
    apply String.eqb_eq in He. exists q. split; [exact Hq | symmetry; exact He].
  - intros (q & Hq & He). exists (name q). split; [apply in_map, Hq|].
    apply String.eqb_eq. symmetry. exact He.
Qed.

Lemma name_injective (images : list Path) p q :
  NoDup (map name images) -> In p images -> In q images ->
  name p = name q -> p = q.
Proof.
  induction images as [|x l IH]; intros Hnd Hp Hq He; [destruct Hp|].
  simpl in Hnd. inversion Hnd as [|? ? Hx Hl]; subst.
  destruct Hp as [->|Hp], Hq as [->|Hq]; auto.
  - exfalso. apply Hx. rewrite He. apply in_map, Hq.
  - exfalso. apply Hx. rewrite <- He. apply in_map, Hp.
Qed.

Section Orderer.

Context {X : Type}.
Variable call : Path -> result (string * option Usage).
Variable parse : string -> result (list X).
Variable no_result_msg : string.

Local Abbreviation keep := (kept call parse).

Lemma kept_shape p x : In x (keep p) -> fst x = name p.
Proof.
  unfold kept. destruct (succeeded call parse p); simpl;
    [intros [<-|[]]; reflexivity | intros []].
Qed.

Lemma kept_one p : List.length (keep p) <= 1.
Proof.
  unfold kept. destruct (succeeded call parse p); simpl; lia.
Qed.

(** Sorting the results by the position of their names restores the
    order of [images_to_process], whatever the order of completion. *)
Lemma results_reordered images comp :
  NoDup (map name images) -> NoDup comp -> incl comp images ->
  sorted Z.ltb (order_key (order_map images)) (flat_map keep comp)
  = expected_output call parse images (map name comp).
Proof.
  intros Hnames Hcomp Hincl. symmetry.
  pose proof (NoDup_map_inv _ _ Hnames) as Himages.
  apply (sorted_unique Z.ltb (order_key (order_map images))).
  - intros a b H. apply Z.ltb_lt in H. apply Z.ltb_ge. lia.
  - unfold expected_output.
    apply (flat_map_sorted
             (fun p => order_key (order_map images) (name p, tt))).
    + apply sorted_by_splits. intros a p b q c Heq.
      rewrite Heq at 1. rewrite order_key_index by (rewrite <- Heq; exact Hnames).
      replace (a ++ p :: b ++ q :: c) with ((a ++ p :: b) ++ q :: c) in Heq
        by (rewrite <- app_assoc; reflexivity).
      rewrite Heq, order_key_index by (rewrite <- Heq; exact Hnames).
      apply Z.ltb_lt. rewrite length_app. simpl. lia.
    + intros p x Hx.
      destruct (existsb (String.eqb (name p)) (map name comp)); [|destruct Hx].
      apply kept_shape in Hx. unfold order_key. rewrite Hx. reflexivity.
    + intro p. destruct (existsb _ _); [apply kept_one | simpl; lia].
  - apply sorted_sorted.
    + intros a b H. apply Z.ltb_lt in H. apply Z.ltb_ge. lia.
    + intros a b c H1 H2. apply Z.ltb_ge in H1, H2. apply Z.ltb_ge. lia.
  - rewrite sorted_perm. unfold expected_output. rewrite flat_map_filter.
    apply Permutation_flat_map. apply NoDup_Permutation.
    + apply NoDup_filter, Himages.
    + exact Hcomp.
    + intro p. rewrite filter_In, name_listed. split.
      * intros (Hp & q & Hq & He).
        rewrite <- (name_injective images q p Hnames (Hincl q Hq) Hp He).
        exact Hq.
      * intro Hp. split; [apply Hincl, Hp|]. exists p. split; [exact Hp | reflexivity].
Qed.

End Orderer.

(** ** A batch run *)

Lemma step_images_app a b : step_images (a ++ b) = step_images a ++ step_images b.
Proof.
  unfold step_images. rewrite emitted_app, flat_map_app. reflexivity.
Qed.

Section BatchFacts.

Context {X : Type}.
Variable call : Path -> result (string * option Usage).
Variable parse : string -> result (list X).
Variable no_result_msg : string.

Local Abbreviation keep := (kept call parse).
Local Abbreviation batch := (run_batch call parse no_result_msg).
Local Abbreviation loop := (process_loop call parse no_result_msg).

Lemma steps_of_images total k ps :
  flat_map (fun e => match e with
                     | Step _ _ image _ _ => [image]
                     | _ => []
                     end)
           (steps_of call parse no_result_msg total k ps)
  = map name ps.
Proof.
  revert k. induction ps as [|p ps IH]; intro k; simpl; [reflexivity|].
  rewrite IH. reflexivity.
Qed.

Lemma Inv_step_images total tr (st : pool) :
  Inv call parse no_result_msg total tr st ->
  step_images tr = map name (rev (seen st)).
Proof.
  intros [H _ _]. unfold step_images. rewrite H. apply steps_of_images.
Qed.

Variable images : list Path.
Variable embedded pages : nat.
Variable max_workers : nat.
Variable og : option gate_script.
Variable sched : list (list nat).

Local Abbreviation r :=
  (loop (List.length images) max_workers sched images (fresh_pool (X := X) og)).
Local Abbreviation rep := (batch images embedded pages max_workers og sched).

Lemma run_batch_eq :
  rep = match how r with
        | Returned =>
            mkReport
              (Emit (Start (List.length images) embedded pages) :: trace r
               ++ [Emit (Finish (done (final r)) (List.length images)
                                (usage_totals (final r)))])
              (Some (sorted Z.ltb (order_key (order_map images))
                            (image_results (final r))))
        | _ => mkReport (Emit (Start (List.length images) embedded pages)
                              :: trace r) None
        end.
Proof. reflexivity. Qed.

Lemma run_batch_step_images :
  step_images (progress rep) = map name (rev (seen (final r))).
Proof.
  rewrite run_batch_eq.
  pose proof (Inv_step_images _ _ _
                (loop_inv call parse no_result_msg (List.length images)
                          max_workers sched images og)) as H.
  destruct (how r); simpl progress;
    change (Emit ?e :: ?t) with ([Emit e] ++ t);
    rewrite ?step_images_app, H; simpl; rewrite ?app_nil_r; reflexivity.
Qed.

(** The output of a batch of items with distinct names. *)
Lemma run_batch_ordered :
  NoDup (map name images) ->
  (forall out,
      written rep = Some out ->
      out = expected_output call parse images (step_images (progress rep)))
  /\ (open_gate og = true -> written rep = Some (flat_map keep images)).
Proof.
  intro Hnames. pose proof (NoDup_map_inv _ _ Hnames) as Himages.
  pose proof (loop_inv call parse no_result_msg (List.length images)
                       max_workers sched images og) as HI.
  destruct (loop_seen call parse no_result_msg (List.length images)
                      max_workers sched images og Himages) as [Hnd Hincl].
  assert (Hout : sorted Z.ltb (order_key (order_map images))
                        (image_results (final r))
                 = expected_output call parse images
                                   (step_images (progress rep))).
  { rewrite run_batch_step_images. destruct HI as [_ _ ->].
    apply results_reordered; [exact Hnames | | ].
    - apply NoDup_rev, Hnd.
    - intros q Hq. apply Hincl. apply in_rev. exact Hq. }
  split.
  - intros out H. rewrite run_batch_eq in H.
    destruct (how r); simpl in H; [|discriminate|discriminate].
    injection H as <-. exact Hout.
  - intro Ho.
    destruct (loop_open call parse no_result_msg (List.length images)
                        max_workers sched images og Ho Himages)
      as (Hh & _ & Hperm & _).
    assert (Hw : written rep
                 = Some (sorted Z.ltb (order_key (order_map images))
                                (image_results (final r)))).
    { rewrite run_batch_eq, Hh. reflexivity. }
    rewrite Hw, Hout, run_batch_step_images. f_equal.
    unfold expected_output.
    assert (Hall : forall l, incl l images ->
               flat_map (fun p => if existsb (String.eqb (name p))
                                            (map name (rev (seen (final r))))
                                  then keep p else []) l
               = flat_map keep l).
    { induction l as [|p l IH]; intro Hl; simpl; [reflexivity|].
      rewrite IH by (intros q Hq; apply Hl; right; exact Hq).
      replace (existsb (String.eqb (name p))
                       (map name (rev (seen (final r))))) with true;
        [reflexivity|].
      symmetry. apply name_listed. exists p. split; [|reflexivity].
      apply -> in_rev. apply (Permutation_in _ (Permutation_sym Hperm)).
      apply Hl. left. reflexivity. }
    apply Hall, incl_refl.
Qed.

End BatchFacts.

(** ** The file names process_pdf gives its images *)

Lemma uint_digits d : all_chars is_digit (NilEmpty.string_of_uint d) = true.
Proof.
  induction d; simpl; try exact IHd; reflexivity.
Qed.

Lemma decimal_digits n : all_chars is_digit (decimal n) = true.
Proof. apply uint_digits. Qed.

Lemma decimal_inj a b : decimal a = decimal b -> a = b.
Proof.
  unfold decimal. intro H.
  apply (f_equal NilEmpty.uint_of_string) in H.
  rewrite !NilEmpty.usu in H. injection H as H.
  apply DecimalNat.Unsigned.to_uint_inj, H.
Qed.

(** A run of digits followed by something else can be read off in one
    way only. *)
Lemma digits_prefix a : forall b c s d t,
  all_chars is_digit a = true -> all_chars is_digit b = true ->
  is_digit c = false -> is_digit d = false ->
  String.append a (String c s) = String.append b (String d t) ->
  a = b /\ String c s = String d t.
Proof.
  induction a as [|x a IH]; intros b c s d t Ha Hb Hc Hd H.
  - destruct b as [|y b]; simpl in H.
    + split; [reflexivity | exact H].
    + injection H as -> _. simpl in Hb. rewrite Hc in Hb. discriminate.
  - destruct b as [|y b]; simpl in H.
    + injection H as -> _. simpl in Ha. rewrite Hd in Ha. discriminate.
    + injection H as -> H. simpl in Ha, Hb.
      apply andb_true_iff in Ha, Hb.
      destruct (IH b c s d t) as [-> Hrest]; tauto.
Qed.

Lemma embedded_name_inj i j e i' j' e' :
  embedded_name i j e = embedded_name i' j' e' -> i = i' /\ j = j' /\ e = e'.
Proof.
  unfold embedded_name. simpl. intro H. injection H as H.
  apply digits_prefix in H; try apply decimal_digits; try reflexivity.
  destruct H as [Hi H]. apply decimal_inj in Hi.
  injection H as H.
  apply digits_prefix in H; try apply decimal_digits; try reflexivity.
  destruct H as [Hj H]. apply decimal_inj in Hj. injection H as H.
  repeat split; [lia | lia | exact H].
Qed.

Lemma full_name_inj i i' : full_name i = full_name i' -> i = i'.
Proof.
  unfold full_name. simpl. intro H. injection H as H.
  apply digits_prefix in H; try apply decimal_digits; try reflexivity.
  destruct H as [Hi _]. apply decimal_inj in Hi. lia.
Qed.

Lemma embedded_not_full i j e i' : embedded_name i j e <> full_name i'.
Proof.
  unfold embedded_name, full_name. simpl. intro H. injection H as H.
  apply digits_prefix in H; try apply decimal_digits; try reflexivity.
  destruct H as [_ H]. discriminate H.
Qed.

Lemma NoDup_map_on {A B : Type} (f : A -> B) (l : list A) :
  (forall x y, In x l -> In y l -> f x = f y -> x = y) ->
  NoDup l -> NoDup (map f l).
Proof.
  induction l as [|x l IH]; intros Hinj Hnd; simpl; [constructor|].
  inversion Hnd as [|? ? Hx Hl]; subst. constructor.
  - intro Hin. apply in_map_iff in Hin. destruct Hin as (y & He & Hy).
    apply Hx. rewrite (Hinj x y); [exact Hy | left; reflexivity | right; exact Hy |].
    symmetry. exact He.
  - apply IH; [|exact Hl]. intros a b Ha Hb. apply Hinj; right; assumption.
Qed.

Lemma enumerate_fst {A : Type} (l : list A) : forall k,
  map fst (combine (seq k (List.length l)) l) = seq k (List.length l).
Proof.
  induction l as [|x l IH]; intro k; simpl; [reflexivity|].
  rewrite IH. reflexivity.
Qed.

Lemma enumerate_NoDup {A : Type} (l : list A) k :
  NoDup (combine (seq k (List.length l)) l).
Proof.
  apply (NoDup_map_inv fst). rewrite enumerate_fst. apply seq_NoDup.
Qed.

Lemma NoDup_flat_map_keyed {A B K : Type} (ka : A -> K) (g : A -> list B)
  (l : list A) :
  NoDup (map ka l) ->
  (forall x y z, In x l -> In y l -> In z (g x) -> In z (g y) -> ka x = ka y) ->
  (forall x, In x l -> NoDup (g x)) ->
  NoDup (flat_map g l).
Proof.
  induction l as [|x l IH]; intros Hk Hsame Hg; simpl; [constructor|].
  simpl in Hk. inversion Hk as [|? ? Hx Hl]; subst.
  apply NoDup_app.
  - apply Hg. left. reflexivity.
  - apply IH; [exact Hl | | ].
    + intros a b z Ha Hb. apply Hsame; right; assumption.
    + intros a Ha. apply Hg. right. exact Ha.
  - intros z Hz Hz'. apply in_flat_map in Hz'. destruct Hz' as (y & Hy & Hzy).
    apply Hx. rewrite (Hsame x y z); auto; [apply in_map, Hy | left; reflexivity | right; exact Hy].
Qed.

Lemma map_flat_map {A B C : Type} (f : B -> C) (g : A -> list B) l :
  map f (flat_map g l) = flat_map (fun x => map f (g x)) l.
Proof.
  induction l as [|x l IH]; simpl; [reflexivity|].
  rewrite map_app, IH. reflexivity.
Qed.

Lemma embedded_names doc dir :
  map name (save_embedded_images doc dir)
  = flat_map (fun page =>
                map (fun img => embedded_name (fst page) (fst img) (snd img))
                    (combine (seq 0 (List.length (snd page))) (snd page)))
             (combine (seq 0 (List.length doc)) doc).
Proof.
  unfold save_embedded_images. rewrite map_flat_map.
  apply flat_map_ext. intro page. rewrite map_map. reflexivity.
Qed.

Lemma full_names doc dir :
  map name (render_full_pages doc dir) = map full_name (seq 0 (List.length doc)).
Proof.
  unfold render_full_pages. rewrite map_map. reflexivity.
Qed.

Lemma embedded_names_NoDup doc dir :
  NoDup (map name (save_embedded_images doc dir)).
Proof.
  rewrite embedded_names. apply (NoDup_flat_map_keyed fst).
  - rewrite enumerate_fst. apply seq_NoDup.
  - intros x y z _ _ Hx Hy. apply in_map_iff in Hx, Hy.
    destruct Hx as (a & <- & _). destruct Hy as (b & He & _).
    apply embedded_name_inj in He. symmetry. apply He.
  - intros x _. apply NoDup_map_on; [|apply enumerate_NoDup].
    intros [j e] [j' e'] _ _ He. apply embedded_name_inj in He.
    simpl in He. destruct He as (_ & -> & ->). reflexivity.
Qed.

Lemma full_names_NoDup doc dir : NoDup (map name (render_full_pages doc dir)).
Proof.
  rewrite full_names. apply NoDup_map_on; [|apply seq_NoDup].
  intros x y _ _. apply full_name_inj.
Qed.

(** process_pdf never gives two images the same name. *)
Lemma pdf_images_names_NoDup doc dir mode :
  NoDup (map name (pdf_images doc dir mode)).
Proof.
  unfold pdf_images. rewrite map_app.
  apply NoDup_app.
  - destruct (_ || _); [apply embedded_names_NoDup | constructor].
  - destruct (String.eqb mode "both" || String.eqb mode "page");
      [apply full_names_NoDup | constructor].
  - intros n Hn Hf.
    destruct (String.eqb mode "both" || String.eqb mode "embedded");
      [|destruct Hn].
    destruct (String.eqb mode "both" || String.eqb mode "page");
      [|destruct Hf].
    rewrite embedded_names in Hn. rewrite full_names in Hf.
    apply in_flat_map in Hn. destruct Hn as (page & _ & Hn).
    apply in_map_iff in Hn. destruct Hn as (img & <- & _).
    apply in_map_iff in Hf. destruct Hf as (i & He & _).
    symmetry in He. exact (embedded_not_full _ _ _ _ He).
Qed.

(** ** The progress aggregator over a run *)

Lemma aggregate_fold tr : forall t,
  aggregate tr t = fold_left receive (emitted tr) t.
Proof.
  induction tr as [|a tr IH]; intro t; simpl; [reflexivity|].
  destruct a; simpl; apply IH.
Qed.

Lemma receive_step t k total image err u :
  t_total (receive t (Step k total image err u)) = t_total t
  /\ t_errors (receive t (Step k total image err u))
     = t_errors t ++ match err with
                     | Some e =>
                         if err_truthy (Some e)
                         then [mkError (Some image) e] else []
                     | None => []
                     end
  /\ t_done (receive t (Step k total image err u)) = (if k =? 0 then 0 else k)
  /\ t_status (receive t (Step k total image err u)) = "in_progress".
Proof.
  unfold receive, _cb_pdf, get_or. simpl.
  split; [reflexivity|]. split; [|split; reflexivity].
  destruct err as [e|]; [destruct (negb (is_empty e))|]; simpl;
    rewrite ?app_nil_r; reflexivity.
Qed.

Section AggregateFacts.

Context {X : Type}.
Variable call : Path -> result (string * option Usage).
Variable parse : string -> result (list X).
Variable no_result_msg : string.
Variable total : nat.

Local Abbreviation steps := (steps_of call parse no_result_msg total).
Local Abbreviation entry := (error_of call parse no_result_msg).

(** What the step events of the items [ps] do to a task entry. *)
Lemma receive_steps ps : forall k t,
  let t' := fold_left receive (steps k ps) t in
  t_total t' = t_total t
  /\ t_errors t' = t_errors t ++ flat_map entry ps
  /\ t_done t' = match ps with [] => t_done t | _ => k + List.length ps end
  /\ t_status t' = match ps with [] => t_status t | _ => "in_progress" end.
Proof.
  induction ps as [|p ps IH]; intros k t; cbn zeta.
  - simpl. rewrite app_nil_r. repeat split.
  - cbn [steps_of fold_left].
    set (e := Step (S k) total (name p)
                   (o_err (_process_one call parse no_result_msg p))
                   (o_usage (_process_one call parse no_result_msg p))).
    destruct (IH (S k) (receive t e)) as (H1 & H2 & H3 & H4).
    destruct (receive_step t (S k) total (name p)
                (o_err (_process_one call parse no_result_msg p))
                (o_usage (_process_one call parse no_result_msg p)))
      as (S1 & S2 & S3 & S4).
    fold e in S1, S2, S3, S4.
    rewrite H1, H2, H3, H4, S1, S2, S3, S4.
    split; [reflexivity|]. split; [|split].
    + cbn [flat_map]. rewrite <- app_assoc. reflexivity.
    + destruct ps; simpl; lia.
    + destruct ps; reflexivity.
Qed.

End AggregateFacts.

Lemma receive_start t total embedded pages :
  t_status (receive t (Start total embedded pages)) = "in_progress"
  /\ t_total (receive t (Start total embedded pages)) = total
  /\ t_done (receive t (Start total embedded pages)) = t_done t
  /\ t_errors (receive t (Start total embedded pages)) = t_errors t.
Proof.
  unfold receive, _cb_pdf, get_or. simpl.
  repeat split. destruct (Nat.eqb_spec total 0); congruence.
Qed.

Lemma receive_finish t done total u :
  t_status (receive t (Finish done total u)) = "completed"
  /\ t_total (receive t (Finish done total u)) = t_total t
  /\ t_done (receive t (Finish done total u))
     = (if done =? 0 then t_total t else done)
  /\ t_errors (receive t (Finish done total u)) = t_errors t.
Proof.
  unfold receive, _cb_pdf, get_or. simpl. repeat split.
Qed.

(** ** The claims about a batch run *)

Lemma first_stop_exists tr :
  has_stop tr = true ->
  exists pre post, tr = pre ++ StopSeen :: post /\ has_stop pre = false.
Proof.
  induction tr as [|a tr IH]; simpl; [discriminate|].
  destruct a; intro H.
  - destruct (IH H) as (pre & post & -> & Hp).
    exists (Dispatch p :: pre), post. split; [reflexivity | exact Hp].
  - destruct (IH H) as (pre & post & -> & Hp).
    exists (Emit e :: pre), post. split; [reflexivity | exact Hp].
  - exists [], tr. split; reflexivity.
Qed.

Section RunSummaries.

Context {X : Type}.
Variable call : Path -> result (string * option Usage).
Variable parse : string -> result (list X).
Variable no_result_msg : string.
Variable images : list Path.
Variable embedded pages : nat.
Variable max_workers : nat.
Variable og : option gate_script.
Variable sched : list (list nat).

Local Abbreviation N := (List.length images).
Local Abbreviation r :=
  (process_loop call parse no_result_msg N max_workers sched images
                (fresh_pool (X := X) og)).
Local Abbreviation rep :=
  (run_batch call parse no_result_msg images embedded pages max_workers og sched).

(** A run under a gate that never stops: every item is completed, each
    with its step event, and the run finishes with all of them counted. *)
Lemma open_run :
  NoDup images -> open_gate og = true ->
  exists comp u,
    Permutation comp images
    /\ (max_workers <= 1 -> comp = images)
    /\ progress rep
       = Emit (Start N embedded pages) :: trace r ++ [Emit (Finish N N u)]
    /\ emitted (trace r) = steps_of call parse no_result_msg N 0 comp
    /\ written rep <> None.
Proof.
  intros Hnd Ho.
  destruct (loop_open call parse no_result_msg N max_workers sched images og
                      Ho Hnd) as (Hh & _ & Hperm & Hseq).
  destruct (loop_inv call parse no_result_msg N max_workers sched images og)
    as [Hsteps Hdone _].
  exists (rev (seen (final r))), (usage_totals (final r)).
  split; [apply Permutation_trans with (seen (final r));
          [symmetry; apply Permutation_rev | exact Hperm]|].
  split; [intro Hw; rewrite (Hseq Hw); apply rev_involutive|].
  rewrite run_batch_eq, Hh. simpl.
  rewrite Hdone, (Permutation_length Hperm).
  split; [reflexivity|]. split; [exact Hsteps | discriminate].
Qed.

(** The task entry after a run that returned, whatever it completed. *)
Lemma task_after_run tr comp d u t0 :
  emitted tr = steps_of call parse no_result_msg N 0 comp ->
  let t := aggregate (Emit (Start N embedded pages) :: tr
                      ++ [Emit (Finish d N u)]) t0 in
  t_status t = "completed"
  /\ t_total t = N
  /\ t_done t = (if d =? 0 then N else d)
  /\ t_errors t
     = t_errors t0 ++ flat_map (error_of call parse no_result_msg) comp.
Proof.
  intros Hsteps. cbn zeta.
  rewrite aggregate_fold. simpl emitted.
  rewrite emitted_app, Hsteps. simpl emitted. cbn [fold_left].
  rewrite fold_left_app. cbn [fold_left].
  set (t1 := receive t0 (Start N embedded pages)).
  set (t2 := fold_left receive (steps_of call parse no_result_msg N 0 comp) t1).
  destruct (receive_start t0 N embedded pages) as (_ & A2 & _ & A4).
  destruct (receive_steps call parse no_result_msg N comp 0 t1)
    as (B1 & B2 & _ & _).
  fold t1 in A2, A4. fold t2 in B1, B2.
  destruct (receive_finish t2 d N u) as (C1 & C2 & C3 & C4).
  rewrite C1, C2, C3, C4, B1, B2, A2, A4.
  repeat split.
Qed.

End RunSummaries.

(** C1.  Whatever document process_pdf is given, with any number of
    workers, any gate and any order of completion: when it returns, the
    list it hands to the writer holds exactly the recognised contents of
    the items whose step was reported, in the order of
    [images_to_process]; items that failed or were never completed are
    absent.  Under a gate that never stops it returns, and the list holds
    the recognised contents of all the items in that order, so it does
    not depend on the schedule. *)
Theorem process_pdf_output_in_submission_order {X : Type}
  (call : Path -> result (string * option Usage))
  (parse : string -> result (list X)) (no_result_msg : string)
  (doc : list (list string)) (tmp_img_dir : string) (max_workers : nat)
  (source_mode : string) (og : option gate_script) (sched : list (list nat)) :
  let images := pdf_images doc tmp_img_dir source_mode in
  let rep := process_pdf call parse no_result_msg doc tmp_img_dir max_workers
                         source_mode og sched in
  (forall out,
      written rep = Some out ->
      out = expected_output call parse images (step_images (progress rep)))
  /\ (open_gate og = true ->
      written rep = Some (flat_map (kept call parse) images)).
Proof.
  cbn zeta.
  apply (run_batch_ordered call parse no_result_msg
           (pdf_images doc tmp_img_dir source_mode) _ _ max_workers og sched).
  apply pdf_images_names_NoDup.
Qed.

(** Three pages completed in the order 3, 1, 2, the second without
    content: the writer gets pages 1 and 3, in that order. *)
Example shuffled_completion_keeps_page_order :
  written (process_pdf sample_call sample_parse "no_content"
             [[]; []; []] "tmp" 3 "page" None [[2]; [0]; [1]])
  = Some [("page-1-full.png", [1]); ("page-3-full.png", [1])].
Proof. vm_compute. reflexivity. Qed.

(** C2.  Three items and three workers; the controller presses stop
    while the pool is being filled.  The second reading of the gate sees
    stop and ends the submission after one item; the initial loop leaves
    [running] as it is, so the waiting loop still reports the step of that
    item before it reads the gate again and clears [running].  A step
    event follows the first sight of stop: the statement that none does
    fails on this run. *)
Lemma step_reported_after_stop :
  progress (run_batch sample_call sample_parse "no_content"
              [page1; page2; page3] 0 3 3 (Some stop_after_first_reading) [])
  = [Emit (Start 3 0 3); Dispatch page1; StopSeen;
     Emit (Step 1 3 "page-1-full.png" None None); StopSeen;
     Emit (Finish 1 3 (mkUsage 0 0 0))]
  /\ ~ stop_silences_steps.
Proof.
  assert (H : progress (run_batch sample_call sample_parse "no_content"
                          [page1; page2; page3] 0 3 3
                          (Some stop_after_first_reading) [])
              = [Emit (Start 3 0 3); Dispatch page1] ++ StopSeen ::
                [Emit (Step 1 3 "page-1-full.png" None None); StopSeen;
                 Emit (Finish 1 3 (mkUsage 0 0 0))])
    by (vm_compute; reflexivity).
  split; [exact H|]. intro Hclaim.
  destruct (Hclaim nat sample_call sample_parse "no_content"
                   [page1; page2; page3] 0 3 3 stop_after_first_reading []
                   _ _ eq_refl H eq_refl) as (_ & Hsteps & _).
  discriminate Hsteps.
Qed.

(** What does hold of every run that sees stop, when stop is never taken
    back: the run still returns and writes; after the first sight of stop
    nothing is dispatched, and what follows is the finish event alone,
    with a count within the total, or, when stop was seen while the
    concurrent pool was being filled and before any step, the step of one
    item already in flight, a second sight of stop, and the finish
    event. *)
Theorem stop_ends_dispatch_and_finishes {X : Type}
  (call : Path -> result (string * option Usage))
  (parse : string -> result (list X)) (no_result_msg : string)
  (images : list Path) (embedded pages max_workers : nat)
  (og : option gate_script) (sched : list (list nat)) pre post :
  sticky og = true ->
  progress (run_batch call parse no_result_msg images embedded pages
                      max_workers og sched)
  = pre ++ StopSeen :: post ->
  has_stop pre = false ->
  written (run_batch call parse no_result_msg images embedded pages
                     max_workers og sched) <> None
  /\ dispatched post = []
  /\ exists d u,
       d <= List.length images
       /\ (post = [Emit (Finish d (List.length images) u)]
           \/ (1 < max_workers /\ step_images pre = []
               /\ exists k image err us,
                    post = [Emit (Step k (List.length images) image err us);
                            StopSeen;
                            Emit (Finish d (List.length images) u)])).
Proof.
  intros Hst Hprog Hpre.
  set (r := process_loop call parse no_result_msg (List.length images)
                         max_workers sched images (fresh_pool (X := X) og)).
  pose proof (run_batch_eq call parse no_result_msg images embedded pages
                           max_workers og sched) as Heq.
  fold r in Heq.
  assert (Hstop : has_stop (trace r) = true).
  { assert (Hp : has_stop (pre ++ StopSeen :: post) = true)
      by (rewrite has_stop_app; simpl; apply orb_true_r).
    rewrite <- Hprog, Heq in Hp.
    destruct (how r); simpl in Hp; rewrite ?has_stop_app in Hp; simpl in Hp;
      rewrite ?orb_false_r in Hp; exact Hp. }
  destruct (first_stop_exists _ Hstop) as (p1 & q1 & Htr & Hp1).
  destruct (loop_stop call parse no_result_msg (List.length images)
                      max_workers sched images og p1 q1 Hst Htr Hp1)
    as [Hh Hshape].
  fold r in Hh. rewrite Heq, Hh in *. simpl in Hprog. rewrite Htr in Hprog.
  rewrite <- app_assoc in Hprog. simpl in Hprog.
  change (Emit (Start (List.length images) embedded pages)
          :: p1 ++ StopSeen :: ?q)
    with ((Emit (Start (List.length images) embedded pages) :: p1)
          ++ StopSeen :: q) in Hprog.
  destruct (first_stop_unique _ _ _ _ Hprog) as [Hpre' Hpost]; [exact Hp1 | exact Hpre |].
  subst pre post.
  pose proof (loop_count call parse no_result_msg (List.length images)
                         max_workers sched images og) as Hcount.
  fold r in Hcount.
  split; [simpl; discriminate|].
  destruct Hshape as [->|(Hw & He & p & s & ->)].
  - split; [reflexivity|].
    exists (done (final r)), (usage_totals (final r)).
    split; [exact Hcount | left; reflexivity].
  - split; [reflexivity|].
    exists (done (final r)), (usage_totals (final r)).
    split; [exact Hcount|]. right. split; [exact Hw|]. split.
    + unfold step_images. simpl. rewrite He. reflexivity.
    + unfold step_of. do 4 eexists. reflexivity.
Qed.

(** The theorem at the run above. *)
Lemma stop_ends_dispatch_and_finishes_witness :
  written (run_batch sample_call sample_parse "no_content"
             [page1; page2; page3] 0 3 3 (Some stop_after_first_reading) [])
  <> None
  /\ dispatched [Emit (Step 1 3 "page-1-full.png" None None); StopSeen;
                 Emit (Finish 1 3 (mkUsage 0 0 0))] = []
  /\ exists d u,
       d <= 3
       /\ ([Emit (Step 1 3 "page-1-full.png" None None); StopSeen;
            Emit (Finish 1 3 (mkUsage 0 0 0))]
           = [Emit (Finish d 3 u)]
           \/ (1 < 3 /\ step_images [Emit (Start 3 0 3); Dispatch page1] = []
               /\ exists k image err us,
                    [Emit (Step 1 3 "page-1-full.png" None None); StopSeen;
                     Emit (Finish 1 3 (mkUsage 0 0 0))]
                    = [Emit (Step k 3 image err us); StopSeen;
                       Emit (Finish d 3 u)])).
Proof.
  apply (stop_ends_dispatch_and_finishes sample_call sample_parse "no_content"
           [page1; page2; page3] 0 3 3 (Some stop_after_first_reading) []
           [Emit (Start 3 0 3); Dispatch page1]
           [Emit (Step 1 3 "page-1-full.png" None None); StopSeen;
            Emit (Finish 1 3 (mkUsage 0 0 0))]).
  - reflexivity.
  - vm_compute. reflexivity.
  - reflexivity.
Defined.

(** ** Failures of single items *)

Lemma emitted_progress (e f : event) (tr : list action) :
  emitted (Emit e :: tr ++ [Emit f]) = e :: emitted tr ++ [f].
Proof. simpl. rewrite emitted_app. reflexivity. Qed.

Lemma error_of_In {X : Type}
  (call : Path -> result (string * option Usage))
  (parse : string -> result (list X)) (no_result_msg : string)
  (comp : list Path) (q : Path) (err : string) :
  In q comp ->
  o_err (_process_one call parse no_result_msg q) = Some err ->
  err_truthy (Some err) = true ->
  In (mkError (Some (name q)) err)
     (flat_map (error_of call parse no_result_msg) comp).
Proof.
  intros Hin He Ht. apply in_flat_map. exists q. split; [exact Hin|].
  unfold error_of. rewrite He, Ht. left. reflexivity.
Qed.

(** A run under a gate that never stops, seen from the task entry: the
    events are the start, one step per item, and the finish; the entry
    ends completed with every item counted and one error entry per failed
    item. *)
Lemma open_run_task {X : Type}
  (call : Path -> result (string * option Usage))
  (parse : string -> result (list X)) (no_result_msg : string)
  (images : list Path) (embedded pages max_workers : nat)
  (og : option gate_script) (sched : list (list nat)) (t0 : Task) :
  NoDup images -> open_gate og = true ->
  exists comp u,
    Permutation comp images
    /\ (max_workers <= 1 -> comp = images)
    /\ emitted (progress (run_batch call parse no_result_msg images embedded
                                    pages max_workers og sched))
       = Start (List.length images) embedded pages
         :: steps_of call parse no_result_msg (List.length images) 0 comp
         ++ [Finish (List.length images) (List.length images) u]
    /\ written (run_batch call parse no_result_msg images embedded pages
                          max_workers og sched) <> None
    /\ t_status (aggregate (progress (run_batch call parse no_result_msg images
                                        embedded pages max_workers og sched)) t0)
       = "completed"
    /\ t_done (aggregate (progress (run_batch call parse no_result_msg images
                                      embedded pages max_workers og sched)) t0)
       = List.length images
    /\ t_errors (aggregate (progress (run_batch call parse no_result_msg images
                                        embedded pages max_workers og sched)) t0)
       = t_errors t0 ++ flat_map (error_of call parse no_result_msg) comp.
Proof.
  intros Hnd Ho.
  destruct (open_run call parse no_result_msg images embedded pages
                     max_workers og sched Hnd Ho)
    as (comp & u & Hperm & Hseq & Hprog & Hsteps & Hw).
  exists comp, u.
  destruct (task_after_run call parse no_result_msg images embedded pages
              _ comp (List.length images) u t0 Hsteps)
    as (T1 & _ & T3 & T4).
  rewrite Hprog, emitted_progress, Hsteps.
  split; [exact Hperm|]. split; [exact Hseq|]. split; [reflexivity|].
  split; [exact Hw|]. split; [exact T1|]. split; [|exact T4].
  rewrite T3. destruct (List.length images =? 0); reflexivity.
Qed.

(** An exception whose message is empty gives an outcome whose error is
    falsy: [if err:] does not see it, in the loop or in the callback, and
    it leaves no entry. *)
Example failure_without_message_leaves_no_entry :
  o_err (_process_one (fun _ => Raise EmptyString) sample_parse "no_content"
                      page1)
  = Some EmptyString
  /\ error_of (fun _ => Raise EmptyString) sample_parse "no_content" page1
     = [].
Proof. split; reflexivity. Qed.

(** ** Empty results *)

Section EmptyResult.

Context {X : Type}.
Variable call : Path -> result (string * option Usage).
Variable parse : string -> result (list X).
Variable no_result_msg : string.

(** The service responded and the parser found nothing: the outcome
    carries the sentinel and the usage, and no data. *)
Lemma process_one_empty p raw usage :
  call p = Ok (raw, usage) -> parse raw = Ok [] ->
  _process_one call parse no_result_msg p
  = mkOutcome p (Some no_result_msg) None usage.
Proof. intros Hc Hp. unfold _process_one. rewrite Hc, Hp. reflexivity. Qed.

End EmptyResult.

(** When the service responds for an item and the parser of the mode
    returns the empty list, [_process_one] returns, without raising, the
    outcome whose error is the sentinel of the mode, no_content in text
    mode and no_tables in table mode, with the usage of the response and
    no data.  In a batch of distinct items under a gate that never stops
    such an item is one more entry of the error list: the run returns and
    writes its output, and the task ends completed with every item
    counted. *)
Theorem empty_result_is_a_sentinel_failure {RT : PyRuntime} {X : Type}
  (call : Path -> result (string * option Usage))
  (parse_model_output_to_tables : string -> result (list X))
  (p : Path) (raw : string) (usage : option Usage) :
  call p = Ok (raw, usage) ->
  (parse_model_output_to_content raw = Ok [] ->
   _process_one_text call p = mkOutcome p (Some "no_content") None usage)
  /\ (parse_model_output_to_tables raw = Ok [] ->
      _process_one_table call parse_model_output_to_tables p
      = mkOutcome p (Some "no_tables") None usage)
  /\ forall (Y : Type) (parse : string -> result (list Y))
            (no_result_msg : string) (images : list Path)
            (embedded pages max_workers : nat) (og : option gate_script)
            (sched : list (list nat)) (t0 : Task),
       parse raw = Ok [] -> is_empty no_result_msg = false ->
       NoDup images -> In p images -> open_gate og = true ->
       let rep := run_batch call parse no_result_msg images embedded pages
                            max_workers og sched in
       let t := aggregate (progress rep) t0 in
       written rep <> None
       /\ t_status t = "completed"
       /\ t_done t = List.length images
       /\ In (mkError (Some (name p)) no_result_msg) (t_errors t).
Proof.
  intro Hc. split; [|split].
  - intro Hp. unfold _process_one_text.
    exact (process_one_empty call _ _ p raw usage Hc Hp).
  - intro Hp. unfold _process_one_table.
    exact (process_one_empty call _ _ p raw usage Hc Hp).
  - intros Y parse msg images embedded pages W og sched t0 Hp Hm Hnd Hin Ho.
    cbn zeta.
    destruct (open_run_task call parse msg images embedded pages W og sched
                            t0 Hnd Ho)
      as (comp & u & Hperm & _ & _ & Hw & T1 & T2 & T3).
    repeat (split; [assumption|]).
    rewrite T3. apply in_or_app. right. apply error_of_In.
    + apply (Permutation_in _ (Permutation_sym Hperm) Hin).
    + rewrite (process_one_empty call parse msg p raw usage Hc Hp).
      reflexivity.
    + simpl. rewrite Hm. reflexivity.
Qed.

(** The theorem at a blank response for the first of two pages, in text
    mode and in table mode, and at the table batch of the two pages. *)
Lemma empty_result_is_a_sentinel_failure_witness :
  _process_one_text (RT := sample_runtime) blank_call page1
  = mkOutcome page1 (Some "no_content") None (Some (mkUsage 7 0 7))
  /\ _process_one_table blank_call no_table page1
     = mkOutcome page1 (Some "no_tables") None (Some (mkUsage 7 0 7))
  /\ written (run_batch blank_call no_table "no_tables" [page1; page2]
                        0 2 2 None [[1]; [0]]) <> None
  /\ t_status (aggregate
                 (progress (run_batch blank_call no_table "no_tables"
                              [page1; page2] 0 2 2 None [[1]; [0]]))
                 (pending_task 2 0 2)) = "completed"
  /\ t_done (aggregate
               (progress (run_batch blank_call no_table "no_tables"
                            [page1; page2] 0 2 2 None [[1]; [0]]))
               (pending_task 2 0 2)) = 2
  /\ In (mkError (Some "page-1-full.png") "no_tables")
        (t_errors (aggregate
                     (progress (run_batch blank_call no_table "no_tables"
                                  [page1; page2] 0 2 2 None [[1]; [0]]))
                     (pending_task 2 0 2))).
Proof.
  destruct (empty_result_is_a_sentinel_failure (RT := sample_runtime)
              blank_call no_table page1 EmptyString (Some (mkUsage 7 0 7))
              eq_refl) as (Htext & Htable & Hbatch).
  split; [apply Htext; reflexivity|].
  split; [apply Htable; reflexivity|].
  apply (Hbatch nat no_table "no_tables" [page1; page2] 0 2 2 None
                [[1]; [0]] (pending_task 2 0 2)).
  - reflexivity.
  - reflexivity.
  - repeat constructor; simpl; intuition discriminate.
  - left. reflexivity.
  - reflexivity.
Defined.

(** ** Empty results: the replies the prompts ask for *)

Lemma load_content_without_content {RT : PyRuntime} text d :
  json_loads text = Some (JObj d) ->
  truthy (get "content" d) = false ->
  or_keep (load_content text) (JArr []) = JArr [].
Proof.
  intros Hj Ht. unfold load_content, content_of. rewrite Hj.
  unfold get in Ht. destruct (dict_get "content" d) as [v|]; [|reflexivity].
  unfold py_or. rewrite Ht. reflexivity.
Qed.

(** C8.  The replies the prompts ask the model for when it recognises
    nothing are not turned into the sentinel failure.  In text mode the
    reply [{"status":"no_text","content":[]}] decodes to an empty
    content list, so the parser falls back to the raw text and returns
    one paragraph holding the reply itself; in table mode the reply
    [{"status":"no_table","tables":[]}] decodes to no table, so the
    parser reads the reply as a line of CSV and returns one table with
    the two pieces of the reply around its comma.  In both modes
    [_process_one] returns a success with that data and the usage of the
    response, not the outcome carrying no_content or no_tables, and the
    item leaves no entry in the error list. *)
Theorem prescribed_empty_reply_is_a_success {RT : PyRuntime}
  (call : Path -> result (string * option Usage)) (p : Path)
  (usage : option Usage) :
  (call p = Ok (no_text_text, usage) ->
   json_loads no_text_text
   = Some (JObj [("status", JStr "no_text"); ("content", JArr [])]) ->
   findall_json_fence no_text_text = [] ->
   findall_fence no_text_text = [] ->
   search_object no_text_text = Some no_text_text ->
   parse_model_output_to_content no_text_text = Ok [paragraph no_text_text]
   /\ _process_one_text call p
      = mkOutcome p None (Some [paragraph no_text_text]) usage
   /\ _process_one_text call p <> mkOutcome p (Some "no_content") None usage
   /\ error_of call parse_model_output_to_content "no_content" p = [])
  /\ (call p = Ok (no_table_text, usage) ->
      json_loads no_table_text
      = Some (JObj [("status", JStr "no_table"); ("tables", JArr [])]) ->
      parse_model_output_to_tables no_table_text
      = [(JStr "Table 1",
          [JArr [JStr (String.concat dq ["{"; "status"; ":"; "no_table";
                                         EmptyString]);
                 JStr (String.concat dq [EmptyString; "tables"; ":[]}"])]])]
      /\ _process_one_table call
           (fun t => Ok (parse_model_output_to_tables t)) p
         = mkOutcome p None (Some (parse_model_output_to_tables no_table_text))
                     usage
      /\ _process_one_table call
           (fun t => Ok (parse_model_output_to_tables t)) p
         <> mkOutcome p (Some "no_tables") None usage
      /\ error_of call (fun t => Ok (parse_model_output_to_tables t))
                  "no_tables" p = []).
Proof.
  split.
  - intros Hc Hj Hf1 Hf2 Hs.
    assert (Hdirect : or_keep (load_content no_text_text) (JArr []) = JArr [])
      by (apply (load_content_without_content _ _ Hj); reflexivity).
    assert (Hsc : structured_content no_text_text = JArr []).
    { unfold structured_content, attempt_direct. rewrite Hdirect.
      unfold attempt_fenced. cbn [truthy]. rewrite Hf1, Hf2.
      cbn [first_candidate or_keep]. unfold attempt_object. cbn [truthy].
      rewrite Hs. exact Hdirect. }
    assert (Hp : parse_model_output_to_content no_text_text
                 = Ok [paragraph no_text_text]).
    { rewrite (fallback_one_paragraph_per_line no_text_text Hsc).
      reflexivity. }
    assert (Ho : _process_one_text call p
                 = mkOutcome p None (Some [paragraph no_text_text]) usage).
    { unfold _process_one_text, _process_one. rewrite Hc, Hp. reflexivity. }
    split; [exact Hp|]. split; [exact Ho|]. split.
    + rewrite Ho. discriminate.
    + unfold error_of. fold (_process_one_text call p). rewrite Ho.
      reflexivity.
  - intros Hc Hj.
    assert (Hp : parse_model_output_to_tables no_table_text
                 = [(JStr "Table 1",
                     [JArr [JStr (String.concat dq
                                    ["{"; "status"; ":"; "no_table";
                                     EmptyString]);
                            JStr (String.concat dq
                                    [EmptyString; "tables"; ":[]}"])]])]).
    { unfold parse_model_output_to_tables, load_tables. rewrite Hj.
      reflexivity. }
    assert (Ho : _process_one_table call
                   (fun t => Ok (parse_model_output_to_tables t)) p
                 = mkOutcome p None
                     (Some (parse_model_output_to_tables no_table_text))
                     usage).
    { unfold _process_one_table, _process_one. rewrite Hc, Hp.
      reflexivity. }
    split; [exact Hp|]. split; [exact Ho|]. split.
    + rewrite Ho. discriminate.
    + unfold error_of.
      fold (_process_one_table call
              (fun t => Ok (parse_model_output_to_tables t)) p).
      rewrite Ho. reflexivity.
Qed.

(** The theorem at a runtime that decodes each reply as [json.loads]
    does. *)
Lemma prescribed_empty_reply_is_a_success_witness :
  (parse_model_output_to_content (RT := text_runtime) no_text_text
   = Ok [paragraph no_text_text]
   /\ _process_one_text (RT := text_runtime)
        (fun _ => Ok (no_text_text, Some (mkUsage 7 3 10))) page1
      = mkOutcome page1 None (Some [paragraph no_text_text])
                  (Some (mkUsage 7 3 10)))
  /\ _process_one_table (fun _ => Ok (no_table_text, Some (mkUsage 7 3 10)))
       (fun t => Ok (parse_model_output_to_tables (RT := table_runtime) t))
       page1
     = mkOutcome page1 None
         (Some (parse_model_output_to_tables (RT := table_runtime)
                  no_table_text))
         (Some (mkUsage 7 3 10)).
Proof.
  split.
  - destruct (prescribed_empty_reply_is_a_success (RT := text_runtime)
                (fun _ => Ok (no_text_text, Some (mkUsage 7 3 10))) page1
                (Some (mkUsage 7 3 10))) as [Htext _].
    destruct (Htext eq_refl eq_refl eq_refl eq_refl eq_refl)
      as (Hp & Ho & _).
    split; [exact Hp | exact Ho].
  - destruct (prescribed_empty_reply_is_a_success (RT := table_runtime)
                (fun _ => Ok (no_table_text, Some (mkUsage 7 3 10))) page1
                (Some (mkUsage 7 3 10))) as [_ Htable].
    destruct (Htable eq_refl eq_refl) as (_ & Ho & _).
    exact Ho.
Defined.

(** ** Natural order of file names *)

(** *** The order of keys *)

Lemma ascii_compare_refl c : Ascii.compare c c = Eq.
Proof. unfold Ascii.compare. apply N.compare_refl. Qed.

Lemma string_compare_refl s : String.compare s s = Eq.
Proof.
  induction s as [|c s IH]; simpl; [reflexivity|].
  rewrite ascii_compare_refl. exact IH.
Qed.

Lemma ascii_compare_trans a b c :
  Ascii.compare a b = Lt -> Ascii.compare b c = Lt -> Ascii.compare a c = Lt.
Proof.
  unfold Ascii.compare. rewrite !N.compare_lt_iff. apply N.lt_trans.
Qed.

Lemma string_compare_trans a : forall b c,
  String.compare a b = Lt -> String.compare b c = Lt ->
  String.compare a c = Lt.
Proof.
  induction a as [|x a IH]; intros [|y b] [|z c]; simpl;
    try discriminate; try reflexivity.
  destruct (Ascii.compare x y) eqn:Exy; try discriminate;
    destruct (Ascii.compare y z) eqn:Eyz; try discriminate; intros H1 H2.
  - apply Ascii.compare_eq_iff in Exy, Eyz. subst.
    rewrite ascii_compare_refl. apply IH with b; assumption.
  - apply Ascii.compare_eq_iff in Exy. subst. rewrite Eyz. reflexivity.
  - apply Ascii.compare_eq_iff in Eyz. subst. rewrite Exy. reflexivity.
  - rewrite (ascii_compare_trans _ _ _ Exy Eyz). reflexivity.
Qed.

Lemma part_cmp_refl a : part_cmp a a = Eq.
Proof.
  destruct a; simpl; [apply N.compare_refl | apply string_compare_refl].
Qed.

Lemma part_cmp_eq a b : part_cmp a b = Eq -> a = b.
Proof.
  destruct a, b; simpl; try discriminate; intro H; f_equal.
  - apply N.compare_eq_iff, H.
  - apply String.compare_eq_iff, H.
Qed.

Lemma part_cmp_antisym a b : part_cmp b a = CompOpp (part_cmp a b).
Proof.
  destruct a, b; simpl; try reflexivity.
  - apply N.compare_antisym.
  - apply String.compare_antisym.
Qed.

Lemma part_cmp_trans a b c :
  part_cmp a b = Lt -> part_cmp b c = Lt -> part_cmp a c = Lt.
Proof.
  destruct a, b, c; simpl; try discriminate; try reflexivity.
  - rewrite !N.compare_lt_iff. apply N.lt_trans.
  - apply string_compare_trans.
Qed.

Lemma key_cmp_refl a : key_cmp a a = Eq.
Proof.
  induction a as [|x a IH]; simpl; [reflexivity|].
  rewrite part_cmp_refl. exact IH.
Qed.

Lemma key_cmp_eq a : forall b, key_cmp a b = Eq -> a = b.
Proof.
  induction a as [|x a IH]; intros [|y b]; simpl; try discriminate;
    [reflexivity|].
  destruct (part_cmp x y) eqn:E; try discriminate.
  intro H. apply part_cmp_eq in E. apply IH in H. subst. reflexivity.
Qed.

Lemma key_cmp_antisym a : forall b, key_cmp b a = CompOpp (key_cmp a b).
Proof.
  induction a as [|x a IH]; intros [|y b]; simpl; try reflexivity.
  rewrite (part_cmp_antisym x y).
  destruct (part_cmp x y); simpl; [apply IH | reflexivity | reflexivity].
Qed.

Lemma key_cmp_trans a : forall b c,
  key_cmp a b = Lt -> key_cmp b c = Lt -> key_cmp a c = Lt.
Proof.
  induction a as [|x a IH]; intros [|y b] [|z c]; simpl;
    try discriminate; try reflexivity.
  destruct (part_cmp x y) eqn:Exy; try discriminate;
    destruct (part_cmp y z) eqn:Eyz; try discriminate; intros H1 H2.
  - apply part_cmp_eq in Exy, Eyz. subst.
    rewrite part_cmp_refl. apply IH with b; assumption.
  - apply part_cmp_eq in Exy. subst. rewrite Eyz. reflexivity.
  - apply part_cmp_eq in Eyz. subst. rewrite Exy. reflexivity.
  - rewrite (part_cmp_trans _ _ _ Exy Eyz). reflexivity.
Qed.

Lemma key_ltb_irrefl a : key_ltb a a = false.
Proof. unfold key_ltb. rewrite key_cmp_refl. reflexivity. Qed.

Lemma key_ltb_asym a b : key_ltb a b = true -> key_ltb b a = false.
Proof.
  unfold key_ltb. rewrite (key_cmp_antisym a b).
  destruct (key_cmp a b); simpl; congruence.
Qed.

(** Not after is transitive. *)
Lemma key_leb_trans a b c :
  key_ltb b a = false -> key_ltb c b = false -> key_ltb c a = false.
Proof.
  unfold key_ltb. intros Hba Hcb.
  destruct (key_cmp c a) eqn:Eca; try reflexivity. exfalso.
  destruct (key_cmp b a) eqn:Eba; try discriminate.
  - apply key_cmp_eq in Eba. subst. rewrite Eca in Hcb. discriminate.
  - assert (Eab : key_cmp a b = Lt).
    { pose proof (key_cmp_antisym a b) as H. rewrite Eba in H.
      destruct (key_cmp a b); simpl in H; congruence. }
    rewrite (key_cmp_trans _ _ _ Eca Eab) in Hcb. discriminate.
Qed.

(** Two keys of which neither comes before the other are the same. *)
Lemma key_leb_antisym a b :
  key_ltb b a = false -> key_ltb a b = false -> a = b.
Proof.
  unfold key_ltb. rewrite (key_cmp_antisym a b).
  destruct (key_cmp a b) eqn:E; simpl; try discriminate.
  intros _ _. apply key_cmp_eq, E.
Qed.

(** On keys of one shape [<] never raises, and is the total order. *)
Lemma key_lt_alternating a : forall int_next b,
  alternating int_next a = true -> alternating int_next b = true ->
  key_lt a b = Ok (key_ltb a b).
Proof.
  induction a as [|x a IH]; intros int_next [|y b] Ha Hb;
    try reflexivity.
  unfold key_ltb in *. simpl.
  destruct x as [n|s], y as [m|t]; simpl in Ha, Hb;
    apply andb_prop in Ha, Hb; destruct Ha as [Ha1 Ha2], Hb as [Hb1 Hb2];
    try (destruct int_next; discriminate); simpl.
  - destruct (N.compare_spec n m) as [->|Hlt|Hgt].
    + rewrite N.eqb_refl. apply (IH false); assumption.
    + assert (En : N.eqb n m = false) by (apply N.eqb_neq; lia).
      rewrite En. f_equal. apply N.ltb_lt, Hlt.
    + assert (En : N.eqb n m = false) by (apply N.eqb_neq; lia).
      rewrite En. f_equal. apply N.ltb_ge. lia.
  - unfold String.ltb.
    destruct (String.eqb_spec s t) as [->|Hne].
    + rewrite string_compare_refl. apply (IH true); assumption.
    + destruct (String.compare s t) eqn:E; try reflexivity.
      exfalso. apply Hne, String.compare_eq_iff, E.
Qed.

Lemma key_before_alternating int_next a b :
  alternating int_next a = true -> alternating int_next b = true ->
  key_before a b = key_ltb a b.
Proof.
  intros Ha Hb. unfold key_before.
  rewrite (key_lt_alternating a int_next b Ha Hb). reflexivity.
Qed.

(** *** The shape of natural keys *)

Lemma all_chars_impl (f g : ascii -> bool) s :
  (forall c, f c = true -> g c = true) ->
  all_chars f s = true -> all_chars g s = true.
Proof.
  intro H. induction s as [|c s IH]; simpl; [reflexivity|].
  intro Hs. apply andb_prop in Hs. destruct Hs as [Hc Hs].
  rewrite (H c Hc), (IH Hs). reflexivity.
Qed.

Lemma is_empty_snoc cur c :
  is_empty (String.append cur (String c EmptyString)) = false.
Proof. destruct cur; reflexivity. Qed.

(** The pieces of [re.split]: the pending piece [cur] has the kind the
    scan is in, and so have the pieces that follow, in turn. *)
Lemma split_digits_segments s : forall (in_run : bool) (cur : string),
  (if in_run then negb (is_empty cur) && all_chars is_digit cur
   else all_chars (fun c => negb (is_digit c)) cur) = true ->
  segments in_run (split_digits in_run cur s) = true.
Proof.
  induction s as [|c s IH]; intros in_run cur Hcur.
  - simpl. destruct in_run; simpl; rewrite Hcur; reflexivity.
  - simpl. destruct (is_digit c) eqn:Ec, in_run.
    + apply IH. apply andb_prop in Hcur. destruct Hcur as [_ Hd].
      rewrite is_empty_snoc, all_chars_append, Hd. simpl. rewrite Ec.
      reflexivity.
    + simpl. rewrite Hcur. simpl. apply (IH true). simpl. rewrite Ec.
      reflexivity.
    + simpl. rewrite Hcur. simpl. apply (IH false). simpl. rewrite Ec.
      reflexivity.
    + apply IH. rewrite all_chars_append, Hcur. simpl. rewrite Ec.
      reflexivity.
Qed.

Lemma int_from_digits p : forall acc,
  all_chars is_digit p = true -> exists n, int_from acc p = Some n.
Proof.
  induction p as [|c p IH]; intros acc H; simpl.
  - exists acc. reflexivity.
  - simpl in H. apply andb_prop in H. destruct H as [Hc Hp].
    rewrite Hc. apply IH, Hp.
Qed.

(** A run of digits becomes an integer. *)
Lemma key_of_digits p :
  negb (is_empty p) && all_chars is_digit p = true ->
  exists n, key_of_part p = Ok (KInt n).
Proof.
  intro H. apply andb_prop in H. destruct H as [He Hd].
  unfold key_of_part, isdigit. rewrite He. simpl.
  assert (Hall : all_chars (fun c => is_digit c || is_superscript c) p = true)
    by (apply (all_chars_impl is_digit); [intros c ->; reflexivity | exact Hd]).
  rewrite Hall.
  destruct (int_from_digits p 0%N Hd) as [n ->]. exists n. reflexivity.
Qed.

(** A stretch without digits becomes a string, or int raises on it. *)
Lemma key_of_text p k :
  all_chars (fun c => negb (is_digit c)) p = true ->
  key_of_part p = Ok k -> k = KStr (lower p).
Proof.
  intros Hp. unfold key_of_part.
  destruct (isdigit p) eqn:E.
  - destruct p as [|c p]; [discriminate E|].
    simpl in Hp. apply andb_prop in Hp. destruct Hp as [Hc _].
    simpl. apply negb_true_iff in Hc. rewrite Hc. discriminate.
  - intro H. injection H as <-. reflexivity.
Qed.

(** A stretch without digits and without superscripts becomes a
    string. *)
Lemma key_of_plain_text p :
  all_chars (fun c => negb (is_digit c)) p = true ->
  no_superscript p = true ->
  key_of_part p = Ok (KStr (lower p)).
Proof.
  intros Hp Hs. unfold key_of_part.
  destruct (isdigit p) eqn:E; [|reflexivity]. exfalso.
  destruct p as [|c p]; [discriminate E|].
  unfold isdigit in E. simpl in E, Hp, Hs.
  apply andb_prop in E, Hp, Hs.
  destruct E as [E _], Hp as [Hp _], Hs as [Hs _].
  apply negb_true_iff in Hp, Hs. rewrite Hp, Hs in E. discriminate.
Qed.

Lemma map_result_alternating l : forall digits k,
  segments digits l = true ->
  map_result key_of_part l = Ok k ->
  alternating digits k = true.
Proof.
  induction l as [|s l IH]; intros digits k Hseg H; simpl in H.
  - injection H as <-. reflexivity.
  - simpl in Hseg. apply andb_prop in Hseg. destruct Hseg as [Hs Hl].
    destruct (key_of_part s) as [a|e] eqn:Ea; [|discriminate].
    simpl in H.
    destruct (map_result key_of_part l) as [k'|e] eqn:Ek; [|discriminate].
    simpl in H. injection H as <-.
    specialize (IH _ _ Hl eq_refl).
    destruct digits.
    + destruct (key_of_digits s Hs) as [n Hn]. rewrite Hn in Ea.
      injection Ea as <-. simpl. exact IH.
    + rewrite (key_of_text s a Hs Ea). simpl. exact IH.
Qed.

(** The key of a name starts with a string, and strings and integers
    follow one another. *)
Lemma natural_key_alternating name k :
  natural_key name = Ok k -> alternating false k = true.
Proof.
  apply map_result_alternating, split_digits_segments. reflexivity.
Qed.

Lemma no_superscript_append a b :
  no_superscript (String.append a b) = no_superscript a && no_superscript b.
Proof. apply all_chars_append. Qed.

Lemma split_digits_has_key s : forall (in_run : bool) (cur : string),
  (if in_run then negb (is_empty cur) && all_chars is_digit cur
   else all_chars (fun c => negb (is_digit c)) cur) = true ->
  no_superscript cur = true -> no_superscript s = true ->
  exists k, map_result key_of_part (split_digits in_run cur s) = Ok k.
Proof.
  induction s as [|c s IH]; intros in_run cur Hcur Hpc Hps.
  - simpl. destruct in_run; simpl.
    + destruct (key_of_digits cur Hcur) as [n ->]. simpl.
      eexists. reflexivity.
    + rewrite (key_of_plain_text cur Hcur Hpc). simpl. eexists. reflexivity.
  - simpl in Hps. apply andb_prop in Hps. destruct Hps as [Hc Hps].
    assert (Hone : no_superscript (String c EmptyString) = true)
      by (unfold no_superscript; simpl; rewrite Hc; reflexivity).
    simpl. destruct (is_digit c) eqn:Ec, in_run.
    + apply IH; [|rewrite no_superscript_append, Hpc, Hone; reflexivity
                 |exact Hps].
      apply andb_prop in Hcur. destruct Hcur as [_ Hd].
      rewrite is_empty_snoc, all_chars_append, Hd. simpl. rewrite Ec.
      reflexivity.
    + simpl. rewrite (key_of_plain_text cur Hcur Hpc). simpl.
      destruct (IH true (String c EmptyString)) as [k ->];
        [simpl; rewrite Ec; reflexivity | exact Hone | exact Hps|].
      simpl. eexists. reflexivity.
    + simpl. destruct (key_of_digits cur Hcur) as [n ->]. simpl.
      destruct (IH false (String c EmptyString)) as [k ->];
        [simpl; rewrite Ec; reflexivity | exact Hone | exact Hps|].
      simpl. eexists. reflexivity.
    + apply IH; [|rewrite no_superscript_append, Hpc, Hone; reflexivity
                 |exact Hps].
      rewrite all_chars_append, Hcur. simpl. rewrite Ec. reflexivity.
Qed.

(** natural_key returns on every name without superscript digits. *)
Lemma plain_name_has_key name :
  no_superscript name = true -> has_key name = true.
Proof.
  intro H. unfold has_key, natural_key.
  destruct (split_digits_has_key name false EmptyString eq_refl eq_refl H)
    as [k ->].
  reflexivity.
Qed.

(** It raises on a name with a stretch of superscript digits between
    digits. *)
Example superscript_name_has_no_key :
  natural_key (String "1" (String (ascii_of_nat 178) (String "3" EmptyString)))
  = Raise "invalid literal for int() with base 10".
Proof. vm_compute. reflexivity. Qed.

(** *** The items of a run are items of the batch *)

Lemma next_img_incl seen it : forall o it',
  next_img seen it = (o, it') ->
  incl it' it /\ forall p, o = Some p -> In p it.
Proof.
  induction it as [|q it IH]; intros o it' H; simpl in H.
  - injection H as <- <-. split; [apply incl_refl | discriminate].
  - destruct (in_seen q seen).
    + destruct (IH _ _ H) as [Hi Hp]. split.
      * apply incl_tl, Hi.
      * intros p Ho. right. apply Hp, Ho.
    + injection H as <- <-. split.
      * apply incl_tl, incl_refl.
      * intros p Hp. injection Hp as <-. left. reflexivity.
Qed.

Section ItemsWithin.

Context {X : Type}.
Variable call : Path -> result (string * option Usage).
Variable parse : string -> result (list X).
Variable no_result_msg : string.
Variable total : nat.

Local Abbreviation one := (complete_one call parse no_result_msg total).
Local Abbreviation each := (for_done_set call parse no_result_msg total).
Local Abbreviation drain := (drain call parse no_result_msg).

Lemma items_parts (st : pool (X := X)) q :
  In q (items st)
  <-> In q (seen st) \/ In q (map snd (running st)) \/ In q (imgs_iter st).
Proof. unfold items. rewrite !in_app_iff. reflexivity. Qed.

Lemma one_within fut (st st' : pool) acts fl :
  In fut (running st) ->
  one fut st = (acts, st', fl) ->
  incl (items st') (items st).
Proof.
  intros Hin H. rewrite complete_one_eq in H.
  assert (Hfut : In (snd fut) (map snd (running st))) by (apply in_map, Hin).
  assert (Hrun : forall q,
            In q (map snd (filter (fun f => negb (fst f =? fst fut))
                                  (running st))) ->
            In q (map snd (running st))).
  { intros q Hq. apply in_map_iff in Hq. destruct Hq as (f & <- & Hf).
    apply filter_In in Hf. apply in_map, Hf. }
  destruct (_wait_if_paused (control_getter st)) as [[| |] g].
  - destruct (next_img (snd fut :: seen st) (imgs_iter st))
      as [[nxt|] it] eqn:En;
      destruct (next_img_incl _ _ _ _ En) as [Hsub Hp];
      injection H as <- <- <-; intros q Hq;
      apply items_parts in Hq; apply items_parts; simpl in Hq.
    + rewrite map_app, in_app_iff in Hq. simpl in Hq.
      destruct Hq as [[<-|Hq]|[[Hq|[<-|[]]]|Hq]]; auto;
        right; right; apply Hp; reflexivity.
    + destruct Hq as [[<-|Hq]|[Hq|Hq]]; auto.
  - injection H as <- <- <-. intros q Hq.
    apply items_parts in Hq. apply items_parts. simpl in Hq.
    destruct Hq as [[<-|Hq]|[[]|Hq]]; auto.
  - injection H as <- <- <-. intros q Hq.
    apply items_parts in Hq. apply items_parts. simpl in Hq.
    destruct Hq as [[<-|Hq]|[Hq|Hq]]; auto.
Qed.

Lemma each_within done_set (st st' : pool) acts fl :
  valid_futures st -> done_set_ok done_set st ->
  each done_set st = (acts, st', fl) ->
  incl (items st') (items st).
Proof.
  apply (for_done_set_rule call parse no_result_msg total
           (fun st _ st' _ => incl (items st') (items st))).
  - intro s. apply incl_refl.
  - intros fut s acts0 s' fl0 _ Hin H _. exact (one_within _ _ _ _ _ Hin H).
  - intros fut s acts1 s1 acts2 s2 fl0 _ Hin H Hrest.
    apply incl_tran with (items s1); [exact Hrest|].
    exact (one_within _ _ _ _ _ Hin H).
Qed.

Lemma drain_within fuel sched (st : pool) :
  valid_futures st ->
  incl (items (final (drain fuel total sched st))) (items st).
Proof.
  apply (drain_rule call parse no_result_msg total
           (fun st r => incl (items (final r)) (items st))).
  - intros s _. apply incl_refl.
  - intros s _. apply incl_refl.
  - intros s done_set acts s' Hv Hok _ H.
    exact (each_within _ _ _ _ _ Hv Hok H).
  - intros s done_set acts s' fl fuel0 sched0 Hv Hok _ H _ Hrest.
    apply incl_tran with (items s'); [exact Hrest|].
    exact (each_within _ _ _ _ _ Hv Hok H).
Qed.

Lemma initial_submit_within room : forall st : pool (X := X),
  incl (items (final (initial_submit room st))) (items st).
Proof.
  induction room as [|room IH]; intro st; simpl; [apply incl_refl|].
  destruct (_wait_if_paused (control_getter st)) as [[| |] g];
    try apply incl_refl.
  destruct (next_img (seen st) (imgs_iter st)) as [[nxt|] it] eqn:En;
    destruct (next_img_incl _ _ _ _ En) as [Hsub Hp].
  - simpl. eapply incl_tran; [apply IH|]. intros q Hq.
    apply items_parts in Hq. apply items_parts. simpl in Hq.
    rewrite map_app, in_app_iff in Hq. simpl in Hq.
    destruct Hq as [Hq|[[Hq|[<-|[]]]|Hq]]; auto;
      right; right; apply Hp; reflexivity.
  - simpl. intros q Hq.
    apply items_parts in Hq. apply items_parts. simpl in Hq.
    destruct Hq as [Hq|[Hq|Hq]]; auto.
Qed.

(** Whatever the gate and the schedule, with or without repeated items,
    every item the run completed is an item of the batch. *)
Lemma loop_within max_workers sched images og :
  incl (seen (final (process_loop call parse no_result_msg total max_workers
                                  sched images (fresh_pool (X := X) og))))
       images.
Proof.
  rewrite loop_eq.
  set (st1 := with_running [] (with_iter images (fresh_pool (X := X) og))).
  pose proof (initial_submit_within max_workers st1) as H1.
  change (items st1) with images in H1.
  assert (Hseen : forall s : pool (X := X), incl (seen s) (items s))
    by (intro s; unfold items; apply incl_appl, incl_refl).
  destruct (1 <? max_workers).
  - destruct (how (initial_submit max_workers st1));
      try (eapply incl_tran; [apply Hseen | exact H1]).
    simpl. eapply incl_tran; [apply Hseen|].
    eapply incl_tran; [|exact H1].
    apply drain_within.
    apply (initial_submit_facts max_workers st1). split; simpl; constructor.
  - destruct (sequential_seen call parse no_result_msg total images
                              (fresh_pool (X := X) og)) as [H _].
    exact H.
Qed.

End ItemsWithin.

(** *** Sorted lists *)

Lemma StronglySorted_map_in {A B : Type} (R : A -> A -> Prop)
  (R' : B -> B -> Prop) (f : A -> B) (l : list A) :
  StronglySorted R l ->
  (forall x y, In x l -> In y l -> R x y -> R' (f x) (f y)) ->
  StronglySorted R' (map f l).
Proof.
  induction 1 as [|a l Hl IH Ha]; intro H; simpl; constructor.
  - apply IH. intros x y Hx Hy. apply H; right; assumption.
  - rewrite Forall_forall in *. intros b Hb.
    apply in_map_iff in Hb. destruct Hb as (y & <- & Hy).
    apply H; [left; reflexivity | right; exact Hy | apply Ha, Hy].
Qed.

Lemma StronglySorted_nth {A : Type} (R : A -> A -> Prop) (l : list A) :
  StronglySorted R l ->
  forall i j a b,
    i < j -> nth_error l i = Some a -> nth_error l j = Some b -> R a b.
Proof.
  induction 1 as [|x l Hl IH Hx]; intros i j a b Hij Hi Hj.
  - destruct i; discriminate.
  - destruct j as [|j]; [lia|]. simpl in Hj. destruct i as [|i].
    + simpl in Hi. injection Hi as <-. rewrite Forall_forall in Hx.
      apply Hx. apply nth_error_In with j. exact Hj.
    + simpl in Hi. apply (IH i j); [lia | exact Hi | exact Hj].
Qed.

(** Under an order in which two elements of which neither comes before
    the other are the same, a list has one sorted arrangement. *)
Lemma sorted_list_unique {K : Type} (le : K -> K -> Prop) :
  (forall a b, le a b -> le b a -> a = b) ->
  forall l1 l2,
    StronglySorted le l1 -> StronglySorted le l2 -> Permutation l1 l2 ->
    l1 = l2.
Proof.
  intros Hanti. induction l1 as [|a l1 IH]; intros l2 H1 H2 Hp.
  - apply Permutation_nil in Hp. symmetry. exact Hp.
  - destruct l2 as [|b l2];
      [apply Permutation_sym, Permutation_nil in Hp; discriminate|].
    apply StronglySorted_inv in H1. destruct H1 as [H1 Ha].
    apply StronglySorted_inv in H2. destruct H2 as [H2 Hb].
    rewrite Forall_forall in Ha, Hb.
    assert (Hab : a = b).
    { assert (Hbin : In b (a :: l1))
        by (apply (Permutation_in _ (Permutation_sym Hp)); left; reflexivity).
      destruct Hbin as [Hbin|Hbin]; [exact Hbin|].
      assert (Hain : In a (b :: l2))
        by (apply (Permutation_in _ Hp); left; reflexivity).
      destruct Hain as [Hain|Hain]; [symmetry; exact Hain|].
      apply Hanti; [apply Ha, Hbin | apply Hb, Hain]. }
    subst b. f_equal. apply IH; try assumption.
    apply Permutation_cons_inv with a. exact Hp.
Qed.

(** *** The sort of process_images *)

Lemma the_key_ok name : has_key name = true -> natural_key name = Ok (the_key name).
Proof.
  unfold has_key, the_key. destruct (natural_key name); [reflexivity | discriminate].
Qed.

Lemma the_key_alternating name : alternating false (the_key name) = true.
Proof.
  unfold the_key. destruct (natural_key name) as [k|e] eqn:E; [|reflexivity].
  exact (natural_key_alternating name k E).
Qed.

Lemma natural_leb_keys a b :
  has_key a = true -> has_key b = true ->
  natural_leb a b = negb (key_ltb (the_key b) (the_key a)).
Proof.
  intros Ha Hb. unfold natural_leb.
  rewrite (the_key_ok a Ha), (the_key_ok b Hb).
  rewrite (key_before_alternating false); auto using the_key_alternating.
Qed.

Lemma natural_leb_refl a : has_key a = true -> natural_leb a a = true.
Proof.
  intro H. rewrite natural_leb_keys, key_ltb_irrefl by exact H. reflexivity.
Qed.

(** The keys are computed when natural_key returns on every name, and
    only then. *)
Lemma keyed_paths l : forall keyed,
  map_result (fun p => k <- natural_key (name p) ;; Ok (k, p)) l = Ok keyed ->
  Forall (fun p => has_key (name p) = true) l /\ keyed = map keyed_of l.
Proof.
  induction l as [|p l IH]; intros keyed H; simpl in H.
  - injection H as <-. split; [constructor | reflexivity].
  - destruct (natural_key (name p)) as [k|e] eqn:Ek; [|discriminate].
    simpl in H.
    destruct (map_result _ l) as [ks|e] eqn:El; [|discriminate].
    simpl in H. injection H as <-.
    destruct (IH ks eq_refl) as [Hall ->].
    assert (Hk : has_key (name p) = true) by (unfold has_key; rewrite Ek; reflexivity).
    split; [constructor; assumption|].
    cbn [map]. f_equal. unfold keyed_of, the_key. rewrite Ek. reflexivity.
Qed.

Lemma keyed_paths_ok l :
  Forall (fun p => has_key (name p) = true) l ->
  map_result (fun p => k <- natural_key (name p) ;; Ok (k, p)) l
  = Ok (map keyed_of l).
Proof.
  induction 1 as [|p l Hp Hl IH]; [reflexivity|].
  cbn [map_result map]. rewrite (the_key_ok _ Hp), IH. reflexivity.
Qed.

(** On keys of names the comparison of the sort is the total order. *)
Lemma sorted_keyed l :
  sorted key_before fst (map keyed_of l) = sorted key_ltb fst (map keyed_of l).
Proof.
  apply sorted_ext. intros a b Ha Hb.
  apply in_map_iff in Ha, Hb.
  destruct Ha as (p & <- & _), Hb as (q & <- & _). simpl.
  apply (key_before_alternating false); apply the_key_alternating.
Qed.

Lemma sort_by_natural_key_eq l :
  Forall (fun p => has_key (name p) = true) l ->
  sort_by_natural_key l
  = Ok (map snd (sorted key_ltb fst (map keyed_of l))).
Proof.
  intro H. unfold sort_by_natural_key.
  rewrite (keyed_paths_ok l H). simpl. rewrite sorted_keyed. reflexivity.
Qed.

Lemma sort_by_natural_key_defined l images :
  sort_by_natural_key l = Ok images ->
  Forall (fun p => has_key (name p) = true) l.
Proof.
  unfold sort_by_natural_key. intro H.
  destruct (map_result _ l) as [keyed|e] eqn:E; [|discriminate].
  apply (keyed_paths l keyed E).
Qed.

Lemma keyed_sorted l :
  StronglySorted (fun a b => key_ltb (fst b) (fst a) = false)
                 (sorted key_ltb fst (map keyed_of l)).
Proof.
  apply (sorted_sorted key_ltb fst).
  - exact key_ltb_asym.
  - exact key_leb_trans.
Qed.

Lemma keyed_of_sorted l x :
  In x (sorted key_ltb fst (map keyed_of l)) ->
  exists p, In p l /\ x = keyed_of p.
Proof.
  intro H. apply (Permutation_in _ (sorted_perm key_ltb fst _)) in H.
  apply in_map_iff in H. destruct H as (p & <- & Hp). exists p. auto.
Qed.

(** The sorted list holds the items supplied, each name not after the
    names that follow it. *)
Lemma sort_by_natural_key_sorted l images :
  sort_by_natural_key l = Ok images ->
  Permutation images l
  /\ StronglySorted (fun p q => natural_leb (name p) (name q) = true) images
  /\ Forall (fun p => has_key (name p) = true) images.
Proof.
  intro H. pose proof (sort_by_natural_key_defined l images H) as Hall.
  rewrite (sort_by_natural_key_eq l Hall) in H. injection H as <-.
  assert (Hperm : Permutation (map snd (sorted key_ltb fst (map keyed_of l))) l).
  { rewrite (sorted_perm key_ltb fst), map_map. simpl. rewrite map_id.
    reflexivity. }
  split; [exact Hperm|]. rewrite Forall_forall in Hall. split.
  - apply (StronglySorted_map_in _ _ snd _ (keyed_sorted l)).
    intros x y Hx Hy Hxy.
    apply keyed_of_sorted in Hx, Hy.
    destruct Hx as (p & Hp & ->), Hy as (q & Hq & ->). simpl in *.
    rewrite natural_leb_keys by (apply Hall; assumption).
    rewrite Hxy. reflexivity.
  - apply Forall_forall. intros p Hp. apply Hall.
    apply (Permutation_in _ Hperm Hp).
Qed.

(** Two lists of the same items, in any two orders, are sorted into
    lists with the same keys at the same places. *)
Lemma sort_by_natural_key_order_free l1 l2 s1 s2 :
  Permutation l1 l2 ->
  sort_by_natural_key l1 = Ok s1 -> sort_by_natural_key l2 = Ok s2 ->
  map (fun p => natural_key (name p)) s1
  = map (fun p => natural_key (name p)) s2.
Proof.
  intros Hp H1 H2.
  pose proof (sort_by_natural_key_defined _ _ H1) as D1.
  pose proof (sort_by_natural_key_defined _ _ H2) as D2.
  rewrite (sort_by_natural_key_eq _ D1) in H1. injection H1 as <-.
  rewrite (sort_by_natural_key_eq _ D2) in H2. injection H2 as <-.
  assert (Hkeys : forall l,
            Forall (fun p => has_key (name p) = true) l ->
            map (fun p => natural_key (name p))
                (map snd (sorted key_ltb fst (map keyed_of l)))
            = map Ok (map fst (sorted key_ltb fst (map keyed_of l)))).
  { intros l D. rewrite !map_map. apply map_ext_in. intros x Hx.
    apply keyed_of_sorted in Hx. destruct Hx as (p & Hin & ->). simpl.
    rewrite Forall_forall in D. apply the_key_ok, D, Hin. }
  rewrite (Hkeys l1 D1), (Hkeys l2 D2). f_equal.
  apply (sorted_list_unique (fun a b => key_ltb b a = false)).
  - intros a b Hab Hba. apply key_leb_antisym; assumption.
  - apply (StronglySorted_map_in _ _ fst _ (keyed_sorted l1)). auto.
  - apply (StronglySorted_map_in _ _ fst _ (keyed_sorted l2)). auto.
  - apply Permutation_map.
    rewrite !(sorted_perm key_ltb fst). apply Permutation_map, Hp.
Qed.

(** *** The order of the document *)

Lemma last_occurrence (l : list Path) s :
  In s (map name l) ->
  exists a p b, l = a ++ p :: b /\ name p = s /\ ~ In s (map name b).
Proof.
  induction l as [|q l IH]; simpl; [intros []|]. intro H.
  destruct (in_dec string_dec s (map name l)) as [Hin|Hout].
  - destruct (IH Hin) as (a & p & b & -> & Hp & Hb).
    exists (q :: a), p, b. auto.
  - destruct H as [H|H]; [|contradiction].
    exists [], q, l. auto.
Qed.

Lemma order_key_last {D : Type} a p b (d : D) :
  ~ In (name p) (map name b) ->
  order_key (order_map (a ++ p :: b)) (name p, d) = Z.of_nat (List.length a).
Proof.
  intro H. unfold order_key, order_map. simpl fst.
  rewrite order_map_get_index; [reflexivity | exact H].
Qed.

Lemma nth_error_middle {A : Type} (a : list A) p b :
  nth_error (a ++ p :: b) (List.length a) = Some p.
Proof. induction a; simpl; auto. Qed.

(** Results put in the order of a naturally sorted batch are in natural
    order. *)
Lemma ordered_results_natural {D : Type} (images : list Path)
  (results : list (string * D)) :
  StronglySorted (fun p q => natural_leb (name p) (name q) = true) images ->
  Forall (fun p => has_key (name p) = true) images ->
  (forall x, In x results -> In (fst x) (map name images)) ->
  StronglySorted (fun x y => natural_leb (fst x) (fst y) = true)
                 (sorted Z.ltb (order_key (order_map images)) results).
Proof.
  intros Hs Hk Hin.
  assert (H0 : StronglySorted
                 (fun x y => (order_key (order_map images) y
                              <? order_key (order_map images) x)%Z = false)
                 (sorted Z.ltb (order_key (order_map images)) results)).
  { apply (sorted_sorted Z.ltb).
    - intros a b H. apply Z.ltb_lt in H. apply Z.ltb_ge. lia.
    - intros a b c H1 H2. apply Z.ltb_ge in H1, H2. apply Z.ltb_ge. lia. }
  rewrite <- (map_id (sorted _ _ _)).
  apply (StronglySorted_map_in _ _ (fun x => x) _ H0).
  intros [sx dx] [sy dy] Hx Hy Hxy.
  apply (Permutation_in _ (sorted_perm _ _ _)) in Hx, Hy.
  apply Hin in Hx, Hy. simpl in Hx, Hy |- *.
  destruct (last_occurrence images sx Hx) as (a & p & b & E1 & Hp & Hb).
  destruct (last_occurrence images sy Hy) as (a' & q & b' & E2 & Hq & Hb').
  subst sx sy.
  rewrite E1 in Hxy at 2. rewrite (order_key_last a p b dx Hb) in Hxy.
  rewrite E2 in Hxy. rewrite (order_key_last a' q b' dy Hb') in Hxy.
  apply Z.ltb_ge in Hxy.
  pose proof (nth_error_middle a p b) as Np. rewrite <- E1 in Np.
  pose proof (nth_error_middle a' q b') as Nq. rewrite <- E2 in Nq.
  assert (Hcase : List.length a < List.length a'
                  \/ List.length a = List.length a') by lia.
  destruct Hcase as [Hlt|Heq].
  - exact (StronglySorted_nth _ _ Hs _ _ _ _ Hlt Np Nq).
  - rewrite Heq, Nq in Np. injection Np as ->.
    apply natural_leb_refl. rewrite Forall_forall in Hk. apply Hk.
    rewrite E1. apply in_or_app. right. left. reflexivity.
Qed.

(** What a batch hands to the writer names items of the batch only. *)
Lemma written_names {X : Type}
  (call : Path -> result (string * option Usage))
  (parse : string -> result (list X)) (no_result_msg : string)
  (images : list Path) (embedded pages max_workers : nat)
  (og : option gate_script) (sched : list (list nat)) out :
  written (run_batch call parse no_result_msg images embedded pages
                     max_workers og sched) = Some out ->
  out = sorted Z.ltb (order_key (order_map images))
               (image_results
                  (final (process_loop call parse no_result_msg
                            (List.length images) max_workers sched images
                            (fresh_pool (X := X) og))))
  /\ forall x, In x out -> In (fst x) (map name images).
Proof.
  rewrite run_batch_eq.
  set (r := process_loop call parse no_result_msg (List.length images)
                         max_workers sched images (fresh_pool (X := X) og)).
  destruct (how r); simpl; try discriminate.
  intro H. injection H as <-. split; [reflexivity|].
  intros x Hx. apply (Permutation_in _ (sorted_perm _ _ _)) in Hx.
  destruct (loop_inv call parse no_result_msg (List.length images)
                     max_workers sched images og) as [_ _ Hres].
  fold r in Hres. rewrite Hres in Hx.
  apply in_flat_map in Hx. destruct Hx as (p & Hp & Hx).
  rewrite (kept_shape call parse p x Hx). apply in_map.
  apply (loop_within call parse no_result_msg (List.length images)
                     max_workers sched images og).
  apply in_rev. exact Hp.
Qed.

(** When natural_key returns on the name of every supplied path,
    as it does on every name without superscript digits, process_images
    runs its batch on the supplied paths sorted by natural key: a
    rearrangement of the supplied list in which no name comes after a
    name that follows it.  Whatever the workers, the gate and the order
    of completion, the names of the list handed to the writer are in
    natural order as well.  Supplying the same paths in another order
    gives a batch with the same keys at the same places. *)
Theorem process_images_natural_order {X : Type}
  (call : Path -> result (string * option Usage))
  (parse : string -> result (list X)) (no_result_msg : string)
  (image_paths : list Path) (max_workers : nat)
  (og : option gate_script) (sched : list (list nat)) :
  Forall (fun p => has_key (name p) = true) image_paths ->
  exists images_to_process,
    sort_by_natural_key image_paths = Ok images_to_process
    /\ process_images call parse no_result_msg image_paths max_workers og sched
       = Ok (run_batch call parse no_result_msg images_to_process
                       (List.length images_to_process) 0 max_workers og sched)
    /\ Permutation images_to_process image_paths
    /\ StronglySorted (fun p q => natural_leb (name p) (name q) = true)
                      images_to_process
    /\ (forall out,
          written (run_batch call parse no_result_msg images_to_process
                             (List.length images_to_process) 0 max_workers
                             og sched) = Some out ->
          StronglySorted (fun x y => natural_leb (fst x) (fst y) = true) out)
    /\ (forall supplied,
          Permutation supplied image_paths ->
          exists others,
            sort_by_natural_key supplied = Ok others
            /\ map (fun p => natural_key (name p)) others
               = map (fun p => natural_key (name p)) images_to_process).
Proof.
  intro Hall.
  pose proof (sort_by_natural_key_eq image_paths Hall) as Hsort.
  set (images := map snd (sorted key_ltb fst (map keyed_of image_paths)))
    in Hsort.
  destruct (sort_by_natural_key_sorted image_paths images Hsort)
    as (Hperm & Hsorted & Hkeys).
  exists images. split; [exact Hsort|]. split; [|split; [exact Hperm|]].
  { unfold process_images. rewrite Hsort. reflexivity. }
  split; [exact Hsorted|]. split.
  - intros out Hout.
    destruct (written_names call parse no_result_msg images _ _ _ _ _ out Hout)
      as [-> Hnames].
    apply ordered_results_natural; [exact Hsorted | exact Hkeys|].
    intros x Hx. apply Hnames.
    apply (Permutation_in _ (Permutation_sym (sorted_perm _ _ _))). exact Hx.
  - intros supplied Hp.
    assert (Hall' : Forall (fun p => has_key (name p) = true) supplied).
    { rewrite Forall_forall in *. intros p Hin. apply Hall.
      apply (Permutation_in _ Hp Hin). }
    eexists. split; [apply (sort_by_natural_key_eq supplied Hall')|].
    apply (sort_by_natural_key_order_free supplied image_paths);
      [exact Hp | apply sort_by_natural_key_eq, Hall' | exact Hsort].
Qed.

(** The theorem at img10.png supplied before img2.png. *)
Lemma process_images_natural_order_witness :
  exists images_to_process,
    sort_by_natural_key [img10; img2] = Ok images_to_process
    /\ process_images sample_call sample_parse "no_content" [img10; img2] 1
                      None []
       = Ok (run_batch sample_call sample_parse "no_content" images_to_process
                       (List.length images_to_process) 0 1 None [])
    /\ Permutation images_to_process [img10; img2]
    /\ StronglySorted (fun p q => natural_leb (name p) (name q) = true)
                      images_to_process
    /\ (forall out,
          written (run_batch sample_call sample_parse "no_content"
                             images_to_process
                             (List.length images_to_process) 0 1 None [])
          = Some out ->
          StronglySorted (fun x y => natural_leb (fst x) (fst y) = true) out)
    /\ (forall supplied,
          Permutation supplied [img10; img2] ->
          exists others,
            sort_by_natural_key supplied = Ok others
            /\ map (fun p => natural_key (name p)) others
               = map (fun p => natural_key (name p)) images_to_process).
Proof.
  apply (process_images_natural_order sample_call sample_parse "no_content"
           [img10; img2] 1 None []).
  repeat constructor.
Defined.

(** img2.png comes before img10.png in the batch and in the document,
    whichever was supplied first. *)
Example img2_before_img10 :
  sort_by_natural_key [img10; img2] = Ok [img2; img10]
  /\ sort_by_natural_key [img2; img10] = Ok [img2; img10]
  /\ (forall rep,
        process_images sample_call sample_parse "no_content" [img10; img2] 3
                       None [[1]; [0]] = Ok rep ->
        written rep = Some [("img2.png", [1]); ("img10.png", [1])]).
Proof.
  split; [vm_compute; reflexivity|]. split; [vm_compute; reflexivity|].
  intros rep H. vm_compute in H. injection H as <-. reflexivity.
Qed.

(** Digit runs count as numbers, leading zeros and all; letters count
    without their case. *)
Example natural_order_samples :
  natural_leb "img2.png" "img10.png" = true
  /\ natural_leb "img10.png" "img2.png" = false
  /\ natural_leb "IMG2.png" "img10.png" = true
  /\ natural_leb "b1.png" "A2.png" = false
  /\ natural_key "img007.png" = natural_key "IMG7.PNG".
Proof. vm_compute. repeat split. Qed.

(** ** Natural order of file names: a name natural_key refuses *)

Lemma map_result_raises {A B : Type} (f : A -> result B) (l : list A) x :
  In x l -> (exists msg, f x = Raise msg) ->
  exists msg, map_result f l = Raise msg.
Proof.
  intros Hin [m Hm]. induction l as [|a l IH]; [destruct Hin|].
  simpl. destruct (f a) as [b|msg] eqn:E; [|exists msg; reflexivity].
  destruct Hin as [->|Hin]; [rewrite Hm in E; discriminate|].
  destruct (IH Hin) as [msg Hmsg]. rewrite Hmsg. exists msg. reflexivity.
Qed.



(** ** Failures of single items: the course of the run *)





Section CourseOfTheLoop.

Context {X Y : Type}.
Variable call : Path -> result (string * option Usage).
Variable parse : string -> result (list X).
Variable no_result_msg : string.
Variable call' : Path -> result (string * option Usage).
Variable parse' : string -> result (list Y).
Variable no_result_msg' : string.
Variable total : nat.










End CourseOfTheLoop.



Section RunEntries.

Context {X : Type}.
Variable call : Path -> result (string * option Usage).
Variable parse : string -> result (list X).
Variable no_result_msg : string.
Variable images : list Path.
Variable embedded pages : nat.
Variable max_workers : nat.
Variable og : option gate_script.
Variable sched : list (list nat).

Local Abbreviation N := (List.length images).
Local Abbreviation r :=
  (process_loop call parse no_result_msg N max_workers sched images
                (fresh_pool (X := X) og)).
Local Abbreviation rep :=
  (run_batch call parse no_result_msg images embedded pages max_workers og sched).
Local Abbreviation comp := (rev (seen (final r))).




End RunEntries.




(** What the task entry holds after that run: all three counted, and the
    second page in the error list. *)
Example failed_page_is_counted :
  t_status (aggregate
              (progress (run_batch failing_call one_node "no_content"
                           [page1; page2; page3] 0 3 3 None [[2]; [0]; [1]]))
              (pending_task 3 0 3)) = "completed"
  /\ t_errors (aggregate
                 (progress (run_batch failing_call one_node "no_content"
                              [page1; page2; page3] 0 3 3 None
                              [[2]; [0]; [1]]))
                 (pending_task 3 0 3))
     = [mkError (Some "page-2-full.png") "500 Server Error"]
  /\ step_images (progress (run_batch failing_call one_node "no_content"
                              [page1; page2; page3] 0 3 3 None
                              [[2]; [0]; [1]]))
     = ["page-3-full.png"; "page-1-full.png"; "page-2-full.png"].
Proof. vm_compute. repeat split. Qed.

(* ===================================================================== *)
(** * Part III. Further properties of the code *)
(* ===================================================================== *)

From Stdlib Require Import Lqa.

(** ** The worker pool: the run returns *)

Lemma poll_settles settled rs v later :
  negb (paused settled) || stop settled = true ->
  poll settled rs = (v, later) -> v <> Hang.
Proof.
  intro Hs. revert v later.
  induction rs as [|c rs IH]; intros v later H; simpl in H.
  - destruct (stop settled); [injection H as <- _; discriminate|].
    rewrite orb_false_r in Hs. rewrite Hs in H.
    injection H as <- _. discriminate.
  - destruct (stop c); [injection H as <- _; discriminate|].
    destruct (negb (paused c)); [injection H as <- _; discriminate|].
    eapply IH; eassumption.
Qed.

Lemma wait_settles og v og' :
  settles og = true -> _wait_if_paused og = (v, og') ->
  v <> Hang /\ settles og' = true.
Proof.
  destruct og as [g|]; simpl; intros Hs H.
  - destruct (poll (settled g) (readings g)) as [v0 later] eqn:Ep.
    injection H as <- <-.
    split; [eapply poll_settles; eassumption | exact Hs].
  - injection H as <- <-. split; [discriminate | reflexivity].
Qed.

Section Liveness.

Context {X : Type}.
Variable call : Path -> result (string * option Usage).
Variable parse : string -> result (list X).
Variable no_result_msg : string.
Variable total : nat.

Local Abbreviation one := (complete_one call parse no_result_msg total).
Local Abbreviation each := (for_done_set call parse no_result_msg total).
Local Abbreviation drain := (drain call parse no_result_msg).
Local Abbreviation run_seq := (sequential call parse no_result_msg total).

Lemma sequential_settles images : forall st : pool (X := X),
  settles (control_getter st) = true ->
  how (run_seq images st) = Returned.
Proof.
  induction images as [|p rest IH]; intros st Hs; [reflexivity|].
  rewrite sequential_cons. destruct (in_seen p (seen st)); [apply IH, Hs|].
  destruct (_wait_if_paused (control_getter st)) as [v g] eqn:Ew.
  destruct (wait_settles _ _ _ Hs Ew) as [Hv Hg].
  destruct v; [|reflexivity|contradiction].
  simpl. apply IH. exact Hg.
Qed.

Lemma one_settles fut (st st' : pool) acts fl :
  settles (control_getter st) = true ->
  one fut st = (acts, st', fl) ->
  fl <> Stuck /\ settles (control_getter st') = true.
Proof.
  intros Hs H. rewrite complete_one_eq in H.
  destruct (_wait_if_paused (control_getter st)) as [v g] eqn:Ew.
  destruct (wait_settles _ _ _ Hs Ew) as [Hv Hg].
  destruct v; [destruct (next_img _ _) as [[nxt|] it] | | contradiction];
    injection H as <- <- <-; (split; [discriminate | exact Hg]).
Qed.

Lemma each_settles done_set (st st' : pool) acts fl :
  valid_futures st -> done_set_ok done_set st ->
  each done_set st = (acts, st', fl) ->
  settles (control_getter st) = true ->
  fl <> Stuck /\ settles (control_getter st') = true.
Proof.
  apply (for_done_set_rule call parse no_result_msg total
           (fun st _ st' fl =>
              settles (control_getter st) = true ->
              fl <> Stuck /\ settles (control_getter st') = true)).
  - intros s Hs. split; [discriminate | exact Hs].
  - intros fut s a s' f _ _ E _ Hs. exact (one_settles _ _ _ _ _ Hs E).
  - intros fut s a1 s1 a2 s2 f _ _ E IH Hs.
    apply IH. exact (proj2 (one_settles _ _ _ _ _ Hs E)).
Qed.

Lemma drain_settles fuel sched (st : pool) :
  valid_futures st ->
  settles (control_getter st) = true ->
  how (drain fuel total sched st) <> Blocked.
Proof.
  apply (drain_rule call parse no_result_msg total
           (fun st r => settles (control_getter st) = true -> how r <> Blocked));
    simpl; try discriminate.
  - intros s ds acts s' Hv Hok _ E Hs.
    destruct (each_settles _ _ _ _ _ Hv Hok E Hs) as [Hf _].
    exfalso. apply Hf. reflexivity.
  - intros s ds acts s' fl fu sc Hv Hok _ E _ IH Hs.
    apply IH. exact (proj2 (each_settles _ _ _ _ _ Hv Hok E Hs)).
Qed.

Lemma initial_submit_settles room : forall st : pool (X := X),
  settles (control_getter st) = true ->
  how (initial_submit room st) = Returned
  /\ settles (control_getter (final (initial_submit room st))) = true.
Proof.
  induction room as [|room IH]; intros st Hs; simpl;
    [split; [reflexivity | exact Hs]|].
  destruct (_wait_if_paused (control_getter st)) as [v g] eqn:Ew.
  destruct (wait_settles _ _ _ Hs Ew) as [Hv Hg].
  destruct v; [| split; [reflexivity | exact Hg] | contradiction].
  destruct (next_img (seen st) (imgs_iter st)) as [[nxt|] it].
  - simpl. apply IH. exact Hg.
  - simpl. split; [reflexivity | exact Hg].
Qed.

(** Unless the gate stays paused for ever, the loop is left. *)
Lemma loop_settles max_workers sched images og :
  settles og = true ->
  how (process_loop call parse no_result_msg total max_workers sched images
                    (fresh_pool (X := X) og)) = Returned.
Proof.
  intro Hs.
  pose proof (loop_not_starved call parse no_result_msg total max_workers
                               sched images og) as Hfuel.
  rewrite loop_eq in *.
  set (st1 := with_running [] (with_iter images (fresh_pool (X := X) og))) in *.
  destruct (1 <? max_workers).
  - destruct (initial_submit_settles max_workers st1 Hs) as [Hh Hg].
    rewrite Hh in *. simpl in *.
    pose proof (drain_settles (List.length sched + List.length images) sched
                  (final (initial_submit max_workers st1))) as Hd.
    destruct (how (drain _ _ _ _)); try reflexivity.
    + exfalso. apply Hd; [|exact Hg|reflexivity].
      apply (initial_submit_facts max_workers st1). split; simpl; constructor.
    + exfalso. apply Hfuel. reflexivity.
  - apply sequential_settles. exact Hs.
Qed.

End Liveness.

Lemma finish_usage_steps {X : Type}
  (call : Path -> result (string * option Usage))
  (parse : string -> result (list X)) (no_result_msg : string)
  (total : nat) (ps : list Path) : forall k,
  finish_usage (steps_of call parse no_result_msg total k ps) = None.
Proof.
  induction ps as [|p ps IH]; intro k; simpl; [reflexivity | apply IH].
Qed.

(** X1.  Whenever the gate does not stay paused for ever (there is no
    gate, or its last word is not a pause, or it is a stop), the run
    returns for every worker count and every order of completion: it
    emits the finish event, once and after everything else, and hands a
    list to the writer. *)
Theorem run_returns_unless_paused_for_ever {X : Type}
  (call : Path -> result (string * option Usage))
  (parse : string -> result (list X)) (no_result_msg : string)
  (images : list Path) (embedded pages max_workers : nat)
  (og : option gate_script) (sched : list (list nat)) :
  settles og = true ->
  written (run_batch call parse no_result_msg images embedded pages
                     max_workers og sched) <> None
  /\ exists tr d u,
       progress (run_batch call parse no_result_msg images embedded pages
                           max_workers og sched)
       = Emit (Start (List.length images) embedded pages) :: tr
         ++ [Emit (Finish d (List.length images) u)]
       /\ finish_usage (emitted tr) = None.
Proof.
  intro Hs. rewrite run_batch_eq.
  rewrite (loop_settles call parse no_result_msg (List.length images)
                        max_workers sched images og Hs).
  split; [discriminate|].
  set (r := process_loop call parse no_result_msg (List.length images)
                         max_workers sched images (fresh_pool (X := X) og)).
  exists (trace r), (done (final r)), (usage_totals (final r)).
  split; [reflexivity|].
  destruct (loop_inv call parse no_result_msg (List.length images)
                     max_workers sched images og) as [Hsteps _ _].
  fold r in Hsteps. rewrite Hsteps. apply finish_usage_steps.
Qed.

(** The theorem at three pages and a controller that pauses twice before
    it lets the run go on. *)
Lemma run_returns_unless_paused_for_ever_witness :
  written (run_batch sample_call sample_parse "no_content"
             [page1; page2; page3] 0 3 3 (Some pause_twice) []) <> None
  /\ exists tr d u,
       progress (run_batch sample_call sample_parse "no_content"
                   [page1; page2; page3] 0 3 3 (Some pause_twice) [])
       = Emit (Start 3 0 3) :: tr ++ [Emit (Finish d 3 u)]
       /\ finish_usage (emitted tr) = None.
Proof.
  apply (run_returns_unless_paused_for_ever sample_call sample_parse
           "no_content" [page1; page2; page3] 0 3 3 (Some pause_twice) []).
  reflexivity.
Defined.
(** ** The worker pool: what the events count *)

Lemma usage_of_steps_app a b :
  usage_of_steps (a ++ b) = fold_left step_usage b (usage_of_steps a).
Proof. unfold usage_of_steps. apply fold_left_app. Qed.

Section UsageFacts.

Context {X : Type}.
Variable call : Path -> result (string * option Usage).
Variable parse : string -> result (list X).
Variable no_result_msg : string.
Variable total : nat.

Local Abbreviation one := (complete_one call parse no_result_msg total).
Local Abbreviation each := (for_done_set call parse no_result_msg total).
Local Abbreviation drain := (drain call parse no_result_msg).
Local Abbreviation run_seq := (sequential call parse no_result_msg total).

(** [usage_totals] is the usage of the steps reported so far. *)
Lemma one_usage fut (st st' : pool) tr0 acts fl :
  usage_totals st = usage_of_steps (emitted tr0) ->
  one fut st = (acts, st', fl) ->
  usage_totals st' = usage_of_steps (emitted (tr0 ++ acts)).
Proof.
  intros HU H. rewrite complete_one_eq in H.
  destruct (_wait_if_paused (control_getter st)) as [[| |] g];
    [destruct (next_img _ _) as [[nxt|] it] | | ];
    injection H as <- <- <-;
    rewrite emitted_app, usage_of_steps_app, <- HU; reflexivity.
Qed.

Lemma each_usage done_set (st st' : pool) acts fl :
  valid_futures st -> done_set_ok done_set st ->
  each done_set st = (acts, st', fl) ->
  forall tr0,
    usage_totals st = usage_of_steps (emitted tr0) ->
    usage_totals st' = usage_of_steps (emitted (tr0 ++ acts)).
Proof.
  apply (for_done_set_rule call parse no_result_msg total
           (fun st acts st' _ =>
              forall tr0,
                usage_totals st = usage_of_steps (emitted tr0) ->
                usage_totals st' = usage_of_steps (emitted (tr0 ++ acts)))).
  - intros s tr0 H. rewrite app_nil_r. exact H.
  - intros fut s a s' f _ _ E _ tr0 H. exact (one_usage _ _ _ _ _ _ H E).
  - intros fut s a1 s1 a2 s2 f _ _ E IH tr0 H.
    rewrite app_assoc. apply IH. exact (one_usage _ _ _ _ _ _ H E).
Qed.

Lemma drain_usage fuel sched (st : pool) :
  valid_futures st ->
  forall tr0,
    usage_totals st = usage_of_steps (emitted tr0) ->
    usage_totals (final (drain fuel total sched st))
    = usage_of_steps (emitted (tr0 ++ trace (drain fuel total sched st))).
Proof.
  apply (drain_rule call parse no_result_msg total
           (fun st r =>
              forall tr0,
                usage_totals st = usage_of_steps (emitted tr0) ->
                usage_totals (final r)
                = usage_of_steps (emitted (tr0 ++ trace r))));
    simpl.
  - intros s _ tr0 H. rewrite app_nil_r. exact H.
  - intros s _ tr0 H. rewrite app_nil_r. exact H.
  - intros s ds acts s' Hv Hok _ E tr0 H.
    exact (each_usage _ _ _ _ _ Hv Hok E tr0 H).
  - intros s ds acts s' fl fu sc Hv Hok _ E _ IH tr0 H.
    rewrite app_assoc. apply IH.
    exact (each_usage _ _ _ _ _ Hv Hok E tr0 H).
Qed.

Lemma initial_submit_usage room : forall st : pool (X := X),
  usage_totals (final (initial_submit room st)) = usage_totals st.
Proof.
  induction room as [|room IH]; intro st; simpl; [reflexivity|].
  destruct (_wait_if_paused (control_getter st)) as [[| |] g];
    try reflexivity.
  destruct (next_img (seen st) (imgs_iter st)) as [[nxt|] it];
    [|reflexivity].
  simpl. rewrite IH. reflexivity.
Qed.

Lemma sequential_usage images : forall (st : pool (X := X)) tr0,
  usage_totals st = usage_of_steps (emitted tr0) ->
  usage_totals (final (run_seq images st))
  = usage_of_steps (emitted (tr0 ++ trace (run_seq images st))).
Proof.
  induction images as [|p rest IH]; intros st tr0 H.
  - simpl. rewrite app_nil_r. exact H.
  - rewrite sequential_cons. destruct (in_seen p (seen st)); [apply IH, H|].
    destruct (_wait_if_paused (control_getter st)) as [[| |] g]; simpl.
    + change (tr0 ++ Dispatch p :: Emit ?e :: ?t)
        with (tr0 ++ [Dispatch p; Emit e] ++ t).
      rewrite app_assoc. apply IH.
      rewrite emitted_app, usage_of_steps_app, <- H. reflexivity.
    + rewrite emitted_app. simpl. rewrite app_nil_r. exact H.
    + rewrite app_nil_r. exact H.
Qed.

(** The usage the loop has added up is that of the steps it reported. *)
Lemma loop_usage max_workers sched images og :
  usage_totals
    (final (process_loop call parse no_result_msg total max_workers sched
                         images (fresh_pool (X := X) og)))
  = usage_of_steps
      (emitted (trace (process_loop call parse no_result_msg total
                                    max_workers sched images
                                    (fresh_pool (X := X) og)))).
Proof.
  rewrite loop_eq.
  set (st1 := with_running [] (with_iter images (fresh_pool (X := X) og))).
  destruct (1 <? max_workers).
  - pose proof (initial_submit_usage max_workers st1) as H1.
    destruct (initial_submit_facts max_workers st1) as (Hv & _ & _ & _ & He & _);
      [split; simpl; constructor|].
    cbn zeta in Hv, He.
    assert (H0 : usage_totals (final (initial_submit max_workers st1))
                 = usage_of_steps (emitted (trace (initial_submit max_workers st1))))
      by (rewrite H1, He; reflexivity).
    destruct (how (initial_submit max_workers st1)); try exact H0.
    simpl. apply drain_usage; assumption.
  - apply (sequential_usage images (fresh_pool (X := X) og) []). reflexivity.
Qed.

End UsageFacts.

Lemma steps_of_length {X : Type}
  (call : Path -> result (string * option Usage))
  (parse : string -> result (list X)) (no_result_msg : string)
  (total : nat) (ps : list Path) : forall k,
  List.length (steps_of call parse no_result_msg total k ps) = List.length ps.
Proof.
  induction ps as [|p ps IH]; intro k; simpl; [reflexivity|].
  rewrite IH. reflexivity.
Qed.

(** X2.  For every batch, worker count, gate and order of completion the
    events are the start event, then one step event for each completed
    item, an item of the batch, with the counts 1, 2, 3 and so on in the
    order of completion, and then, exactly when the run returns, the
    finish event, whose count is the number of step events and at most
    the total. *)
Theorem steps_count_up_to_finish {X : Type}
  (call : Path -> result (string * option Usage))
  (parse : string -> result (list X)) (no_result_msg : string)
  (images : list Path) (embedded pages max_workers : nat)
  (og : option gate_script) (sched : list (list nat)) :
  let rep := run_batch call parse no_result_msg images embedded pages
                       max_workers og sched in
  exists comp u,
    incl comp images
    /\ List.length comp <= List.length images
    /\ List.length (step_images (progress rep)) = List.length comp
    /\ emitted (progress rep)
       = Start (List.length images) embedded pages
         :: steps_of call parse no_result_msg (List.length images) 0 comp
         ++ match written rep with
            | Some _ => [Finish (List.length comp) (List.length images) u]
            | None => []
            end.
Proof.
  cbn zeta.
  set (r := process_loop call parse no_result_msg (List.length images)
                         max_workers sched images (fresh_pool (X := X) og)).
  destruct (loop_inv call parse no_result_msg (List.length images)
                     max_workers sched images og) as [Hsteps Hdone _].
  pose proof (loop_count call parse no_result_msg (List.length images)
                         max_workers sched images og) as Hcount.
  pose proof (loop_within call parse no_result_msg (List.length images)
                          max_workers sched images og) as Hin.
  fold r in Hsteps, Hdone, Hcount, Hin.
  exists (rev (seen (final r))), (usage_totals (final r)).
  split; [intros q Hq; apply Hin, in_rev, Hq|].
  rewrite length_rev, <- Hdone. split; [exact Hcount|].
  split.
  - rewrite run_batch_step_images. fold r.
    rewrite length_map, length_rev. symmetry. exact Hdone.
  - rewrite run_batch_eq. fold r.
    destruct (how r); simpl; rewrite ?emitted_app, Hsteps; simpl;
      rewrite ?app_nil_r; reflexivity.
Qed.

(** X3.  When the run emits its finish event, the usage that event
    carries is the sum of the usage of the step events before it, field by
    field, however the completions were ordered. *)
Theorem finish_usage_is_sum_of_steps {X : Type}
  (call : Path -> result (string * option Usage))
  (parse : string -> result (list X)) (no_result_msg : string)
  (images : list Path) (embedded pages max_workers : nat)
  (og : option gate_script) (sched : list (list nat)) (u : Usage) :
  finish_usage (emitted (progress (run_batch call parse no_result_msg images
                                             embedded pages max_workers og
                                             sched))) = Some u ->
  u = usage_of_steps
        (emitted (progress (run_batch call parse no_result_msg images
                                      embedded pages max_workers og sched))).
Proof.
  rewrite run_batch_eq.
  set (r := process_loop call parse no_result_msg (List.length images)
                         max_workers sched images (fresh_pool (X := X) og)).
  pose proof (loop_usage call parse no_result_msg (List.length images)
                         max_workers sched images og) as HU.
  destruct (loop_inv call parse no_result_msg (List.length images)
                     max_workers sched images og) as [Hsteps _ _].
  fold r in HU, Hsteps.
  assert (Hnone : finish_usage (emitted (trace r)) = None)
    by (rewrite Hsteps; apply finish_usage_steps).
  assert (Happ : forall a b,
             finish_usage a = None -> finish_usage (a ++ b) = finish_usage b).
  { induction a as [|e a IH]; intros b Ha; [reflexivity|].
    destruct e; simpl in *; try (apply IH, Ha). discriminate. }
  destruct (how r); simpl.
  - rewrite emitted_app, (Happ _ _ Hnone). simpl. intro H. injection H as <-.
    unfold usage_of_steps in *. cbn [fold_left step_usage].
    rewrite fold_left_app. exact HU.
  - rewrite Hnone. discriminate.
  - rewrite Hnone. discriminate.
Qed.

(** The theorem at three pages of a service that reports the usage of
    each call. *)
Lemma finish_usage_is_sum_of_steps_witness :
  mkUsage 30 6 36
  = usage_of_steps
      (emitted (progress (run_batch metered_call sample_parse "no_content"
                            [page1; page2; page3] 0 3 3 None
                            [[2]; [0]; [1]]))).
Proof.
  apply (finish_usage_is_sum_of_steps metered_call sample_parse "no_content"
           [page1; page2; page3] 0 3 3 None [[2]; [0]; [1]]).
  reflexivity.
Defined.
(** ** The worker pool: calls in flight *)

Lemma within_nil limit n : n <= limit -> within_limit limit n [].
Proof.
  intros H pre post E. symmetry in E. apply app_eq_nil in E.
  destruct E as [-> _]. simpl. lia.
Qed.

Lemma within_emit limit n e tr :
  n <= limit -> within_limit limit (pred n) tr ->
  within_limit limit n (Emit e :: tr).
Proof.
  intros Hn H pre post E. destruct pre as [|a pre]; simpl in *; [lia|].
  injection E as <- E. specialize (H pre post E). simpl. lia.
Qed.

Lemma within_dispatch limit n p tr :
  within_limit limit (S n) tr -> within_limit limit n (Dispatch p :: tr).
Proof.
  intros H pre post E. destruct pre as [|a pre]; simpl in *.
  - specialize (H [] tr eq_refl). simpl in H. lia.
  - injection E as <- E. specialize (H pre post E). simpl. lia.
Qed.

Lemma within_stop limit n tr :
  within_limit limit n tr -> within_limit limit n (StopSeen :: tr).
Proof.
  intros H pre post E. destruct pre as [|a pre]; simpl in *.
  - specialize (H [] tr eq_refl). simpl in H. lia.
  - injection E as <- E. specialize (H pre post E). simpl. exact H.
Qed.

Lemma within_app limit n n' a b :
  within_limit limit n a ->
  n + List.length (dispatched a) <= List.length (emitted a) + n' ->
  within_limit limit n' b ->
  within_limit limit n (a ++ b).
Proof.
  intros Ha Hrel Hb pre post E. apply app_eq_app in E.
  destruct E as [l [[E1 E2]|[E1 E2]]].
  - exact (Ha pre l E1).
  - subst pre. specialize (Hb l post E2).
    rewrite dispatched_app, emitted_app, !length_app. lia.
Qed.

Section InFlight.

Context {X : Type}.
Variable call : Path -> result (string * option Usage).
Variable parse : string -> result (list X).
Variable no_result_msg : string.
Variable total : nat.
Variable limit : nat.

Local Abbreviation one := (complete_one call parse no_result_msg total).
Local Abbreviation each := (for_done_set call parse no_result_msg total).
Local Abbreviation drain := (drain call parse no_result_msg).
Local Abbreviation run_seq := (sequential call parse no_result_msg total).

(** A completion frees a place before the next item takes it. *)
Lemma one_in_flight fut (st st' : pool) acts fl :
  valid_futures st -> In fut (running st) ->
  List.length (running st) <= limit ->
  one fut st = (acts, st', fl) ->
  within_limit limit (List.length (running st)) acts
  /\ (fl <> Break ->
      List.length (running st) + List.length (dispatched acts)
      <= List.length (emitted acts) + List.length (running st')
      /\ List.length (running st') <= limit).
Proof.
  intros [Hnd _] Hin Hn H.
  pose proof (Permutation_length (remove_future fut (running st) Hnd Hin)) as Hlen.
  simpl in Hlen. rewrite complete_one_eq in H.
  destruct (_wait_if_paused (control_getter st)) as [[| |] g];
    [destruct (next_img _ _) as [[nxt|] it] | | ];
    injection H as <- <- <-; simpl; rewrite ?length_app; simpl.
  - split.
    + apply within_emit; [exact Hn|]. apply within_dispatch, within_nil. lia.
    + intros _. lia.
  - split.
    + apply within_emit; [exact Hn|]. apply within_nil. lia.
    + intros _. lia.
  - split.
    + apply within_emit; [exact Hn|]. apply within_stop, within_nil. lia.
    + intro Hb. exfalso. apply Hb. reflexivity.
  - split.
    + apply within_emit; [exact Hn|]. apply within_nil. lia.
    + intros _. lia.
Qed.

Lemma each_in_flight done_set (st st' : pool) acts fl :
  valid_futures st -> done_set_ok done_set st ->
  each done_set st = (acts, st', fl) ->
  List.length (running st) <= limit ->
  within_limit limit (List.length (running st)) acts
  /\ (fl <> Break ->
      List.length (running st) + List.length (dispatched acts)
      <= List.length (emitted acts) + List.length (running st')
      /\ List.length (running st') <= limit).
Proof.
  apply (for_done_set_rule call parse no_result_msg total
           (fun st acts st' fl =>
              List.length (running st) <= limit ->
              within_limit limit (List.length (running st)) acts
              /\ (fl <> Break ->
                  List.length (running st) + List.length (dispatched acts)
                  <= List.length (emitted acts) + List.length (running st')
                  /\ List.length (running st') <= limit))).
  - intros s Hn. split; [apply within_nil, Hn | intros _; simpl; lia].
  - intros fut s a s' f Hv Hin E _ Hn.
    exact (one_in_flight _ _ _ _ _ Hv Hin Hn E).
  - intros fut s a1 s1 a2 s2 f Hv Hin E IH Hn.
    destruct (one_in_flight _ _ _ _ _ Hv Hin Hn E) as [W1 R1].
    destruct R1 as [R1 N1]; [discriminate|].
    destruct (IH N1) as [W2 R2]. split.
    + exact (within_app _ _ _ _ _ W1 R1 W2).
    + intro Hb. destruct (R2 Hb) as [R2' N2].
      rewrite dispatched_app, emitted_app, !length_app. lia.
Qed.

Lemma drain_in_flight fuel sched (st : pool) :
  valid_futures st ->
  List.length (running st) <= limit ->
  within_limit limit (List.length (running st))
               (trace (drain fuel total sched st)).
Proof.
  apply (drain_rule call parse no_result_msg total
           (fun st r =>
              List.length (running st) <= limit ->
              within_limit limit (List.length (running st)) (trace r)));
    simpl.
  - intros s _ Hn. apply within_nil, Hn.
  - intros s _ Hn. apply within_nil, Hn.
  - intros s ds acts s' Hv Hok _ E Hn.
    exact (proj1 (each_in_flight _ _ _ _ _ Hv Hok E Hn)).
  - intros s ds acts s' fl fu sc Hv Hok _ E _ IH Hn.
    destruct (each_in_flight _ _ _ _ _ Hv Hok E Hn) as [W1 R1].
    destruct (each_flow _ _ _ _ _ _ _ _ _ Hv Hok E)
      as [(_ & Hr & _)|[Hb _]].
    + rewrite (drain_idle call parse no_result_msg total fu sc s' Hr).
      simpl. rewrite app_nil_r. exact W1.
    + destruct (R1 Hb) as [R1' N1].
      exact (within_app _ _ _ _ _ W1 R1' (IH N1)).
Qed.

Lemma initial_submit_in_flight room : forall st : pool (X := X),
  List.length (running st) + room <= limit ->
  within_limit limit (List.length (running st))
               (trace (initial_submit room st))
  /\ List.length (running st)
     + List.length (dispatched (trace (initial_submit room st)))
     = List.length (running (final (initial_submit room st)))
  /\ List.length (running (final (initial_submit room st))) <= limit.
Proof.
  induction room as [|room IH]; intros st Hn; simpl.
  - split; [apply within_nil; lia | lia].
  - destruct (_wait_if_paused (control_getter st)) as [[| |] g]; simpl.
    + destruct (next_img (seen st) (imgs_iter st)) as [[nxt|] it]; simpl.
      * destruct (IH (submit nxt (with_iter it (with_getter g st))))
          as (W1 & R1 & N1); simpl; rewrite ?length_app; simpl; [lia|].
        simpl in W1, R1. rewrite length_app in W1, R1. simpl in W1, R1.
        split; [|lia]. apply within_dispatch.
        replace (S (List.length (running st)))
          with (List.length (running st) + 1) by lia.
        exact W1.
      * split; [apply within_nil; lia | lia].
    + split; [apply within_stop, within_nil; lia | lia].
    + split; [apply within_nil; lia | lia].
Qed.

Lemma sequential_in_flight images : forall st : pool (X := X),
  within_limit 1 0 (trace (run_seq images st)).
Proof.
  induction images as [|p rest IH]; intro st.
  - apply within_nil. lia.
  - rewrite sequential_cons. destruct (in_seen p (seen st)); [apply IH|].
    destruct (_wait_if_paused (control_getter st)) as [[| |] g]; simpl.
    + apply within_dispatch, within_emit; [lia | apply IH].
    + apply within_stop, within_nil. lia.
    + apply within_nil. lia.
Qed.

End InFlight.

(** In the trace of the loop the items dispatched are never more than
    [max_workers] ahead of the steps reported; one ahead when the pool is
    not used. *)
Lemma loop_in_flight {X : Type}
  (call : Path -> result (string * option Usage))
  (parse : string -> result (list X)) (no_result_msg : string)
  (total max_workers : nat) (sched : list (list nat)) (images : list Path)
  (og : option gate_script) :
  within_limit (Nat.max 1 max_workers) 0
    (trace (process_loop call parse no_result_msg total max_workers sched
                         images (fresh_pool (X := X) og))).
Proof.
  rewrite loop_eq.
  set (st1 := with_running [] (with_iter images (fresh_pool (X := X) og))).
  destruct (Nat.ltb_spec 1 max_workers) as [Hw|Hw].
  - replace (Nat.max 1 max_workers) with max_workers by lia.
    destruct (initial_submit_in_flight max_workers max_workers st1)
      as (W1 & R1 & N1); [simpl; lia|].
    simpl in W1, R1.
    destruct (how (initial_submit max_workers st1)); try exact W1.
    simpl.
    apply (within_app _ _
             (List.length (running (final (initial_submit max_workers st1))))
             _ _ W1); [|apply drain_in_flight].
    + destruct (initial_submit_facts max_workers st1)
        as (_ & _ & _ & _ & He & _); [split; simpl; constructor|].
      cbn zeta in He. rewrite He. simpl. lia.
    + apply (initial_submit_facts max_workers st1). split; simpl; constructor.
    + exact N1.
  - replace (Nat.max 1 max_workers) with 1 by lia.
    apply sequential_in_flight.
Qed.

Lemma steps_only {X : Type}
  (call : Path -> result (string * option Usage))
  (parse : string -> result (list X)) (no_result_msg : string)
  (total : nat) (ps : list Path) : forall k a b,
  steps_of call parse no_result_msg total k ps = a ++ b ->
  List.length (flat_map (fun e => match e with
                                  | Step _ _ image _ _ => [image]
                                  | _ => []
                                  end) a)
  = List.length a.
Proof.
  induction ps as [|p ps IH]; intros k a b E.
  - simpl in E. symmetry in E. apply app_eq_nil in E.
    destruct E as [-> _]. reflexivity.
  - destruct a as [|e a]; [reflexivity|].
    simpl in E. injection E as <- E. simpl. f_equal. exact (IH _ _ _ E).
Qed.

(** X4.  Calls in flight are bounded by the concurrency limit: at every
    point of every run, for every gate and order of completion, the items
    handed to [_process_one] so far are at most [max_workers] more than
    the step events reported so far, and at most one more when
    [max_workers] is 0 or 1. *)
Theorem calls_in_flight_within_max_workers {X : Type}
  (call : Path -> result (string * option Usage))
  (parse : string -> result (list X)) (no_result_msg : string)
  (images : list Path) (embedded pages max_workers : nat)
  (og : option gate_script) (sched : list (list nat)) pre post :
  progress (run_batch call parse no_result_msg images embedded pages
                      max_workers og sched) = pre ++ post ->
  List.length (dispatched pre)
  <= List.length (step_images pre) + Nat.max 1 max_workers.
Proof.
  intro E.
  set (r := process_loop call parse no_result_msg (List.length images)
                         max_workers sched images (fresh_pool (X := X) og)).
  pose proof (loop_in_flight call parse no_result_msg (List.length images)
                             max_workers sched images og) as HW.
  destruct (loop_inv call parse no_result_msg (List.length images)
                     max_workers sched images og) as [Hsteps _ _].
  fold r in HW, Hsteps.
  assert (Hloop : forall p1 p2,
             trace r = p1 ++ p2 ->
             List.length (dispatched p1)
             <= List.length (step_images p1) + Nat.max 1 max_workers).
  { intros p1 p2 E1. specialize (HW p1 p2 E1). simpl in HW.
    unfold step_images.
    rewrite (steps_only call parse no_result_msg (List.length images)
               (rev (seen (final r))) 0 (emitted p1) (emitted p2));
      [exact HW|].
    rewrite <- Hsteps, E1. apply emitted_app. }
  destruct pre as [|a pre]; [simpl; lia|].
  rewrite run_batch_eq in E. fold r in E.
  assert (Hcase : exists p1 p2,
             trace r = p1 ++ p2
             /\ dispatched (a :: pre) = dispatched p1
             /\ step_images (a :: pre) = step_images p1).
  { destruct (how r); simpl in E; injection E as <- E.
    - apply app_eq_app in E. destruct E as [l [[E1 E2]|[E1 E2]]].
      + exists pre, l. repeat split. exact E1.
      + exists (trace r), []. rewrite app_nil_r. split; [reflexivity|].
        subst pre. destruct l as [|x l].
        * rewrite app_nil_r. split; reflexivity.
        * simpl in E2. injection E2 as <- E2.
          symmetry in E2. apply app_eq_nil in E2. destruct E2 as [-> _].
          unfold step_images. simpl.
          rewrite dispatched_app, emitted_app, flat_map_app. simpl.
          rewrite !app_nil_r. split; reflexivity.
    - exists pre, post. repeat split. exact E.
    - exists pre, post. repeat split. exact E. }
  destruct Hcase as (p1 & p2 & E1 & -> & ->). exact (Hloop p1 p2 E1).
Qed.

(** The theorem at the point of a run of three workers on three pages
    where all three have been dispatched and none has been reported. *)
Lemma calls_in_flight_within_max_workers_witness :
  List.length (dispatched [Emit (Start 3 0 3); Dispatch page1;
                           Dispatch page2; Dispatch page3])
  <= List.length (step_images [Emit (Start 3 0 3); Dispatch page1;
                               Dispatch page2; Dispatch page3])
     + Nat.max 1 3.
Proof.
  apply (calls_in_flight_within_max_workers sample_call sample_parse
           "no_content" [page1; page2; page3] 0 3 3 None [[2]; [0]; [1]]
           [Emit (Start 3 0 3); Dispatch page1; Dispatch page2;
            Dispatch page3]
           [Emit (Step 1 3 "page-3-full.png" None None);
            Emit (Step 2 3 "page-1-full.png" None None);
            Emit (Step 3 3 "page-2-full.png" (Some "no_content") None);
            Emit (Finish 3 3 (mkUsage 0 0 0))]).
  vm_compute. reflexivity.
Defined.

(** ** The worker pool: the order of dispatch *)

Lemma subseq_app {A : Type} (s1 l1 s2 l2 : list A) :
  subseq s1 l1 -> subseq s2 l2 -> subseq (s1 ++ s2) (l1 ++ l2).
Proof.
  intros H1 H2. induction H1 as [l|a s l H IH|a s l H IH]; simpl.
  - induction l as [|a l IH]; simpl; [exact H2 | apply subseq_skip, IH].
  - apply subseq_skip, IH.
  - apply subseq_take, IH.
Qed.

Lemma subseq_prefix {A : Type} (s u rest l : list A) :
  subseq s u -> l = u ++ rest -> subseq s l.
Proof.
  intros H ->. rewrite <- (app_nil_r s).
  apply subseq_app; [exact H | apply subseq_nil].
Qed.

Lemma subseq_length {A : Type} (s l : list A) :
  subseq s l -> List.length s <= List.length l.
Proof. induction 1; simpl; lia. Qed.

Lemma subseq_incl {A : Type} (s l : list A) : subseq s l -> incl s l.
Proof.
  induction 1 as [l|a s l H IH|a s l H IH]; intros x Hx.
  - destruct Hx.
  - right. apply IH, Hx.
  - destruct Hx as [<-|Hx]; [left; reflexivity | right; apply IH, Hx].
Qed.

Lemma subseq_NoDup {A : Type} (s l : list A) :
  subseq s l -> NoDup l -> NoDup s.
Proof.
  induction 1 as [l|a s l H IH|a s l H IH]; intro Hnd.
  - constructor.
  - inversion Hnd; subst. apply IH. assumption.
  - inversion Hnd as [|? ? Hn Hl]; subst. constructor; [|apply IH, Hl].
    intro Hin. apply Hn. exact (subseq_incl _ _ H _ Hin).
Qed.

Section DispatchOrder.

Context {X : Type}.
Variable call : Path -> result (string * option Usage).
Variable parse : string -> result (list X).
Variable no_result_msg : string.
Variable total : nat.

Local Abbreviation one := (complete_one call parse no_result_msg total).
Local Abbreviation each := (for_done_set call parse no_result_msg total).
Local Abbreviation drain := (drain call parse no_result_msg).
Local Abbreviation run_seq := (sequential call parse no_result_msg total).

(** What [next] takes from the iterator is the next item not seen. *)
Lemma next_img_order seen it o it' :
  next_img seen it = (o, it') ->
  exists used,
    it = used ++ it'
    /\ subseq (match o with Some p => [p] | None => [] end) used.
Proof.
  destruct o as [p|]; intro H.
  - destruct (next_img_some _ _ _ _ H) as (_ & skipped & -> & _).
    exists (skipped ++ [p]). rewrite <- app_assoc. split; [reflexivity|].
    apply (subseq_app [] skipped [p] [p]); [apply subseq_nil|].
    apply subseq_take, subseq_nil.
  - destruct (next_img_none _ _ _ H) as [-> _].
    exists it. rewrite app_nil_r. split; [reflexivity | apply subseq_nil].
Qed.

Lemma one_order fut (st st' : pool) acts fl :
  one fut st = (acts, st', fl) ->
  exists used,
    imgs_iter st = used ++ imgs_iter st'
    /\ subseq (dispatched acts) used.
Proof.
  intro H. rewrite complete_one_eq in H.
  destruct (_wait_if_paused (control_getter st)) as [[| |] g];
    [destruct (next_img _ _) as [[nxt|] it] eqn:En | | ];
    injection H as <- <- <-; simpl;
    try (exists []; split; [reflexivity | apply subseq_nil]);
    exact (next_img_order _ _ _ _ En).
Qed.

Lemma each_order done_set (st st' : pool) acts fl :
  valid_futures st -> done_set_ok done_set st ->
  each done_set st = (acts, st', fl) ->
  exists used,
    imgs_iter st = used ++ imgs_iter st'
    /\ subseq (dispatched acts) used.
Proof.
  apply (for_done_set_rule call parse no_result_msg total
           (fun st acts st' _ =>
              exists used,
                imgs_iter st = used ++ imgs_iter st'
                /\ subseq (dispatched acts) used)).
  - intro s. exists []. split; [reflexivity | apply subseq_nil].
  - intros fut s a s' f _ _ E _. exact (one_order _ _ _ _ _ E).
  - intros fut s a1 s1 a2 s2 f _ _ E (u2 & E2 & S2).
    destruct (one_order _ _ _ _ _ E) as (u1 & E1 & S1).
    exists (u1 ++ u2). rewrite <- app_assoc, <- E2. split; [exact E1|].
    rewrite dispatched_app. apply subseq_app; assumption.
Qed.

Lemma drain_order fuel sched (st : pool) :
  valid_futures st ->
  exists used,
    imgs_iter st = used ++ imgs_iter (final (drain fuel total sched st))
    /\ subseq (dispatched (trace (drain fuel total sched st))) used.
Proof.
  apply (drain_rule call parse no_result_msg total
           (fun st r =>
              exists used,
                imgs_iter st = used ++ imgs_iter (final r)
                /\ subseq (dispatched (trace r)) used));
    simpl.
  - intros s _. exists []. split; [reflexivity | apply subseq_nil].
  - intros s _. exists []. split; [reflexivity | apply subseq_nil].
  - intros s ds acts s' Hv Hok _ E. exact (each_order _ _ _ _ _ Hv Hok E).
  - intros s ds acts s' fl fu sc Hv Hok _ E _ (u2 & E2 & S2).
    destruct (each_order _ _ _ _ _ Hv Hok E) as (u1 & E1 & S1).
    exists (u1 ++ u2). rewrite <- app_assoc, <- E2. split; [exact E1|].
    rewrite dispatched_app. apply subseq_app; assumption.
Qed.

Lemma initial_submit_order room : forall st : pool (X := X),
  exists used,
    imgs_iter st = used ++ imgs_iter (final (initial_submit room st))
    /\ subseq (dispatched (trace (initial_submit room st))) used.
Proof.
  induction room as [|room IH]; intro st; simpl.
  - exists []. split; [reflexivity | apply subseq_nil].
  - destruct (_wait_if_paused (control_getter st)) as [[| |] g]; simpl;
      try (exists []; split; [reflexivity | apply subseq_nil]).
    destruct (next_img (seen st) (imgs_iter st)) as [[nxt|] it] eqn:En;
      destruct (next_img_order _ _ _ _ En) as (u1 & E1 & S1); simpl.
    + destruct (IH (submit nxt (with_iter it (with_getter g st))))
        as (u2 & E2 & S2).
      simpl in E2. exists (u1 ++ u2).
      rewrite <- app_assoc, <- E2. split; [exact E1|].
      apply (subseq_app [nxt] u1 _ u2); assumption.
    + exists u1. split; [exact E1 | exact S1].
Qed.

Lemma sequential_order images : forall st : pool (X := X),
  subseq (dispatched (trace (run_seq images st))) images.
Proof.
  induction images as [|p rest IH]; intro st; [apply subseq_nil|].
  rewrite sequential_cons.
  destruct (in_seen p (seen st)); [apply subseq_skip, IH|].
  destruct (_wait_if_paused (control_getter st)) as [[| |] g]; simpl;
    try apply subseq_nil.
  apply subseq_take, IH.
Qed.

(** Items are dispatched in the order of the batch. *)
Lemma loop_order max_workers sched images og :
  subseq (dispatched
            (trace (process_loop call parse no_result_msg total max_workers
                                 sched images (fresh_pool (X := X) og))))
         images.
Proof.
  rewrite loop_eq.
  set (st1 := with_running [] (with_iter images (fresh_pool (X := X) og))).
  destruct (1 <? max_workers); [|apply sequential_order].
  destruct (initial_submit_order max_workers st1) as (u1 & E1 & S1).
  simpl in E1.
  assert (Hr1 : subseq (dispatched (trace (initial_submit max_workers st1)))
                       images)
    by exact (subseq_prefix _ _ _ _ S1 E1).
  destruct (how (initial_submit max_workers st1)); try exact Hr1.
  destruct (drain_order (List.length sched + List.length images) sched
                        (final (initial_submit max_workers st1)))
    as (u2 & E2 & S2).
  { apply (initial_submit_facts max_workers st1). split; simpl; constructor. }
  simpl. rewrite dispatched_app.
  apply (subseq_prefix _ (u1 ++ u2)
           (imgs_iter
              (final (drain (List.length sched + List.length images) total
                            sched (final (initial_submit max_workers st1)))))
           _ (subseq_app _ _ _ _ S1 S2)).
  rewrite <- app_assoc, <- E2. exact E1.
Qed.

End DispatchOrder.

(** X5.  For every gate, worker count and order of completion, the items
    handed to [_process_one] are handed over in the order of
    [images_to_process], with items left out where the run skipped or
    never reached them: no item is dispatched out of turn, and an item
    that occurs once in the batch is dispatched at most once, so nothing
    is retried. *)
Theorem dispatch_follows_batch_order {X : Type}
  (call : Path -> result (string * option Usage))
  (parse : string -> result (list X)) (no_result_msg : string)
  (images : list Path) (embedded pages max_workers : nat)
  (og : option gate_script) (sched : list (list nat)) :
  let sent := dispatched (progress (run_batch call parse no_result_msg images
                                              embedded pages max_workers og
                                              sched)) in
  subseq sent images
  /\ incl sent images
  /\ List.length sent <= List.length images
  /\ (NoDup images -> NoDup sent).
Proof.
  cbn zeta.
  set (r := process_loop call parse no_result_msg (List.length images)
                         max_workers sched images (fresh_pool (X := X) og)).
  assert (Hd : dispatched (progress (run_batch call parse no_result_msg images
                                               embedded pages max_workers og
                                               sched))
               = dispatched (trace r)).
  { rewrite run_batch_eq. fold r. destruct (how r); simpl;
      rewrite ?dispatched_app; simpl; rewrite ?app_nil_r; reflexivity. }
  rewrite Hd.
  pose proof (loop_order call parse no_result_msg (List.length images)
                         max_workers sched images og) as Hs.
  fold r in Hs.
  split; [exact Hs|]. split; [exact (subseq_incl _ _ Hs)|]. split.
  - exact (subseq_length _ _ Hs).
  - exact (subseq_NoDup _ _ Hs).
Qed.

(** ** String methods of the table parser *)

Lemma sapp_assoc (a b c : string) :
  String.append (String.append a b) c = String.append a (String.append b c).
Proof. induction a as [|x a IH]; simpl; [reflexivity | rewrite IH; reflexivity]. Qed.

Lemma sapp_nil_r (a : string) : String.append a EmptyString = a.
Proof. induction a as [|x a IH]; simpl; [reflexivity | rewrite IH; reflexivity]. Qed.

Lemma all_chars_lstrip f s :
  all_chars f s = true -> all_chars f (lstrip s) = true.
Proof.
  induction s as [|c s IH]; simpl; intro H; [reflexivity|].
  destruct (is_space c); [|exact H].
  apply IH. apply andb_true_iff in H. apply H.
Qed.

Lemma all_chars_rstrip f s :
  all_chars f s = true -> all_chars f (rstrip s) = true.
Proof.
  induction s as [|c s IH]; simpl; intro H; [reflexivity|].
  apply andb_true_iff in H. destruct H as [Hc Hs].
  destruct (is_space c && is_empty (rstrip s)); simpl; [reflexivity|].
  rewrite Hc, (IH Hs). reflexivity.
Qed.

Lemma all_chars_strip f s :
  all_chars f s = true -> all_chars f (strip s) = true.
Proof. intro H. apply all_chars_rstrip, all_chars_lstrip, H. Qed.

Lemma all_chars_lstrip_bar f s :
  all_chars f s = true -> all_chars f (lstrip_bar s) = true.
Proof.
  induction s as [|c s IH]; simpl; intro H; [reflexivity|].
  destruct (is_bar c); [|exact H].
  apply IH. apply andb_true_iff in H. apply H.
Qed.

Lemma all_chars_rstrip_bar f s :
  all_chars f s = true -> all_chars f (rstrip_bar s) = true.
Proof.
  induction s as [|c s IH]; simpl; intro H; [reflexivity|].
  apply andb_true_iff in H. destruct H as [Hc Hs].
  destruct (is_bar c && is_empty (rstrip_bar s)); simpl; [reflexivity|].
  rewrite Hc, (IH Hs). reflexivity.
Qed.

Lemma rstrip_idem s : rstrip (rstrip s) = rstrip s.
Proof.
  induction s as [|c s IH]; simpl; [reflexivity|].
  destruct (is_space c && is_empty (rstrip s)) eqn:E; simpl; [reflexivity|].
  rewrite IH, E. reflexivity.
Qed.

Lemma lstrip_cases s :
  lstrip s = EmptyString
  \/ exists c r, lstrip s = String c r /\ is_space c = false.
Proof.
  induction s as [|c s IH]; simpl; [left; reflexivity|].
  destruct (is_space c) eqn:E; [exact IH|].
  right. exists c, s. split; [reflexivity | exact E].
Qed.

(** [strip] of a stripped string changes nothing. *)
Lemma strip_idem s : strip (strip s) = strip s.
Proof.
  unfold strip. destruct (lstrip_cases s) as [E|(c & r & E & Hc)]; rewrite E.
  - reflexivity.
  - assert (H1 : rstrip (String c r) = String c (rstrip r))
      by (simpl; rewrite Hc; reflexivity).
    rewrite H1. cbn [lstrip]. rewrite Hc. simpl. rewrite Hc. simpl.
    rewrite rstrip_idem. reflexivity.
Qed.

Lemma lstrip_length s : String.length (lstrip s) <= String.length s.
Proof.
  induction s as [|c s IH]; simpl; [lia|].
  destruct (is_space c); simpl; lia.
Qed.

Lemma rstrip_length s : String.length (rstrip s) <= String.length s.
Proof.
  induction s as [|c s IH]; simpl; [lia|].
  destruct (is_space c && is_empty (rstrip s)); simpl; lia.
Qed.

(** A stripped string that is not empty begins with a visible character
    and is its own [rstrip]. *)
Lemma stripped_head c r :
  strip (String c r) = String c r ->
  is_space c = false /\ rstrip (String c r) = String c r.
Proof.
  intro H. unfold strip in H.
  destruct (is_space c) eqn:E.
  - exfalso. simpl in H. rewrite E in H.
    pose proof (rstrip_length (lstrip r)) as H1.
    pose proof (lstrip_length r) as H2.
    rewrite H in H1. simpl in H1. lia.
  - split; [reflexivity|]. simpl in H. rewrite E in H. exact H.
Qed.

Lemma rstrip_end s c :
  is_space c = false ->
  rstrip (String.append s (String c EmptyString))
  = String.append s (String c EmptyString).
Proof.
  intro Hc. induction s as [|a s IH]; simpl.
  - rewrite Hc. reflexivity.
  - rewrite IH, is_empty_snoc, andb_false_r. reflexivity.
Qed.

Lemma rstrip_space s : rstrip (String.append s " ") = rstrip s.
Proof.
  induction s as [|a s IH]; simpl; [reflexivity|].
  rewrite IH. reflexivity.
Qed.

(** A plain cell between two spaces is found again by [strip]. *)
Lemma strip_padded c :
  strip c = c -> strip (String.append " " (String.append c " ")) = c.
Proof.
  intro H. unfold strip. destruct c as [|a r]; [reflexivity|].
  destruct (stripped_head a r H) as [Ha Hr].
  change (lstrip (String.append " " (String.append (String a r) " ")))
    with (lstrip (String a (String.append r " "))).
  cbn [lstrip]. rewrite Ha.
  change (String a (String.append r " "))
    with (String.append (String a r) " ").
  rewrite rstrip_space. exact Hr.
Qed.

Lemma rstrip_bar_end s :
  rstrip_bar (String.append s " |") = String.append s " ".
Proof.
  induction s as [|a s IH]; simpl; [reflexivity|].
  rewrite IH. change " " with (String " "%char EmptyString).
  rewrite is_empty_snoc, andb_false_r. reflexivity.
Qed.

Lemma endswith_bar_end s :
  endswith_bar (String.append s "|") = true.
Proof.
  induction s as [|a s IH]; simpl; [reflexivity|].
  rewrite is_empty_snoc. exact IH.
Qed.

Lemma split_from_plain sep a : forall cur s,
  all_chars (fun ch => negb (sep ch)) a = true ->
  split_from sep cur (String.append a s)
  = split_from sep (String.append cur a) s.
Proof.
  induction a as [|x a IH]; intros cur s H; simpl.
  - rewrite sapp_nil_r. reflexivity.
  - simpl in H. apply andb_true_iff in H. destruct H as [Hx Ha].
    apply negb_true_iff in Hx. rewrite Hx, (IH _ _ Ha), sapp_assoc.
    reflexivity.
Qed.

Lemma split_from_parts sep f s : forall cur,
  all_chars (fun ch => negb (sep ch) && f ch) cur = true ->
  all_chars f s = true ->
  Forall (fun p => all_chars (fun ch => negb (sep ch) && f ch) p = true)
         (split_from sep cur s).
Proof.
  induction s as [|c s IH]; intros cur Hcur Hs; simpl.
  - constructor; [exact Hcur | constructor].
  - simpl in Hs. apply andb_true_iff in Hs. destruct Hs as [Hc Hs].
    destruct (sep c) eqn:E.
    + constructor; [exact Hcur | apply IH; [reflexivity | exact Hs]].
    + apply IH; [|exact Hs].
      rewrite all_chars_append, Hcur. simpl. rewrite E, Hc. reflexivity.
Qed.

Lemma split_from_nonempty sep s : forall cur, split_from sep cur s <> [].
Proof.
  induction s as [|c s IH]; intro cur; simpl; [discriminate|].
  destruct (sep c); [discriminate | apply IH].
Qed.

Lemma splitlines_from_no_break s : forall after_cr cur,
  all_chars (fun ch => negb (is_linebreak ch)) cur = true ->
  Forall (fun ln => all_chars (fun ch => negb (is_linebreak ch)) ln = true)
         (splitlines_from after_cr cur s).
Proof.
  induction s as [|c s IH]; intros after_cr cur H; simpl.
  - destruct (is_empty cur); constructor; [exact H | constructor].
  - destruct (after_cr && is_lf c); [apply IH, H|].
    destruct (is_linebreak c) eqn:E.
    + constructor; [exact H | apply IH; reflexivity].
    + apply IH. rewrite all_chars_append, H. simpl. rewrite E. reflexivity.
Qed.

(** A line of [nonblank_lines] is stripped, not empty and has no line
    break inside. *)
Lemma nonblank_lines_plain text :
  Forall (fun ln => strip ln = ln /\ is_empty ln = false
                    /\ all_chars (fun ch => negb (is_linebreak ch)) ln = true)
         (nonblank_lines text).
Proof.
  unfold nonblank_lines. apply Forall_forall. intros ln Hln.
  apply in_map_iff in Hln. destruct Hln as (raw & <- & Hraw).
  apply filter_In in Hraw. destruct Hraw as [Hraw Hvis].
  split; [apply strip_idem|]. split; [apply negb_true_iff, Hvis|].
  apply all_chars_strip.
  pose proof (splitlines_from_no_break text false EmptyString eq_refl) as H.
  rewrite Forall_forall in H. apply H, Hraw.
Qed.

Lemma splitlines_from_line l : forall cur s,
  all_chars (fun ch => negb (is_linebreak ch)) l = true ->
  splitlines_from false cur (String.append l s)
  = splitlines_from false (String.append cur l) s.
Proof.
  induction l as [|x l IH]; intros cur s H; simpl.
  - rewrite sapp_nil_r. reflexivity.
  - simpl in H. apply andb_true_iff in H. destruct H as [Hx Hl].
    apply negb_true_iff in Hx. rewrite Hx, (IH _ _ Hl), sapp_assoc.
    reflexivity.
Qed.

Lemma concat_cons2 sep (a b : string) l :
  String.concat sep (a :: b :: l)
  = String.append a (String.append sep (String.concat sep (b :: l))).
Proof. reflexivity. Qed.

(** Lines joined by line feeds are found again by [splitlines]. *)
Lemma splitlines_concat lines :
  Forall (fun l => all_chars (fun ch => negb (is_linebreak ch)) l = true
                   /\ is_empty l = false) lines ->
  splitlines (String.concat newline lines) = lines.
Proof.
  unfold splitlines. induction lines as [|l rest IH]; intro H; [reflexivity|].
  inversion H as [|? ? [Hl He] Hrest]; subst.
  destruct rest as [|l2 rest].
  - simpl String.concat. rewrite <- (sapp_nil_r l) at 1.
    rewrite (splitlines_from_line l _ _ Hl). simpl. rewrite He. reflexivity.
  - rewrite concat_cons2, (splitlines_from_line l _ _ Hl).
    simpl String.append at 1.
    change (String.append newline ?x) with (String (ascii_of_nat 10) x).
    cbn [splitlines_from andb]. 
    replace (is_linebreak (ascii_of_nat 10)) with true by reflexivity.
    replace (is_cr (ascii_of_nat 10)) with false by reflexivity.
    rewrite (IH Hrest). reflexivity.
Qed.

Lemma filter_all {A : Type} (f : A -> bool) l :
  (forall x, In x l -> f x = true) -> filter f l = l.
Proof.
  induction l as [|a l IH]; intro H; simpl; [reflexivity|].
  rewrite (H a (or_introl eq_refl)), IH; [reflexivity|].
  intros x Hx. apply H. right. exact Hx.
Qed.

Lemma map_same {A : Type} (f : A -> A) l :
  (forall x, In x l -> f x = x) -> map f l = l.
Proof.
  induction l as [|a l IH]; intro H; simpl; [reflexivity|].
  rewrite (H a (or_introl eq_refl)), IH; [reflexivity|].
  intros x Hx. apply H. right. exact Hx.
Qed.
(** ** parse_markdown_table *)

Lemma plain_cell_strip p :
  all_chars (fun ch => negb (is_bar ch) && negb (is_linebreak ch)) p = true ->
  plain_cell (strip p) = true.
Proof.
  intro H. unfold plain_cell. rewrite strip_idem, String.eqb_refl. simpl.
  apply all_chars_strip, H.
Qed.

Lemma plain_cell_facts c :
  plain_cell c = true ->
  strip c = c
  /\ all_chars (fun ch => negb (is_bar ch)) c = true
  /\ all_chars (fun ch => negb (is_linebreak ch)) c = true.
Proof.
  unfold plain_cell. intro H. apply andb_true_iff in H. destruct H as [H1 H2].
  split; [apply String.eqb_eq, H1|].
  split; refine (all_chars_impl _ _ _ _ H2); intros ch Hc;
    apply andb_true_iff in Hc; apply Hc.
Qed.

(** The cells read from a line are plain. *)
Lemma markdown_row_plain ln :
  all_chars (fun ch => negb (is_linebreak ch)) ln = true ->
  forallb plain_cell (map strip (str_split is_bar (strip_bar ln))) = true.
Proof.
  intro H. apply forallb_forall. intros c Hc.
  apply in_map_iff in Hc. destruct Hc as (p & <- & Hp).
  apply plain_cell_strip.
  pose proof (split_from_parts is_bar (fun ch => negb (is_linebreak ch))
                (strip_bar ln) EmptyString eq_refl) as HF.
  rewrite Forall_forall in HF. apply HF; [|exact Hp].
  apply all_chars_rstrip_bar, all_chars_lstrip_bar, H.
Qed.

(** X6.  Whatever the text, every row [parse_markdown_table] returns has
    at least one cell, is not a separator row (some cell has a character
    other than the hyphen and the colon), and each of its cells is free of
    surrounding whitespace, of bars and of line breaks. *)
Theorem markdown_rows_are_clean (md : string) :
  Forall (fun r => r <> [] /\ is_separator r = false
                   /\ forallb plain_cell r = true)
         (parse_markdown_table md).
Proof.
  unfold parse_markdown_table.
  assert (Hlines : forall ln,
             In ln (filter (fun ln => startswith_bar ln && endswith_bar ln)
                           (nonblank_lines md)) ->
             all_chars (fun ch => negb (is_linebreak ch)) ln = true).
  { intros ln Hln. apply filter_In in Hln. destruct Hln as [Hln _].
    pose proof (nonblank_lines_plain md) as H. rewrite Forall_forall in H.
    apply (H ln Hln). }
  revert Hlines.
  generalize (filter (fun ln => startswith_bar ln && endswith_bar ln)
                     (nonblank_lines md)).
  intros table_lines Hlines. destruct table_lines as [|l ls]; [constructor|].
  apply Forall_forall. intros r Hr.
  apply filter_In in Hr. destruct Hr as [Hr Hsep].
  apply in_map_iff in Hr. destruct Hr as (ln & <- & Hln).
  split; [|split].
  - intro Hnil. apply map_eq_nil in Hnil.
    exact (split_from_nonempty _ _ _ Hnil).
  - apply negb_true_iff, Hsep.
  - apply markdown_row_plain, Hlines, Hln.
Qed.

Lemma md_row_shape cells :
  md_row cells
  = String.append
      (String.append "| " (String.append (String.concat " | " cells) " "))
      "|".
Proof.
  unfold md_row. change " |" with (String.append " " "|").
  rewrite <- (sapp_assoc (String.concat " | " cells) " " "|").
  rewrite <- (sapp_assoc "| " _ "|"). reflexivity.
Qed.

Lemma md_row_table_line cells :
  startswith_bar (md_row cells) && endswith_bar (md_row cells) = true.
Proof.
  apply andb_true_iff. split; [reflexivity|].
  rewrite md_row_shape. apply endswith_bar_end.
Qed.

Lemma md_row_stripped cells : strip (md_row cells) = md_row cells.
Proof.
  unfold strip.
  assert (H : lstrip (md_row cells) = md_row cells) by reflexivity.
  rewrite H, md_row_shape. apply rstrip_end. reflexivity.
Qed.

Lemma concat_no_break cells :
  forallb plain_cell cells = true ->
  all_chars (fun ch => negb (is_linebreak ch)) (String.concat " | " cells)
  = true.
Proof.
  induction cells as [|c cs IH]; intro H; [reflexivity|].
  simpl in H. apply andb_true_iff in H. destruct H as [Hc Hcs].
  destruct (plain_cell_facts c Hc) as (_ & _ & Hb).
  destruct cs as [|c2 cs]; [exact Hb|].
  rewrite concat_cons2, !all_chars_append, Hb, (IH Hcs). reflexivity.
Qed.

Lemma md_row_no_break cells :
  forallb plain_cell cells = true ->
  all_chars (fun ch => negb (is_linebreak ch)) (md_row cells) = true.
Proof.
  intro H. unfold md_row.
  rewrite !all_chars_append, (concat_no_break cells H). reflexivity.
Qed.

Lemma md_row_strip_bar cells :
  strip_bar (md_row cells)
  = String.append (String.append " " (String.concat " | " cells)) " ".
Proof.
  unfold strip_bar.
  assert (H : lstrip_bar (md_row cells)
              = String.append " "
                  (String.append (String.concat " | " cells) " |"))
    by reflexivity.
  rewrite H, <- sapp_assoc. apply rstrip_bar_end.
Qed.

Lemma split_row cs : forall c cur,
  forallb plain_cell (c :: cs) = true ->
  split_from is_bar cur
    (String.append (String.concat " | " (c :: cs)) " ")
  = String.append cur (String.append c " ")
    :: map (fun x => String.append " " (String.append x " ")) cs.
Proof.
  induction cs as [|c2 cs IH]; intros c cur H.
  - simpl String.concat. simpl map.
    rewrite <- (sapp_nil_r (String.append c " ")) at 1.
    rewrite split_from_plain; [reflexivity|].
    simpl in H. rewrite andb_true_r in H.
    destruct (plain_cell_facts c H) as (_ & Hb & _).
    rewrite all_chars_append, Hb. reflexivity.
  - cbn [forallb] in H. apply andb_true_iff in H. destruct H as [Hc Hcs].
    destruct (plain_cell_facts c Hc) as (_ & Hb & _).
    rewrite concat_cons2.
    replace (String.append
               (String.append c
                  (String.append " | " (String.concat " | " (c2 :: cs))))
               " ")
      with (String.append (String.append c " ")
              (String "|"
                 (String " "
                    (String.append (String.concat " | " (c2 :: cs)) " "))))
      by (rewrite !sapp_assoc; reflexivity).
    rewrite split_from_plain
      by (rewrite all_chars_append, Hb; reflexivity).
    cbn [split_from]. 
    replace (is_bar "|") with true by reflexivity.
    replace (is_bar " ") with false by reflexivity.
    cbn [map]. f_equal.
    exact (IH c2 _ Hcs).
Qed.

(** The cells of a laid out row are read back as they are. *)
Lemma md_row_parsed cells :
  cells <> [] -> forallb plain_cell cells = true ->
  map strip (str_split is_bar (strip_bar (md_row cells))) = cells.
Proof.
  intros Hne H. destruct cells as [|c cs]; [contradiction|].
  rewrite md_row_strip_bar. unfold str_split.
  rewrite sapp_assoc.
  change (split_from is_bar EmptyString (String.append " " ?x))
    with (split_from is_bar " " x).
  rewrite (split_row cs c " " H).
  change (String.append " " (String.append c " ")
          :: map (fun x => String.append " " (String.append x " ")) cs)
    with (map (fun x => String.append " " (String.append x " ")) (c :: cs)).
  rewrite map_map. apply map_same. intros x Hx.
  apply strip_padded.
  rewrite forallb_forall in H.
  exact (proj1 (plain_cell_facts x (H x Hx))).
Qed.

Lemma laid_out_row rows r :
  laid_out rows = true -> In r rows ->
  r <> [] /\ forallb plain_cell r = true.
Proof.
  unfold laid_out. intros H Hr. rewrite forallb_forall in H.
  specialize (H r Hr). destruct r as [|c cs]; [discriminate|].
  split; [discriminate | exact H].
Qed.

(** The lines of a laid out table are its rows. *)
Lemma md_table_lines rows :
  laid_out rows = true ->
  nonblank_lines (md_table rows) = map md_row rows.
Proof.
  intro H. unfold nonblank_lines, md_table.
  rewrite splitlines_concat.
  - rewrite filter_all.
    + apply map_same. intros ln Hln.
      apply in_map_iff in Hln. destruct Hln as (r & <- & _).
      apply md_row_stripped.
    + intros ln Hln. apply in_map_iff in Hln. destruct Hln as (r & <- & _).
      rewrite md_row_stripped. reflexivity.
  - apply Forall_forall. intros ln Hln.
    apply in_map_iff in Hln. destruct Hln as (r & <- & Hr).
    split; [|reflexivity].
    apply md_row_no_break. exact (proj2 (laid_out_row rows r H Hr)).
Qed.

(** X7.  A table laid out in the usual way, one line [| c1 | c2 |] for
    each row, is read back cell for cell, and the rows that only hold
    hyphens, colons or nothing (such as the rule under a header) are
    left out; the cells may be any text without bars, line breaks or
    surrounding whitespace. *)
Theorem markdown_table_is_read_back (rows : list (list string)) :
  laid_out rows = true ->
  parse_markdown_table (md_table rows)
  = filter (fun r => negb (is_separator r)) rows.
Proof.
  intro H. unfold parse_markdown_table.
  rewrite (md_table_lines rows H).
  rewrite filter_all.
  - assert (Hrows : map (fun ln => map strip (str_split is_bar (strip_bar ln)))
                        (map md_row rows) = rows).
    { rewrite map_map. apply map_same. intros r Hr.
      destruct (laid_out_row rows r H Hr) as [Hne Hp].
      exact (md_row_parsed r Hne Hp). }
    rewrite Hrows. destruct rows as [|r rows']; reflexivity.
  - intros ln Hln. apply in_map_iff in Hln. destruct Hln as (r & <- & _).
    apply md_row_table_line.
Qed.

(** The theorem at a table with a header, its rule and one row whose
    second cell is empty. *)
Lemma markdown_table_is_read_back_witness :
  parse_markdown_table
    (md_table [["name"; "qty"]; ["---"; ":-:"]; ["bolt M8"; EmptyString]])
  = [["name"; "qty"]; ["bolt M8"; EmptyString]].
Proof.
  apply (markdown_table_is_read_back
           [["name"; "qty"]; ["---"; ":-:"]; ["bolt M8"; EmptyString]]).
  reflexivity.
Defined.
(** ** parse_model_output_to_tables *)

Lemma table_of_entry_dict idx d :
  exists new, table_of_entry idx (JObj d) = Ok new.
Proof.
  unfold table_of_entry.
  destruct (py_or (get "rows" d) (JArr [])); eexists; reflexivity.
Qed.

Lemma append_tables_dicts entries : forall idx tables,
  forallb is_dict entries = true ->
  append_tables idx entries tables
  = (tables ++ tables_from idx entries, false).
Proof.
  induction entries as [|t rest IH]; intros idx tables H.
  - unfold tables_from. simpl. rewrite app_nil_r. reflexivity.
  - simpl in H. apply andb_true_iff in H. destruct H as [Ht Hrest].
    destruct t; try discriminate.
    cbn [append_tables]. unfold tables_from. cbn [List.length seq combine flat_map fst snd].
    destruct (table_of_entry_dict idx fields) as [new E]. rewrite E.
    rewrite (IH (S idx) (tables ++ new) Hrest), <- app_assoc.
    reflexivity.
Qed.

(** The loop keeps what it appended before the entry that is not a dict. *)
Lemma append_tables_broken good bad rest : forall idx tables,
  forallb is_dict good = true -> is_dict bad = false ->
  append_tables idx (good ++ bad :: rest) tables
  = (tables ++ tables_from idx good, true).
Proof.
  induction good as [|t good IH]; intros idx tables H Hbad.
  - unfold tables_from. simpl. rewrite app_nil_r.
    destruct bad; try reflexivity. discriminate.
  - simpl in H. apply andb_true_iff in H. destruct H as [Ht Hgood].
    destruct t; try discriminate.
    cbn [app append_tables]. unfold tables_from.
    cbn [List.length seq combine flat_map fst snd].
    destruct (table_of_entry_dict idx fields) as [new E]. rewrite E.
    rewrite (IH (S idx) (tables ++ new) Hgood Hbad), <- app_assoc.
    reflexivity.
Qed.

Lemma tables_from_entries (l : list (string * list json)) : forall idx,
  forallb (fun t => negb (is_empty (fst t))) l = true ->
  tables_from idx (map table_entry l)
  = map (fun t => (JStr (fst t), snd t)) l.
Proof.
  induction l as [|[name rows] l IH]; intros idx H; [reflexivity|].
  simpl in H. apply andb_true_iff in H. destruct H as [Hn Hl].
  unfold tables_from in *. cbn [map List.length seq combine flat_map fst snd].
  rewrite (IH (S idx) Hl).
  unfold table_of_entry, table_entry, get, py_or. simpl.
  rewrite Hn. destruct rows; reflexivity.
Qed.

Lemma entries_are_dicts (l : list (string * list json)) :
  forallb is_dict (map table_entry l) = true.
Proof. induction l as [|t l IH]; [reflexivity | exact IH]. Qed.

(** X8.  A reply in the format the prompt asks for,
    [{"tables": [{"name": ..., "rows": [...]}, ...]}] with at least one
    table and no empty name, is returned table for table: the names and
    the rows as the reply has them, in its order, whatever else the text
    would match. *)
Theorem reply_in_format_is_returned {RT : PyRuntime} (text : string)
  (d : list (string * json)) (tables : list (string * list json)) :
  json_loads text = Some (JObj d) ->
  dict_get "tables" d = Some (JArr (map table_entry tables)) ->
  tables <> [] ->
  forallb (fun t => negb (is_empty (fst t))) tables = true ->
  parse_model_output_to_tables text
  = map (fun t => (JStr (fst t), snd t)) tables.
Proof.
  intros Hj Ht Hne Hnames.
  unfold parse_model_output_to_tables, load_tables.
  rewrite Hj, Ht.
  destruct tables as [|t0 tables']; [contradiction|].
  cbn [map py_or truthy py_iter].
  change (table_entry t0 :: map table_entry tables')
    with (map table_entry (t0 :: tables')).
  rewrite (append_tables_dicts _ 0 [] (entries_are_dicts (t0 :: tables'))).
  rewrite (tables_from_entries (t0 :: tables') 0 Hnames).
  reflexivity.
Qed.

(** The theorem at a reply with one table. *)
Lemma reply_in_format_is_returned_witness :
  parse_model_output_to_tables (RT := table_runtime) one_table_text
  = [(JStr "A", [JArr [JStr "1"]])].
Proof.
  apply (reply_in_format_is_returned (RT := table_runtime) one_table_text
           [("tables", JArr [table_entry ("A", [JArr [JStr "1"]])])]
           [("A", [JArr [JStr "1"]])]).
  - reflexivity.
  - reflexivity.
  - discriminate.
  - reflexivity.
Defined.

(** X9.  When an entry of the reply's table list is not a dict, the
    tables of the entries before it are not lost, and they come out
    twice: [tables] keeps what the first attempt appended, and the
    attempt on the text from its first to its last brace appends the
    same tables again; at most one table of the Markdown or the
    comma-separated reading follows. *)
Theorem entry_that_is_no_dict_doubles_the_tables {RT : PyRuntime}
  (text : string) (d : list (string * json)) (good rest : list json)
  (bad : json) :
  json_loads text = Some (JObj d) ->
  dict_get "tables" d = Some (JArr (good ++ bad :: rest)) ->
  forallb is_dict good = true -> is_dict bad = false ->
  findall_json_fence text = [] -> findall_fence text = [] ->
  search_object text = Some text ->
  exists more,
    parse_model_output_to_tables text
    = tables_from 0 good ++ tables_from 0 good ++ more
    /\ List.length more <= 1.
Proof.
  intros Hj Ht Hgood Hbad Hf1 Hf2 Hs.
  assert (Hload : forall tables,
             load_tables text tables
             = (tables ++ tables_from 0 good, Raises)).
  { intro tables. unfold load_tables. rewrite Hj, Ht.
    assert (Hor : py_or (JArr (good ++ bad :: rest)) (JArr [])
                  = JArr (good ++ bad :: rest))
      by (unfold py_or; destruct good; reflexivity).
    rewrite Hor. cbn [py_iter].
    rewrite (append_tables_broken good bad rest 0 tables Hgood Hbad).
    reflexivity. }
  unfold parse_model_output_to_tables.
  rewrite Hload, Hf1, Hf2. cbn [try_candidates app]. rewrite Hs, Hload.
  unfold plain_tables.
  destruct (parse_markdown_table text) as [|r rows].
  - destruct (nonblank_lines text) as [|first lines].
    + exists []. rewrite app_nil_r. split; [reflexivity | simpl; lia].
    + destruct (has_comma first).
      * eexists [_]. rewrite <- app_assoc. split; [reflexivity | simpl; lia].
      * exists []. rewrite app_nil_r. split; [reflexivity | simpl; lia].
  - eexists [_]. rewrite <- app_assoc. split; [reflexivity | simpl; lia].
Qed.

(** The theorem at a reply whose second entry is the number 5. *)
Lemma entry_that_is_no_dict_doubles_the_tables_witness :
  exists more,
    parse_model_output_to_tables (RT := table_runtime) broken_tables_text
    = tables_from 0 [table_entry ("A", [JArr [JStr "1"]])]
      ++ tables_from 0 [table_entry ("A", [JArr [JStr "1"]])] ++ more
    /\ List.length more <= 1.
Proof.
  apply (entry_that_is_no_dict_doubles_the_tables (RT := table_runtime)
           broken_tables_text
           [("tables", JArr [table_entry ("A", [JArr [JStr "1"]]); JNum 5])]
           [table_entry ("A", [JArr [JStr "1"]])] [] (JNum 5));
    reflexivity.
Defined.

(** X10.  A reply that decodes to a JSON object without tables (no
    [tables] key, or an empty or null one) is not turned into the empty
    result: when the text has no Markdown table row and its first
    non-blank line has a comma, the parser returns one table, the lines
    of the reply itself split at the commas, and [_process_one] reports
    the item as a success. *)
Theorem reply_without_tables_is_read_as_csv {RT : PyRuntime}
  (call : Path -> result (string * option Usage)) (p : Path)
  (usage : option Usage) (text : string) (d : list (string * json))
  (first : string) (lines : list string) :
  call p = Ok (text, usage) ->
  json_loads text = Some (JObj d) ->
  truthy (get "tables" d) = false ->
  parse_markdown_table text = [] ->
  nonblank_lines text = first :: lines ->
  has_comma first = true ->
  parse_model_output_to_tables text
  = [table1 (map (str_split is_comma) (first :: lines))]
  /\ _process_one_table call (fun t => Ok (parse_model_output_to_tables t)) p
     = mkOutcome p None
         (Some [table1 (map (str_split is_comma) (first :: lines))]) usage.
Proof.
  intros Hc Hj Ht Hmd Hl Hcomma.
  assert (Hp : parse_model_output_to_tables text
               = [table1 (map (str_split is_comma) (first :: lines))]).
  { unfold parse_model_output_to_tables, load_tables. rewrite Hj.
    assert (Hfall : match dict_get "tables" d with
                    | Some v =>
                        match py_iter (py_or v (JArr [])) with
                        | Ok entries =>
                            let (tables', raised) :=
                              append_tables 0 entries [] in
                            if raised then (tables', Raises)
                            else match tables' with
                                 | [] => (tables', FallsThrough)
                                 | _ => (tables', Returns)
                                 end
                        | Raise _ => ([], Raises)
                        end
                    | None => ([], FallsThrough)
                    end = ([], FallsThrough)).
    { unfold get in Ht. destruct (dict_get "tables" d) as [v|];
        [|reflexivity].
      unfold py_or. rewrite Ht. reflexivity. }
    rewrite Hfall. unfold plain_tables. rewrite Hmd, Hl, Hcomma, <- Hl.
    reflexivity. }
  split; [exact Hp|].
  unfold _process_one_table, _process_one. rewrite Hc, Hp. reflexivity.
Qed.

(** The theorem at the answer the prompt asks for when an image has no
    table. *)
Lemma reply_without_tables_is_read_as_csv_witness :
  parse_model_output_to_tables (RT := table_runtime) no_table_text
  = [table1 (map (str_split is_comma) [no_table_text])]
  /\ _process_one_table (fun _ => Ok (no_table_text, None))
       (fun t => Ok (parse_model_output_to_tables (RT := table_runtime) t))
       page1
     = mkOutcome page1 None
         (Some [table1 (map (str_split is_comma) [no_table_text])]) None.
Proof.
  apply (reply_without_tables_is_read_as_csv (RT := table_runtime)
           (fun _ => Ok (no_table_text, None)) page1 None no_table_text
           [("status", JStr "no_table"); ("tables", JArr [])]
           no_table_text []);
    reflexivity.
Defined.

Lemma load_tables_returns {RT : PyRuntime} text tables tables' :
  load_tables text tables = (tables', Returns) -> tables' <> [].
Proof.
  unfold load_tables.
  destruct (json_loads text) as [[| | | | | |d]|]; try discriminate.
  destruct (dict_get "tables" d) as [v|]; [|discriminate].
  destruct (py_iter (py_or v (JArr []))) as [entries|msg]; [|discriminate].
  destruct (append_tables 0 entries tables) as [t' [|]]; [discriminate|].
  destruct t' as [|x t']; [discriminate|].
  intro H. injection H as <-. discriminate.
Qed.

Lemma try_candidates_returns {RT : PyRuntime} candidates :
  forall tables tables',
    try_candidates candidates tables = (tables', true) -> tables' <> [].
Proof.
  induction candidates as [|cand rest IH]; intros tables tables' H;
    simpl in H; [discriminate|].
  destruct (load_tables cand tables) as [t1 [| |]] eqn:E.
  - injection H as <-. exact (load_tables_returns _ _ _ E).
  - exact (IH _ _ H).
  - exact (IH _ _ H).
Qed.

Lemma plain_tables_nil text tables :
  plain_tables text tables = [] ->
  parse_markdown_table text = []
  /\ match nonblank_lines text with
     | [] => True
     | first :: _ => has_comma first = false
     end.
Proof.
  unfold plain_tables.
  destruct (parse_markdown_table text) as [|r rows].
  - intro H. split; [reflexivity|].
    destruct (nonblank_lines text) as [|first lines]; [exact I|].
    destruct (has_comma first); [|reflexivity].
    destruct tables; discriminate.
  - intro H. destruct tables; discriminate.
Qed.

(** X11.  The parser returns the empty list, which [_process_one] turns
    into the [no_tables] failure, only for a text that has no Markdown
    table row and whose first non-blank line, if there is one, has no
    comma. *)
Theorem no_tables_needs_a_text_without_commas {RT : PyRuntime}
  (text : string) :
  parse_model_output_to_tables text = [] ->
  parse_markdown_table text = []
  /\ match nonblank_lines text with
     | [] => True
     | first :: _ => has_comma first = false
     end.
Proof.
  unfold parse_model_output_to_tables.
  destruct (load_tables text []) as [t1 [| |]] eqn:E1.
  - intro H. subst t1. exfalso. exact (load_tables_returns _ _ _ E1 eq_refl).
  - apply plain_tables_nil.
  - destruct (try_candidates _ t1) as [t2 [|]] eqn:E2.
    + intro H. subst t2. exfalso.
      exact (try_candidates_returns _ _ _ E2 eq_refl).
    + destruct (search_object text) as [m|]; [|apply plain_tables_nil].
      destruct (load_tables m t2) as [t3 [| |]] eqn:E3;
        try apply plain_tables_nil.
      intro H. subst t3. exfalso.
      exact (load_tables_returns _ _ _ E3 eq_refl).
Qed.

(** The theorem at a reply in plain words. *)
Lemma no_tables_needs_a_text_without_commas_witness :
  parse_markdown_table "no table here" = []
  /\ match nonblank_lines "no table here" with
     | [] => True
     | first :: _ => has_comma first = false
     end.
Proof.
  apply (no_tables_needs_a_text_without_commas (RT := table_runtime)
           "no table here").
  reflexivity.
Defined.

(** ** The task controls and the clock *)

Lemma receive_control t e : t_control (receive t e) = t_control t.
Proof. destruct e; reflexivity. Qed.

Lemma handle_all_app rs1 rs2 t :
  handle_all (rs1 ++ rs2) t = handle_all rs2 (handle_all rs1 t).
Proof. apply fold_left_app. Qed.

(** X12.  The control flags of a task are changed by the pause, resume
    and stop requests only: whatever progress events and worker failures
    come in between, [stop] is set from the first stop request on and is
    never cleared, and [paused] is what the last pause or resume request
    made it. *)
Theorem control_flags_follow_the_requests (rs : list request) (t : Entry) :
  stop (t_control (task (handle_all rs t)))
  = stop (t_control (task t)) || stop_requested rs
  /\ paused (t_control (task (handle_all rs t)))
     = paused_after rs (paused (t_control (task t))).
Proof.
  revert t. induction rs as [|r rs IH]; intro t.
  - simpl. rewrite orb_false_r. split; reflexivity.
  - change (handle_all (r :: rs) t) with (handle_all rs (handle r t)).
    destruct (IH (handle r t)) as [IHs IHp]. rewrite IHs, IHp.
    destruct r as [now|now| |e|msg]; simpl;
      rewrite ?receive_control, ?orb_true_r, ?orb_false_r;
      split; reflexivity.
Qed.

Lemma clock_step r t :
  match pause_start t with Some _ => true | None => false end
  = paused (t_control (task t)) ->
  match pause_start (handle r t) with Some _ => true | None => false end
  = paused (t_control (task (handle r t))).
Proof.
  intro H. destruct r as [now|now| |e|msg]; simpl;
    rewrite ?receive_control; try exact H.
  - destruct (pause_start t); reflexivity.
  - reflexivity.
Qed.

(** X13.  For a task as [upload] creates it, after any sequence of
    requests, progress events and worker failures, the key [pause_start]
    is present exactly when [control.paused] is set: the pause clock runs
    while the task is paused and at no other time. *)
Theorem pause_clock_runs_while_paused (total embedded pages : nat) (now : Q)
  (rs : list request) :
  match pause_start (handle_all rs (new_entry total embedded pages now)) with
  | Some _ => true
  | None => false
  end
  = paused (t_control
              (task (handle_all rs (new_entry total embedded pages now)))).
Proof.
  assert (H : forall rs t,
             match pause_start t with Some _ => true | None => false end
             = paused (t_control (task t)) ->
             match pause_start (handle_all rs t) with
             | Some _ => true
             | None => false
             end
             = paused (t_control (task (handle_all rs t)))).
  { clear. induction rs as [|r rs IH]; intros t Ht; [exact Ht|].
    apply (IH (handle r t)), clock_step, Ht. }
  apply H. reflexivity.
Qed.

Lemma paused_interval rs : forall t p,
  no_resume rs = true -> pause_start t = Some p ->
  pause_start (handle_all rs t) = Some p
  /\ total_pause_time (handle_all rs t) = total_pause_time t.
Proof.
  induction rs as [|r rs IH]; intros t p Hn Hp; [split; [exact Hp | reflexivity]|].
  simpl in Hn. apply andb_true_iff in Hn. destruct Hn as [Hr Hrs].
  change (handle_all (r :: rs) t) with (handle_all rs (handle r t)).
  assert (H1 : pause_start (handle r t) = Some p
               /\ total_pause_time (handle r t) = total_pause_time t).
  { destruct r as [now|now| |e|msg]; simpl; try (split; [exact Hp | reflexivity]).
    - rewrite Hp. split; reflexivity.
    - discriminate. }
  destruct H1 as [H1 H2].
  destruct (IH (handle r t) p Hrs H1) as [H3 H4].
  split; [exact H3 | rewrite H4; exact H2].
Qed.

(** X14.  The paused time that is counted runs from the first pause to
    the resume: when a task that is not paused is paused at [p], and then
    resumed at [r] after any number of further pause and stop requests,
    progress events and worker failures, [total_pause_time] has grown by
    [r - p] and the pause clock is cleared. *)
Theorem paused_time_counts_from_first_pause (t : Entry) (p r : Q)
  (rs : list request) :
  pause_start t = None ->
  no_resume rs = true ->
  total_pause_time (handle_all (Pause p :: rs ++ [Resume r]) t)
  = Some (paused_so_far t + (r - p))%Q
  /\ pause_start (handle_all (Pause p :: rs ++ [Resume r]) t) = None.
Proof.
  intros Hp Hn.
  change (handle_all (Pause p :: rs ++ [Resume r]) t)
    with (handle_all (rs ++ [Resume r]) (pause_task p t)).
  rewrite handle_all_app.
  destruct (paused_interval rs (pause_task p t) p Hn) as [H1 H2].
  { simpl. rewrite Hp. reflexivity. }
  simpl in H2. cbn [handle_all fold_left handle].
  unfold resume_task. cbn [total_pause_time pause_start].
  fold (handle_all rs (pause_task p t)).
  rewrite H1. unfold paused_so_far. rewrite H2. split; reflexivity.
Qed.

(** The theorem at a task paused at 15, paused again at 17 while a step
    comes in, and resumed at 20. *)
Lemma paused_time_counts_from_first_pause_witness :
  total_pause_time
    (handle_all (Pause 15 :: [Callback (Step 1 3 "page-1-full.png" None None);
                              Pause 17] ++ [Resume 20])
                (new_entry 3 0 3 10))
  = Some (paused_so_far (new_entry 3 0 3 10) + (20 - 15))%Q
  /\ pause_start
       (handle_all (Pause 15 :: [Callback (Step 1 3 "page-1-full.png" None None);
                                 Pause 17] ++ [Resume 20])
                   (new_entry 3 0 3 10)) = None.
Proof.
  apply (paused_time_counts_from_first_pause (new_entry 3 0 3 10) 15 20
           [Callback (Step 1 3 "page-1-full.png" None None); Pause 17]);
    reflexivity.
Defined.

(** X15.  The status text and the [paused] flag do not follow each
    other.  A step or start event that comes in while the task is paused
    makes the status [in_progress] although [control.paused] stays set;
    and a task whose [done] has reached [total] keeps the status [paused]
    after pause and resume, although [control.paused] is cleared: resume
    brings back [in_progress] only when [done < total], and never the
    status from before the pause. *)
Theorem status_text_and_paused_flag_disagree (t : Entry) (p r : Q) :
  (forall e,
      (forall d n u, e <> Finish d n u) ->
      t_status (task (handle_all [Pause p; Callback e] t)) = "in_progress"
      /\ paused (t_control (task (handle_all [Pause p; Callback e] t))) = true)
  /\ t_status (task (handle_all [Pause p; Resume r] t))
     = (if t_done (task t) <? t_total (task t) then "in_progress"
        else "paused")
  /\ paused (t_control (task (handle_all [Pause p; Resume r] t))) = false.
Proof.
  split; [|split; reflexivity].
  intros e He. destruct e as [n em pg|d n img err u|d n u].
  - split; reflexivity.
  - split; reflexivity.
  - exfalso. exact (He d n u eq_refl).
Qed.

(** X16.  While a task is paused, the elapsed time of the status reply
    stands still at the time of the pause (up to the time between the two
    clock readings of the reply); after the resume it runs again, less the
    paused time; but once a step event has come in during the pause, the
    reply counts the running pause as elapsed time until the resume. *)
Theorem elapsed_time_and_the_pause (t : Entry) (p r now_pause now : Q)
  (d n : nat) (img : string) (err : option string) (u : option Usage) :
  pause_start t = None ->
  (elapsed_time now_pause now (handle_all [Pause p] t)
   == (p - start_time t) - paused_so_far t + (now - now_pause))%Q
  /\ (elapsed_time now_pause now (handle_all [Pause p; Resume r] t)
      == (now - start_time t) - paused_so_far t - (r - p))%Q
  /\ (elapsed_time now_pause now
        (handle_all [Pause p; Callback (Step d n img err u)] t)
      == (now - start_time t) - paused_so_far t)%Q.
Proof.
  intro Hp.
  assert (H1 : paused_so_far (pause_task p t) = paused_so_far t)
    by reflexivity.
  assert (H2 : pause_start (pause_task p t) = Some p)
    by (simpl; rewrite Hp; reflexivity).
  split; [|split].
  - unfold elapsed_time, handle_all. cbn [fold_left handle].
    rewrite H2, H1. simpl. ring.
  - unfold elapsed_time, handle_all. cbn [fold_left handle].
    assert (H3 : (paused_so_far (resume_task r (pause_task p t))
                  == paused_so_far t + (r - p))%Q).
    { unfold resume_task, paused_so_far at 1.
      cbn [total_pause_time]. rewrite H2, H1. reflexivity. }
    assert (H4 : pause_start (resume_task r (pause_task p t)) = None)
      by reflexivity.
    rewrite H4.
    destruct (String.eqb _ "paused"); rewrite H3; simpl; ring.
  - unfold elapsed_time, handle_all. cbn [fold_left handle].
    simpl. unfold paused_so_far. cbn [total_pause_time]. ring.
Qed.

(** The theorem at a task created at 10, paused at 15 and resumed at 20,
    for a reply that reads the clock at 30 and 31. *)
Lemma elapsed_time_and_the_pause_witness :
  (elapsed_time 30 31 (handle_all [Pause 15] (new_entry 3 0 3 10))
   == (15 - start_time (new_entry 3 0 3 10))
      - paused_so_far (new_entry 3 0 3 10) + (31 - 30))%Q
  /\ (elapsed_time 30 31 (handle_all [Pause 15; Resume 20] (new_entry 3 0 3 10))
      == (31 - start_time (new_entry 3 0 3 10))
         - paused_so_far (new_entry 3 0 3 10) - (20 - 15))%Q
  /\ (elapsed_time 30 31
        (handle_all [Pause 15; Callback (Step 1 3 "page-1-full.png" None None)]
                    (new_entry 3 0 3 10))
      == (31 - start_time (new_entry 3 0 3 10))
         - paused_so_far (new_entry 3 0 3 10))%Q.
Proof.
  apply (elapsed_time_and_the_pause (new_entry 3 0 3 10) 15 20 30 31
           1 3 "page-1-full.png" None None).
  reflexivity.
Defined.

(** ** The total of a task before and in the run *)

Lemma length_enumerated {A B : Type} (f : nat * A -> B) (l : list A) k :
  List.length (map f (combine (seq k (List.length l)) l)) = List.length l.
Proof.
  rewrite length_map, length_combine, length_seq. apply Nat.min_id.
Qed.

Lemma save_embedded_images_length dir doc : forall k acc,
  fold_left (fun embedded page => embedded + List.length page) doc acc
  = acc
    + List.length
        (flat_map
           (fun page : nat * list string =>
              map (fun img =>
                     mkPath dir
                       (String.append "page-"
                       (String.append (decimal (fst page + 1))
                       (String.append "-img-"
                       (String.append (decimal (fst img + 1))
                       (String.append "." (snd img)))))))
                  (combine (seq 0 (List.length (snd page))) (snd page)))
           (combine (seq k (List.length doc)) doc)).
Proof.
  induction doc as [|page doc IH]; intros k acc; simpl; [lia|].
  rewrite (IH (S k)), length_app, length_enumerated.
  symmetry. apply Nat.add_assoc.
Qed.

Lemma upload_counts_lengths doc dir :
  upload_counts doc
  = (List.length (save_embedded_images doc dir),
     List.length (render_full_pages doc dir)).
Proof.
  unfold upload_counts, save_embedded_images, render_full_pages.
  rewrite length_map, length_seq.
  rewrite (save_embedded_images_length dir doc 0 0). reflexivity.
Qed.

(** X17.  For the three source modes process_pdf knows, the total that
    [upload] puts into the new task is the total of the start event of
    the run, the number of images the run works through.  For any other
    value of [ARK_SOURCE] [upload] shows the number of embedded images,
    while the run has nothing to do: its total is 0 and no item is
    dispatched or reported. *)
Theorem upload_total_and_the_run {X : Type}
  (call : Path -> result (string * option Usage))
  (parse : string -> result (list X)) (no_result_msg : string)
  (doc : list (list string)) (tmp_img_dir : string) (max_workers : nat)
  (source_mode : string) (og : option gate_script) (sched : list (list nat)) :
  let rep := process_pdf call parse no_result_msg doc tmp_img_dir max_workers
                         source_mode og sched in
  (known_mode source_mode = true ->
   upload_total doc source_mode
   = List.length (pdf_images doc tmp_img_dir source_mode)
   /\ exists embedded pages tr,
        progress rep
        = Emit (Start (upload_total doc source_mode) embedded pages) :: tr)
  /\ (known_mode source_mode = false ->
      upload_total doc source_mode = fst (upload_counts doc)
      /\ dispatched (progress rep) = []
      /\ step_images (progress rep) = []
      /\ exists tr, progress rep = Emit (Start 0 0 0) :: tr).
Proof.
  cbn zeta. unfold process_pdf, known_mode, upload_total, pdf_images.
  rewrite (upload_counts_lengths doc tmp_img_dir).
  cbn [fst].
  set (emb := save_embedded_images doc tmp_img_dir).
  set (full := render_full_pages doc tmp_img_dir).
  destruct (String.eqb source_mode "both") eqn:Eb;
    [|destruct (String.eqb source_mode "page") eqn:Ep;
      [|destruct (String.eqb source_mode "embedded") eqn:Ee]];
    cbn [orb]; (split; [intro Hk | intro Hk]); try discriminate.
  - apply String.eqb_eq in Eb. subst source_mode. cbn [String.eqb Ascii.eqb Bool.eqb orb andb].
    split; [rewrite length_app; reflexivity|].
    rewrite run_batch_eq, length_app.
    destruct (how _); eexists _, _, _; reflexivity.
  - apply String.eqb_eq in Ep. subst source_mode. cbn [String.eqb Ascii.eqb Bool.eqb orb andb].
    split; [reflexivity|].
    rewrite run_batch_eq. cbn [app List.length].
    destruct (how _); eexists _, _, _; reflexivity.
  - apply String.eqb_eq in Ee. subst source_mode. cbn [String.eqb Ascii.eqb Bool.eqb orb andb].
    split; [rewrite app_nil_r; reflexivity|].
    rewrite run_batch_eq, app_nil_r.
    destruct (how _); eexists _, _, _; reflexivity.
  - split; [reflexivity|]. cbn [app List.length].
    pose proof (loop_order call parse no_result_msg 0 max_workers sched []
                           og) as Ho.
    pose proof (loop_within call parse no_result_msg 0 max_workers sched []
                            og) as Hw.
    inversion Ho as [l Hl| |]. 
    assert (Hs : seen (final (process_loop call parse no_result_msg 0
                                           max_workers sched []
                                           (fresh_pool (X := X) og))) = []).
    { destruct (seen _) as [|q qs]; [reflexivity|].
      destruct (Hw q (or_introl eq_refl)). }
    split; [|split].
    + rewrite run_batch_eq. cbn [List.length].
      destruct (how _); cbn [progress dispatched];
        rewrite ?dispatched_app, <- Hl; reflexivity.
    + rewrite run_batch_step_images. cbn [List.length]. rewrite Hs.
      reflexivity.
    + rewrite run_batch_eq. cbn [List.length].
      destruct (how _); eexists; reflexivity.
Qed.

(** ** The time a call sleeps *)

Lemma pow2_step (k : nat) : (2 ^ Z.of_nat (S k) = 2 * 2 ^ Z.of_nat k)%Z.
Proof. rewrite Nat2Z.inj_succ, Z.pow_succ_r; lia. Qed.

Section SleepBound.

Context {J : Type}.
Variable network : nat -> attempt_result J.
Variable jitter : nat -> Q.
Variable R : nat.

Hypothesis jitter_range : forall k, (0 <= jitter k)%Q /\ (jitter k <= 1 # 2)%Q.

(** The first wait is within the sum of all of them. *)
Lemma waits_grow attempt :
  attempt <= R ->
  (inject_Z (2 ^ Z.of_nat attempt) + inject_Z (Z.of_nat attempt) * (1 # 2)
   <= inject_Z (2 ^ Z.of_nat R) + inject_Z (Z.of_nat R) * (1 # 2))%Q.
Proof.
  intro H. apply Qplus_le_compat.
  - rewrite <- Zle_Qle. apply Z.pow_le_mono_r; lia.
  - apply Qmult_le_compat_r; [rewrite <- Zle_Qle; lia | discriminate].
Qed.

Lemma one_attempt attempt (e : result J) :
  attempt <= R ->
  let t := mkTrace 1 [] e in
  attempts t = S (List.length (sleeps t))
  /\ (0 <= total_sleep t)%Q
  /\ (total_sleep t + inject_Z (2 ^ Z.of_nat attempt)
      + inject_Z (Z.of_nat attempt) * (1 # 2)
      <= inject_Z (2 ^ Z.of_nat R) + inject_Z (Z.of_nat R) * (1 # 2))%Q.
Proof.
  intro H. cbn zeta. unfold total_sleep.
  cbn [sleeps attempts fold_right List.length].
  split; [reflexivity|]. split; [apply Qle_refl|].
  rewrite Qplus_0_l. apply waits_grow, H.
Qed.

(** From iteration [attempt] on, the loop makes one attempt more than it
    sleeps, and what it sleeps stays below the sum of the waits left. *)
Lemma retry_from_sleeps remaining : forall attempt,
  attempt + remaining = R ->
  let t := retry_from network jitter (Z.of_nat R) (S remaining) attempt in
  attempts t = S (List.length (sleeps t))
  /\ (0 <= total_sleep t)%Q
  /\ (total_sleep t + inject_Z (2 ^ Z.of_nat attempt)
      + inject_Z (Z.of_nat attempt) * (1 # 2)
      <= inject_Z (2 ^ Z.of_nat R) + inject_Z (Z.of_nat R) * (1 # 2))%Q.
Proof.
  induction remaining as [|remaining IH]; intros attempt Hsum.
  - cbn zeta. cbn [retry_from].
    destruct (network attempt) as [j|e|e]; try (apply one_attempt; lia).
    replace (Z.of_nat attempt <? Z.of_nat R)%Z with false
      by (symmetry; apply Z.ltb_ge; lia).
    apply one_attempt. lia.
  - cbn zeta. remember (S remaining) as n eqn:En. cbn [retry_from]. subst n.
    destruct (network attempt) as [j|e|e]; try (apply one_attempt; lia).
    destruct (Z.of_nat attempt <? Z.of_nat R)%Z eqn:Elt;
      [|apply one_attempt; lia].
    destruct (IH (S attempt)) as (Ha & H0 & Hb); [lia|].
    cbn zeta in Ha, H0, Hb.
    set (later := retry_from network jitter (Z.of_nat R) (S remaining)
                             (S attempt)) in *.
    unfold total_sleep in *. cbn [sleeps attempts fold_right List.length].
    destruct (jitter_range attempt) as [Hj0 Hj1].
    split; [rewrite Ha; reflexivity|].
    rewrite pow2_step, Nat2Z.inj_succ in Hb.
    unfold Z.succ in Hb. rewrite inject_Z_mult, inject_Z_plus in Hb.
    unfold backoff.
    assert (H2 : (0 <= inject_Z (2 ^ Z.of_nat attempt))%Q).
    { change 0%Q with (inject_Z 0). rewrite <- Zle_Qle.
      apply Z.pow_nonneg. lia. }
    change (inject_Z 2) with 2%Q in Hb. change (inject_Z 1) with 1%Q in Hb.
    split; lra.
Qed.

End SleepBound.

(** X18.  With a jitter between 0 and 0.5 and a retry budget of [retries]
    that is not negative, a call makes at least one attempt, sleeps once
    between two attempts and never after the last one, and sleeps at most
    [2 ^ retries - 1 + retries / 2] seconds in all, whatever the network
    does.  With a negative budget the loop body never runs: no request is
    made and the call fails on the unbound [j]. *)
Theorem total_backoff_is_bounded {J : Type}
  (network : nat -> attempt_result J) (jitter : nat -> Q) (retries : Z) :
  (forall k, (0 <= jitter k)%Q /\ (jitter k <= 1 # 2)%Q) ->
  ((0 <= retries)%Z ->
   attempts (post_with_retries network jitter retries)
   = S (List.length (sleeps (post_with_retries network jitter retries)))
   /\ (0 <= total_sleep (post_with_retries network jitter retries))%Q
   /\ (total_sleep (post_with_retries network jitter retries)
       <= inject_Z (2 ^ retries - 1) + inject_Z retries * (1 # 2))%Q)
  /\ ((retries < 0)%Z ->
      post_with_retries network jitter retries
      = mkTrace 0 [] (Raise unbound_j)).
Proof.
  intro Hj. split; intro Hr.
  - unfold post_with_retries.
    destruct (retry_from_sleeps network jitter (Z.to_nat retries) Hj
                (Z.to_nat retries) 0 eq_refl) as (Ha & H0 & Hb).
    cbn zeta in Ha, H0, Hb. rewrite Z2Nat.id in Ha, H0, Hb by exact Hr.
    replace (Z.to_nat (retries + 1)) with (S (Z.to_nat retries)) by lia.
    split; [exact Ha|]. split; [exact H0|].
    unfold Z.sub. rewrite inject_Z_plus.
    change (inject_Z (2 ^ Z.of_nat 0)) with 1%Q in Hb.
    change (inject_Z (Z.of_nat 0)) with 0%Q in Hb.
    change (inject_Z (- (1))) with (- (1))%Q.
    lra.
  - unfold post_with_retries.
    replace (Z.to_nat (retries + 1)) with 0 by lia. reflexivity.
Qed.

(** The theorem at the default budget of three retries, a network that
    always times out and a jitter of a quarter of a second. *)
Lemma total_backoff_is_bounded_witness :
  attempts (post_with_retries (J := unit) (fun _ => Transient "timed out")
                              (fun _ => 1 # 4) 3)
  = S (List.length
         (sleeps (post_with_retries (J := unit)
                    (fun _ => Transient "timed out") (fun _ => 1 # 4) 3)))
  /\ (0 <= total_sleep
             (post_with_retries (J := unit) (fun _ => Transient "timed out")
                                (fun _ => 1 # 4) 3))%Q
  /\ (total_sleep
        (post_with_retries (J := unit) (fun _ => Transient "timed out")
                           (fun _ => 1 # 4) 3)
      <= inject_Z (2 ^ 3 - 1) + inject_Z 3 * (1 # 2))%Q.
Proof.
  apply (total_backoff_is_bounded (J := unit)
           (fun _ => Transient "timed out") (fun _ => 1 # 4) 3).
  - intro k. split; discriminate.
  - lia.
Defined.

(** ** The writers *)

Lemma map_result_ok {A B : Type} (f : A -> result B) (g : A -> B) (l : list A) :
  (forall x, In x l -> f x = Ok (g x)) -> map_result f l = Ok (map g l).
Proof.
  induction l as [|a l IH]; intro H; [reflexivity|].
  simpl. rewrite (H a (or_introl eq_refl)). simpl.
  rewrite IH; [reflexivity|]. intros x Hx. apply H. right. exact Hx.
Qed.

Lemma py_iter_raises v : iterable v = false -> exists msg, py_iter v = Raise msg.
Proof. destruct v; try discriminate; intros _; eexists; reflexivity. Qed.

(** X19.  The Excel writer trusts the rows it is given: when a table of
    some image has a row that is not a sequence (a number, a boolean or
    null, which the table parser lets through as they are), the writer
    raises and the workbook is not saved, whatever the other images
    hold and whatever openpyxl does with the rows appended before. *)
Theorem excel_writer_raises_on_a_scalar_row {RT : PyRuntime}
  (xlsx_error : list string -> option string)
  (notice : list (list string)) (image_tables : list (string * list Table))
  (image : string) (tables : list Table) (name : json) (rows : list json)
  (row : json) :
  In (image, tables) image_tables ->
  In (name, rows) tables ->
  In row rows ->
  iterable row = false ->
  exists msg,
    write_aggregated_excel xlsx_error notice image_tables = Raise msg.
Proof.
  intros Hi Ht Hr Hrow. unfold write_aggregated_excel.
  assert (Hnot : forallb (fun it : string * list Table => is_nil (snd it))
                         image_tables = false).
  { apply not_true_is_false. intro Hall. rewrite forallb_forall in Hall.
    specialize (Hall _ Hi). simpl in Hall. destruct tables; [destruct Ht|].
    discriminate. }
  rewrite Hnot.
  destruct (map_result_raises (image_rows xlsx_error) image_tables
              (image, tables) Hi)
    as [msg Hmsg]; [|rewrite Hmsg; exists msg; reflexivity].
  unfold image_rows. cbn [snd].
  destruct (map_result_raises
              (fun t : Table => map_result (sheet_row xlsx_error) (snd t))
              tables (name, rows) Ht) as [msg Hmsg];
    [|rewrite Hmsg; exists msg; reflexivity].
  cbn [snd]. apply (map_result_raises (sheet_row xlsx_error) rows row Hr).
  destruct (py_iter_raises row Hrow) as [msg Hmsg].
  exists msg. unfold sheet_row. rewrite Hmsg. reflexivity.
Qed.

(** The theorem at the batch of one page whose reply has the row 5. *)
Lemma excel_writer_raises_on_a_scalar_row_witness :
  exists msg,
    write_aggregated_excel (RT := writer_runtime) strict_xlsx []
      [("page-1-full.png",
        parse_model_output_to_tables (RT := writer_runtime) scalar_row_text)]
    = Raise msg.
Proof.
  apply (excel_writer_raises_on_a_scalar_row (RT := writer_runtime)
           strict_xlsx []
           [("page-1-full.png",
             parse_model_output_to_tables (RT := writer_runtime)
               scalar_row_text)]
           "page-1-full.png"
           (parse_model_output_to_tables (RT := writer_runtime) scalar_row_text)
           (JStr "A") [JNum 5] (JNum 5)).
  - left. reflexivity.
  - left. reflexivity.
  - left. reflexivity.
  - reflexivity.
Defined.

Lemma word_row_length {RT : PyRuntime} standard_cols row :
  List.length (word_row standard_cols row) = standard_cols.
Proof.
  unfold word_row. rewrite length_firstn, length_app, repeat_length. lia.
Qed.

Lemma word_row_cells {RT : PyRuntime} standard_cols row :
  word_row standard_cols row
  = map (fun j => nth j (row_cells row) (JStr EmptyString))
        (seq 0 standard_cols).
Proof. apply pad_and_cut. Qed.

Lemma flat_map_in_ext {A B : Type} (f g : A -> list B) (l : list A) :
  (forall a, In a l -> f a = g a) -> flat_map f l = flat_map g l.
Proof.
  induction l as [|a l IH]; intro H; [reflexivity|].
  cbn [flat_map]. rewrite (H a (or_introl eq_refl)), IH; [reflexivity|].
  intros b Hb. apply H. right. exact Hb.
Qed.

Lemma fill_row {RT : PyRuntime} i (g : nat -> json) cols :
  map (fun c => set_cell_text i (fst c) (cell_text (snd c)))
      (combine (seq 0 (List.length (map g (seq 0 cols)))) (map g (seq 0 cols)))
  = map (fun j => set_cell_text i j (cell_text (g j))) (seq 0 cols).
Proof.
  rewrite length_map, length_seq. generalize 0.
  induction cols as [|cols IH]; intro k; [reflexivity|].
  cbn [seq map combine fst snd]. rewrite (IH (S k)). reflexivity.
Qed.

Lemma map_list_prod {A B C : Type} (f : A * B -> C) (l : list A) (l' : list B) :
  map f (list_prod l l') = flat_map (fun x => map (fun y => f (x, y)) l') l.
Proof.
  induction l as [|x l IH]; [reflexivity|].
  cbn [list_prod flat_map]. rewrite map_app, map_map, IH. reflexivity.
Qed.

(** The cells the writer fills, place by place. *)
Lemma fill_cells_grid {RT : PyRuntime} cols (rs : list json) :
  fill_cells (map (word_row cols) rs)
  = map (fun ij =>
           set_cell_text (fst ij) (snd ij)
             (cell_text (nth (snd ij) (row_cells (nth (fst ij) rs JNull))
                             (JStr EmptyString))))
        (list_prod (seq 0 (List.length rs)) (seq 0 cols)).
Proof.
  rewrite map_list_prod. unfold fill_cells. rewrite length_map.
  assert (H : forall k,
             flat_map
               (fun r : nat * list json =>
                  map (fun c => set_cell_text (fst r) (fst c)
                                              (cell_text (snd c)))
                      (combine (seq 0 (List.length (snd r))) (snd r)))
               (combine (seq k (List.length rs)) (map (word_row cols) rs))
             = flat_map
                 (fun i =>
                    map (fun j =>
                           set_cell_text i j
                             (cell_text
                                (nth j (row_cells (nth (i - k) rs JNull))
                                     (JStr EmptyString))))
                        (seq 0 cols))
                 (seq k (List.length rs))).
  { induction rs as [|r rs IH]; intro k; [reflexivity|].
    cbn [List.length seq map combine flat_map fst snd].
    rewrite Nat.sub_diag. cbn [nth]. f_equal.
    - rewrite word_row_cells. apply fill_row.
    - rewrite (IH (S k)). apply flat_map_in_ext. intros i Hi.
      apply in_seq in Hi.
      replace (i - k) with (S (i - S k)) by lia. reflexivity. }
  rewrite (H 0). apply flat_map_in_ext. intros i _.
  rewrite Nat.sub_0_r. reflexivity.
Qed.

(** X20.  The table branch of the Word writer, for the rows of a table
    item and whatever python-docx does with a call.  Rows that are falsy
    make no call.  For a list of rows whose first row has a length,
    [add_table] gets one row for each row of the item and the column
    count [len(rows[0])], then the cell at row [i] and column [j] below
    that count is set to the text of cell [j] of row [i] of the item (its
    [str()], the empty string for null), or to the empty string where
    the row is too short; a row that is not a list stands for the one
    cell [str(row)], and cells beyond the count are left out.  The calls
    are made in this order up to the first that python-docx refuses,
    whose exception ends the writer.  When the first row has no length
    (a number, a boolean, null) the branch raises before any call. *)
Theorem word_table_fills_the_grid {RT : PyRuntime}
  (docx_error : docx_call -> option string) :
  (forall rows, truthy rows = false -> word_table docx_error rows = Ok [])
  /\ (forall first others cols,
         py_len first = Ok cols ->
         word_table docx_error (JArr (first :: others))
         = perform docx_error
             (add_table (S (List.length others)) cols
              :: map (fun ij =>
                        set_cell_text (fst ij) (snd ij)
                          (cell_text
                             (nth (snd ij)
                                  (row_cells (nth (fst ij) (first :: others)
                                                  JNull))
                                  (JStr EmptyString))))
                     (list_prod (seq 0 (S (List.length others))) (seq 0 cols))
              ++ [add_paragraph (JStr EmptyString)]))
  /\ (forall first others msg,
         py_len first = Raise msg ->
         word_table docx_error (JArr (first :: others)) = Raise msg).
Proof.
  split; [|split].
  - intros rows H. unfold word_table, table_calls. rewrite H. reflexivity.
  - intros first others cols Hc. unfold word_table, table_calls.
    cbn [truthy py_len bind List.length Nat.ltb Nat.leb first_row py_iter].
    rewrite Hc. cbn [bind].
    rewrite length_map, (fill_cells_grid cols (first :: others)).
    reflexivity.
  - intros first others msg Hc. unfold word_table, table_calls.
    cbn [truthy py_len bind List.length Nat.ltb Nat.leb first_row].
    rewrite Hc. reflexivity.
Qed.

(** The theorem at a table whose second row is too long and whose third
    row is not a list, with a library that refuses control characters. *)
Lemma word_table_fills_the_grid_witness :
  word_table (RT := sample_runtime) strict_docx
    (JArr [JArr [JStr "a"; JStr "b"]; JArr [JStr "1"; JStr "2"; JStr "3"];
           JStr "x"])
  = Ok [add_table 3 2;
        set_cell_text 0 0 "a"; set_cell_text 0 1 "b";
        set_cell_text 1 0 "1"; set_cell_text 1 1 "2";
        set_cell_text 2 0 "x"; set_cell_text 2 1 EmptyString;
        add_paragraph (JStr EmptyString)].
Proof.
  destruct (word_table_fills_the_grid (RT := sample_runtime) strict_docx)
    as (_ & H & _).
  rewrite (H (JArr [JStr "a"; JStr "b"])
             [JArr [JStr "1"; JStr "2"; JStr "3"]; JStr "x"] 2 eq_refl).
  reflexivity.
Defined.

(** A cell with a control character: python-docx refuses it, and the
    writer raises after the table has been added and the first cell
    set. *)
Example control_character_ends_the_table :
  word_table (RT := sample_runtime) strict_docx
    (JArr [JArr [JStr "a"; JStr (String (ascii_of_nat 1) EmptyString)]])
  = Raise "All strings must be XML compatible: Unicode or ASCII, no NULL bytes or control characters".
Proof. reflexivity. Qed.

Lemma fill_cells_text {RT : PyRuntime} (grid : list (list string)) : forall k,
  flat_map
    (fun r => map (fun c => set_cell_text (fst r) (fst c) (cell_text (snd c)))
                  (combine (seq 0 (List.length (snd r))) (snd r)))
    (combine (seq k (List.length (map (map JStr) grid))) (map (map JStr) grid))
  = flat_map
      (fun r => map (fun c => set_cell_text (fst r) (fst c) (snd c))
                    (combine (seq 0 (List.length (snd r))) (snd r)))
      (combine (seq k (List.length grid)) grid).
Proof.
  induction grid as [|r grid IH]; intro k; [reflexivity|].
  cbn [map List.length seq combine flat_map fst snd].
  rewrite (IH (S k)). f_equal.
  rewrite length_map. generalize 0.
  induction r as [|c r IHr]; intro j; [reflexivity|].
  cbn [map List.length seq combine fst snd]. rewrite (IHr (S j)). reflexivity.
Qed.

Lemma word_row_exact {RT : PyRuntime} (r : list string) :
  word_row (List.length r) (JArr (map JStr r)) = map JStr r.
Proof.
  unfold word_row, row_cells. rewrite length_map, Nat.sub_diag. simpl.
  rewrite app_nil_r. rewrite <- (length_map JStr r). apply firstn_all.
Qed.

(** The calls of the Word writer for rows of text of one length. *)
Lemma table_calls_of_grid {RT : PyRuntime} (first : list string)
  (grid : list (list string)) :
  Forall (fun r => List.length r = List.length first) (first :: grid) ->
  table_calls (rows_json (first :: grid))
  = Ok (add_table (List.length (first :: grid)) (List.length first)
        :: flat_map
             (fun r => map (fun c => set_cell_text (fst r) (fst c) (snd c))
                           (combine (seq 0 (List.length (snd r))) (snd r)))
             (combine (seq 0 (List.length (first :: grid))) (first :: grid))
        ++ [add_paragraph (JStr EmptyString)]).
Proof.
  intro Hu. unfold table_calls, rows_json.
  cbn [map truthy py_len bind List.length Nat.ltb Nat.leb first_row py_iter].
  rewrite !length_map.
  assert (Hrows : word_row (List.length first) (JArr (map JStr first))
                  :: map (word_row (List.length first))
                         (map (fun r => JArr (map JStr r)) grid)
                  = map (map JStr) (first :: grid)).
  { change (word_row (List.length first) (JArr (map JStr first))
            :: map (word_row (List.length first))
                   (map (fun r => JArr (map JStr r)) grid))
      with (map (word_row (List.length first))
                (map (fun r => JArr (map JStr r)) (first :: grid))).
    rewrite map_map. apply map_ext_in. intros r Hr.
    rewrite Forall_forall in Hu. rewrite <- (Hu r Hr). apply word_row_exact. }
  rewrite Hrows. unfold fill_cells. rewrite (fill_cells_text (first :: grid) 0).
  reflexivity.
Qed.

(** X21.  A table the content parser has repaired goes into the document
    as it is: when some row of a table item is a list, the item the
    parser returns makes the Word writer add a table with one row for
    each list row and the column count of the first, set each cell to
    the text the parser put there, and add the empty paragraph, in this
    order; the padding and cutting of the writer find nothing left to
    do.  The calls are made up to the first that python-docx refuses (a
    cell with a control character, for one), whose exception ends the
    writer. *)
Theorem repaired_table_is_written_as_it_is {RT : PyRuntime}
  (docx_error : docx_call -> option string)
  (f : list (string * json)) (raw : list json) :
  is_table f = true ->
  dict_get "rows" f = Some (JArr raw) ->
  existsb is_row raw = true ->
  exists f',
    repair_item (JObj f) = Ok (JObj f')
    /\ word_item docx_error (JObj f')
       = perform docx_error
           (add_table (List.length (collect_rows raw))
                      (List.length (hd [] (collect_rows raw)))
            :: flat_map
                 (fun r => map (fun c => set_cell_text (fst r) (fst c) (snd c))
                               (combine (seq 0 (List.length (snd r))) (snd r)))
                 (combine (seq 0 (List.length (collect_rows raw)))
                          (unify_columns (collect_rows raw)))
            ++ [add_paragraph (JStr EmptyString)]).
Proof.
  intros Ht Hrows Hsome.
  pose proof (collect_rows_some raw Hsome) as Hne.
  pose proof (repair_item_list_rows f raw Ht Hrows) as Hrep.
  destruct (collect_rows raw) as [|first rest] eqn:Ec; [contradiction|].
  exists (dict_set "rows" (rows_json (unify_columns (first :: rest))) f).
  split; [exact Hrep|].
  unfold word_item, item_calls.
  assert (Htype : field "type" (JStr "paragraph")
                    (dict_set "rows" (rows_json (unify_columns (first :: rest))) f)
                  = JStr "table").
  { unfold field. rewrite dict_get_set_other by reflexivity.
    unfold is_table in Ht. destruct (dict_get "type" f) as [[| | | |s| |]|];
      try discriminate.
    apply String.eqb_eq in Ht. rewrite Ht. reflexivity. }
  rewrite Htype. cbn [is_type String.eqb Ascii.eqb Bool.eqb].
  unfold field.
  rewrite (dict_get_set_same "rows" _ f _ Hrows).
  pose proof (unify_columns_uniform (first :: rest)) as Hu.
  pose proof (unify_columns_length (first :: rest)) as Hl.
  assert (Hhd : exists rest', unify_columns (first :: rest) = first :: rest').
  { unfold unify_columns. cbn [map]. rewrite fit_exact. eexists. reflexivity. }
  destruct Hhd as [rest' Hhd]. rewrite Hhd in *. cbn [hd] in Hu.
  rewrite (table_calls_of_grid first rest' Hu).
  cbn [hd bind]. rewrite Hl. reflexivity.
Qed.

(** The theorem at a table with a short row and a row that is not a
    list, with a library that refuses control characters. *)
Lemma repaired_table_is_written_as_it_is_witness :
  exists f',
    repair_item (RT := sample_runtime)
      (table_node [text_row ["a"; "b"]; JStr "note"; text_row ["1"]])
    = Ok (JObj f')
    /\ word_item (RT := sample_runtime) strict_docx (JObj f')
       = perform strict_docx
           (add_table
              (List.length
                 (collect_rows (RT := sample_runtime)
                    [text_row ["a"; "b"]; JStr "note"; text_row ["1"]]))
              (List.length
                 (hd [] (collect_rows (RT := sample_runtime)
                           [text_row ["a"; "b"]; JStr "note";
                            text_row ["1"]])))
            :: flat_map
                 (fun r => map (fun c => set_cell_text (fst r) (fst c) (snd c))
                               (combine (seq 0 (List.length (snd r))) (snd r)))
                 (combine
                    (seq 0 (List.length
                              (collect_rows (RT := sample_runtime)
                                 [text_row ["a"; "b"]; JStr "note";
                                  text_row ["1"]])))
                    (unify_columns
                       (collect_rows (RT := sample_runtime)
                          [text_row ["a"; "b"]; JStr "note";
                           text_row ["1"]])))
            ++ [add_paragraph (JStr EmptyString)]).
Proof.
  apply (repaired_table_is_written_as_it_is (RT := sample_runtime) strict_docx
           [("type", JStr "table");
            ("rows", JArr [text_row ["a"; "b"]; JStr "note"; text_row ["1"]])]
           [text_row ["a"; "b"]; JStr "note"; text_row ["1"]]);
    reflexivity.
Defined.

(** The calls of that table, and a repaired table with a control
    character in a cell, which python-docx refuses. *)
Example repaired_tables_in_the_document :
  word_item (RT := sample_runtime) strict_docx
    (table_node [text_row ["a"; "b"]; text_row ["1"; EmptyString]])
  = Ok [add_table 2 2;
        set_cell_text 0 0 "a"; set_cell_text 0 1 "b";
        set_cell_text 1 0 "1"; set_cell_text 1 1 EmptyString;
        add_paragraph (JStr EmptyString)]
  /\ word_item (RT := sample_runtime) strict_docx
       (table_node [text_row ["a"; String (ascii_of_nat 1) EmptyString]])
     = Raise "All strings must be XML compatible: Unicode or ASCII, no NULL bytes or control characters".
Proof. split; reflexivity. Qed.

Lemma validate_keeps {RT : PyRuntime} items : forall validated item,
  validate items = Ok validated ->
  In item items -> is_dict item = false -> In item validated.
Proof.
  induction items as [|a items IH]; intros validated item Hv Hin Hd;
    [destruct Hin|].
  simpl in Hv. destruct (repair_item a) as [a'|msg] eqn:Ea; [|discriminate].
  simpl in Hv. destruct (validate items) as [rest|msg] eqn:Er; [|discriminate].
  simpl in Hv. injection Hv as <-.
  destruct Hin as [->|Hin].
  - left. destruct item; try discriminate; simpl in Ea; injection Ea as <-;
      reflexivity.
  - right. exact (IH rest item eq_refl Hin Hd).
Qed.

Lemma word_pages_raises {RT : PyRuntime}
  (docx_error : docx_call -> option string) image content item :
  In item content -> is_dict item = false ->
  forall all_content idx total,
    In (image, content) all_content ->
    exists msg, word_pages docx_error idx total all_content = Raise msg.
Proof.
  intros Hitem Hd.
  assert (Hraise : exists msg,
             map_result (word_item docx_error) content = Raise msg).
  { apply (map_result_raises (word_item docx_error) content item Hitem).
    destruct item; try discriminate; eexists; reflexivity. }
  induction all_content as [|page rest IH]; intros idx total Hin;
    [destruct Hin|].
  cbn [word_pages]. destruct Hin as [->|Hin].
  - cbn [snd]. destruct content as [|c cs]; [destruct Hitem|].
    destruct Hraise as [msg Hmsg]. rewrite Hmsg. exists msg. reflexivity.
  - destruct (snd page) as [|c cs]; [apply IH, Hin|].
    destruct (map_result (word_item docx_error) (c :: cs)) as [calls|msg];
      [|exists msg; reflexivity].
    cbn [bind].
    destruct (perform docx_error _) as [separator|msg];
      [|exists msg; reflexivity].
    destruct (IH (S idx) total Hin) as [msg Hmsg].
    cbn [bind]. rewrite Hmsg. exists msg. reflexivity.
Qed.

(** X22.  The Word writer trusts the items it is given, and the content
    parser does not check them: an item of the reply's content list that
    is not a dict (a string, a number, a list) is returned by the parser
    as it is, and a batch with such an item makes the writer raise, so
    that no document is saved, whatever the other pages hold and
    whatever python-docx does with the calls made before. *)
Theorem word_writer_raises_on_an_item_that_is_no_dict {RT : PyRuntime}
  (docx_error : docx_call -> option string)
  (text : string) (d : list (string * json)) (items content : list json)
  (item : json) :
  json_loads text = Some (JObj d) ->
  dict_get "content" d = Some (JArr items) ->
  In item items -> is_dict item = false ->
  parse_model_output_to_content text = Ok content ->
  In item content
  /\ forall notice all_content image,
       In (image, content) all_content ->
       exists msg,
         write_content_to_word docx_error notice all_content = Raise msg.
Proof.
  intros Hj Hc Hin Hd Hp.
  assert (Hcontent : In item content).
  { unfold parse_model_output_to_content, structured_content, attempt_direct,
      load_content, content_of in Hp.
    rewrite Hj, Hc in Hp. cbn [or_keep] in Hp.
    assert (Hor : py_or (JArr items) (JArr []) = JArr items)
      by (destruct items; [destruct Hin | reflexivity]).
    rewrite Hor in Hp.
    assert (Ht : truthy (JArr items) = true)
      by (destruct items; [destruct Hin | reflexivity]).
    unfold attempt_fenced in Hp. rewrite Ht in Hp.
    unfold attempt_object in Hp. rewrite Ht in Hp.
    cbn [py_iter bind] in Hp.
    destruct (validate items) as [validated|msg] eqn:Ev; [|discriminate].
    cbn [bind] in Hp.
    pose proof (validate_keeps items validated item Ev Hin Hd) as Hk.
    destruct validated as [|v vs]; [destruct Hk|].
    injection Hp as <-. exact Hk. }
  split; [exact Hcontent|].
  intros notice all_content image Hpage. unfold write_content_to_word.
  assert (Hnot : forallb (fun page : string * list json => is_nil (snd page))
                         all_content = false).
  { apply not_true_is_false. intro Hall. rewrite forallb_forall in Hall.
    specialize (Hall _ Hpage). simpl in Hall.
    destruct content; [destruct Hcontent | discriminate]. }
  rewrite Hnot.
  exact (word_pages_raises docx_error image content item Hcontent Hd
           all_content 0 _ Hpage).
Qed.

(** The theorem at the reply whose content list holds a string. *)
Lemma word_writer_raises_on_an_item_that_is_no_dict_witness :
  In (JStr "hello") [JStr "hello"]
  /\ forall notice all_content image,
       In (image, [JStr "hello"]) all_content ->
       exists msg,
         write_content_to_word (RT := writer_runtime) strict_docx notice
                               all_content
         = Raise msg.
Proof.
  apply (word_writer_raises_on_an_item_that_is_no_dict (RT := writer_runtime)
           strict_docx
           string_item_text [("content", JArr [JStr "hello"])]
           [JStr "hello"] [JStr "hello"] (JStr "hello")).
  - reflexivity.
  - reflexivity.
  - left. reflexivity.
  - reflexivity.
  - reflexivity.
Defined.

(** ** The content parser on a reply without content *)

(** X23.  In text mode a reply that decodes to a JSON object without
    content (no [content] key, or an empty or null one) and has no code
    fence is not turned into the empty result: the parser falls back to
    the raw text and returns one paragraph for each non-blank line of the
    reply itself, so that [_process_one] reports the item as a success
    and not as [no_content]. *)
Theorem reply_without_content_becomes_paragraphs {RT : PyRuntime}
  (call : Path -> result (string * option Usage)) (p : Path)
  (usage : option Usage) (text : string) (d : list (string * json)) :
  call p = Ok (text, usage) ->
  json_loads text = Some (JObj d) ->
  truthy (get "content" d) = false ->
  findall_json_fence text = [] -> findall_fence text = [] ->
  search_object text = None \/ search_object text = Some text ->
  has_visible text = true ->
  parse_model_output_to_content text
  = Ok (map paragraph (nonblank_lines text))
  /\ nonblank_lines text <> []
  /\ o_err (_process_one_text call p) = None
  /\ o_data (_process_one_text call p)
     = Some (map paragraph (nonblank_lines text)).
Proof.
  intros Hc Hj Ht Hf1 Hf2 Hs Hv.
  pose proof (load_content_without_content text d Hj Ht) as Hdirect.
  assert (Hsc : structured_content text = JArr []).
  { unfold structured_content, attempt_direct. rewrite Hdirect.
    unfold attempt_fenced. cbn [truthy]. rewrite Hf1, Hf2. cbn [first_candidate or_keep].
    unfold attempt_object. cbn [truthy].
    destruct Hs as [Hs|Hs]; rewrite Hs; [reflexivity | exact Hdirect]. }
  pose proof (fallback_one_paragraph_per_line text Hsc) as Hp.
  pose proof (nonblank_lines_nonempty text Hv) as Hne.
  split; [exact Hp|]. split; [exact Hne|].
  unfold _process_one_text, _process_one. rewrite Hc, Hp.
  destruct (nonblank_lines text) as [|ln lns]; [contradiction|].
  split; reflexivity.
Qed.

(** The theorem at the answer the prompt asks for when an image has no
    text. *)
Lemma reply_without_content_becomes_paragraphs_witness :
  parse_model_output_to_content (RT := text_runtime) no_text_text
  = Ok (map paragraph (nonblank_lines no_text_text))
  /\ nonblank_lines no_text_text <> []
  /\ o_err (_process_one_text (RT := text_runtime)
              (fun _ => Ok (no_text_text, None)) page1) = None
  /\ o_data (_process_one_text (RT := text_runtime)
               (fun _ => Ok (no_text_text, None)) page1)
     = Some (map paragraph (nonblank_lines no_text_text)).
Proof.
  apply (reply_without_content_becomes_paragraphs (RT := text_runtime)
           (fun _ => Ok (no_text_text, None)) page1 None no_text_text
           [("status", JStr "no_text"); ("content", JArr [])]).
  - reflexivity.
  - reflexivity.
  - reflexivity.
  - reflexivity.
  - reflexivity.
  - right. reflexivity.
  - reflexivity.
Defined.
